(** * designtree: a shallow embedding of the extraction heuristics

    The definitions below transcribe the pure parts of the extractor
    (colour normalisation and palette filtering, perceptual deduplication,
    spacing-scale inference, the button candidate filter and the
    accessibility audit) from the extractor's source, function by function.

    Conventions of the embedding.
    - A string of the host language is a list of 8-bit code units ([str]);
      string literals are written with the usual quotes.
    - Integer-valued numbers (counts, channel values, indices) are [Z], and
      [parseInt] of a run of digits is its exact value; fractional numbers
      are exact rationals ([Q]) or, where the code calls [Math.pow] or
      [Math.sqrt], exact reals ([R]).  The rounding of IEEE doubles, and
      their overflow to [Infinity], are not modelled; [NaN] is [None].
    - A [Map], a plain object or an array whose iteration order matters is
      an association list or a list in insertion order.
    - DOM queries are inputs: a page is given by the lists of elements the
      selectors return, each element by the attributes and computed-style
      values the code reads from it. *)

From Stdlib Require Import List Ascii String Bool ZArith QArith Qround Qabs.
From Stdlib Require Import Sorted Lia Reals Lra.
From Stdlib Require Lqa.
Import ListNotations.

Set Implicit Arguments.

Open Scope string_scope.
Open Scope list_scope.

(** ** Strings of the host language *)

Definition str := list ascii.

Definition lit (s : string) : str := list_ascii_of_string s.
Coercion lit : string >-> str.

Module JS.

Definition code (c : ascii) : N := N_of_ascii c.

Definition str_eqb (a b : str) : bool :=
  if list_eq_dec ascii_dec a b then true else false.

(** [c.toLowerCase()] on one code unit: A-Z and the Latin-1 capitals. *)
Definition lowerChar (c : ascii) : ascii :=
  let n := code c in
  if ((65 <=? n) && (n <=? 90))%N then ascii_of_N (n + 32)
  else if ((192 <=? n) && (n <=? 222) && negb (n =? 215))%N
       then ascii_of_N (n + 32)
  else c.

Definition toLowerCase (s : str) : str := map lowerChar s.

(** White space and line terminators (the class [\s], and what [trim]
    strips). *)
Definition isSpace (c : ascii) : bool :=
  let n := code c in
  ((9 <=? n) && (n <=? 13) || (n =? 32) || (n =? 160))%N.

Definition isDigit (c : ascii) : bool :=
  let n := code c in ((48 <=? n) && (n <=? 57))%N.

(** [[a-f\d]] under the [i] flag. *)
Definition isHexDigit (c : ascii) : bool :=
  let n := code c in
  (isDigit c || (97 <=? n) && (n <=? 102) || (65 <=? n) && (n <=? 70))%N.

Fixpoint dropWhile (p : ascii -> bool) (s : str) : str :=
  match s with
  | c :: r => if p c then dropWhile p r else s
  | [] => []
  end.

Fixpoint takeWhile (p : ascii -> bool) (s : str) : str :=
  match s with
  | c :: r => if p c then c :: takeWhile p r else []
  | [] => []
  end.

Definition trim (s : str) : str :=
  rev (dropWhile isSpace (rev (dropWhile isSpace s))).

Fixpoint startsWith (s p : str) : bool :=
  match p, s with
  | [], _ => true
  | _ :: _, [] => false
  | a :: p', b :: s' => Ascii.eqb a b && startsWith s' p'
  end.

(** [s.includes(p)] *)
Fixpoint includes (s p : str) : bool :=
  startsWith s p ||
  match s with
  | [] => false
  | _ :: r => includes r p
  end.

(** [s.split(' ')]: the pieces between single spaces; never empty. *)
Fixpoint split (sep : ascii) (s : str) : list str :=
  match s with
  | [] => [[]]
  | c :: r =>
      if Ascii.eqb c sep then [] :: split sep r
      else match split sep r with
           | w :: ws => (c :: w) :: ws
           | [] => [[c]]
           end
  end.

(** [pieces.join('')] *)
Definition join (pieces : list str) : str := List.concat pieces.

(** [arr.includes(x)] on an array of strings *)
Definition arr_includes (arr : list str) (x : str) : bool :=
  existsb (str_eqb x) arr.

(** [parseInt] on a run of decimal digits (what [(\d+)] captures). *)
Definition digitVal (c : ascii) : Z := Z.of_N (code c) - 48.

Definition parseInt (ds : str) : Z :=
  fold_left (fun acc c => acc * 10 + digitVal c)%Z ds 0%Z.

(** [parseInt(h, 16)] on a run of hexadecimal digits. *)
Definition hexVal (c : ascii) : Z :=
  let n := code c in
  if isDigit c then Z.of_N n - 48
  else if (97 <=? n)%N then Z.of_N n - 87
  else Z.of_N n - 55.

Definition parseHex (ds : str) : Z :=
  fold_left (fun acc c => acc * 16 + hexVal c)%Z ds 0%Z.

(** [n.toString(16)] on an integer. *)
Definition hexDigit (d : Z) : ascii :=
  nth (Z.to_nat d) (lit "0123456789abcdef") "0"%char.

Fixpoint hexDigits (fuel : nat) (n : Z) (acc : str) : str :=
  match fuel with
  | O => acc
  | S k =>
      let acc' := hexDigit (n mod 16) :: acc in
      if (n / 16 =? 0)%Z then acc' else hexDigits k (n / 16) acc'
  end.

Definition toString16 (n : Z) : str :=
  if (n <? 0)%Z
  then "-"%char :: hexDigits (S (Z.to_nat (Z.log2 (- n)))) (- n) []
  else hexDigits (S (Z.to_nat (Z.log2 n))) n [].

(** [s.padStart(2, "0")] *)
Definition padStart2 (s : str) : str :=
  repeat "0"%char (2 - List.length s) ++ s.

(** [Math.round]: the nearest integer, halves towards plus infinity. *)
Definition Math_round (q : Q) : Z := Qfloor (q + (1 # 2)).

(** [a % b] on numbers: the remainder has the sign of the dividend. *)
Definition Qtrunc (q : Q) : Z :=
  if (Qnum q <? 0)%Z then Qceiling q else Qfloor q.

Definition Qrem (a b : Q) : Q := a - b * inject_Z (Qtrunc (a / b)).

Definition Qltb (a b : Q) : bool := negb (Qle_bool b a).

(** [parseFloat(s)]: leading white space, a sign, digits with an optional
    fraction and an optional exponent; [None] stands for [NaN]. *)
Definition exponent (s : str) : Z :=
  match s with
  | c :: r =>
      if Ascii.eqb c "e" || Ascii.eqb c "E" then
        match r with
        | "-"%char :: ds =>
            match takeWhile isDigit ds with
            | [] => 0
            | run => - parseInt run
            end
        | "+"%char :: ds => parseInt (takeWhile isDigit ds)
        | ds => parseInt (takeWhile isDigit ds)
        end%Z
      else 0%Z
  | [] => 0%Z
  end.

Definition unsigned (s : str) : option Q :=
  let ip := takeWhile isDigit s in
  let s1 := dropWhile isDigit s in
  let '(fp, s2) :=
    match s1 with
    | "."%char :: r => (takeWhile isDigit r, dropWhile isDigit r)
    | _ => ([], s1)
    end in
  match ip ++ fp with
  | [] => None
  | ds =>
      Some (inject_Z (parseInt ds) / inject_Z (10 ^ Z.of_nat (List.length fp))
            * 10 ^ exponent s2)
  end.

Definition parseFloat (s : str) : option Q :=
  match dropWhile isSpace s with
  | "-"%char :: r => option_map Qopp (unsigned r)
  | "+"%char :: r => unsigned r
  | r => unsigned r
  end.

(** [parseInt(s)] on any string: leading white space, a sign, then
    decimal digits, or hexadecimal ones after [0x]; [None] stands for
    [NaN]. *)
Definition unsignedInt (s : str) : option Z :=
  if startsWith s "0x" || startsWith s "0X" then
    match takeWhile isHexDigit (skipn 2 s) with
    | [] => None
    | run => Some (parseHex run)
    end
  else
    match takeWhile isDigit s with
    | [] => None
    | run => Some (parseInt run)
    end.

Definition parseIntOf (s : str) : option Z :=
  match dropWhile isSpace s with
  | "-"%char :: r => option_map Z.opp (unsignedInt r)
  | "+"%char :: r => unsignedInt r
  | r => unsignedInt r
  end.

(** [arr.sort(cmp)]: stable; [after a b] says that the comparator is
    positive on [(a, b)], that is, [a] is to come after [b]. *)
Fixpoint insert {A} (after : A -> A -> bool) (x : A) (l : list A) : list A :=
  match l with
  | [] => [x]
  | y :: r => if after x y then y :: insert after x r else x :: l
  end.

Fixpoint sort {A} (after : A -> A -> bool) (l : list A) : list A :=
  match l with
  | [] => []
  | x :: r => insert after x (sort after r)
  end.

(** Values of mixed type, as far as the audit's conditions need them. *)
Inductive value := VBool (b : bool) | VString (s : str) | VNull.

Definition truthy (v : value) : bool :=
  match v with
  | VBool b => b
  | VString [] => false
  | VString _ => true
  | VNull => false
  end.

(** [!v] *)
Definition notV (v : value) : value := VBool (negb (truthy v)).

(** [a === b] *)
Definition strictEq (a b : value) : value :=
  VBool match a, b with
        | VBool x, VBool y => Bool.eqb x y
        | VString x, VString y => str_eqb x y
        | VNull, VNull => true
        | _, _ => false
        end.

(** [a && b] *)
Definition andV (a b : value) : value := if truthy a then b else a.

(** [a || b] *)
Definition orV (a b : value) : value := if truthy a then a else b.

(** An attribute read with [getAttribute]: [null] when absent. *)
Definition attr (a : option str) : value :=
  match a with
  | Some s => VString s
  | None => VNull
  end.

End JS.

(** ** The regular expressions of the colour code

    The patterns of the colour code are sequences of a few kinds of atoms.
    [run] matches such a sequence at the head of the input the way the
    backtracking matcher of the host language does: an optional character
    is first taken, a quantifier first takes its longest run, and either
    gives back what it took, one character at a time, while the rest of the
    pattern fails.  A match is the list of its captured groups. *)

Module Regex.

Inductive atom :=
| Text (p : str)                     (* literal characters *)
| Maybe (c : ascii)                  (* [c?] *)
| Many (class : ascii -> bool)       (* [[class]*] *)
| Group (class : ascii -> bool)      (* [([class]+)] *)
| Pair (class : ascii -> bool)       (* [([class]{2})] *)
| End.                               (* [$] *)

(** [f (lo + extra)], [f (lo + extra - 1)], ..., [f lo]: the first that
    succeeds. *)
Fixpoint longestFirst {A} (f : nat -> option A) (lo extra : nat) : option A :=
  match extra with
  | O => f lo
  | S e =>
      match f (lo + extra)%nat with
      | Some a => Some a
      | None => longestFirst f lo e
      end
  end.

Fixpoint run (pattern : list atom) (s : str) (groups : list str)
  : option (list str) :=
  match pattern with
  | [] => Some (rev groups)
  | Text p :: k =>
      if JS.startsWith s p then run k (skipn (List.length p) s) groups else None
  | Maybe c :: k =>
      match s with
      | x :: r =>
          if Ascii.eqb x c then
            match run k r groups with
            | Some m => Some m
            | None => run k s groups
            end
          else run k s groups
      | [] => run k s groups
      end
  | Many class :: k =>
      longestFirst (fun n => run k (skipn n s) groups)
        0 (List.length (JS.takeWhile class s))
  | Group class :: k =>
      match List.length (JS.takeWhile class s) with
      | O => None
      | S e =>
          longestFirst (fun n => run k (skipn n s) (firstn n s :: groups)) 1 e
      end
  | Pair class :: k =>
      match s with
      | a :: b :: r =>
          if class a && class b then run k r ([a; b] :: groups) else None
      | _ => None
      end
  | End :: k =>
      match s with
      | [] => run k s groups
      | _ :: _ => None
      end
  end.

(** A pattern anchored with [^]. *)
Definition exec (pattern : list atom) (s : str) : option (list str) :=
  run pattern s [].

(** An unanchored pattern: the leftmost position where it matches. *)
Fixpoint search (pattern : list atom) (s : str) : option (list str) :=
  match run pattern s [] with
  | Some m => Some m
  | None =>
      match s with
      | [] => None
      | _ :: r => search pattern r
      end
  end.

(** [m[i]], the [i]-th group of a match. *)
Definition group (i : nat) (m : list str) : str := nth (i - 1) m [].

End Regex.

(** ** Colour analyzer: normalisation *)

Module Colors.
Import JS Regex.

(** [/rgba?\((\d+),\s*(\d+),\s*(\d+)/] *)
Definition rgbPattern : list atom :=
  [Text "rgb"; Maybe "a"; Text "(";
   Group isDigit; Text ","; Many isSpace;
   Group isDigit; Text ","; Many isSpace;
   Group isDigit].

(** [/hsla?\((\d+),\s*(\d+)%?,\s*(\d+)%?/] *)
Definition hslPattern : list atom :=
  [Text "hsl"; Maybe "a"; Text "(";
   Group isDigit; Text ","; Many isSpace;
   Group isDigit; Maybe "%"; Text ","; Many isSpace;
   Group isDigit; Maybe "%"].

(** [parseInt(x).toString(16).padStart(2, "0")] *)
Definition hex2 (n : Z) : str := padStart2 (toString16 n).

Definition rgbToHex (rgbaMatch : list str) : str :=
  let r := hex2 (parseInt (group 1 rgbaMatch)) in
  let g := hex2 (parseInt (group 2 rgbaMatch)) in
  let b := hex2 (parseInt (group 3 rgbaMatch)) in
  "#"%char :: r ++ g ++ b.

Definition hslToHex (hslMatch : list str) : str :=
  let h := inject_Z (parseInt (group 1 hslMatch)) in
  let s := inject_Z (parseInt (group 2 hslMatch)) / 100 in
  let l := inject_Z (parseInt (group 3 hslMatch)) / 100 in
  let c := (1 - Qabs (2 * l - 1)) * s in
  let x := c * (1 - Qabs (Qrem (h / 60) 2 - 1)) in
  let m := l - c / 2 in
  let '(r, g, b) :=
    if Qltb h 60 then (c, x, 0)
    else if Qltb h 120 then (x, c, 0)
    else if Qltb h 180 then (0, c, x)
    else if Qltb h 240 then (0, x, c)
    else if Qltb h 300 then (x, 0, c)
    else (c, 0, x) in
  let toHex := fun n => padStart2 (toString16 (Math_round ((n + m) * 255))) in
  "#"%char :: toHex r ++ toHex g ++ toHex b.

(** [normalizeColor(color)] of [extractColors] *)
Definition normalizeColor (color : str) : str :=
  match search rgbPattern color with
  | Some m => rgbToHex m
  | None =>
      match search hslPattern color with
      | Some m => hslToHex m
      | None => toLowerCase color
      end
  end.


(** *** Palette selection *)

(** A value of [colorMap]: what the element walk accumulated for one
    normalised colour. *)
Module Data.
Record t := mk {
  original : str;
  count : Z;
  score : Z;
  sources : list str
}.
End Data.

Inductive confidence := high | medium | low.

(** An entry of the reported palette. *)
Module Entry.
Record t := mk {
  color : str;
  normalized : str;
  count : Z;
  confidence : Colors.confidence;
  sources : list str
}.
End Entry.

(** An element as the colour walk reads it. *)
Record element := mkElement {
  display : str;
  visibility : str;
  opacity : str
}.

(** The walk's test for elements it skips. *)
Definition isHidden (el : element) : bool :=
  str_eqb (display el) "none" || str_eqb (visibility el) "hidden" ||
  str_eqb (opacity el) "0".

(** [const totalElements = elements.length], [elements] being
    [document.querySelectorAll("*")]. *)
Definition totalElements (elements : list element) : Z :=
  Z.of_nat (List.length elements).

(** [Math.max(3, Math.floor(totalElements * 0.01))] *)
Definition threshold (totalElements : Z) : Z :=
  Z.max 3 (Qfloor (inject_Z totalElements * (1 # 100))).

(** [(data.count / totalElements) * 100 > 40]; a positive count over no
    element at all is [Infinity]. *)
Definition usageAbove40 (count totalElements : Z) : bool :=
  if (totalElements =? 0)%Z then (0 <? count)%Z
  else Qltb 40 (inject_Z count / inject_Z totalElements * 100).

Definition isStructuralColor (data : Data.t) (totalElements : Z) : bool :=
  if str_eqb (Data.original data) "rgba(0, 0, 0, 0)" ||
     str_eqb (Data.original data) "transparent"
  then true
  else if usageAbove40 (Data.count data) totalElements &&
          Qltb (inject_Z (Data.score data))
               (inject_Z (Data.count data) * (12 # 10))
  then true
  else false.

(** [(a, b) => b.count - a.count] *)
Definition byCountDesc (a b : Entry.t) : bool :=
  (0 <? Entry.count b - Entry.count a)%Z.

Definition keep (threshold totalElements : Z) (kv : str * Data.t) : bool :=
  let data := snd kv in
  if (Data.count data <? threshold)%Z then false
  else if isStructuralColor data totalElements then false
  else true.

Definition toEntry (kv : str * Data.t) : Entry.t :=
  let '(normalizedColor, data) := kv in
  Entry.mk (Data.original data) normalizedColor (Data.count data)
    (if (20 <? Data.score data)%Z then high
     else if (5 <? Data.score data)%Z then medium else low)
    (firstn 3 (Data.sources data)).

(** [Array.from(colorMap.entries()).filter(...).map(...).sort(...)] *)
Definition palette (colorMap : list (str * Data.t)) (totalElements : Z)
  : list Entry.t :=
  sort byCountDesc
    (map toEntry (filter (keep (threshold totalElements) totalElements) colorMap)).

(** *** Perceptual deduplication *)

(** [/^#?([a-f\d]{2})([a-f\d]{2})([a-f\d]{2})$/i] *)
Definition hexPattern : list atom :=
  [Maybe "#"; Pair isHexDigit; Pair isHexDigit; Pair isHexDigit; End].

Definition hexToRgb (hex : str) : option (Z * Z * Z) :=
  if negb (startsWith hex "#") then None
  else match exec hexPattern hex with
       | Some result =>
           Some (parseHex (group 1 result), parseHex (group 2 result),
                 parseHex (group 3 result))
       | None => None
       end.

(** What [deltaE] returns: the constant 999, or the square root of an
    integer. *)
Inductive distance := Const (z : Z) | Sqrt (z : Z).

Definition deltaE (rgb1 rgb2 : str) : distance :=
  match hexToRgb rgb1, hexToRgb rgb2 with
  | Some (r1, g1, b1), Some (r2, g2, b2) =>
      let rDiff := (r1 - r2)%Z in
      let gDiff := (g1 - g2)%Z in
      let bDiff := (b1 - b2)%Z in
      Sqrt (rDiff * rDiff + gDiff * gDiff + bDiff * bDiff)
  | _, _ => Const 999
  end.

(** The number a [distance] stands for. *)
Definition value (d : distance) : R :=
  match d with
  | Const z => IZR z
  | Sqrt z => sqrt (IZR z)
  end.

(** [distance < k] for a non-negative integer [k]. *)
Definition below (d : distance) (k : Z) : bool :=
  match d with
  | Const z => (z <? k)%Z
  | Sqrt z => (z <? k * k)%Z
  end.

(** [merged.has(i)] *)
Definition has (merged : list nat) (i : nat) : bool :=
  existsb (Nat.eqb i) merged.

(** One turn of [for (let i = index + 1; i < palette.length; i++)]. *)
Definition scan (palette : list Entry.t) (color : Entry.t)
  (st : list Entry.t * list nat) (i : nat) : list Entry.t * list nat :=
  let '(similar, merged) := st in
  if has merged i then st
  else match nth_error palette i with
       | Some other =>
           if below (deltaE (Entry.normalized color) (Entry.normalized other)) 15
           then (similar ++ [other], i :: merged)
           else st
       | None => st
       end.

(** The callback of [palette.forEach((color, index) => ...)]; the state is
    [(perceptuallyDeduped, merged)]. *)
Definition visit (palette : list Entry.t)
  (st : list Entry.t * list nat) (color : Entry.t) (index : nat)
  : list Entry.t * list nat :=
  let '(perceptuallyDeduped, merged) := st in
  if has merged index then st
  else
    let '(similar, merged') :=
      fold_left (scan palette color)
        (seq (index + 1) (List.length palette - (index + 1)))
        ([color], merged) in
    let best := hd color (sort byCountDesc similar) in
    (perceptuallyDeduped ++ [best], merged').

Fixpoint forEach {A St} (f : St -> A -> nat -> St) (l : list A) (index : nat)
  (st : St) : St :=
  match l with
  | [] => st
  | x :: r => forEach f r (S index) (f st x index)
  end.

Definition perceptuallyDeduped (palette : list Entry.t) : list Entry.t :=
  fst (forEach (visit palette) palette 0%nat ([], [])).

(** *** CSS variables *)

(** [isDuplicate]: the distance test of a variable's colour against the
    reported palette. *)
Definition isDuplicate (normalized : str) (deduped : list Entry.t) : bool :=
  existsb (fun paletteColor =>
             below (deltaE normalized (Entry.normalized paletteColor)) 15)
          deduped.

(** [cssVarsByColor]: normalised colour -> [{ value, vars }], in insertion
    order. *)
Fixpoint pushVar (m : list (str * (str * list str))) (normalized value prop : str)
  : list (str * (str * list str)) :=
  match m with
  | [] => [(normalized, (value, [prop]))]
  | (k, (v, vars)) :: r =>
      if str_eqb k normalized then (k, (v, vars ++ [prop])) :: r
      else (k, (v, vars)) :: pushVar r normalized value prop
  end.

Definition cssVarsByColor (cssVariables : list (str * str))
  (deduped : list Entry.t) : list (str * (str * list str)) :=
  fold_left
    (fun m pv =>
       let '(prop, value) := pv in
       let normalized := normalizeColor value in
       if arr_includes (map Entry.normalized deduped) normalized then m
       else if isDuplicate normalized deduped then m
       else pushVar m normalized value prop)
    cssVariables [].

(** [obj[key] = value] on a plain object *)
Fixpoint setProp (obj : list (str * str)) (key value : str) : list (str * str) :=
  match obj with
  | [] => [(key, value)]
  | (k, v) :: r =>
      if str_eqb k key then (k, value) :: r else (k, v) :: setProp r key value
  end.

Definition filteredCssVariables (cssVariables : list (str * str))
  (deduped : list Entry.t) : list (str * str) :=
  fold_left
    (fun obj kv =>
       let '(_, (value, vars)) := kv in
       match vars with
       | first :: _ => setProp obj first value
       | [] => obj
       end)
    (cssVarsByColor cssVariables deduped) [].

(** The end of [extractColors]: from the element list, the accumulated
    [colorMap] and the collected [cssVariables] to the reported [palette] and
    [cssVariables]. *)
Definition extractColors (elements : list element)
  (colorMap : list (str * Data.t)) (cssVariables : list (str * str))
  : list Entry.t * list (str * str) :=
  let totalElements := totalElements elements in
  let palette := palette colorMap totalElements in
  let perceptuallyDeduped := perceptuallyDeduped palette in
  (perceptuallyDeduped, filteredCssVariables cssVariables perceptuallyDeduped).

End Colors.

(** ** Interactive state prober: merging hover/focus colours *)

Module Branding.
Import JS Regex.

(** The normalisation written out in the merge loop of [extractBranding]:
    [let normalized = color.toLowerCase(); if (rgbaMatch) normalized = ...] *)
Definition stateNormalize (color : str) : str :=
  let rgbaMatch := search Colors.rgbPattern color in
  let normalized := toLowerCase color in
  match rgbaMatch with
  | Some m => Colors.rgbToHex m
  | None => normalized
  end.

End Branding.

(** ** Spacing analyzer *)

Module Spacing.
Import JS.

(** An element as [extractSpacing] reads it: four computed lengths. *)
Record element := mkElement {
  marginTop : str;
  marginBottom : str;
  paddingTop : str;
  paddingBottom : str
}.

(** [spacings.set(value, (spacings.get(value) || 0) + 1)] *)
Fixpoint bump (spacings : list (Q * Z)) (value : Q) : list (Q * Z) :=
  match spacings with
  | [] => [(value, 1%Z)]
  | (k, n) :: r =>
      if Qeq_bool k value then (k, (n + 1)%Z) :: r
      else (k, n) :: bump r value
  end.

Definition tally (spacings : list (Q * Z)) (computed : str) : list (Q * Z) :=
  match parseFloat computed with
  | Some value => if Qltb 0 value then bump spacings value else spacings
  | None => spacings
  end.

Definition spacings (elements : list element) : list (Q * Z) :=
  fold_left
    (fun m el =>
       fold_left tally
         [marginTop el; marginBottom el; paddingTop el; paddingBottom el] m)
    elements [].

(** An entry of [commonValues].  [px] is the number in the text
    [px + "px"], which [parseFloat(v.px)] reads back; [rem] is the number
    in [(px / 16).toFixed(2) + "rem"]. *)
Record commonValue := mkValue {
  px : Q;
  rem : Q;
  count : Z;
  numericValue : Q
}.

(** [(a, b) => b[1] - a[1]] *)
Definition byCountDesc (a b : Q * Z) : bool := (0 <? snd b - snd a)%Z.

(** [(a, b) => a.numericValue - b.numericValue] *)
Definition byValue (a b : commonValue) : bool :=
  Qltb 0 (numericValue a - numericValue b).

Definition toValue (e : Q * Z) : commonValue :=
  let '(px, count) := e in
  mkValue px (inject_Z (Math_round (px / 16 * 100)) / 100) count px.

Definition commonValues (elements : list element) : list commonValue :=
  sort byValue
    (map toValue (firstn 20 (sort byCountDesc (spacings elements)))).

(** [parseFloat(v.px) % k === 0] *)
Definition multipleOf (k : Q) (v : commonValue) : bool :=
  Qeq_bool (Qrem (px v) k) 0.

Definition scaleTypeOf (values : list commonValue) : str :=
  let is4px := existsb (multipleOf 4) values in
  let is8px := existsb (multipleOf 8) values in
  if is8px then "8px" else if is4px then "4px" else "custom".

Definition extractSpacing (elements : list element) : str * list commonValue :=
  let values := commonValues elements in
  (scaleTypeOf values, values).

End Spacing.

(** ** Button candidate filter *)

Module Buttons.
Import JS.

(** A candidate as the filter of [extractButtonStyles] reads it. *)
Record element := mkElement {
  tagName : str;
  width : Q;                      (* rect.width *)
  height : Q;                     (* rect.height *)
  display : str;
  visibility : str;
  opacity : str;
  transform : str;
  innerText : option str;
  materialIcons : nat;            (* descendants with class*="material-icons" *)
  materialSymbols : nat;          (* descendants with class*="material-symbols" *)
  backgroundColor : str;
  border : str;
  borderWidth : str;
  children : list str             (* background colour of each child *)
}.

(** [bg && bg !== 'rgba(0, 0, 0, 0)' && bg !== 'transparent'] *)
Definition opaque (bg : str) : bool :=
  truthy (VString bg) && negb (str_eqb bg "rgba(0, 0, 0, 0)") &&
  negb (str_eqb bg "transparent").

Definition buttonText (btn : element) : str :=
  match innerText btn with
  | Some t => trim t
  | None => []
  end.

Definition hasBorder (btn : element) : bool :=
  truthy (VString (borderWidth btn)) &&
  match parseFloat (borderWidth btn) with
  | Some w => Qltb 0 w
  | None => false
  end &&
  negb (str_eqb (border btn) "none").

Definition hasBackground (btn : element) : bool := opaque (backgroundColor btn).

Definition childHasBackground (btn : element) : bool :=
  if negb (hasBackground btn) then
    match children btn with
    | childBg :: _ => opaque childBg
    | [] => false
    end
  else false.

(** The body of [buttons.forEach] up to the last [return] of the filter:
    [true] when the candidate goes on to be described. *)
Definition retained (btn : element) : bool :=
  if Qeq_bool (width btn) 0 || Qeq_bool (height btn) 0 ||
     str_eqb (display btn) "none" || str_eqb (visibility btn) "hidden"
  then false
  else if str_eqb (opacity btn) "0" then false
  else if str_eqb (transform btn) "matrix(0, 0, 0, 0, 0, 0)" then false
  else if Qltb (width btn) 10 || Qltb 600 (width btn) then false
  else if Qltb (height btn) 25 || Qltb 200 (height btn) then false
  else if Qltb (12 # 10) (height btn / width btn) then false
  else if Qltb 8 (width btn / height btn) then false
  else
    let buttonText := buttonText btn in
    let textNoSpaces := join (split " " buttonText) in
    let len := List.length textNoSpaces in
    if (0 <? len)%nat && (len <? 2)%nat then false
    else if (32 <? len)%nat then false
    else if includes buttonText [ascii_of_nat 10] ||
            includes buttonText [ascii_of_nat 9] then false
    else if str_eqb (toLowerCase buttonText) "ad" then false
    else if arr_includes (split " " (toLowerCase buttonText)) "skip" then false
    else if arr_includes (split " " (toLowerCase buttonText)) "jump" then false
    else if (0 <? materialIcons btn)%nat then false
    else if (0 <? materialSymbols btn)%nat then false
    else if negb (hasBackground btn) && negb (hasBorder btn) &&
            negb (childHasBackground btn) then false
    else true.

(** [btn.tagName === "BUTTON"] *)
Definition isNativeButton (btn : element) : bool := str_eqb (tagName btn) "BUTTON".

End Buttons.

(** ** Accessibility audit *)

Module Accessibility.
Import JS Regex.
Local Open Scope R_scope.

(** *** Contrast *)

Definition linear (c : Z) : R :=
  let c := IZR c / 255 in
  if Rle_dec c 0.03928 then c / 12.92 else Rpower ((c + 0.055) / 1.055) 2.4.

Definition getLuminance (r g b : Z) : R :=
  0.2126 * linear r + 0.7152 * linear g + 0.0722 * linear b.

Definition getContrastRatio (l1 l2 : R) : R :=
  let lighter := Rmax l1 l2 in
  let darker := Rmin l1 l2 in
  (lighter + 0.05) / (darker + 0.05).

(** [/^#([0-9a-f]{2})([0-9a-f]{2})([0-9a-f]{2})/i] *)
Definition hexPrefix : list atom :=
  [Text "#"; Pair isHexDigit; Pair isHexDigit; Pair isHexDigit].

Definition parseRgb (color : str) : option (Z * Z * Z) :=
  match search Colors.rgbPattern color with
  | Some m =>
      Some (parseInt (group 1 m), parseInt (group 2 m), parseInt (group 3 m))
  | None =>
      match exec hexPrefix color with
      | Some hexMatch =>
          Some (parseHex (group 1 hexMatch), parseHex (group 2 hexMatch),
                parseHex (group 3 hexMatch))
      | None => None
      end
  end.

(** [Math.round(x * 100) / 100] *)
Definition round2 (x : R) : R := IZR (Int_part (x * 100 + / 2)) / 100.

Definition geb (x y : R) : bool := if Rle_dec y x then true else false.

(** A text element as the contrast check reads it. *)
Record textElement := mkText {
  rectWidth : Q;
  rectHeight : Q;
  display : str;
  visibility : str;
  color : str;
  backgroundColor : str;
  fontSize : str;
  fontWeight : str
}.

(** [fontSize >= 18 || (fontSize >= 14 && fontWeight >= 700)], with
    [fontWeight = parseInt(computed.fontWeight) || 400]; a comparison with
    [NaN] is false. *)
Definition weightOf (fontWeight : str) : Z :=
  match parseIntOf fontWeight with
  | Some 0%Z | None => 400
  | Some w => w
  end.

Definition atLeast (size : option Q) (k : Q) : bool :=
  match size with
  | Some q => Qle_bool k q
  | None => false
  end.

Definition isLargeText (fontSize fontWeight : str) : bool :=
  let size := parseFloat fontSize in
  atLeast size 18 || atLeast size 14 && (700 <=? weightOf fontWeight)%Z.

Definition aaRequired (large : bool) : R := if large then 3 else 4.5.
Definition aaaRequired (large : bool) : R := if large then 4.5 else 7.

Record contrast := mkContrast {
  foreground : str;
  background : str;
  ratio : R;
  size : option Q;
  largeText : bool;
  passesAA : bool;
  passesAAA : bool;
  wcagLevel : str
}.

(** The texts of the issues, by template. *)
Inductive message :=
| InsufficientContrast (ratio : R) (large : bool) (required : R)
| ImagesMissingAlt (n : Z)
| FieldsMissingLabels (n : Z)
| HeadingSkipped (previousLevel level : Z)
| MissingH1.

Record issue := mkIssue {
  type : str;
  severity : str;
  text : message
}.

(** The entry pushed for a pair of colours that parses. *)
Definition measure (fgColor bgColor fontSize fontWeight : str)
  (fg bg : Z * Z * Z) : contrast :=
  let '(fr, fg_, fb) := fg in
  let '(br, bg_, bb) := bg in
  let fgLum := getLuminance fr fg_ fb in
  let bgLum := getLuminance br bg_ bb in
  let ratio := getContrastRatio fgLum bgLum in
  let large := isLargeText fontSize fontWeight in
  let passesAA := geb ratio (aaRequired large) in
  let passesAAA := geb ratio (aaaRequired large) in
  mkContrast fgColor bgColor (round2 ratio) (parseFloat fontSize) large
    passesAA passesAAA
    (if passesAAA then "AAA" else if passesAA then "AA" else "Fail").

(** An image, a form field, a heading and a focusable element as the
    audit reads them. *)
Record image := mkImage {
  alt : str;
  role : option str
}.

Record field := mkField {
  id : str;
  labelled : bool;                (* a label[for=id] exists *)
  ariaLabel : option str;
  ariaLabelledby : option str;
  placeholder : option str
}.

Record heading := mkHeading {
  level : Z;
  textContent : option str
}.

Record focusable := mkFocusable {
  tag : str;
  outlineStyle : str;
  outlineWidth : str;
  boxShadow : str;
  outline : str
}.

Record aria := mkAria {
  landmarks : Z;
  labels : Z;
  describedBy : Z;
  live : Z
}.

Record page := mkPage {
  textElements : list textElement;
  images : list image;
  inputs : list field;
  headings : list heading;
  focusableElements : list focusable;
  ariaCounts : aria
}.

Record summary := mkSummary {
  totalIssues : Z;
  errors : Z;
  warnings : Z;
  score : Z;
  passesMinimumAA : bool
}.

Record audit := mkAudit {
  colorContrast : list contrast;
  missingAltText : Z;
  missingLabels : Z;
  missingHeadings : bool;
  headingStructure : list (Z * str);
  focusIndicators : list (str * str);
  ariaUsage : aria;
  issues : list issue
}.

Definition empty : audit :=
  mkAudit [] 0 0 false [] [] (mkAria 0 0 0 0) [].

Definition pushIssue (a : audit) (i : issue) : audit :=
  mkAudit (colorContrast a) (missingAltText a) (missingLabels a)
    (missingHeadings a) (headingStructure a) (focusIndicators a)
    (ariaUsage a) (issues a ++ [i]).

(** *** The phases of [extractAccessibilityAudit] *)

(** The test for text elements the contrast check skips. *)
Definition hidden (el : textElement) : bool :=
  Qeq_bool (rectWidth el) 0 || Qeq_bool (rectHeight el) 0 ||
  str_eqb (display el) "none" || str_eqb (visibility el) "hidden".

(** [textElements.forEach]; the state carries [contrastChecked]. *)
Definition checkText (st : audit * list str) (el : textElement)
  : audit * list str :=
  let '(a, contrastChecked) := st in
  if hidden el then st
  else
    let fgColor := color el in
    let bgColor := backgroundColor el in
    let key := fgColor ++ lit "|" ++ bgColor in
    if arr_includes contrastChecked key then st
    else
      let contrastChecked := contrastChecked ++ [key] in
      match parseRgb fgColor, parseRgb bgColor with
      | Some fg, Some bg =>
          if str_eqb bgColor "rgba(0, 0, 0, 0)" then (a, contrastChecked)
          else
            let c := measure fgColor bgColor (fontSize el) (fontWeight el) fg bg in
            let a :=
              mkAudit (colorContrast a ++ [c]) (missingAltText a)
                (missingLabels a) (missingHeadings a) (headingStructure a)
                (focusIndicators a) (ariaUsage a) (issues a) in
            if negb (passesAA c)
            then (pushIssue a
                    (mkIssue "contrast" "error"
                       (InsufficientContrast (ratio c) (largeText c)
                          (aaRequired (largeText c)))),
                  contrastChecked)
            else (a, contrastChecked)
      | _, _ => (a, contrastChecked)
      end.

Definition checkContrast (p : page) (a : audit) : audit :=
  fst (fold_left checkText (textElements p) (a, [])).

(** [if (!img.alt && !img.getAttribute('role') === 'presentation')] *)
Definition countsAsMissing (img : image) : bool :=
  truthy (andV (notV (VString (alt img)))
               (strictEq (notV (attr (role img))) (VString "presentation"))).

Definition checkImages (p : page) (a : audit) : audit :=
  let n :=
    fold_left (fun n img => if countsAsMissing img then n + 1 else n)%Z
      (images p) (missingAltText a) in
  let a :=
    mkAudit (colorContrast a) n (missingLabels a) (missingHeadings a)
      (headingStructure a) (focusIndicators a) (ariaUsage a) (issues a) in
  if (0 <? n)%Z
  then pushIssue a (mkIssue "images" "error" (ImagesMissingAlt n))
  else a.

Definition unlabelled (input : field) : bool :=
  let hasLabel := andV (VString (id input)) (VBool (labelled input)) in
  let hasAriaLabel := orV (attr (ariaLabel input)) (attr (ariaLabelledby input)) in
  let hasPlaceholder := attr (placeholder input) in
  negb (truthy hasLabel) && negb (truthy hasAriaLabel) &&
  negb (truthy hasPlaceholder).

Definition checkLabels (p : page) (a : audit) : audit :=
  let n :=
    fold_left (fun n input => if unlabelled input then n + 1 else n)%Z
      (inputs p) (missingLabels a) in
  let a :=
    mkAudit (colorContrast a) (missingAltText a) n (missingHeadings a)
      (headingStructure a) (focusIndicators a) (ariaUsage a) (issues a) in
  if (0 <? n)%Z
  then pushIssue a (mkIssue "forms" "warning" (FieldsMissingLabels n))
  else a.

(** [headings.forEach]; the state carries [previousLevel]. *)
Definition checkHeading (st : audit * Z) (h : heading) : audit * Z :=
  let '(a, previousLevel) := st in
  let shown :=
    match textContent h with
    | Some t => firstn 50 (trim t)
    | None => []
    end in
  let a :=
    mkAudit (colorContrast a) (missingAltText a) (missingLabels a)
      (missingHeadings a) (headingStructure a ++ [(level h, shown)])
      (focusIndicators a) (ariaUsage a) (issues a) in
  let a :=
    if (previousLevel + 1 <? level h)%Z && negb (previousLevel =? 0)%Z
    then pushIssue a
           (mkIssue "headings" "warning" (HeadingSkipped previousLevel (level h)))
    else a in
  (a, level h).

Definition checkHeadings (p : page) (a : audit) : audit :=
  let a := fst (fold_left checkHeading (headings p) (a, 0%Z)) in
  if negb (existsb (fun h => (level h =? 1)%Z) (headings p))
  then pushIssue
         (mkAudit (colorContrast a) (missingAltText a) (missingLabels a)
            true (headingStructure a) (focusIndicators a) (ariaUsage a)
            (issues a))
         (mkIssue "headings" "warning" MissingH1)
  else a.

Definition hasFocusIndicator (el : focusable) : bool :=
  let outlineWidth :=
    match parseFloat (outlineWidth el) with
    | Some w => w
    | None => 0%Q
    end in
  negb (str_eqb (outlineStyle el) "none") && Qltb 0 outlineWidth ||
  truthy (VString (boxShadow el)) && negb (str_eqb (boxShadow el) "none").

Definition checkFocus (p : page) (a : audit) : audit :=
  let sampledFocusable := firstn 10 (focusableElements p) in
  fold_left
    (fun a el =>
       if negb (hasFocusIndicator el)
       then mkAudit (colorContrast a) (missingAltText a) (missingLabels a)
              (missingHeadings a) (headingStructure a)
              (focusIndicators a ++ [(toLowerCase (tag el), outline el)])
              (ariaUsage a) (issues a)
       else a)
    sampledFocusable a.

Definition countAria (p : page) (a : audit) : audit :=
  mkAudit (colorContrast a) (missingAltText a) (missingLabels a)
    (missingHeadings a) (headingStructure a) (focusIndicators a)
    (ariaCounts p) (issues a).

(** [audit.issues.filter(i => i.severity === s).length] *)
Definition withSeverity (s : str) (l : list issue) : Z :=
  Z.of_nat (List.length (filter (fun i => str_eqb (severity i) s) l)).

Definition summarize (a : audit) : summary :=
  let totalIssues := Z.of_nat (List.length (issues a)) in
  let errors := withSeverity "error" (issues a) in
  let warnings := withSeverity "warning" (issues a) in
  mkSummary totalIssues errors warnings
    (Z.max 0 (100 - errors * 15 - warnings * 5))
    (errors =? 0)%Z.

Definition limit (a : audit) : audit :=
  mkAudit (firstn 20 (colorContrast a)) (missingAltText a) (missingLabels a)
    (missingHeadings a) (headingStructure a) (focusIndicators a)
    (ariaUsage a) (issues a).

(** The audit, and its [summary] field. *)
Definition extractAccessibilityAudit (p : page) : audit * summary :=
  let a := checkContrast p empty in
  let a := checkImages p a in
  let a := checkLabels p a in
  let a := checkHeadings p a in
  let a := checkFocus p a in
  let a := countAria p a in
  (limit a, summarize a).

End Accessibility.


(** ** Notions the properties are stated with *)

Module Spec.
Import JS Regex.

(** The characters of a hexadecimal colour value in lower case, as
    normalisation writes it (a channel out of range may carry a sign). *)
Definition plain (c : ascii) : bool :=
  let n := code c in
  (isDigit c || (97 <=? n) && (n <=? 102) || (n =? 35) || (n =? 45))%N.

Definition isSome {A} (o : option A) : bool :=
  match o with Some _ => true | None => false end.

(** A normalised value: [#] and hexadecimal digits in lower case. *)
Definition lowerHex (c : ascii) : bool :=
  let n := code c in (isDigit c || (97 <=? n) && (n <=? 102))%N.

Definition hexValue (x : str) : bool :=
  match x with
  | c :: ds => Ascii.eqb c "#" && forallb lowerHex ds
  | [] => false
  end.

(** A colour string is settled when one of the two patterns of
    [normalizeColor] matches it, or neither matches its lower-case form. *)
Definition settled (s : str) : bool :=
  isSome (search Colors.rgbPattern s) ||
  isSome (search Colors.hslPattern s) ||
  negb (isSome (search Colors.rgbPattern (toLowerCase s))) &&
  negb (isSome (search Colors.hslPattern (toLowerCase s))).

(** The channels [normalizeColor] reads from a colour string: the groups of
    the pattern that matches it. *)
Definition channels (s : str) : list str :=
  match search Colors.rgbPattern s with
  | Some m => m
  | None =>
      match search Colors.hslPattern s with
      | Some m => m
      | None => []
      end
  end.

(** No channel has more than fifteen digits: [parseInt] then reads each as
    the whole number it writes, which is below 2^53, and the arithmetic on
    the channels stays finite. *)
Definition exactChannels (s : str) : bool :=
  forallb (fun channel => (List.length channel <=? 15)%nat) (channels s).

(** The strings on which the merge loop of the state prober and
    [normalizeColor] take the same branch. *)
Definition sameBranch (s : str) : bool :=
  isSome (search Colors.rgbPattern s) ||
  negb (isSome (search Colors.hslPattern s)).

(** A palette in the order [palette.sort((a, b) => b.count - a.count)]
    leaves it: every entry counts at least as much as those after it. *)
Definition sortedByCount (palette : list Colors.Entry.t) : Prop :=
  StronglySorted
    (fun a b => (Colors.Entry.count b <= Colors.Entry.count a)%Z) palette.

(** The indices the deduplication loop has merged away when it ends. *)
Definition mergedIndices (palette : list Colors.Entry.t) : list nat :=
  snd (Colors.forEach (Colors.visit palette) palette 0%nat ([], [])).

(** The variable [prop] with the value [value] is the first of
    [cssVariables] whose value normalises to that colour. *)
Definition firstOfColour (cssVariables : list (str * str)) (prop value : str)
  : Prop :=
  exists before after,
    cssVariables = before ++ (prop, value) :: after /\
    Forall (fun pv => Colors.normalizeColor (snd pv) <> Colors.normalizeColor value)
           before.

(** The count of elements the colour walk does not skip. *)
Definition visibleCount (elements : list Colors.element) : Z :=
  Z.of_nat (List.length (filter (fun el => negb (Colors.isHidden el)) elements)).

(** The inclusion threshold in the words of the specification:
    max(3, 1% of the visible element count). *)
Definition onePercentThreshold (elements : list Colors.element) : Q :=
  let x := inject_Z (visibleCount elements) * (1 # 100) in
  if Qle_bool 3 x then x else 3.

(** The number of issues of one severity. *)
Fixpoint countSeverity (s : str) (l : list Accessibility.issue) : Z :=
  match l with
  | [] => 0
  | i :: r =>
      (if str_eqb (Accessibility.severity i) s then 1 else 0)
      + countSeverity s r
  end%Z.

(** An image that lacks alt text and has no presentation role, in the words
    of the specification. *)
Definition lacksAlt (img : Accessibility.image) : bool :=
  match Accessibility.alt img, Accessibility.role img with
  | [], Some r => negb (str_eqb r "presentation")
  | [], None => true
  | _ :: _, _ => false
  end.

Definition imagesLackingAlt (p : Accessibility.page) : Z :=
  Z.of_nat (List.length (filter lacksAlt (Accessibility.images p))).

(** The state of an audit in which no image has been counted and no issue
    about images recorded. *)
Definition imagesUntouched (a : Accessibility.audit) : Prop :=
  Accessibility.missingAltText a = 0%Z /\
  Forall (fun i => Accessibility.type i <> lit "images") (Accessibility.issues a).

(** A candidate that is displayed: none of the invisibility tests of the
    button filter applies. *)
Definition displayed (btn : Buttons.element) : bool :=
  negb (str_eqb (Buttons.display btn) "none") &&
  negb (str_eqb (Buttons.visibility btn) "hidden") &&
  negb (str_eqb (Buttons.opacity btn) "0") &&
  negb (str_eqb (Buttons.transform btn) "matrix(0, 0, 0, 0, 0, 0)").

(** A candidate without icon-font glyphs inside. *)
Definition glyphFree (btn : Buttons.element) : bool :=
  Nat.eqb (Buttons.materialIcons btn) 0 && Nat.eqb (Buttons.materialSymbols btn) 0.

(** The text of a candidate has the token [skip]. *)
Definition hasSkipToken (btn : Buttons.element) : bool :=
  arr_includes (split " " (toLowerCase (Buttons.buttonText btn))) "skip".

End Spec.

(** ** Sample inputs *)

Module Examples.
Import Colors.

Definition shown : element := mkElement "block" "visible" "1".
Definition concealed : element := mkElement "none" "visible" "1".

Definition indigo : Entry.t :=
  Entry.mk "rgb(99, 102, 241)" "#6366f1" 10 high [lit "btn-primary"].
Definition indigoShade : Entry.t :=
  Entry.mk "rgb(100, 102, 241)" "#6466f1" 7 medium [].
Definition red : Entry.t := Entry.mk "red" "red" 5 low [].
Definition short : Entry.t := Entry.mk "#abc" "#abc" 4 low [].

Definition samplePalette : list Entry.t := [indigo; indigoShade; red; short].

Definition sampleColorMap : list (str * Data.t) :=
  [(lit "#6366f1", Data.mk "rgb(99, 102, 241)" 4 100 [lit "btn-primary"])].

Definition sampleVariables : list (str * str) :=
  [(lit "--accent", lit "red"); (lit "--danger", lit "red")].

(** A page with one image that has neither alt text nor a role. *)
Definition bareImagePage : Accessibility.page :=
  Accessibility.mkPage [] [Accessibility.mkImage "" None] [] [] []
    (Accessibility.mkAria 0 0 0 0).

Definition blackOnWhite : Accessibility.textElement :=
  Accessibility.mkText 120 24 "block" "visible"
    "rgb(0, 0, 0)" "rgb(255, 255, 255)" "24px" "700".

Definition grayOnWhite : Accessibility.textElement :=
  Accessibility.mkText 120 24 "block" "visible"
    "rgb(150, 150, 150)" "rgb(255, 255, 255)" "14px" "400".

Definition pageOf (el : Accessibility.textElement) : Accessibility.page :=
  Accessibility.mkPage [el] [] [] [] [] (Accessibility.mkAria 0 0 0 0).

Definition signUp : Buttons.element :=
  Buttons.mkElement "A" 300 40 "inline-block" "visible" "1" "none"
    (Some (lit "Sign Up")) 0 0 "rgb(0, 128, 0)" "0px none rgb(255, 255, 255)"
    "0px" [].

Definition banner : Buttons.element :=
  Buttons.mkElement "A" 700 40 "inline-block" "visible" "1" "none"
    (Some (lit "Sign Up")) 0 0 "rgb(0, 128, 0)" "0px none rgb(255, 255, 255)"
    "0px" [].

Definition skipLink : Buttons.element :=
  Buttons.mkElement "A" 300 40 "inline-block" "visible" "1" "none"
    (Some (lit "Skip to content")) 0 0 "rgb(0, 128, 0)"
    "0px none rgb(255, 255, 255)" "0px" [].

Definition iconButton : Buttons.element :=
  Buttons.mkElement "BUTTON" 40 40 "inline-block" "visible" "1" "none"
    (Some (lit "")) 0 0 "rgba(0, 0, 0, 0)" "1px solid rgb(0, 0, 0)" "1px" [].

Definition spacingMix : list Spacing.element :=
  [Spacing.mkElement "5px" "8px" "0px" "auto"].

End Examples.

(** ** More of the host language *)

Module Host.

(** [arr.join(gap)] *)
Fixpoint joinWith (gap : str) (arr : list str) : str :=
  match arr with
  | [] => []
  | [x] => x
  | x :: rest => x ++ gap ++ joinWith gap rest
  end.

(** The line feed, ['\n']. *)
Definition newline : str := [ascii_of_nat 10].

End Host.

(** ** The colour tokens of a multi-value string

    [/(#[0-9a-f]{3,8}|rgba?\([^)]+\)|hsla?\([^)]+\))/gi], the pattern with
    which the state prober, the gradient helper and the border analyzer
    take the colours out of a value.  [extent] gives the length of the
    match of one alternative at the head of the input, by the same
    backtracking order as [Regex.run]; the letters of [Lit] compare without
    case, as under the [i] flag, and those of [Exact] with it. *)

Module Tokens.
Import JS Regex.

Inductive atom :=
| Lit (p : str)                              (* literal characters *)
| Opt (c : ascii)                            (* [c?] *)
| Plus (class : ascii -> bool)               (* [[class]+] *)
| Between (class : ascii -> bool) (lo hi : nat)   (* [[class]{lo,hi}] *)
| Exact (p : str).                           (* literal characters, in their case *)

Fixpoint extent (pattern : list atom) (s : str) : option nat :=
  match pattern with
  | [] => Some 0%nat
  | Lit p :: k =>
      if startsWith (toLowerCase s) (toLowerCase p)
      then option_map (Nat.add (List.length p)) (extent k (skipn (List.length p) s))
      else None
  | Opt c :: k =>
      match s with
      | x :: r =>
          if Ascii.eqb (lowerChar x) (lowerChar c) then
            match extent k r with
            | Some n => Some (S n)
            | None => extent k s
            end
          else extent k s
      | [] => extent k s
      end
  | Plus class :: k =>
      match List.length (takeWhile class s) with
      | O => None
      | S e =>
          longestFirst (fun n => option_map (Nat.add n) (extent k (skipn n s))) 1 e
      end
  | Between class lo hi :: k =>
      let most := Nat.min hi (List.length (takeWhile class s)) in
      if (most <? lo)%nat then None
      else longestFirst (fun n => option_map (Nat.add n) (extent k (skipn n s)))
             lo (most - lo)
  | Exact p :: k =>
      if startsWith s p
      then option_map (Nat.add (List.length p)) (extent k (skipn (List.length p) s))
      else None
  end.

(** [[^)]] *)
Definition notParen (c : ascii) : bool := negb (Ascii.eqb c ")").

Definition colorRegex : list (list atom) :=
  [[Lit "#"; Between isHexDigit 3 8];
   [Lit "rgb"; Opt "a"; Lit "("; Plus notParen; Lit ")"];
   [Lit "hsl"; Opt "a"; Lit "("; Plus notParen; Lit ")"]].

(** The alternatives in turn: the first that matches. *)
Fixpoint firstOf (alternatives : list (list atom)) (s : str) : option nat :=
  match alternatives with
  | [] => None
  | p :: rest =>
      match extent p s with
      | Some n => Some n
      | None => firstOf rest s
      end
  end.

(** The matches of a pattern with the [g] flag, from left to right: the
    search goes on where the last match ended, one character further after
    an empty match; [skip] counts the characters of the last match that are
    still to pass. *)
Fixpoint matchesFrom (alternatives : list (list atom)) (s : str) (skip : nat)
  : list str :=
  match s with
  | [] =>
      match skip, firstOf alternatives [] with
      | O, Some _ => [[]]
      | _, _ => []
      end
  | _ :: r =>
      match skip with
      | S k => matchesFrom alternatives r k
      | O =>
          match firstOf alternatives s with
          | Some (S n) => firstn (S n) s :: matchesFrom alternatives r n
          | Some O => [] :: matchesFrom alternatives r 0
          | None => matchesFrom alternatives r 0
          end
      end
  end.

(** [s.match(re)]: [null] when there is no match. *)
Definition matchAll (alternatives : list (list atom)) (s : str)
  : option (list str) :=
  match matchesFrom alternatives s 0 with
  | [] => None
  | l => Some l
  end.

End Tokens.

(** ** Interactive state prober: collecting hover/focus colours *)

Module Probe.
Import JS Colors.

(** [splitMultiValueColors(colorValue)] *)
Definition splitMultiValueColors (colorValue : str) : list str :=
  if negb (truthy (VString colorValue)) then []
  else
    let matches :=
      match Tokens.matchAll Tokens.colorRegex colorValue with
      | Some l => l
      | None => [colorValue]
      end in
    filter (fun c =>
              negb (str_eqb c "transparent") &&
              negb (str_eqb c "rgba(0, 0, 0, 0)") &&
              negb (str_eqb c "rgba(0,0,0,0)") &&
              (3 <? List.length c)%nat)
           matches.

(** The colours of an element in one state. *)
Record state := mkState {
  color : str;
  backgroundColor : str;
  borderColor : str;
  outlineColor : str
}.

(** A sampled element: whether it is visible, its tag in lower case, and
    its colours before the probe, under the pointer and, when focusing it
    succeeds, with the focus. *)
Record element := mkElement {
  isVisible : bool;
  tag : str;
  beforeState : state;
  afterHover : state;
  afterFocus : option state
}.

(** An entry of [hoverFocusColors]. *)
Module Found.
Record t := mk {
  color : str;
  property : str;
  state : str;
  element : str
}.
End Found.

(** [a !== 'rgba(0, 0, 0, 0)' && a !== 'transparent'] *)
Definition visibleColor (c : str) : bool :=
  negb (str_eqb c "rgba(0, 0, 0, 0)") && negb (str_eqb c "transparent").

(** The colours of [after] that [splitMultiValueColors] does not find in
    [before]. *)
Definition newBorderColors (after before : str) : list str :=
  let afterColors := splitMultiValueColors after in
  let beforeColors := splitMultiValueColors before in
  filter (fun c => negb (arr_includes beforeColors c)) afterColors.

(** The body of [for (const element of sampled)], for an element the
    probe reads without an exception. *)
Definition probe (el : element) : list Found.t :=
  if negb (isVisible el) then []
  else
    let before := beforeState el in
    let hover := afterHover el in
    let t := tag el in
    (if negb (str_eqb (color hover) (color before)) && visibleColor (color hover)
     then [Found.mk (color hover) "color" "hover" t] else []) ++
    (if negb (str_eqb (backgroundColor hover) (backgroundColor before)) &&
        visibleColor (backgroundColor hover)
     then [Found.mk (backgroundColor hover) "background-color" "hover" t] else []) ++
    (if negb (str_eqb (borderColor hover) (borderColor before))
     then map (fun c => Found.mk c "border-color" "hover" t)
            (newBorderColors (borderColor hover) (borderColor before))
     else []) ++
    (if arr_includes [lit "input"; lit "textarea"; lit "select"; lit "button"] t
     then
       match afterFocus el with
       | Some focus =>
           (if truthy (VString (outlineColor focus)) &&
               visibleColor (outlineColor focus) &&
               negb (str_eqb (outlineColor focus) (color before))
            then [Found.mk (outlineColor focus) "outline-color" "focus" t] else []) ++
           (if negb (str_eqb (borderColor focus) (borderColor before)) &&
               negb (str_eqb (borderColor focus) (borderColor hover))
            then map (fun c => Found.mk c "border-color" "focus" t)
                   (newBorderColors (borderColor focus) (borderColor before))
            else [])
       | None => []
       end
     else []).

(** [hoverFocusColors] after the loop over [interactiveElements.slice(0, 20)]. *)
Definition hoverFocusColors (interactiveElements : list element)
  : list Found.t :=
  flat_map probe (firstn 20 interactiveElements).

(** The callback of [hoverFocusColors.forEach(({ color }) => ...)]: the
    palette is the array it pushes to. *)
Definition mergeOne (palette : list Entry.t) (color : str) : list Entry.t :=
  let isDuplicate := existsb (fun c => str_eqb (Entry.color c) color) palette in
  if negb isDuplicate && truthy (VString color)
  then palette ++
       [Entry.mk color (Branding.stateNormalize color) 1 medium [lit "hover/focus"]]
  else palette.

Definition mergeStateColors (palette : list Entry.t)
  (hoverFocusColors : list Found.t) : list Entry.t :=
  fold_left mergeOne (map Found.color hoverFocusColors) palette.

End Probe.

(** ** Colour analyzer: the walk over the elements *)

Module Walk.
Import JS Colors.

(** An element as the walk reads it: the computed values, and the
    attributes the context string is made of ([None] for an attribute that
    is absent). *)
Record element := mkElement {
  computed : Colors.element;        (* display, visibility, opacity *)
  backgroundColor : str;
  color : str;
  borderColor : str;
  outlineColor : str;
  caretColor : str;
  textDecorationColor : str;
  backgroundImage : str;
  boxShadow : str;
  fill : str;
  stroke : str;
  className : str;                  (* as [el.className + " "] renders it *)
  id : str;
  dataTrackingLinkid : option str;
  dataCta : option str;
  dataComponent : option str;
  tagName : str;
  matchesPrimary : bool             (* el.matches('[class*="primary"]') *)
}.

(** [[a-z]] under the [i] flag. *)
Definition isLetter (c : ascii) : bool :=
  let n := code c in
  ((97 <=? n) && (n <=? 122) || (65 <=? n) && (n <=? 90))%N.

(** [/(#[0-9a-f]{3,8}|rgba?\([^)]+\)|hsla?\([^)]+\)|[a-z]+)/gi] *)
Definition valueRegex : list (list Tokens.atom) :=
  Tokens.colorRegex ++ [[Tokens.Plus isLetter]].

(** [gradient.match(colorRegex) || []], less the two transparent values *)
Definition extractGradientColors (gradient : str) : list str :=
  let matches :=
    match Tokens.matchAll Tokens.colorRegex gradient with
    | Some l => l
    | None => []
    end in
  filter (fun c => negb (str_eqb c "rgba(0, 0, 0, 0)") &&
                   negb (str_eqb c "transparent"))
         matches.

Definition extractColorsFromValue (colorValue : str) : list str :=
  if negb (truthy (VString colorValue)) then []
  else
    let matches :=
      match Tokens.matchAll valueRegex colorValue with
      | Some l => l
      | None => []
      end in
    filter (fun c =>
              negb (str_eqb c "transparent") &&
              negb (str_eqb c "rgba(0, 0, 0, 0)") &&
              negb (str_eqb c "rgba(0,0,0,0)") &&
              (2 <? List.length c)%nat)
           matches.

Definition contextScores : list (str * Z) :=
  [(lit "logo", 5); (lit "brand", 5); (lit "primary", 4); (lit "cta", 4);
   (lit "hero", 3); (lit "button", 3); (lit "link", 2); (lit "header", 2);
   (lit "nav", 1)]%Z.

(** [a || ''] on an attribute *)
Definition orEmpty (a : option str) : str :=
  match a with
  | Some s => s
  | None => []
  end.

Definition contextOf (el : element) : str :=
  toLowerCase
    (className el ++ lit " " ++ id el ++ lit " " ++
     orEmpty (dataTrackingLinkid el) ++ lit " " ++
     orEmpty (dataCta el) ++ lit " " ++
     orEmpty (dataComponent el) ++ lit " " ++ tagName el).

(** The score of an element: the largest weight of a keyword in its
    context, at least 1, and 25 for a coloured button. *)
Definition scoreOf (el : element) : Z :=
  let context := contextOf el in
  let bgColor := backgroundColor el in
  let score :=
    fold_left
      (fun score kw => if includes context (fst kw) then Z.max score (snd kw) else score)
      contextScores 1%Z in
  if (includes context "button" || includes context "btn" || includes context "cta") &&
     truthy (VString bgColor) &&
     negb (str_eqb bgColor "rgba(0, 0, 0, 0)") &&
     negb (str_eqb bgColor "transparent") &&
     negb (str_eqb bgColor "rgb(255, 255, 255)") &&
     negb (str_eqb bgColor "rgb(0, 0, 0)") &&
     negb (str_eqb bgColor "rgb(239, 239, 239)")
  then Z.max score 25
  else score.

(** [sources.add(source)] on a set in insertion order *)
Definition addSource (sources : list str) (source : str) : list str :=
  if arr_includes sources source then sources else sources ++ [source].

(** [colorMap.get(normalized) || {...}], the three updates, and
    [colorMap.set(normalized, existing)]: [score] is what is added to the
    score and [source] what is added to the sources, if anything. *)
Fixpoint record (colorMap : list (str * Data.t)) (normalized color : str)
  (score : Z) (source : option str) : list (str * Data.t) :=
  let update existing :=
    Data.mk (Data.original existing) (Data.count existing + 1)
      (Data.score existing + score)
      match source with
      | Some s => addSource (Data.sources existing) s
      | None => Data.sources existing
      end in
  match colorMap with
  | [] => [(normalized, update (Data.mk color 0 0 []))]
  | (k, existing) :: r =>
      if str_eqb k normalized then (k, update existing) :: r
      else (k, existing) :: record r normalized color score source
  end.

(** [shadowColors.forEach(color => ...)] *)
Definition recordShadow (colorMap : list (str * Data.t)) (color : str)
  : list (str * Data.t) :=
  record colorMap (normalizeColor color) color 1 (Some (lit "shadow")).

(** [context.split(" ")[0].substring(0, 30)] *)
Definition sourceOf (context : str) : str :=
  firstn 30 (hd [] (split " " context)).

(** [allColors.forEach((color) => ...)] *)
Definition recordColor (context : str) (score : Z)
  (colorMap : list (str * Data.t)) (color : str) : list (str * Data.t) :=
  if truthy (VString color) && negb (str_eqb color "rgba(0, 0, 0, 0)") &&
     negb (str_eqb color "transparent")
  then
    let source := sourceOf context in
    record colorMap (normalizeColor color) color score
      (if (1 <? score)%Z && truthy (VString source) && negb (includes source "__")
       then Some source else None)
  else colorMap.

(** The part of the callback of [elements.forEach] that fills [colorMap]. *)
Definition visit (colorMap : list (str * Data.t)) (el : element)
  : list (str * Data.t) :=
  if isHidden (computed el) then colorMap
  else
    let colorMap :=
      if truthy (VString (boxShadow el)) && negb (str_eqb (boxShadow el) "none")
      then fold_left recordShadow (extractGradientColors (boxShadow el)) colorMap
      else colorMap in
    let allColors :=
      extractColorsFromValue (backgroundColor el) ++
      extractColorsFromValue (color el) ++
      extractColorsFromValue (borderColor el) ++
      extractColorsFromValue (outlineColor el) ++
      extractColorsFromValue (caretColor el) ++
      extractColorsFromValue (textDecorationColor el) ++
      extractColorsFromValue (fill el) ++
      extractColorsFromValue (stroke el) in
    fold_left (recordColor (contextOf el) (scoreOf el)) allColors colorMap.

Definition colorMap (elements : list element) : list (str * Data.t) :=
  fold_left visit elements [].

(** [extractColors], from the elements of the page and the collected
    [cssVariables] to the reported [palette] and [cssVariables]. *)
Definition extractColors (elements : list element) (cssVariables : list (str * str))
  : list Entry.t * list (str * str) :=
  Colors.extractColors (map computed elements) (colorMap elements) cssVariables.

(** *** Gradients and semantic colours *)

(** An entry of [gradients]. *)
Record gradient := mkGradient {
  value : str;
  colors : list str;
  type : str
}.

(** The part of the callback that fills [gradients]. *)
Definition visitGradient (gradients : list gradient) (el : element)
  : list gradient :=
  if isHidden (computed el) then gradients
  else
    let backgroundImage := backgroundImage el in
    if truthy (VString backgroundImage) && includes backgroundImage "gradient"
    then
      let gradientColors := extractGradientColors backgroundImage in
      if (0 <? List.length gradientColors)%nat &&
         negb (existsb (fun g => str_eqb (value g) backgroundImage) gradients)
      then gradients ++
           [mkGradient backgroundImage gradientColors
              (if includes backgroundImage "linear" then "linear"
               else if includes backgroundImage "radial" then "radial"
               else "conic")]
      else gradients
    else gradients.

(** [gradients.slice(0, 10)], the field [gradients] of the result. *)
Definition gradients (elements : list element) : list gradient :=
  firstn 10 (fold_left visitGradient elements []).

(** [semanticColors]: a property that was never assigned is [None]. *)
Record semantic := mkSemantic {
  primary : option str;
  secondary : option str
}.

(** The part of the callback that fills [semanticColors]. *)
Definition visitSemantic (semanticColors : semantic) (el : element) : semantic :=
  if isHidden (computed el) then semanticColors
  else
    let context := contextOf el in
    let bgColor := backgroundColor el in
    let semanticColors :=
      if includes context "primary" || matchesPrimary el
      then mkSemantic
             (Some (if negb (str_eqb bgColor "rgba(0, 0, 0, 0)") &&
                       negb (str_eqb bgColor "transparent")
                    then bgColor else color el))
             (secondary semanticColors)
      else semanticColors in
    if includes context "secondary"
    then mkSemantic (primary semanticColors) (Some bgColor)
    else semanticColors.

(** The field [semantic] of the result. *)
Definition semanticColors (elements : list element) : semantic :=
  fold_left visitSemantic elements (mkSemantic None None).

End Walk.

(** ** Merging the palettes of the dark mode and of the mobile viewport *)

Module Modes.
Import JS Colors.

(** An entry of the merged palette: the fields of a palette entry and, on
    an entry a merge pushed, [source]. *)
Record merged := mkMerged {
  entry : Entry.t;
  source : option str
}.

(** The callback of [darkModeColors.palette.forEach] and of
    [mobileColors.palette.forEach]; [label] is ["dark-mode"] or ["mobile"]. *)
Definition mergeColor (label : str) (mergedPalette : list merged)
  (modeColor : Entry.t) : list merged :=
  let isDuplicate :=
    existsb (fun existingColor =>
               str_eqb (Entry.normalized (entry existingColor))
                       (Entry.normalized modeColor))
            mergedPalette in
  if negb isDuplicate
  then mergedPalette ++ [mkMerged modeColor (Some label)]
  else mergedPalette.

(** [const mergedPalette = [...colors.palette]; modePalette.forEach(...)] *)
Definition merge (label : str) (palette : list merged) (modePalette : list Entry.t)
  : list merged :=
  fold_left (mergeColor label) modePalette palette.

(** The palette of [extractBranding] after the two optional merges;
    [None] stands for an option that is off. *)
Definition mergeModes (palette : list Entry.t)
  (darkModeColors mobileColors : option (list Entry.t)) : list merged :=
  let palette := map (fun e => mkMerged e None) palette in
  let palette :=
    match darkModeColors with
    | Some dark => merge "dark-mode" palette dark
    | None => palette
    end in
  match mobileColors with
  | Some mobile => merge "mobile" palette mobile
  | None => palette
  end.

(** [Object.assign(colors.semantic, darkModeColors.semantic)]: the
    properties the dark mode assigned replace those of the page. *)
Definition assign (semantic darkMode : Walk.semantic) : Walk.semantic :=
  Walk.mkSemantic
    match Walk.primary darkMode with
    | Some v => Some v
    | None => Walk.primary semantic
    end
    match Walk.secondary darkMode with
    | Some v => Some v
    | None => Walk.secondary semantic
    end.

End Modes.

(** ** Shadows and border radii *)

Module Layout.
Import JS.

(** *** [extractShadows] *)

(** [shadows.get(shadow)] *)
Fixpoint get (shadows : list (str * Z)) (shadow : str) : option Z :=
  match shadows with
  | [] => None
  | (k, n) :: r => if str_eqb k shadow then Some n else get r shadow
  end.

(** [shadows.set(shadow, n)] *)
Fixpoint set (shadows : list (str * Z)) (shadow : str) (n : Z) : list (str * Z) :=
  match shadows with
  | [] => [(shadow, n)]
  | (k, m) :: r =>
      if str_eqb k shadow then (k, n) :: r else (k, m) :: set r shadow n
  end.

(** [x || 0] on a count that may be missing *)
Definition orZero (x : option Z) : Z :=
  match x with
  | Some n => n
  | None => 0%Z
  end.

Record shadowEntry := mkShadow {
  shadow : str;
  shadowCount : Z;                  (* the field [count] *)
  shadowConfidence : Colors.confidence   (* the field [confidence] *)
}.

(** The callback of [document.querySelectorAll("*").forEach]; an element
    is given by its computed [boxShadow]. *)
Definition countShadow (shadows : list (str * Z)) (boxShadow : str)
  : list (str * Z) :=
  if truthy (VString boxShadow) && negb (str_eqb boxShadow "none")
  then set shadows boxShadow (orZero (get shadows boxShadow) + 1)
  else shadows.

(** [(a, b) => b.count - a.count] *)
Definition byShadowCount (a b : shadowEntry) : bool :=
  (0 <? shadowCount b - shadowCount a)%Z.

Definition extractShadows (elements : list str) : list shadowEntry :=
  sort byShadowCount
    (map (fun e =>
            let '(shadow, count) := e in
            mkShadow shadow count
              (if (5 <? count)%Z then Colors.high
               else if (2 <? count)%Z then Colors.medium else Colors.low))
         (fold_left countShadow elements [])).

(** *** [extractBorderRadius] *)

(** An element as [extractBorderRadius] reads it. *)
Record element := mkElement {
  borderRadius : str;
  tagName : str;
  role : option str;
  ariaLabel : option str;
  classList : list str
}.

(** [classes.some(c => c.includes(w1) || c.includes(w2) || ...)] *)
Definition someClass (el : element) (words : list str) : bool :=
  existsb (fun c => existsb (includes c) words) (classList el).

(** [el.getAttribute('role') || el.getAttribute('aria-label')] *)
Definition roleOf (el : element) : value :=
  orV (attr (role el)) (attr (ariaLabel el)).

Definition contextOf (el : element) : str :=
  match roleOf el with
  | VString (c :: r) => c :: r
  | _ =>
      if someClass el [lit "button"; lit "btn"] then "button"
      else if someClass el [lit "card"] then "card"
      else if someClass el [lit "input"; lit "field"] then "input"
      else if someClass el [lit "badge"; lit "tag"; lit "chip"] then "badge"
      else if someClass el [lit "modal"; lit "dialog"] then "modal"
      else if someClass el [lit "image"; lit "img"; lit "avatar"] then "image"
      else toLowerCase (tagName el)
  end.

(** A value of [radii]: [{ count, elements }], the set in insertion order. *)
Record radiusData := mkData {
  count : Z;
  elements : list str
}.

(** [data.count++; data.elements.add(context)] on the record of [radius],
    made first when [radii] has none. *)
Fixpoint note (radii : list (str * radiusData)) (radius context : str)
  : list (str * radiusData) :=
  let update data :=
    mkData (count data + 1)
      (if arr_includes (elements data) context then elements data
       else elements data ++ [context]) in
  match radii with
  | [] => [(radius, update (mkData 0 []))]
  | (k, data) :: r =>
      if str_eqb k radius then (k, update data) :: r
      else (k, data) :: note r radius context
  end.

Definition visit (radii : list (str * radiusData)) (el : element)
  : list (str * radiusData) :=
  let radius := borderRadius el in
  if truthy (VString radius) && negb (str_eqb radius "0px")
  then note radii radius (contextOf el)
  else radii.

Record radiusEntry := mkRadius {
  value : str;
  radiusCount : Z;                  (* the field [count] *)
  radiusElements : list str;        (* the field [elements] *)
  radiusConfidence : Colors.confidence;  (* the field [confidence] *)
  numericValue : Q
}.

(** [parseFloat(value) || 0] *)
Definition numberOf (value : str) : Q :=
  match parseFloat value with
  | Some q => q
  | None => 0
  end.

Definition toRadius (e : str * radiusData) : radiusEntry :=
  let '(value, data) := e in
  mkRadius value (count data) (firstn 5 (elements data))
    (if (10 <? count data)%Z then Colors.high
     else if (3 <? count data)%Z then Colors.medium else Colors.low)
    (numberOf value).

(** [a.value.includes("%")] *)
Definition percent (a : radiusEntry) : bool := includes (value a) "%".

(** The comparator of the sort: positive when [a] is to come after [b]. *)
Definition byRadius (a b : radiusEntry) : bool :=
  if percent a && negb (percent b) then true
  else if negb (percent a) && percent b then false
  else Qltb 0 (numericValue a - numericValue b).

Definition extractBorderRadius (els : list element) : list radiusEntry :=
  sort byRadius (map toRadius (fold_left visit els [])).

End Layout.

(** ** The server: built-in detection of technologies *)

Module Server.
Import JS Host.

(** A row of [TECH_PATTERNS]; the field [type] is not read. *)
Record tech := mkTech {
  name : str;
  patterns : list str
}.

Definition TECH_PATTERNS : list (str * list tech) :=
  [(lit "frameworks",
     [mkTech "React"
        [lit "react"; lit "_reactRootContainer"; lit "__REACT_DEVTOOLS_GLOBAL_HOOK__";
         lit "data-reactroot"; lit "data-reactid"];
      mkTech "Next.js" [lit "__NEXT_DATA__"; lit "_next/"; lit "next/static"; lit "__next"];
      mkTech "Vue.js"
        [lit "__VUE__"; lit "vue.js"; lit "vue.min.js"; lit "data-v-";
         lit "__vue_app__"];
      mkTech "Nuxt" [lit "__NUXT__"; lit "_nuxt/"; lit "nuxt.js"];
      mkTech "Angular"
        [lit "ng-version"; lit "ng-app"; lit "angular.js"; lit "angular.min.js";
         lit "_ngcontent"; lit "ng-"];
      mkTech "Svelte" [lit "svelte"; lit "__svelte"];
      mkTech "SvelteKit" [lit "__sveltekit"; lit "sveltekit"];
      mkTech "Astro" [lit "astro-"; lit "data-astro"];
      mkTech "Remix" [lit "__remixContext"; lit "__remix"];
      mkTech "Gatsby" [lit "___gatsby"; lit "gatsby-"];
      mkTech "Solid.js" [lit "_$HY"; lit "solid-js"];
      mkTech "Qwik" [lit "q:container"; lit "qwik"];
      mkTech "Preact" [lit "preact"; lit "__PREACT_DEVTOOLS__"];
      mkTech "Ember.js" [lit "ember"; lit "data-ember-action"];
      mkTech "Alpine.js" [lit "x-data"; lit "x-bind"; lit "x-on"; lit "alpine"];
      mkTech "HTMX" [lit "hx-get"; lit "hx-post"; lit "hx-trigger"; lit "htmx.org"];
      mkTech "Lit" [lit "lit-element"; lit "lit-html"];
      mkTech "Stimulus" [lit "data-controller"; lit "stimulus"];
      mkTech "Turbo" [lit "turbo-frame"; lit "turbo-stream"; lit "hotwired"]]);
   (lit "cms",
     [mkTech "WordPress"
        [lit "wp-content"; lit "wp-includes"; lit "wp-json"; lit "wordpress"];
      mkTech "Drupal" [lit "drupal"; lit "/sites/default/files"];
      mkTech "Joomla" [lit "/media/jui/"; lit "joomla"];
      mkTech "Shopify" [lit "cdn.shopify.com"; lit "Shopify.theme"; lit "myshopify.com"];
      mkTech "Wix" [lit "wix.com"; lit "static.wixstatic.com"; lit "wix-code"];
      mkTech "Squarespace" [lit "squarespace.com"; lit "static1.squarespace.com"];
      mkTech "Webflow" [lit "webflow.com"; lit "assets.website-files.com"; lit "w-"];
      mkTech "Ghost" [lit "ghost.io"; lit "/ghost/"];
      mkTech "Contentful" [lit "contentful.com"; lit "ctfassets.net"];
      mkTech "Sanity" [lit "sanity.io"; lit "cdn.sanity.io"];
      mkTech "Strapi" [lit "strapi"; lit "/uploads/"];
      mkTech "Prismic" [lit "prismic.io"; lit "cdn.prismic.io"];
      mkTech "HubSpot" [lit "hubspot.com"; lit "hs-scripts.com"; lit "hsforms.com"];
      mkTech "Framer" [lit "framer.com"; lit "framerusercontent.com"]]);
   (lit "analytics",
     [mkTech "Google Analytics"
        [lit "google-analytics.com"; lit "googletagmanager.com"; lit "gtag(";
         lit "ga("];
      mkTech "Google Tag Manager" [lit "googletagmanager.com/gtm.js"];
      mkTech "Plausible" [lit "plausible.io"];
      mkTech "Fathom" [lit "usefathom.com"];
      mkTech "Mixpanel" [lit "mixpanel.com"; lit "mixpanel.init"];
      mkTech "Amplitude" [lit "amplitude.com"; lit "cdn.amplitude.com"];
      mkTech "Segment" [lit "segment.com"; lit "cdn.segment.com"; lit "analytics.js"];
      mkTech "Hotjar" [lit "hotjar.com"; lit "static.hotjar.com"];
      mkTech "Heap" [lit "heap.io"; lit "heapanalytics.com"];
      mkTech "PostHog" [lit "posthog.com"; lit "app.posthog.com"];
      mkTech "Clarity" [lit "clarity.ms"];
      mkTech "Vercel Analytics" [lit "vercel-analytics"; lit "_vercel/insights"]]);
   (lit "hosting",
     [mkTech "Vercel" [lit "vercel.app"; lit "vercel.com"; lit "x-vercel"];
      mkTech "Netlify" [lit "netlify.app"; lit "netlify.com"; lit "x-nf-"];
      mkTech "Cloudflare Pages" [lit "pages.dev"; lit "cloudflare"];
      mkTech "AWS" [lit "amazonaws.com"; lit "cloudfront.net"; lit "aws."];
      mkTech "Google Cloud" [lit "googleapis.com"; lit "appspot.com"; lit "run.app"];
      mkTech "Azure"
        [lit "azure.com"; lit "azurewebsites.net"; lit "blob.core.windows.net"];
      mkTech "Heroku" [lit "herokuapp.com"; lit "heroku"];
      mkTech "Railway" [lit "railway.app"];
      mkTech "Render" [lit "onrender.com"; lit "render.com"];
      mkTech "DigitalOcean" [lit "digitalocean.com"; lit "digitaloceanspaces.com"];
      mkTech "GitHub Pages" [lit "github.io"]]);
   (lit "libraries",
     [mkTech "jQuery" [lit "jquery"; lit "jQuery"];
      mkTech "Lodash" [lit "lodash"];
      mkTech "Moment.js" [lit "moment.js"; lit "moment.min.js"];
      mkTech "Day.js" [lit "dayjs"];
      mkTech "Axios" [lit "axios"];
      mkTech "Three.js" [lit "three.js"; lit "three.min.js"; lit "THREE"];
      mkTech "GSAP" [lit "gsap"; lit "TweenMax"; lit "TweenLite"; lit "greensock"];
      mkTech "Framer Motion" [lit "framer-motion"];
      mkTech "Lottie" [lit "lottie"; lit "lottie-web"];
      mkTech "Chart.js" [lit "chart.js"; lit "chartjs"];
      mkTech "D3.js" [lit "d3.js"; lit "d3.min.js"];
      mkTech "Highcharts" [lit "highcharts"];
      mkTech "Swiper" [lit "swiper"];
      mkTech "Splide" [lit "splide"];
      mkTech "AOS" [lit "aos.js"; lit "data-aos"];
      mkTech "ScrollReveal" [lit "scrollreveal"];
      mkTech "Prism.js" [lit "prismjs"; lit "prism.js"];
      mkTech "Highlight.js" [lit "highlight.js"; lit "hljs"];
      mkTech "Marked" [lit "marked.js"; lit "marked.min.js"];
      mkTech "Socket.io" [lit "socket.io"];
      mkTech "Pusher" [lit "pusher.com"; lit "pusher.js"]]);
   (lit "fonts",
     [mkTech "Google Fonts" [lit "fonts.googleapis.com"; lit "fonts.gstatic.com"];
      mkTech "Adobe Fonts" [lit "use.typekit.net"; lit "typekit.com"];
      mkTech "Font Awesome" [lit "fontawesome"; lit "font-awesome"; lit "fa-"];
      mkTech "Custom Web Fonts" [lit "@font-face"; lit "woff2"; lit "woff"]]);
   (lit "payment",
     [mkTech "Stripe" [lit "stripe.com"; lit "js.stripe.com"; lit "Stripe("];
      mkTech "PayPal" [lit "paypal.com"; lit "paypalobjects.com"];
      mkTech "Square" [lit "squareup.com"; lit "squarecdn.com"];
      mkTech "Paddle" [lit "paddle.com"; lit "cdn.paddle.com"];
      mkTech "Gumroad" [lit "gumroad.com"];
      mkTech "LemonSqueezy" [lit "lemonsqueezy.com"]]);
   (lit "auth",
     [mkTech "Auth0" [lit "auth0.com"; lit "cdn.auth0.com"];
      mkTech "Clerk" [lit "clerk.com"; lit "clerk.dev"];
      mkTech "Firebase Auth" [lit "firebaseauth"; lit "firebase.auth"];
      mkTech "Supabase Auth" [lit "supabase.co"; lit "supabase.io"];
      mkTech "NextAuth" [lit "next-auth"; lit "api/auth"];
      mkTech "Okta" [lit "okta.com"]]);
   (lit "monitoring",
     [mkTech "Sentry" [lit "sentry.io"; lit "browser.sentry-cdn.com"; lit "Sentry.init"];
      mkTech "LogRocket" [lit "logrocket.com"; lit "cdn.logrocket.io"];
      mkTech "Datadog" [lit "datadoghq.com"];
      mkTech "New Relic" [lit "newrelic.com"; lit "nr-data.net"];
      mkTech "Bugsnag" [lit "bugsnag.com"]]);
   (lit "cdn",
     [mkTech "Cloudflare CDN" [lit "cdnjs.cloudflare.com"; lit "cf-"];
      mkTech "jsDelivr" [lit "cdn.jsdelivr.net"];
      mkTech "unpkg" [lit "unpkg.com"];
      mkTech "Fastly" [lit "fastly.net"];
      mkTech "Akamai" [lit "akamai"; lit "akamized.net"]]);
   (lit "server",
     [mkTech "Node.js" [lit "x-powered-by: express"; lit "node"];
      mkTech "Express" [lit "x-powered-by: express"];
      mkTech "PHP" [lit "x-powered-by: php"; lit ".php"];
      mkTech "ASP.NET" [lit "x-powered-by: asp.net"; lit "x-aspnet-version"];
      mkTech "Ruby on Rails" [lit "x-powered-by: phusion"; lit "rails"; lit "ruby"];
      mkTech "Django" [lit "csrfmiddlewaretoken"; lit "django"];
      mkTech "Flask" [lit "werkzeug"];
      mkTech "Laravel" [lit "laravel"; lit "x-powered-by: laravel"];
      mkTech "nginx" [lit "server: nginx"];
      mkTech "Apache" [lit "server: apache"]])].

(** [Array.from(responseHeaders.entries()).map(([k, v]) => `${k}: ${v}`)
    .join('\n').toLowerCase()] *)
Definition headerStr (responseHeaders : list (str * str)) : str :=
  toLowerCase
    (joinWith newline (map (fun kv => fst kv ++ lit ": " ++ snd kv) responseHeaders)).

(** [html + '\n' + headerStr + '\n' + targetUrl] *)
Definition fullContent (html : str) (responseHeaders : list (str * str))
  (targetUrl : str) : str :=
  html ++ newline ++ headerStr responseHeaders ++ newline ++ targetUrl.

(** [tech.patterns.some(pattern =>
      fullContent.toLowerCase().includes(pattern.toLowerCase()))] *)
Definition found (fullContent : str) (t : tech) : bool :=
  existsb (fun pattern => includes (toLowerCase fullContent) (toLowerCase pattern))
          (patterns t).

(** [if (!detected[category]) detected[category] = []] on an object in
    insertion order *)
Fixpoint ensure (detected : list (str * list str)) (category : str)
  : list (str * list str) :=
  match detected with
  | [] => [(category, [])]
  | (c, names) :: r =>
      if str_eqb c category then detected else (c, names) :: ensure r category
  end.

(** [if (!detected[category].includes(name)) detected[category].push(name)],
    for a category that is there *)
Fixpoint pushNew (detected : list (str * list str)) (category name : str)
  : list (str * list str) :=
  match detected with
  | [] => []
  | (c, names) :: r =>
      if str_eqb c category
      then (c, if arr_includes names name then names else names ++ [name]) :: r
      else (c, names) :: pushNew r category name
  end.

(** The body of [for (const tech of techs)] *)
Definition scanTech (fullContent category : str) (detected : list (str * list str))
  (t : tech) : list (str * list str) :=
  if found fullContent t
  then pushNew (ensure detected category) category (name t)
  else detected.

(** [for (const [category, techs] of Object.entries(TECH_PATTERNS))] *)
Definition scanPatterns (fullContent : str) : list (str * list str) :=
  fold_left
    (fun detected entry => fold_left (scanTech fullContent (fst entry)) (snd entry) detected)
    TECH_PATTERNS [].

(** What the page answers to the twelve tests of the deep scan, each the
    disjunction the code writes (a global of the window, a selector that
    matches, a piece of the serialised document). *)
Record probes := mkProbes {
  react : bool;
  next : bool;
  vue : bool;
  nuxt : bool;
  angular : bool;
  svelte : bool;
  jQuery : bool;
  gsap : bool;
  three : bool;
  stripe : bool;
  sentry : bool;
  iconify : bool
}.

(** [results[category] = results[category] || [];
     if (!results[category].includes(name)) results[category].push(name)] *)
Definition report (results : list (str * list str)) (test : bool * (str * str))
  : list (str * list str) :=
  let '(condition, (category, name)) := test in
  if condition then pushNew (ensure results category) category name else results.

Definition browserDetected (w : probes) : list (str * list str) :=
  fold_left report
    [(react w, (lit "frameworks", lit "React"));
     (next w, (lit "frameworks", lit "Next.js"));
     (vue w, (lit "frameworks", lit "Vue.js"));
     (nuxt w, (lit "frameworks", lit "Nuxt"));
     (angular w, (lit "frameworks", lit "Angular"));
     (svelte w, (lit "frameworks", lit "Svelte"));
     (jQuery w, (lit "libraries", lit "jQuery"));
     (gsap w, (lit "libraries", lit "GSAP"));
     (three w, (lit "libraries", lit "Three.js"));
     (stripe w, (lit "payment", lit "Stripe"));
     (sentry w, (lit "monitoring", lit "Sentry"));
     (iconify w, (lit "icons", lit "Iconify"))]
    [].

(** [for (const [category, techs] of Object.entries(browserDetected))] *)
Definition merge (detected browserDetected : list (str * list str))
  : list (str * list str) :=
  fold_left
    (fun detected entry =>
       fold_left (fun detected tech => pushNew detected (fst entry) tech)
         (snd entry) (ensure detected (fst entry)))
    browserDetected detected.

Definition detectBuiltInTech (html : str) (responseHeaders : list (str * str))
  (targetUrl : str) (w : probes) : list (str * list str) :=
  merge (scanPatterns (fullContent html responseHeaders targetUrl))
        (browserDetected w).

End Server.

(** ** Form fields: grouping and deduplication *)

Module Inputs.
Import JS.

(** A form field as [extractInputStyles] reads it; [type] is [input.type],
    empty when the element has none. *)
Record element := mkElement {
  rectWidth : Q;
  rectHeight : Q;
  display : str;
  visibility : str;
  tagName : str;
  type : str;
  border : str;
  borderRadius : str;
  backgroundColor : str
}.

(** The skip at the head of [inputs.forEach]. *)
Definition hidden (input : element) : bool :=
  Qeq_bool (rectWidth input) 0 || Qeq_bool (rectHeight input) 0 ||
  str_eqb (display input) "none" || str_eqb (visibility input) "hidden".

Definition inputType (input : element) : str :=
  if str_eqb (tagName input) "TEXTAREA" then "text"
  else if str_eqb (tagName input) "SELECT" then "select"
  else if str_eqb (type input) "checkbox" then "checkbox"
  else if str_eqb (type input) "radio" then "radio"
  else if arr_includes [lit "date"; lit "datetime-local"; lit "time";
                        lit "week"; lit "month"] (type input) then "date"
  else if str_eqb (type input) "file" then "file"
  else if str_eqb (type input) "range" then "range"
  else if arr_includes [lit "text"; lit "email"; lit "password"; lit "search";
                        lit "tel"; lit "url"; lit "number"; lit "color"]
                       (type input) ||
          negb (truthy (VString (type input))) then "text"
  else "text".

(** An entry of a group: [specificType], and the element whose computed
    values are the default state. *)
Record item := mkItem {
  specificType : str;
  default : element
}.

(** [input.type || input.tagName.toLowerCase()] *)
Definition describe (input : element) : item :=
  mkItem (if truthy (VString (type input)) then type input
          else toLowerCase (tagName input))
         input.

(** [inputGroups[inputType]] after the loop, for one of the seven names. *)
Definition group (inputs : list element) (name : str) : list item :=
  map describe
    (filter (fun input => negb (hidden input) && str_eqb (inputType input) name)
            inputs).

(** The key of [deduplicateGroup]. *)
Definition keyOf (it : item) : str :=
  border (default it) ++ lit "|" ++ borderRadius (default it) ++ lit "|" ++
  backgroundColor (default it).

(** [seen.has(key)] *)
Definition has (seen : list (str * item)) (key : str) : bool :=
  existsb (fun e => str_eqb (fst e) key) seen.

(** [deduplicateGroup(group)] *)
Definition deduplicateGroup (group : list item) : list item :=
  map snd
    (fold_left
       (fun seen it =>
          let key := keyOf it in
          if negb (has seen key) then seen ++ [(key, it)] else seen)
       group []).

(** The seven groups of the result, each with its limit. *)
Definition limits : list (str * nat) :=
  [(lit "text", 8); (lit "checkbox", 5); (lit "radio", 5); (lit "select", 5);
   (lit "date", 3); (lit "file", 3); (lit "range", 3)]%nat.

Definition extractInputStyles (inputs : list element) : list (str * list item) :=
  map (fun l => (fst l, firstn (snd l) (deduplicateGroup (group inputs (fst l)))))
      limits.

End Inputs.

(** ** Components: one entry for each key

    [extractButtonStyles], [extractLinkStyles] and [extractBadgesAndTags]
    keep the first element they meet for each key: the keys met so far are
    a [Set] (or the keys of a [Map]), and the entries an array beside it. *)

Module Unique.
Import JS.

Section Keyed.
Variable A : Type.
Variable key : A -> str.

(** [if (!seen.has(key)) { seen.add(key); out.push(x); }] *)
Definition push (state : list str * list A) (x : A) : list str * list A :=
  let '(seen, out) := state in
  if negb (arr_includes seen (key x)) then (seen ++ [key x], out ++ [x])
  else state.

Definition firsts (xs : list A) : list A := snd (fold_left push xs ([], [])).

End Keyed.
End Unique.

(** ** Buttons: what is reported *)

Module ButtonStyles.
Import JS.

(** [className] is a string on an HTML element and an object with
    [baseVal] on an SVG element. *)
Inductive className :=
| Plain (s : str)
| Animated (baseVal : str).

(** [typeof btn.className === 'string' ? btn.className
     : btn.className.baseVal || ''] *)
Definition classNameOf (c : className) : str :=
  match c with
  | Plain s => s
  | Animated baseVal => if truthy (VString baseVal) then baseVal else []
  end.

(** A candidate of the selector, with what the description reads beyond
    the filter. *)
Record candidate := mkCandidate {
  element : Buttons.element;
  role : option str;
  ariaPressed : bool;               (* hasAttribute('aria-pressed') *)
  ariaExpanded : bool;              (* hasAttribute('aria-expanded') *)
  class : className;
  fontWeight : str;
  fontSize : str
}.

(** An entry of [buttonStyles]; [default] is the element whose computed
    values are [states.default].  The states read from the style sheets are
    left out. *)
Record style := mkStyle {
  default : Buttons.element;
  styleFontWeight : str;            (* the field [fontWeight] *)
  styleFontSize : str;              (* the field [fontSize] *)
  classes : str;
  confidence : Colors.confidence
}.

(** [['button', 'tab', 'menuitem', 'switch'].includes(role)] *)
Definition isButtonRole (btn : candidate) : bool :=
  match role btn with
  | Some r => arr_includes [lit "button"; lit "tab"; lit "menuitem"; lit "switch"] r
  | None => false
  end.

Definition isHighConfidence (btn : candidate) : bool :=
  Buttons.isNativeButton (element btn) || isButtonRole btn ||
  ariaPressed btn || ariaExpanded btn.

(** The entry pushed for a candidate that the filter retains. *)
Definition describe (btn : candidate) : style :=
  mkStyle (element btn) (fontWeight btn) (fontSize btn)
    (firstn 50 (classNameOf (class btn)))
    (if isHighConfidence btn then Colors.high else Colors.medium).

(** [buttonStyles] after [buttons.forEach]. *)
Definition buttonStyles (buttons : list candidate) : list style :=
  map describe (filter (fun btn => Buttons.retained (element btn)) buttons).

(** [btn.states.default.backgroundColor] *)
Definition keyOf (btn : style) : str := Buttons.backgroundColor (default btn).

Definition extractButtonStyles (buttons : list candidate) : list style :=
  let uniqueButtons := Unique.firsts keyOf (buttonStyles buttons) in
  firstn 15 uniqueButtons.

End ButtonStyles.

(** ** Links *)

Module LinkStyles.
Import JS Regex.

(** [pattern], and then what [then_] makes of the rest of the text and the
    groups found: [Regex.run] with a continuation, for a pattern that goes
    on with an optional group. *)
Fixpoint runThen (pattern : list atom)
  (then_ : str -> list str -> option (list str)) (s : str) (groups : list str)
  : option (list str) :=
  match pattern with
  | [] => then_ s groups
  | Text p :: k =>
      if JS.startsWith s p
      then runThen k then_ (skipn (List.length p) s) groups
      else None
  | Maybe c :: k =>
      match s with
      | x :: r =>
          if Ascii.eqb x c then
            match runThen k then_ r groups with
            | Some m => Some m
            | None => runThen k then_ s groups
            end
          else runThen k then_ s groups
      | [] => runThen k then_ s groups
      end
  | Many class :: k =>
      longestFirst (fun n => runThen k then_ (skipn n s) groups)
        0 (List.length (JS.takeWhile class s))
  | Group class :: k =>
      match List.length (JS.takeWhile class s) with
      | O => None
      | S e =>
          longestFirst
            (fun n => runThen k then_ (skipn n s) (firstn n s :: groups)) 1 e
      end
  | Pair class :: k =>
      match s with
      | a :: b :: r =>
          if class a && class b then runThen k then_ r ([a; b] :: groups)
          else None
      | _ => None
      end
  | End :: k =>
      match s with
      | [] => runThen k then_ s groups
      | _ :: _ => None
      end
  end.

(** [[\d.]] *)
Definition isDigitOrDot (c : ascii) : bool := isDigit c || Ascii.eqb c ".".

(** [(?:,\s*([\d.]+))?\)]: the optional group is tried first, and the
    closing parenthesis without it when that fails. *)
Definition alphaThenClose (s : str) (groups : list str) : option (list str) :=
  match run [Text ","; Many isSpace; Group isDigitOrDot; Text ")"] s groups with
  | Some m => Some m
  | None => run [Text ")"] s groups
  end.

(** [color.match(/rgba?\((\d+),\s*(\d+),\s*(\d+)(?:,\s*([\d.]+))?\)/)]:
    the leftmost position where the pattern matches.  Only the first three
    groups are read. *)
Fixpoint rgbaMatch (color : str) : option (list str) :=
  match runThen Colors.rgbPattern alphaThenClose color [] with
  | Some m => Some m
  | None =>
      match color with
      | [] => None
      | _ :: r => rgbaMatch r
      end
  end.

(** [normalizeColor(color)] of [extractLinkStyles] *)
Definition normalizeColor (color : str) : str :=
  match rgbaMatch color with
  | Some m => Colors.rgbToHex m
  | None => toLowerCase color
  end.

(** A link as [extractLinkStyles] reads it; [closestNav] and the like say
    whether [link.closest(...)] finds an element. *)
Record element := mkElement {
  rectWidth : Q;
  rectHeight : Q;
  display : str;
  visibility : str;
  color : str;
  textDecoration : str;
  fontWeight : str;
  fontSize : str;
  class : ButtonStyles.className;
  closestNav : bool;
  closestFooter : bool;
  closestBreadcrumb : bool;
  closestButton : bool
}.

(** The skip at the head of [links.forEach]. *)
Definition hidden (link : element) : bool :=
  Qeq_bool (rectWidth link) 0 || Qeq_bool (rectHeight link) 0 ||
  str_eqb (display link) "none" || str_eqb (visibility link) "hidden".

(** [typeof link.className === 'string' ? link.className : ''] *)
Definition classNameOf (link : element) : str :=
  match class link with
  | ButtonStyles.Plain s => s
  | ButtonStyles.Animated _ => []
  end.

Definition contextOf (link : element) : str :=
  let className := classNameOf link in
  if closestNav link || includes className "nav" then "navigation"
  else if closestFooter link then "footer"
  else if closestBreadcrumb link || includes className "breadcrumb"
       then "breadcrumb"
  else if closestButton link || includes className "btn" ||
          includes className "button" then "button"
  else "inline".

(** A value of [uniqueStyles]; [default] is the link whose computed values
    the entry holds.  The states read from the style sheets are left out. *)
Record style := mkStyle {
  default : element;
  context : str
}.

Definition keyOf (link : element) : str := normalizeColor (color link).

Definition extractLinkStyles (links : list element) : list style :=
  let uniqueStyles :=
    map (fun link => mkStyle link (contextOf link))
        (Unique.firsts keyOf (filter (fun link => negb (hidden link)) links)) in
  firstn 12 uniqueStyles.

End LinkStyles.

(** ** Badges and tags *)

Module Badges.
Import JS.

Record element := mkElement {
  rectWidth : Q;
  rectHeight : Q;
  display : str;
  visibility : str;
  backgroundColor : str;
  color : str;
  borderRadius : str;
  padding : str;
  textContent : option str;
  class : ButtonStyles.className
}.

(** The skip at the head of [elements.forEach]: hidden, or too large to be
    a badge. *)
Definition skipped (el : element) : bool :=
  Qeq_bool (rectWidth el) 0 || Qeq_bool (rectHeight el) 0 ||
  Qltb 300 (rectWidth el) || Qltb 60 (rectHeight el) ||
  str_eqb (display el) "none" || str_eqb (visibility el) "hidden".

Definition signature (el : element) : str :=
  backgroundColor el ++ lit "|" ++ color el ++ lit "|" ++
  borderRadius el ++ lit "|" ++ padding el.

(** [el.textContent?.toLowerCase() || ''] *)
Definition textOf (el : element) : str :=
  match textContent el with
  | Some t => toLowerCase t
  | None => []
  end.

Definition badgeType (text className : str) : str :=
  if includes className "success" || includes className "positive" ||
     includes text "active" || includes text "success" ||
     includes text "completed" then "success"
  else if includes className "error" || includes className "danger" ||
          includes className "negative" ||
          includes text "error" || includes text "failed" then "error"
  else if includes className "warning" || includes className "caution" ||
          includes text "pending" || includes text "warning" then "warning"
  else if includes className "info" || includes className "primary" ||
          includes text "new" || includes text "beta" then "info"
  else if includes className "neutral" || includes className "secondary" ||
          includes className "muted" then "neutral"
  else "default".

Record badge := mkBadge {
  type : str;
  text : str;
  styles : element;                 (* the computed values of the element *)
  width : Z;                        (* dimensions.width *)
  height : Z                        (* dimensions.height *)
}.

(** [el.className?.toLowerCase() || '']: the [className] of an SVG element
    is an object that has no [toLowerCase], and the call throws. *)
Definition lowerClassName (el : element) : option str :=
  match class el with
  | ButtonStyles.Plain s => Some (toLowerCase s)
  | ButtonStyles.Animated _ => None
  end.

(** [el.textContent?.trim().substring(0, 50) || ''] *)
Definition shortText (el : element) : str :=
  match textContent el with
  | Some t => firstn 50 (trim t)
  | None => []
  end.

(** The callback of [elements.forEach]; [None] once it has thrown. *)
Definition visit (state : option (list str * list badge)) (el : element)
  : option (list str * list badge) :=
  match state with
  | None => None
  | Some (seen, badges) =>
      if skipped el then state
      else if arr_includes seen (signature el) then state
      else
        match lowerClassName el with
        | None => None
        | Some className =>
            Some (seen ++ [signature el],
                  badges ++ [mkBadge (badgeType (textOf el) className)
                               (shortText el) el
                               (Math_round (rectWidth el))
                               (Math_round (rectHeight el))])
        end
  end.

(** [None] when the evaluation throws. *)
Definition extractBadgesAndTags (elements : list element) : option (list badge) :=
  match fold_left visit elements (Some ([], [])) with
  | Some (_, badges) => Some (firstn 20 badges)
  | None => None
  end.

End Badges.

(** ** Borders *)

Module Borders.
Import JS.

(** An element as [extractBorders] reads it. *)
Record element := mkElement {
  borderWidth : str;
  borderStyle : str;
  borderColor : str;
  tagName : str;
  role : option str;
  classList : list str
}.

(** The first test of the callback: a border that shows. *)
Definition visible (el : element) : bool :=
  truthy (VString (borderWidth el)) && negb (str_eqb (borderWidth el) "0px") &&
  truthy (VString (borderStyle el)) && negb (str_eqb (borderStyle el) "none") &&
  truthy (VString (borderColor el)) &&
  negb (str_eqb (borderColor el) "rgba(0, 0, 0, 0)") &&
  negb (str_eqb (borderColor el) "transparent").

(** [(borderColor.match(colorRegex) || [borderColor])[0]] *)
Definition normalizedColor (borderColor : str) : str :=
  let individualColors :=
    match Tokens.matchAll Tokens.colorRegex borderColor with
    | Some l => l
    | None => [borderColor]
    end in
  hd [] individualColors.

(** The second test, on the colour that is kept. *)
Definition coloured (normalizedColor : str) : bool :=
  truthy (VString normalizedColor) &&
  negb (str_eqb normalizedColor "rgba(0, 0, 0, 0)") &&
  negb (str_eqb normalizedColor "rgba(0,0,0,0)") &&
  negb (str_eqb normalizedColor "transparent").

(** [`${borderWidth}|${borderStyle}|${normalizedColor}`] *)
Definition keyOf (borderWidth borderStyle normalizedColor : str) : str :=
  borderWidth ++ lit "|" ++ borderStyle ++ lit "|" ++ normalizedColor.

(** [classes.some(c => c.includes(w1) || c.includes(w2) || ...)] *)
Definition someClass (el : element) (words : list str) : bool :=
  existsb (fun c => existsb (includes c) words) (classList el).

Definition contextOf (el : element) : str :=
  if truthy (attr (role el)) then
    match role el with
    | Some r => r
    | None => []
    end
  else if someClass el [lit "button"; lit "btn"] then "button"
  else if someClass el [lit "card"] then "card"
  else if someClass el [lit "input"; lit "field"] then "input"
  else if someClass el [lit "modal"; lit "dialog"] then "modal"
  else toLowerCase (tagName el).

(** A value of [combinations]; [elements] is the set, in insertion
    order. *)
Record combo := mkCombo {
  width : str;
  style : str;
  color : str;
  count : Z;
  elements : list str
}.

(** [combo.count++; combo.elements.add(context)] on the combination of
    [key], made first from the three values when there is none. *)
Fixpoint note (combinations : list (str * combo))
  (key borderWidth borderStyle normalizedColor context : str)
  : list (str * combo) :=
  let update c :=
    mkCombo (width c) (style c) (color c) (count c + 1)
      (if arr_includes (elements c) context then elements c
       else elements c ++ [context]) in
  match combinations with
  | [] => [(key, update (mkCombo borderWidth borderStyle normalizedColor 0 []))]
  | (k, c) :: r =>
      if str_eqb k key then (k, update c) :: r
      else (k, c) :: note r key borderWidth borderStyle normalizedColor context
  end.

(** The callback of [document.querySelectorAll("*").forEach]. *)
Definition visit (combinations : list (str * combo)) (el : element)
  : list (str * combo) :=
  if visible el then
    let normalizedColor := normalizedColor (borderColor el) in
    if coloured normalizedColor then
      note combinations
        (keyOf (borderWidth el) (borderStyle el) normalizedColor)
        (borderWidth el) (borderStyle el) normalizedColor (contextOf el)
    else combinations
  else combinations.

Record entry := mkEntry {
  entryWidth : str;                 (* the field [width] *)
  entryStyle : str;                 (* the field [style] *)
  entryColor : str;                 (* the field [color] *)
  entryCount : Z;                   (* the field [count] *)
  entryElements : list str;         (* the field [elements] *)
  confidence : Colors.confidence
}.

Definition toEntry (c : combo) : entry :=
  mkEntry (width c) (style c) (color c) (count c) (firstn 5 (elements c))
    (if (10 <? count c)%Z then Colors.high
     else if (3 <? count c)%Z then Colors.medium else Colors.low).

(** [(a, b) => b.count - a.count] *)
Definition byCount (a b : entry) : bool := (0 <? entryCount b - entryCount a)%Z.

(** The field [combinations] of the result. *)
Definition extractBorders (els : list element) : list entry :=
  sort byCount (map (fun e => toEntry (snd e)) (fold_left visit els [])).

End Borders.

(** ** Breakpoints

    The numbers of the media queries are taken as exact integers. *)

Module Breakpoints.
Import JS.

(** [n.toString()] on an integer. *)
Definition decDigit (d : Z) : ascii :=
  nth (Z.to_nat d) (lit "0123456789") "0"%char.

Fixpoint decDigits (fuel : nat) (n : Z) (acc : str) : str :=
  match fuel with
  | O => acc
  | S k =>
      let acc' := decDigit (n mod 10) :: acc in
      if (n / 10 =? 0)%Z then acc' else decDigits k (n / 10) acc'
  end.

Definition toString10 (n : Z) : str :=
  if (n <? 0)%Z
  then "-"%char :: decDigits (S (Z.to_nat (Z.log2 (- n)))) (- n) []
  else decDigits (S (Z.to_nat (Z.log2 n))) n [].

(** A style sheet: its rules, or [None] when reading [cssRules] throws, as
    it does on a sheet of another origin.  A rule is given by
    [rule.media.mediaText], [None] for a rule without [media]. *)
Definition sheet := option (list (option str)).

(** [/(\d+)px/g] *)
Definition pxRegex : list (list Tokens.atom) :=
  [[Tokens.Plus isDigit; Tokens.Exact "px"]].

(** [breakpoints.add(n)]: a number is [Some], [NaN] is [None]. *)
Definition same (a b : option Z) : bool :=
  match a, b with
  | Some x, Some y => (x =? y)%Z
  | None, None => true
  | _, _ => false
  end.

Definition add (breakpoints : list (option Z)) (n : option Z)
  : list (option Z) :=
  if existsb (same n) breakpoints then breakpoints else breakpoints ++ [n].

Definition visitRule (breakpoints : list (option Z)) (rule : option str)
  : list (option Z) :=
  match rule with
  | Some mediaText =>
      match Tokens.matchAll pxRegex mediaText with
      | Some matched =>
          fold_left (fun bs m => add bs (parseIntOf m)) matched breakpoints
      | None => breakpoints
      end
  | None => breakpoints
  end.

Definition visitSheet (breakpoints : list (option Z)) (s : sheet)
  : list (option Z) :=
  match s with
  | Some cssRules => fold_left visitRule cssRules breakpoints
  | None => breakpoints
  end.

(** [(a, b) => a - b]: positive when [a] is to come after [b]. *)
Definition ascending (a b : option Z) : bool :=
  match a, b with
  | Some x, Some y => (0 <? x - y)%Z
  | _, _ => false
  end.

(** [px + "px"] *)
Definition label (px : option Z) : str :=
  match px with
  | Some n => toString10 n ++ lit "px"
  | None => lit "NaNpx"
  end.

Definition extractBreakpoints (styleSheets : list sheet) : list str :=
  map label (sort ascending (fold_left visitSheet styleSheets [])).

End Breakpoints.

(** ** Colour analyzer: collecting the CSS variables *)

Module Variables.
Import JS.

(** A style declaration ([getComputedStyle(...)], [rule.style]): its
    properties in the order of the index, each with what
    [getPropertyValue] returns for it. *)
Definition declaration := list (str * str).

(** A value of [allCssVars]. *)
Record found := mkFound {
  value : str;
  source : str
}.

(** [allCssVars.has(prop)] *)
Definition has (allCssVars : list (str * found)) (prop : str) : bool :=
  existsb (fun e => str_eqb (fst e) prop) allCssVars.

(** The body of the loop over the properties of a declaration. *)
Definition collect (source : str) (allCssVars : list (str * found))
  (property : str * str) : list (str * found) :=
  let '(prop, raw) := property in
  if startsWith prop "--" then
    let value := trim raw in
    if truthy (VString value) && negb (has allCssVars prop)
    then allCssVars ++ [(prop, mkFound value source)]
    else allCssVars
  else allCssVars.

Definition collectVars (allCssVars : list (str * found))
  (computedStyle : declaration) (source : str) : list (str * found) :=
  fold_left (collect source) computedStyle allCssVars.

(** A style sheet: its rules, or [None] when reading [cssRules] throws; a
    rule is given by its [style], [None] for a rule without one. *)
Definition sheet := option (list (option declaration)).

Definition scanRule (allCssVars : list (str * found)) (rule : option declaration)
  : list (str * found) :=
  match rule with
  | Some style => collectVars allCssVars style "stylesheet"
  | None => allCssVars
  end.

Definition scanSheet (allCssVars : list (str * found)) (s : sheet)
  : list (str * found) :=
  match s with
  | Some cssRules => fold_left scanRule cssRules allCssVars
  | None => allCssVars
  end.

(** [allCssVars] before the loop that filters it. *)
Definition allCssVars (styles bodyStyles : declaration) (styleSheets : list sheet)
  : list (str * found) :=
  let all := collectVars [] styles "root" in
  let all := collectVars all bodyStyles "body" in
  fold_left scanSheet styleSheets all.

(** [re.test(s)] for a pattern that is not anchored. *)
Fixpoint test (alternatives : list (list Tokens.atom)) (s : str) : bool :=
  match Tokens.firstOf alternatives s with
  | Some _ => true
  | None =>
      match s with
      | [] => false
      | _ :: r => test alternatives r
      end
  end.

(** [/#[0-9a-f]{3,6}|rgba?\(|hsla?\(/i] *)
Definition colorInside : list (list Tokens.atom) :=
  [[Tokens.Lit "#"; Tokens.Between isHexDigit 3 6];
   [Tokens.Lit "rgb"; Tokens.Opt "a"; Tokens.Lit "("];
   [Tokens.Lit "hsl"; Tokens.Opt "a"; Tokens.Lit "("]].

(** [/^(#[0-9a-f]{3,8}|rgba?\(|hsla?\(|[a-z]+)/i] *)
Definition colorAtHead : list (list Tokens.atom) :=
  [[Tokens.Lit "#"; Tokens.Between isHexDigit 3 8];
   [Tokens.Lit "rgb"; Tokens.Opt "a"; Tokens.Lit "("];
   [Tokens.Lit "hsl"; Tokens.Opt "a"; Tokens.Lit "("];
   [Tokens.Plus Walk.isLetter]].

Definition isValidColorValue (value : str) : bool :=
  if negb (truthy (VString value)) then false
  else if includes value "calc(" || includes value "clamp(" ||
          includes value "var("
  then test colorInside value
  else
    match Tokens.firstOf colorAtHead value with
    | Some _ => true
    | None => false
    end.

(** The four [continue] of the loop that filters. *)
Definition skipped (domain prop value : str) : bool :=
  startsWith prop "--wp--preset" ||
  (includes prop "--system-" || includes prop "--default-") ||
  (includes prop "--cc-" && negb (includes domain "cookie") &&
   negb (includes domain "consent")) ||
  (includes value "color.adjust(" || includes value "rgba(0, 0, 0, 0)" ||
   includes value "rgba(0,0,0,0)" || includes value "lighten(" ||
   includes value "darken(" || includes value "saturate(").

(** [cssVariables] after the loop, in the order of the properties. *)
Definition cssVariables (domain : str) (allCssVars : list (str * found))
  : list (str * str) :=
  map (fun e => (fst e, value (snd e)))
      (filter (fun e =>
                 negb (skipped domain (fst e) (value (snd e))) &&
                 (isValidColorValue (value (snd e)) ||
                  negb (includes (value (snd e)) "(")))
              allCssVars).

(** [extractColors] on the page: the palette and the CSS variables it
    reports. *)
Definition extractColors (domain : str) (styles bodyStyles : declaration)
  (styleSheets : list sheet) (elements : list Walk.element)
  : list Colors.Entry.t * list (str * str) :=
  Walk.extractColors elements
    (cssVariables domain (allCssVars styles bodyStyles styleSheets)).

End Variables.

(** ** Notions the further properties are stated with *)

Module Facts.
Import JS Host Colors Spec.

(** Two palette entries within distance 15 of each other, as the
    deduplication tests it. *)
Definition close (a b : Entry.t) : bool :=
  below (deltaE (Entry.normalized a) (Entry.normalized b)) 15.

(** The entries of [l], numbered from [i], whose index is not in [merged]. *)
Fixpoint pick (merged : list nat) (l : list Entry.t) (i : nat) : list Entry.t :=
  match l with
  | [] => []
  | x :: r => if has merged i then pick merged r (S i) else x :: pick merged r (S i)
  end.

(** A non-empty run of decimal digits. *)
Definition digits (s : str) : bool :=
  match s with
  | [] => false
  | _ :: _ => forallb isDigit s
  end.

(** The state of the deduplication loop after the indices below [k]. *)
Definition dedupState (p : list Entry.t) (k : nat) (st : list Entry.t * list nat)
  : Prop :=
  fst st = pick (snd st) (firstn k p) 0 /\
  (forall j, has (snd st) j = true ->
     exists i a b, (i < j)%nat /\ (i < k)%nat /\ has (snd st) i = false /\
       nth_error p i = Some a /\ nth_error p j = Some b /\ close a b = true) /\
  (forall i j a b, (i < k)%nat -> (i < j)%nat ->
     has (snd st) i = false -> has (snd st) j = false ->
     nth_error p i = Some a -> nth_error p j = Some b -> close a b = false).

(** A record of [cssVarsByColor] is well formed for [cssVariables] and the
    reported palette: its key is the normalised form of its value, the key
    is neither a normalised colour of the palette nor within distance 15 of
    one, and its first name is a variable with that value. *)
Definition wellFormed (cssVariables : list (str * str)) (deduped : list Entry.t)
  (kv : str * (str * list str)) : Prop :=
  let '(k, (v, vars)) := kv in
  k = normalizeColor v /\
  arr_includes (map Entry.normalized deduped) k = false /\
  isDuplicate k deduped = false /\
  exists first rest, vars = first :: rest /\ In (first, v) cssVariables.


(** Where a run of [class] characters ends: at the end of the text or
    before a character outside the class. *)
Definition stops (class : ascii -> bool) (t : str) : bool :=
  match t with
  | [] => true
  | c :: _ => negb (class c)
  end.

(** The text [rgb(r, g, b)] or [rgba(r, g, b] followed by anything that
    does not go on with a digit; [w1] and [w2] are the white space after the
    commas. *)
Definition rgbText (alpha : bool) (r g b w1 w2 t : str) : str :=
  lit "rgb" ++ (if alpha then lit "a" else []) ++ lit "(" ++
  r ++ lit "," ++ w1 ++ g ++ lit "," ++ w2 ++ b ++ t.


(** A colour in the functional notation: [rgb(...)], [rgba(...)],
    [hsl(...)] or [hsla(...)] around a body. *)
Definition functional (hsl alpha : bool) (body : str) : str :=
  (if hsl then lit "hsl" else lit "rgb") ++ (if alpha then lit "a" else []) ++
  lit "(" ++ body ++ lit ")".

(** A body is what stands between the parentheses: at least one character,
    none of them a closing parenthesis. *)
Definition isBody (body : str) : bool :=
  match body with
  | [] => false
  | _ :: _ => forallb Tokens.notParen body
  end.

(** A character at which no colour token begins. *)
Definition inert (c : ascii) : bool :=
  negb (Ascii.eqb (lowerChar c) "#") && negb (Ascii.eqb (lowerChar c) "r") &&
  negb (Ascii.eqb (lowerChar c) "h").


(** The texts of a list of colours in the functional notation, each given
    by its kind and its body. *)
Definition functionals (items : list (bool * bool * str)) : list str :=
  map (fun item => functional (fst (fst item)) (snd (fst item)) (snd item)) items.

(** The two spellings of the transparent colour in the functional notation. *)
Definition zeroAlpha (c : str) : bool :=
  str_eqb c "rgba(0, 0, 0, 0)" || str_eqb c "rgba(0,0,0,0)".


(** What an entry of [hoverFocusColors] records of the element [el] it was
    found on: the element's tag; a colour that differs from what the probe
    compared it with before the interaction; and, for a focus colour, an
    element of one of the four tags the probe focuses. *)
Definition foundOn (el : Probe.element) (f : Probe.Found.t) : Prop :=
  Probe.isVisible el = true /\
  Probe.Found.element f = Probe.tag el /\
  (Probe.Found.property f = lit "color" ->
     Probe.Found.color f <> Probe.color (Probe.beforeState el)) /\
  (Probe.Found.property f = lit "background-color" ->
     Probe.Found.color f <> Probe.backgroundColor (Probe.beforeState el)) /\
  (Probe.Found.property f = lit "border-color" ->
     ~ In (Probe.Found.color f)
          (Probe.splitMultiValueColors (Probe.borderColor (Probe.beforeState el)))) /\
  (Probe.Found.property f = lit "outline-color" ->
     Probe.Found.color f <> [] /\
     Probe.Found.color f <> Probe.color (Probe.beforeState el)) /\
  (Probe.Found.state f = lit "focus" ->
     In (Probe.tag el) [lit "input"; lit "textarea"; lit "select"; lit "button"] /\
     Probe.afterFocus el <> None).

(** An entry the merge of the state colours pushes. *)
Definition pushedFor (color : str) : Entry.t :=
  Entry.mk color (Branding.stateNormalize color) 1 medium [lit "hover/focus"].


(** What the walk keeps true of every record of [colorMap]: the key is the
    normalised form of the value first seen, which is neither of the two
    transparent keywords; the record was counted at least once; each count
    added between 1 and 25 to the score; and no source is named twice. *)
Definition tallied (kv : str * Data.t) : Prop :=
  fst kv = normalizeColor (Data.original (snd kv)) /\
  Data.original (snd kv) <> lit "transparent" /\
  Data.original (snd kv) <> lit "rgba(0, 0, 0, 0)" /\
  (1 <= Data.count (snd kv))%Z /\
  (Data.count (snd kv) <= Data.score (snd kv) <= 25 * Data.count (snd kv))%Z /\
  NoDup (Data.sources (snd kv)).


(** The normalised colour of an entry of the merged palette. *)
Definition normalizedOf (m : Modes.merged) : str :=
  Entry.normalized (Modes.entry m).


(** How often [x] occurs in [l]. *)
Definition occurrences (x : str) (l : list str) : Z :=
  Z.of_nat (List.length (filter (str_eqb x) l)).

(** The distinct members of [l], in the order in which they first occur. *)
Definition firstSeen (l : list str) : list str :=
  fold_left (fun seen c => if arr_includes seen c then seen else seen ++ [c]) l [].

(** A shadow that is counted. *)
Definition isShadow (s : str) : bool :=
  negb (str_eqb s "") && negb (str_eqb s "none").

(** The entry [extractShadows] reports for a shadow the elements of the
    page have [n] times. *)
Definition shadowOf (s : str) (n : Z) : Layout.shadowEntry :=
  Layout.mkShadow s n
    (if (5 <? n)%Z then high else if (2 <? n)%Z then medium else low).

(** A radius that is counted. *)
Definition isRadius (r : str) : bool :=
  negb (str_eqb r "") && negb (str_eqb r "0px").

(** The elements with the radius [r]. *)
Definition withRadius (r : str) (els : list Layout.element) : list Layout.element :=
  filter (fun el => str_eqb r (Layout.borderRadius el)) els.

(** The entry [extractBorderRadius] reports for a radius. *)
Definition radiusOf (r : str) (els : list Layout.element) : Layout.radiusEntry :=
  let n := Z.of_nat (List.length (withRadius r els)) in
  Layout.mkRadius r n
    (firstn 5 (firstSeen (map Layout.contextOf (withRadius r els))))
    (if (10 <? n)%Z then high else if (3 <? n)%Z then medium else low)
    (Layout.numberOf r).

(** The order of the reported radii: a percentage never comes before a
    length, and within the two kinds the numbers do not decrease. *)
Definition radiusOrder (a b : Layout.radiusEntry) : Prop :=
  (Layout.percent a = true -> Layout.percent b = true) /\
  (Layout.percent a = Layout.percent b ->
   Layout.numericValue a <= Layout.numericValue b)%Q.


(** The value a map in insertion order holds for a key. *)
Fixpoint lookup {V} (m : list (str * V)) (key : str) : option V :=
  match m with
  | [] => None
  | (k, v) :: r => if str_eqb k key then Some v else lookup r key
  end.


(** The record of a radius after one more element, of context [context]. *)
Definition noted (data : Layout.radiusData) (context : str) : Layout.radiusData :=
  Layout.mkData (Layout.count data + 1)
    (if arr_includes (Layout.elements data) context then Layout.elements data
     else Layout.elements data ++ [context]).


(** Three channels that fit a byte each. *)
Definition bytes (rgb : Z * Z * Z) : Prop :=
  let '(r, g, b) := rgb in
  (0 <= r <= 255 /\ 0 <= g <= 255 /\ 0 <= b <= 255)%Z.


(** *** The audit, phase by phase *)

(** Every pair of colours the contrast check measures, before the report
    keeps the first twenty. *)
Definition measured (p : Accessibility.page) : list Accessibility.contrast :=
  Accessibility.colorContrast (Accessibility.checkContrast p Accessibility.empty).

(** The issue recorded for a measured pair that fails AA. *)
Definition contrastIssue (c : Accessibility.contrast) : Accessibility.issue :=
  Accessibility.mkIssue "contrast" "error"
    (Accessibility.InsufficientContrast (Accessibility.ratio c)
       (Accessibility.largeText c)
       (Accessibility.aaRequired (Accessibility.largeText c))).

Definition failing (p : Accessibility.page) : list Accessibility.contrast :=
  filter (fun c => negb (Accessibility.passesAA c)) (measured p).

(** The form fields with neither a label, an ARIA label nor a placeholder. *)
Definition unlabelledCount (p : Accessibility.page) : Z :=
  Z.of_nat (List.length (filter Accessibility.unlabelled (Accessibility.inputs p))).

(** The steps down the heading levels that skip a level: a heading more
    than one level below the heading before it; the first heading has none
    before it. *)
Fixpoint skips (previousLevel : Z) (hs : list Accessibility.heading)
  : list (Z * Z) :=
  match hs with
  | [] => []
  | h :: r =>
      (if (previousLevel + 1 <? Accessibility.level h)%Z &&
          negb (previousLevel =? 0)%Z
       then [(previousLevel, Accessibility.level h)] else []) ++
      skips (Accessibility.level h) r
  end.

Definition headingIssue (s : Z * Z) : Accessibility.issue :=
  Accessibility.mkIssue "headings" "warning"
    (Accessibility.HeadingSkipped (fst s) (snd s)).

(** The issues of a page, in the order of the report. *)
Definition expectedIssues (p : Accessibility.page) : list Accessibility.issue :=
  map contrastIssue (failing p) ++
  (if (0 <? unlabelledCount p)%Z
   then [Accessibility.mkIssue "forms" "warning"
           (Accessibility.FieldsMissingLabels (unlabelledCount p))]
   else []) ++
  map headingIssue (skips 0 (Accessibility.headings p)) ++
  (if existsb (fun h => (Accessibility.level h =? 1)%Z) (Accessibility.headings p)
   then []
   else [Accessibility.mkIssue "headings" "warning" Accessibility.MissingH1]).

(** A measured pair comes from a text element that is not hidden and whose
    two colours parse, and its background is not the transparent black. *)
Definition sampleOf (p : Accessibility.page) (c : Accessibility.contrast) : Prop :=
  Accessibility.background c <> lit "rgba(0, 0, 0, 0)" /\
  exists el fg bg,
    In el (Accessibility.textElements p) /\
    Accessibility.hidden el = false /\
    Accessibility.parseRgb (Accessibility.color el) = Some fg /\
    Accessibility.parseRgb (Accessibility.backgroundColor el) = Some bg /\
    c = Accessibility.measure (Accessibility.color el)
          (Accessibility.backgroundColor el) (Accessibility.fontSize el)
          (Accessibility.fontWeight el) fg bg.

(** The key under which the contrast check remembers a pair. *)
Definition pairKey (c : Accessibility.contrast) : str :=
  Accessibility.foreground c ++ lit "|" ++ Accessibility.background c.


(** *** Spacing *)

(** The four computed lengths of every element, in the order in which
    [extractSpacing] reads them. *)
Definition lengths (elements : list Spacing.element) : list str :=
  flat_map (fun el => [Spacing.marginTop el; Spacing.marginBottom el;
                       Spacing.paddingTop el; Spacing.paddingBottom el])
           elements.

(** A computed length reads as the positive number [k]. *)
Definition reads (k : Q) (computed : str) : bool :=
  match parseFloat computed with
  | Some value => Qltb 0 value && Qeq_bool value k
  | None => false
  end.

(** How many of the computed lengths read as [k]. *)
Definition uses (k : Q) (elements : list Spacing.element) : Z :=
  Z.of_nat (List.length (filter (reads k) (lengths elements))).

(** The count a tally holds for [k]. *)
Fixpoint rate (spacings : list (Q * Z)) (k : Q) : Z :=
  match spacings with
  | [] => 0%Z
  | (k0, n) :: r => if Qeq_bool k0 k then n else rate r k
  end.

(** No two keys of a tally are equal numbers. *)
Definition distinctKeys (m : list (Q * Z)) : Prop :=
  ForallOrdPairs (fun a b => Qeq_bool (fst a) (fst b) = false) m.


(** *** Detected technologies *)

(** A result lists [name] under [category]. *)
Definition reports (detected : list (str * list str)) (category name : str) : Prop :=
  exists names, In (category, names) detected /\ In name names.

(** No category occurs twice in a result, and no name twice in a category. *)
Definition wellKeyed (detected : list (str * list str)) : Prop :=
  NoDup (map fst detected) /\ Forall (fun e => NoDup (snd e)) detected.

(** A row of the table of patterns, under its category. *)
Definition row (category : str) (t : Server.tech) : Prop :=
  exists techs, In (category, techs) Server.TECH_PATTERNS /\ In t techs.


(** The rows of the table under a category. *)
Definition rowsOf (category : str) : list Server.tech :=
  flat_map snd (filter (fun e => str_eqb (fst e) category) Server.TECH_PATTERNS).

(** Every pattern of [a] has a pattern of [b] inside it, letter case aside. *)
Definition covers (a b : Server.tech) : bool :=
  forallb (fun p => existsb (fun q => includes (toLowerCase p) (toLowerCase q))
                            (Server.patterns b))
          (Server.patterns a).


(** *** Form fields *)

(** What [extractInputStyles] reports under [name], with the limit [cap],
    of the fields [inputs]: at most [cap] entries, no two with the same key;
    each describes a field of that group that is not hidden; and every such
    field has its key among the entries, unless the limit is reached. *)
Definition groupOf (inputs : list Inputs.element) (name : str) (cap : nat)
  (items : list Inputs.item) : Prop :=
  (List.length items <= cap)%nat /\
  NoDup (map Inputs.keyOf items) /\
  Forall (fun it =>
            exists input,
              In input inputs /\ Inputs.hidden input = false /\
              Inputs.inputType input = name /\ it = Inputs.describe input)
         items /\
  Forall (fun input =>
            Inputs.hidden input = false -> Inputs.inputType input = name ->
            In (Inputs.keyOf (Inputs.describe input)) (map Inputs.keyOf items) \/
            List.length items = cap)
         inputs.

End Facts.

(** ** Notions the properties of the components are stated with *)

Module Notions.
Import JS Host Colors Spec Facts.

(** [x] is the first member of [xs] with its key. *)
Definition firstOf {A} (key : A -> str) (xs : list A) (x : A) : Prop :=
  exists before after,
    xs = before ++ x :: after /\ ~ In (key x) (map key before).

(** The size of a candidate that the filter of the buttons retains. *)
Definition sized (btn : Buttons.element) : Prop :=
  (20 < Buttons.width btn /\ Buttons.width btn <= 600 /\
   25 <= Buttons.height btn /\ Buttons.height btn <= 200 /\
   Buttons.height btn <= (12 # 10) * Buttons.width btn /\
   Buttons.width btn <= 8 * Buttons.height btn)%Q.

(** What the pattern of the links asks for after the third channel: the
    closing parenthesis, at once or after a comma, white space and an alpha
    of digits and points. *)
Definition closes (t : str) : Prop :=
  exists rest,
    t = lit ")" ++ rest \/
    exists w a,
      forallb isSpace w = true /\ a <> [] /\
      forallb LinkStyles.isDigitOrDot a = true /\
      t = lit "," ++ w ++ a ++ lit ")" ++ rest.

(** The badge pushed for an element whose class name is a string. *)
Definition badgeOf (el : Badges.element) (className : str) : Badges.badge :=
  Badges.mkBadge (Badges.badgeType (Badges.textOf el) className)
    (Badges.shortText el) el
    (Math_round (Badges.rectWidth el)) (Math_round (Badges.rectHeight el)).

(** *** Gradients and semantic colours *)

(** An element whose background image is taken as a gradient. *)
Definition gradientful (el : Walk.element) : bool :=
  negb (isHidden (Walk.computed el)) &&
  includes (Walk.backgroundImage el) "gradient" &&
  (0 <? List.length (Walk.extractGradientColors (Walk.backgroundImage el)))%nat.

(** The entry of [gradients] for a background image. *)
Definition gradientOf (backgroundImage : str) : Walk.gradient :=
  Walk.mkGradient backgroundImage (Walk.extractGradientColors backgroundImage)
    (if includes backgroundImage "linear" then "linear"
     else if includes backgroundImage "radial" then "radial"
     else "conic").

(** The last member of [l] that passes [p]. *)
Definition lastOf {A} (p : A -> bool) (l : list A) : option A := find p (rev l).

(** An element that sets the primary colour, and the colour it sets. *)
Definition setsPrimary (el : Walk.element) : bool :=
  negb (isHidden (Walk.computed el)) &&
  (includes (Walk.contextOf el) "primary" || Walk.matchesPrimary el).

Definition primaryOf (el : Walk.element) : str :=
  if negb (str_eqb (Walk.backgroundColor el) "rgba(0, 0, 0, 0)") &&
     negb (str_eqb (Walk.backgroundColor el) "transparent")
  then Walk.backgroundColor el
  else Walk.color el.

(** An element that sets the secondary colour. *)
Definition setsSecondary (el : Walk.element) : bool :=
  negb (isHidden (Walk.computed el)) &&
  includes (Walk.contextOf el) "secondary".

(** *** The variables grouped by colour *)

(** A value that passes the two tests of the loop over the variables: it
    does not normalise to a colour of the palette, and is within distance 15
    of none. *)
Definition accepted (deduped : list Entry.t) (value : str) : bool :=
  negb (arr_includes (map Entry.normalized deduped) (normalizeColor value)) &&
  negb (isDuplicate (normalizeColor value) deduped).

(** The variables recorded under the colour [k], in their order. *)
Definition hitsOf (deduped : list Entry.t) (k : str)
  (cssVariables : list (str * str)) : list (str * str) :=
  filter (fun pv => accepted deduped (snd pv) &&
                    str_eqb (normalizeColor (snd pv)) k)
         cssVariables.

(** The record of [cssVarsByColor] for the variables [hits] of one colour:
    the value of the first and the names of all. *)
Definition recordOf (hits : list (str * str)) : option (str * list str) :=
  match hits with
  | [] => None
  | (_, value) :: _ => Some (value, map fst hits)
  end.

(** *** The CSS variables *)

(** The declarations the collection reads, in its order: the root, the
    body, and the rules of the sheets that can be read. *)
Definition declarations (styles bodyStyles : Variables.declaration)
  (styleSheets : list Variables.sheet) : list (str * str) :=
  styles ++ bodyStyles ++
  flat_map
    (fun s : Variables.sheet =>
       match s with
       | Some rules =>
           flat_map (fun r : option Variables.declaration =>
                       match r with
                       | Some style => style
                       | None => []
                       end) rules
       | None => []
       end)
    styleSheets.

(** [value] is what the first declaration of [prop] that is not blank
    gives, trimmed. *)
Definition firstValue (decls : list (str * str)) (prop value : str) : Prop :=
  exists before raw after,
    decls = before ++ (prop, raw) :: after /\
    value = trim raw /\ value <> [] /\
    forall raw', In (prop, raw') before -> trim raw' = [].

(** What the collection keeps true of [allCssVars] after the declarations
    [decls]: no name twice, each with its first value, and a name for every
    declaration that is not blank. *)
Definition collected (all : list (str * Variables.found))
  (decls : list (str * str)) : Prop :=
  NoDup (map fst all) /\
  (forall prop f, In (prop, f) all ->
     startsWith prop "--" = true /\ firstValue decls prop (Variables.value f)) /\
  (forall prop raw, In (prop, raw) decls -> startsWith prop "--" = true ->
     trim raw <> [] -> Variables.has all prop = true).

(** A value with one of the three functions for which [isValidColorValue]
    looks for a colour inside. *)
Definition computedValue (value : str) : bool :=
  includes value "calc(" || includes value "clamp(" || includes value "var(".

(** *** Borders *)

(** An element whose border is counted. *)
Definition bordered (el : Borders.element) : bool :=
  Borders.visible el &&
  Borders.coloured (Borders.normalizedColor (Borders.borderColor el)).

(** The key under which the border of an element is counted. *)
Definition borderKey (el : Borders.element) : str :=
  Borders.keyOf (Borders.borderWidth el) (Borders.borderStyle el)
    (Borders.normalizedColor (Borders.borderColor el)).

(** The elements whose border is counted under the key [k]. *)
Definition withBorder (k : str) (els : list Borders.element)
  : list Borders.element :=
  filter (fun el => bordered el && str_eqb k (borderKey el)) els.

(** The combination of the elements [hits], which have one key: the three
    values of the first of them, their number, and their contexts. *)
Definition comboOf (hits : list Borders.element) : option Borders.combo :=
  match hits with
  | [] => None
  | first :: _ =>
      Some (Borders.mkCombo (Borders.borderWidth first) (Borders.borderStyle first)
              (Borders.normalizedColor (Borders.borderColor first))
              (Z.of_nat (List.length hits))
              (firstSeen (map Borders.contextOf hits)))
  end.

(** The key an entry stands for. *)
Definition entryKey (e : Borders.entry) : str :=
  Borders.keyOf (Borders.entryWidth e) (Borders.entryStyle e) (Borders.entryColor e).

(** *** Breakpoints *)

(** The media texts of the rules that can be read. *)
Definition mediaTexts (sheets : list Breakpoints.sheet) : list str :=
  flat_map
    (fun s : Breakpoints.sheet =>
       match s with
       | Some rules =>
           flat_map (fun r : option str =>
                       match r with
                       | Some text => [text]
                       | None => []
                       end) rules
       | None => []
       end)
    sheets.

(** [d] is a run of digits of [text] that no digit precedes and [px]
    follows; [pre] is what stands before it. *)
Definition pxRunAfter (pre text d : str) : Prop :=
  exists post,
    text = pre ++ d ++ lit "px" ++ post /\ digits d = true /\
    stops isDigit (rev pre) = true.

Definition pxRun (text d : str) : Prop := exists pre, pxRunAfter pre text d.

(** A run of digits with [px] after it stands at the head of [s]. *)
Definition pxAt (s : str) : bool :=
  match takeWhile isDigit s with
  | [] => false
  | _ :: _ => startsWith (dropWhile isDigit s) "px"
  end.

End Notions.

(** * Properties *)

(** ** Numbers of the host language *)

Section HostNumbers.
Import JS.

Lemma hexVal_hexDigit (d : Z) : (0 <= d < 16)%Z -> hexVal (hexDigit d) = d.
Proof.
  intros Hd. unfold hexDigit.
  rewrite <- (Z2Nat.id d) at 2 by lia.
  assert (Hn : (Z.to_nat d < 16)%nat) by lia.
  revert Hn. generalize (Z.to_nat d). intros n Hn.
  do 16 (destruct n as [|n]; [reflexivity|]). lia.
Qed.

Lemma parseHex_from (ds : str) : forall acc : Z,
  fold_left (fun a c => a * 16 + hexVal c)%Z ds acc
  = (acc * 16 ^ Z.of_nat (List.length ds) + parseHex ds)%Z.
Proof.
  unfold parseHex. induction ds as [|c ds IH]; intros acc.
  - simpl. lia.
  - cbn [fold_left List.length]. rewrite IH, (IH (0 * 16 + hexVal c)%Z).
    rewrite Nat2Z.inj_succ, Z.pow_succ_r by lia. ring.
Qed.

Lemma parseHex_cons (c : ascii) (ds : str) :
  parseHex (c :: ds) = (hexVal c * 16 ^ Z.of_nat (List.length ds) + parseHex ds)%Z.
Proof.
  unfold parseHex at 1. cbn [fold_left]. rewrite parseHex_from. ring.
Qed.

(** With fuel for all its digits a number is written out in full. *)
Lemma hexDigits_value (fuel : nat) : forall (n : Z) (acc : str),
  (0 <= n < 16 ^ Z.of_nat fuel)%Z ->
  parseHex (hexDigits fuel n acc)
  = (n * 16 ^ Z.of_nat (List.length acc) + parseHex acc)%Z.
Proof.
  induction fuel as [|k IH]; intros n acc Hn.
  - simpl in *. assert (n = 0%Z) by lia. subst. lia.
  - cbn [hexDigits].
    assert (Hm : (0 <= n mod 16 < 16)%Z) by (apply Z.mod_pos_bound; lia).
    pose proof (Z.div_mod n 16 ltac:(lia)) as Hdm.
    destruct (n / 16 =? 0)%Z eqn:E.
    + apply Z.eqb_eq in E. rewrite parseHex_cons, hexVal_hexDigit by exact Hm.
      replace (n mod 16)%Z with n by lia. reflexivity.
    + rewrite IH.
      * rewrite parseHex_cons, hexVal_hexDigit by exact Hm.
        cbn [List.length]. rewrite Nat2Z.inj_succ, Z.pow_succ_r by lia.
        rewrite Hdm at 3. ring.
      * rewrite Nat2Z.inj_succ, Z.pow_succ_r in Hn by lia.
        split; [apply Z.div_pos; lia|].
        apply Z.div_lt_upper_bound; lia.
Qed.

(** [toString(16)] writes a number that [parseInt(_, 16)] reads back. *)
Lemma toString16_reads_back (n : Z) : (0 <= n)%Z -> parseHex (toString16 n) = n.
Proof.
  intros Hn. unfold toString16.
  destruct (n <? 0)%Z eqn:E; [apply Z.ltb_lt in E; lia|].
  rewrite hexDigits_value;
    [change (n * 16 ^ 0 + 0 = n)%Z; rewrite Z.pow_0_r; lia|].
  split; [exact Hn|].
  rewrite Nat2Z.inj_succ, Z2Nat.id by apply Z.log2_nonneg.
  destruct (Z.eq_dec n 0) as [-> | Hne]; [reflexivity|].
  pose proof (Z.log2_spec n ltac:(lia)) as [_ Hlt].
  eapply Z.lt_le_trans; [exact Hlt|].
  apply Z.pow_le_mono_l. lia.
Qed.

End HostNumbers.

(** ** Colour normalisation *)

Section Normalisation.
Import JS Regex Colors Spec.

Lemma lowerChar_plain (c : ascii) : plain c = true -> lowerChar c = c.
Proof.
  destruct c as [[] [] [] [] [] [] [] []]; vm_compute; intros H;
    first [reflexivity | discriminate H].
Qed.

Lemma toLowerCase_plain (s : str) :
  forallb plain s = true -> toLowerCase s = s.
Proof.
  induction s as [|c s IH]; simpl; intros H; [reflexivity|].
  apply andb_true_iff in H as [Hc Hs].
  now rewrite (lowerChar_plain c Hc), (IH Hs).
Qed.

Lemma lowerChar_idem (c : ascii) : lowerChar (lowerChar c) = lowerChar c.
Proof. destruct c as [[] [] [] [] [] [] [] []]; vm_compute; reflexivity. Qed.

Lemma toLowerCase_idem (s : str) : toLowerCase (toLowerCase s) = toLowerCase s.
Proof.
  unfold toLowerCase. rewrite map_map.
  apply map_ext. intros c. apply lowerChar_idem.
Qed.

(** A pattern that opens with a literal cannot match where the first
    character differs. *)
Lemma text_guard (c0 : ascii) (p : str) (k : list atom) (s : str)
  (groups : list str) :
  hd_error s <> Some c0 -> run (Text (c0 :: p) :: k) s groups = None.
Proof.
  intros H. cbn [run]. destruct s as [|c s]; cbn [startsWith]; [reflexivity|].
  destruct (Ascii.eqb c0 c) eqn:E; simpl; [|reflexivity].
  apply Ascii.eqb_eq in E. subst. now elim H.
Qed.

Lemma search_guard (pattern : list atom) (c0 : ascii) :
  (forall s, hd_error s <> Some c0 -> run pattern s [] = None) ->
  forall s, ~ In c0 s -> search pattern s = None.
Proof.
  intros Hm s. induction s as [|c s IH]; intros Hs; cbn [search].
  - rewrite Hm; [reflexivity | discriminate].
  - rewrite Hm.
    + apply IH. intros Hin. apply Hs. now right.
    + simpl. intros [= ->]. apply Hs. now left.
Qed.

Lemma rgbPattern_guard (s : str) :
  hd_error s <> Some "r"%char -> run rgbPattern s [] = None.
Proof. apply text_guard. Qed.

Lemma hslPattern_guard (s : str) :
  hd_error s <> Some "h"%char -> run hslPattern s [] = None.
Proof. apply text_guard. Qed.

Lemma plain_no_letter (c0 : ascii) (s : str) :
  plain c0 = false -> forallb plain s = true -> ~ In c0 s.
Proof.
  intros H0 Hs Hin.
  rewrite forallb_forall in Hs. specialize (Hs c0 Hin). congruence.
Qed.

(** A value made of hexadecimal characters is left as it is. *)
Lemma normalizeColor_plain (s : str) :
  forallb plain s = true -> normalizeColor s = s.
Proof.
  intros H. unfold normalizeColor.
  rewrite (search_guard rgbPattern rgbPattern_guard).
  - rewrite (search_guard hslPattern hslPattern_guard).
    + now apply toLowerCase_plain.
    + now apply plain_no_letter.
  - now apply plain_no_letter.
Qed.

(** What normalisation writes in its two converting branches is made of
    hexadecimal characters. *)
Lemma hexDigit_plain (d : Z) : plain (hexDigit d) = true.
Proof.
  unfold hexDigit. generalize (Z.to_nat d). intros n.
  do 16 (destruct n as [|n]; [reflexivity|]).
  simpl. now destruct n.
Qed.

Lemma hexDigits_plain (fuel : nat) : forall (n : Z) (acc : str),
  forallb plain acc = true -> forallb plain (hexDigits fuel n acc) = true.
Proof.
  induction fuel as [|k IH]; intros n acc Hacc; simpl; [assumption|].
  assert (H1 : forallb plain (hexDigit (n mod 16) :: acc) = true)
    by (simpl; now rewrite hexDigit_plain).
  destruct (n / 16 =? 0)%Z; [assumption | now apply IH].
Qed.

Lemma toString16_plain (n : Z) : forallb plain (toString16 n) = true.
Proof.
  unfold toString16. destruct (n <? 0)%Z.
  - change (plain "-" && forallb plain
      (hexDigits (S (Z.to_nat (Z.log2 (- n)))) (- n) []) = true).
    now rewrite hexDigits_plain.
  - now apply hexDigits_plain.
Qed.

Lemma padStart2_plain (s : str) :
  forallb plain s = true -> forallb plain (padStart2 s) = true.
Proof.
  intros H. unfold padStart2. rewrite forallb_app, H, andb_true_r.
  generalize (2 - List.length s)%nat. intros k.
  induction k as [|k IH]; simpl; [reflexivity | exact IH].
Qed.

Lemma hex2_plain (n : Z) : forallb plain (hex2 n) = true.
Proof. apply padStart2_plain, toString16_plain. Qed.

Lemma rgbToHex_plain (m : list str) : forallb plain (rgbToHex m) = true.
Proof.
  unfold rgbToHex. cbv zeta. cbn [forallb].
  now rewrite !forallb_app, !hex2_plain.
Qed.

Lemma hslToHex_plain (m : list str) : forallb plain (hslToHex m) = true.
Proof.
  unfold hslToHex.
  repeat match goal with
         | |- context [if ?b then _ else _] => destruct b
         end;
    (change (forallb plain ("#"%char :: ?x)) with (plain "#" && forallb plain x)
     || idtac);
    simpl forallb;
    rewrite !forallb_app;
    rewrite !padStart2_plain by apply toString16_plain; reflexivity.
Qed.

(** Where a pattern matches, an opening parenthesis is in the string. *)
Lemma In_skipn {A} (x : A) (n : nat) : forall l, In x (skipn n l) -> In x l.
Proof.
  induction n as [|n IH]; intros [|y l]; simpl; auto.
Qed.

Lemma startsWith_head (a c : ascii) (p s : str) :
  startsWith (c :: s) (a :: p) = true -> c = a.
Proof.
  cbn [startsWith]. intros H. apply andb_true_iff in H as [H _].
  apply Ascii.eqb_eq in H. now symmetry.
Qed.

Lemma run_Text (p : str) (k : list atom) (s : str) (groups : list str) :
  run (Text p :: k) s groups
  = if startsWith s p then run k (skipn (List.length p) s) groups else None.
Proof. reflexivity. Qed.

Lemma run_Maybe (c : ascii) (k : list atom) (s : str) (groups : list str) :
  run (Maybe c :: k) s groups
  = match s with
    | x :: r =>
        if Ascii.eqb x c then
          match run k r groups with
          | Some m => Some m
          | None => run k s groups
          end
        else run k s groups
    | [] => run k s groups
    end.
Proof. reflexivity. Qed.

Lemma text_paren (k : list atom) (s : str) (groups m : list str) :
  run (Text "(" :: k) s groups = Some m -> In "("%char s.
Proof.
  rewrite run_Text. destruct (startsWith s "(") eqn:E; [|intros H; discriminate H].
  intros _. destruct s as [|c s]; [discriminate E|].
  apply startsWith_head in E. subst. now left.
Qed.

Lemma opens_with_paren (p : str) (k : list atom) (t : str) (groups m : list str) :
  run (Text p :: Maybe "a" :: Text "(" :: k) t groups = Some m ->
  In "("%char t.
Proof.
  rewrite run_Text. destruct (startsWith t p); [|intros H; discriminate H].
  rewrite run_Maybe. intros H. apply In_skipn with (n := List.length p).
  destruct (skipn (List.length p) t) as [|x r].
  - eapply text_paren; eassumption.
  - destruct (Ascii.eqb x "a").
    + destruct (run (Text "(" :: k) r groups) as [m'|] eqn:E.
      * right. eapply text_paren; eassumption.
      * eapply text_paren; eassumption.
    + eapply text_paren; eassumption.
Qed.

Lemma search_In (pattern : list atom) (c0 : ascii) :
  (forall t m, run pattern t [] = Some m -> In c0 t) ->
  forall s m, search pattern s = Some m -> In c0 s.
Proof.
  intros Hm s. induction s as [|c s IH]; intros m; cbn [search].
  - destruct (run pattern [] []) as [m'|] eqn:E; [|discriminate].
    intros _. exact (Hm _ _ E).
  - destruct (run pattern (c :: s) []) as [m'|] eqn:E.
    + intros _. exact (Hm _ _ E).
    + intros H. right. exact (IH _ H).
Qed.

Lemma rgb_match_paren (s : str) (m : list str) :
  search rgbPattern s = Some m -> In "("%char s.
Proof. apply search_In. intros t m'. apply opens_with_paren. Qed.

Lemma hsl_match_paren (s : str) (m : list str) :
  search hslPattern s = Some m -> In "("%char s.
Proof. apply search_In. intros t m'. apply opens_with_paren. Qed.

Lemma toLowerCase_paren (s : str) : In "("%char s -> In "("%char (toLowerCase s).
Proof.
  intros H. unfold toLowerCase.
  change "("%char with (lowerChar "("). now apply in_map.
Qed.

Lemma plain_differs (s t : str) :
  forallb plain s = true -> In "("%char t -> s <> t.
Proof.
  intros Hs Ht ->. revert Ht. now apply plain_no_letter.
Qed.

Lemma hexValue_plain (x : str) : hexValue x = true -> forallb plain x = true.
Proof.
  destruct x as [|c ds]; simpl; [discriminate|].
  intros H. apply andb_true_iff in H as [Hc Hds].
  apply Ascii.eqb_eq in Hc. subst c. simpl.
  rewrite forallb_forall in *. intros c Hin. specialize (Hds c Hin).
  unfold plain. unfold lowerHex in Hds.
  apply orb_true_iff in Hds as [-> | ->]; [reflexivity|].
  now rewrite orb_true_r.
Qed.

Example search_samples :
  search rgbPattern "1px solid rgba(28,105,212,0.5)"
    = Some [lit "28"; lit "105"; lit "212"] /\
  search rgbPattern "rgb(1, 2)" = None /\
  search hslPattern "hsla(120,  50%,25%, 0.3)"
    = Some [lit "120"; lit "50"; lit "25"] /\
  search hslPattern "hsl(120deg 50% 25%)" = None.
Proof. repeat split; reflexivity. Qed.

Example normalizeColor_samples :
  normalizeColor "rgb(99, 102, 241)" = "#6366f1" /\
  normalizeColor "rgba(0,0,0,0.5)" = "#000000" /\
  normalizeColor "rgb(1000, 0, 0)" = "#3e80000" /\
  normalizeColor "hsl(210, 50%, 40%)" = "#336699" /\
  normalizeColor "hsl(0, 100%, 50%)" = "#ff0000" /\
  normalizeColor "#ABCDEF" = "#abcdef" /\
  normalizeColor "Red" = "red".
Proof. repeat split; vm_compute; reflexivity. Qed.

(** The branch [normalizeColor] takes, case by case. *)
Lemma normalizeColor_cases (s : str) :
  (exists m, search rgbPattern s = Some m /\ normalizeColor s = rgbToHex m) \/
  (exists m, search rgbPattern s = None /\ search hslPattern s = Some m /\
             normalizeColor s = hslToHex m) \/
  (search rgbPattern s = None /\ search hslPattern s = None /\
   normalizeColor s = toLowerCase s).
Proof.
  unfold normalizeColor.
  destruct (search rgbPattern s) as [m|]; [left; now exists m|].
  destruct (search hslPattern s) as [m|]; right; [left; now exists m|].
  now right.
Qed.

Lemma normalizeColor_converted (s : str) :
  search rgbPattern s <> None \/ search hslPattern s <> None ->
  forallb plain (normalizeColor s) = true.
Proof.
  intros H.
  destruct (normalizeColor_cases s) as [(m & _ & ->) | [(m & _ & _ & ->) | (H1 & H2 & _)]].
  - apply rgbToHex_plain.
  - apply hslToHex_plain.
  - destruct H as [H | H]; now elim H.
Qed.

(** Claim C7, as stated, fails: an upper-case [RGB(...)] is only lower-cased
    by the first pass and converted by the second. *)
Lemma normalizeColor_not_idempotent :
  normalizeColor "RGB(1, 2, 3)" = "rgb(1, 2, 3)" /\
  normalizeColor (normalizeColor "RGB(1, 2, 3)") = "#010203" /\
  normalizeColor (normalizeColor "RGB(1, 2, 3)") <> normalizeColor "RGB(1, 2, 3)".
Proof.
  split; [|split]; [vm_compute; reflexivity ..|].
  vm_compute. discriminate.
Qed.

(** Outside the settled strings a second pass always changes the value. *)
Lemma normalizeColor_unsettled (s : str) :
  settled s = false ->
  normalizeColor (normalizeColor s) <> normalizeColor s.
Proof.
  unfold settled. intros Hs.
  destruct (search rgbPattern s) as [m|] eqn:Ergb; [discriminate Hs|].
  destruct (search hslPattern s) as [m|] eqn:Ehsl; [discriminate Hs|].
  simpl in Hs.
  assert (E : normalizeColor s = toLowerCase s)
    by (unfold normalizeColor; now rewrite Ergb, Ehsl).
  rewrite E.
  destruct (search rgbPattern (toLowerCase s)) as [m|] eqn:E1.
  - apply plain_differs.
    + apply normalizeColor_converted. left. congruence.
    + eapply rgb_match_paren; eassumption.
  - destruct (search hslPattern (toLowerCase s)) as [m|] eqn:E2;
      [|discriminate Hs].
    apply plain_differs.
    + apply normalizeColor_converted. right. congruence.
    + eapply hsl_match_paren; eassumption.
Qed.

End Normalisation.

(** ** State colours of the interactive prober *)

Section StateColours.
Import JS Regex Colors Spec Branding.

(** Claim C8, as amended: the normalisation of the merge loop and
    [normalizeColor] give the same output on every colour string that the
    rgb pattern matches or that the hsl pattern does not match. *)
Theorem stateNormalize_agrees (s : str) :
  sameBranch s = true -> stateNormalize s = normalizeColor s.
Proof.
  unfold sameBranch, stateNormalize, normalizeColor.
  destruct (search rgbPattern s); [reflexivity|].
  destruct (search hslPattern s); [discriminate | reflexivity].
Qed.

Lemma stateNormalize_agrees_witness :
  stateNormalize "rgba(28, 105, 212, 0.5)" = normalizeColor "rgba(28, 105, 212, 0.5)".
Proof. apply (stateNormalize_agrees "rgba(28, 105, 212, 0.5)"). reflexivity. Defined.

(** Claim C8, as stated, fails on an hsl() value: the merge loop only
    lower-cases it, [normalizeColor] converts it. *)
Lemma stateNormalize_differs_on_hsl :
  stateNormalize "hsl(0, 100%, 50%)" = "hsl(0, 100%, 50%)" /\
  normalizeColor "hsl(0, 100%, 50%)" = "#ff0000" /\
  stateNormalize "hsl(0, 100%, 50%)" <> normalizeColor "hsl(0, 100%, 50%)".
Proof.
  split; [|split]; [vm_compute; reflexivity ..|].
  vm_compute. discriminate.
Qed.

(** On every other string the two differ. *)
Lemma stateNormalize_differs (s : str) :
  sameBranch s = false -> stateNormalize s <> normalizeColor s.
Proof.
  unfold sameBranch, stateNormalize. intros H.
  destruct (search rgbPattern s) eqn:Ergb; [discriminate H|].
  destruct (search hslPattern s) as [m|] eqn:Ehsl; [|discriminate H].
  intros E. symmetry in E. revert E. apply plain_differs.
  - apply normalizeColor_converted. right. congruence.
  - apply toLowerCase_paren. eapply hsl_match_paren; eassumption.
Qed.

End StateColours.

(** ** Sorting *)

Section Sorting.
Import JS.
Variable A : Type.
Variable after : A -> A -> bool.

Lemma insert_In (x y : A) (l : list A) :
  In y (insert after x l) <-> y = x \/ In y l.
Proof.
  induction l as [|z l IH]; simpl.
  - intuition congruence.
  - destruct (after x z); simpl; rewrite ?IH; intuition congruence.
Qed.

Lemma sort_In (y : A) (l : list A) : In y (sort after l) <-> In y l.
Proof.
  induction l as [|x l IH]; simpl; [tauto|].
  rewrite insert_In, IH. intuition congruence.
Qed.

Lemma insert_first (x : A) (l : list A) :
  (forall y, In y l -> after x y = false) -> insert after x l = x :: l.
Proof.
  destruct l as [|z l]; simpl; [reflexivity|].
  intros H. now rewrite (H z (or_introl eq_refl)).
Qed.

(** An element that no other has to precede stays in front. *)
Lemma sort_first (x : A) (l : list A) :
  (forall y, In y l -> after x y = false) ->
  sort after (x :: l) = x :: sort after l.
Proof.
  intros H. simpl. apply insert_first.
  intros y Hy. apply H. now apply sort_In.
Qed.

End Sorting.

(** ** Palette and perceptual deduplication *)

Section Palette.
Import JS Regex Colors Spec.

Lemma insert_sortedByCount (x : Entry.t) (l : list Entry.t) :
  sortedByCount l -> sortedByCount (insert byCountDesc x l).
Proof.
  unfold sortedByCount.
  induction 1 as [|z l Hl IH Hz]; simpl.
  - constructor; constructor.
  - unfold byCountDesc at 1. destruct (0 <? Entry.count z - Entry.count x)%Z eqn:E.
    + constructor; [exact IH|].
      rewrite Forall_forall in *. intros y Hy.
      apply insert_In in Hy as [-> | Hy]; [lia | now apply Hz].
    + constructor; [now constructor|].
      constructor; [lia|].
      rewrite Forall_forall in *. intros y Hy. specialize (Hz y Hy). lia.
Qed.

Lemma sort_sortedByCount (l : list Entry.t) : sortedByCount (sort byCountDesc l).
Proof.
  induction l as [|x l IH]; simpl.
  - constructor.
  - now apply insert_sortedByCount.
Qed.

(** The palette that [extractColors] hands to the deduplication is sorted. *)
Lemma palette_sorted (colorMap : list (str * Data.t)) (total : Z) :
  sortedByCount (palette colorMap total).
Proof. apply sort_sortedByCount. Qed.

Lemma has_cons (i j : nat) (m : list nat) :
  has (i :: m) j = Nat.eqb j i || has m j.
Proof. reflexivity. Qed.

Example hexToRgb_samples :
  hexToRgb "#6366f1" = Some (99, 102, 241)%Z /\
  hexToRgb "#ABCDEF" = Some (171, 205, 239)%Z /\
  hexToRgb "6366f1" = None /\
  hexToRgb "#6366f1ff" = None /\
  hexToRgb "#abc" = None /\
  hexToRgb "red" = None.
Proof. repeat split; reflexivity. Qed.

Example deltaE_samples :
  deltaE "#6366f1" "#6466f1" = Sqrt 1 /\
  deltaE "#6366f1" "#6370f1" = Sqrt 100 /\
  deltaE "#6366f1" "#637af1" = Sqrt 400 /\
  deltaE "#6366f1" "red" = Const 999 /\
  map Entry.normalized (perceptuallyDeduped Examples.samplePalette)
    = [lit "#6366f1"; lit "red"; lit "#abc"].
Proof. repeat split; reflexivity. Qed.

Lemma deltaE_unparseable_l (a b : str) :
  hexToRgb a = None -> deltaE a b = Const 999.
Proof. unfold deltaE. now intros ->. Qed.

Lemma deltaE_unparseable_r (a b : str) :
  hexToRgb b = None -> deltaE a b = Const 999.
Proof.
  unfold deltaE. intros ->. now destruct (hexToRgb a) as [[[? ?] ?]|].
Qed.

(** The inner loop: what it adds to [similar] comes from the palette, and
    an index it adds to [merged] is that of an entry within distance 15. *)
Lemma scan_fold (p : list Entry.t) (color : Entry.t) (idxs : list nat) :
  forall sim m sim' m',
    fold_left (scan p color) idxs (sim, m) = (sim', m') ->
    (exists extras, sim' = sim ++ extras /\ forall x, In x extras -> In x p) /\
    (forall j, has m' j = true ->
       has m j = true \/
       exists other, nth_error p j = Some other /\
         below (deltaE (Entry.normalized color) (Entry.normalized other)) 15 = true).
Proof.
  induction idxs as [|i idxs IH]; intros sim m sim' m'; cbn [fold_left].
  - intros [= <- <-]. split; [exists []; split; [now rewrite app_nil_r | easy] | auto].
  - assert (Hstep :
      scan p color (sim, m) i = (sim, m) \/
      exists other, nth_error p i = Some other /\
        below (deltaE (Entry.normalized color) (Entry.normalized other)) 15 = true /\
        scan p color (sim, m) i = (sim ++ [other], i :: m)).
    { unfold scan. destruct (has m i); [now left|].
      destruct (nth_error p i) as [other|]; [|now left].
      destruct (below _ 15) eqn:Eb; [|now left].
      right. now exists other. }
    destruct Hstep as [-> | (other & En & Eb & ->)]; [apply IH|].
    intros H. apply IH in H as [(extras & -> & Hex) Hm]. split.
    + exists (other :: extras). split; [now rewrite <- app_assoc|].
      intros x [<- | Hx]; [eapply nth_error_In; eassumption | now apply Hex].
    + intros j Hj. apply Hm in Hj as [Hj | Hj]; [|now right].
      rewrite has_cons in Hj. apply orb_true_iff in Hj as [Hj | Hj]; [|now left].
      apply Nat.eqb_eq in Hj. subst j. right. now exists other.
Qed.

(** An unparseable colour gathers nothing around it. *)
Lemma scan_fold_unparseable (p : list Entry.t) (color : Entry.t) (idxs : list nat) :
  hexToRgb (Entry.normalized color) = None ->
  forall st, fold_left (scan p color) idxs st = st.
Proof.
  intros Hc. induction idxs as [|i idxs IH]; intros [sim m]; cbn [fold_left];
    [reflexivity|].
  assert (Hstep : scan p color (sim, m) i = (sim, m)).
  { unfold scan. destruct (has m i); [reflexivity|].
    destruct (nth_error p i); [|reflexivity].
    now rewrite deltaE_unparseable_l. }
  rewrite Hstep. apply IH.
Qed.

(** One visit appends at most one entry. *)
Lemma visit_grows (p : list Entry.t) (st : list Entry.t * list nat)
  (color : Entry.t) (index : nat) :
  exists suffix,
    fst (visit p st color index) = fst st ++ suffix /\
    (List.length suffix <= 1)%nat.
Proof.
  destruct st as [out m]. unfold visit.
  destruct (has m index).
  - exists []. simpl. split; [now rewrite app_nil_r | lia].
  - destruct (fold_left (scan p color) _ _) as [sim m'].
    eexists [_]. simpl. split; [reflexivity | lia].
Qed.

Lemma forEach_grows (p l : list Entry.t) :
  forall index st,
    exists suffix,
      fst (forEach (visit p) l index st) = fst st ++ suffix /\
      (List.length suffix <= List.length l)%nat.
Proof.
  induction l as [|x l IH]; intros index st; simpl.
  - exists []. split; [now rewrite app_nil_r | simpl; lia].
  - destruct (IH (S index) (visit p st x index)) as (s2 & -> & H2).
    destruct (visit_grows p st x index) as (s1 & -> & H1).
    exists (s1 ++ s2). rewrite app_assoc, length_app. split; [reflexivity | lia].
Qed.

(** What the first visit appends when the palette is sorted. *)
Lemma visit_head (e : Entry.t) (rest : list Entry.t) :
  sortedByCount (e :: rest) ->
  fst (visit (e :: rest) ([], []) e 0) = [e].
Proof.
  intros Hs. unfold visit. cbn [has existsb].
  destruct (fold_left (scan (e :: rest) e) _ _) as [sim m'] eqn:E.
  apply scan_fold in E as [(extras & -> & Hex) _].
  cbn [app fst]. rewrite sort_first; [reflexivity|].
  intros y Hy. unfold byCountDesc. apply Z.ltb_ge.
  apply Hex in Hy as [<- | Hy]; [lia|].
  unfold sortedByCount in Hs. apply StronglySorted_inv in Hs as [_ Hs].
  rewrite Forall_forall in Hs. specialize (Hs y Hy). lia.
Qed.

(** Claim C3: on a palette sorted by count, most frequent first, the
    deduplication returns no more entries than it was given, and the first
    entry of the input is the first entry of the output. *)
Theorem dedup_keeps_size_and_head (palette : list Entry.t) :
  sortedByCount palette ->
  (List.length (perceptuallyDeduped palette) <= List.length palette)%nat /\
  (forall e, hd_error palette = Some e ->
     In e (perceptuallyDeduped palette) /\
     hd_error (perceptuallyDeduped palette) = Some e).
Proof.
  intros Hs. unfold perceptuallyDeduped. split.
  - destruct (forEach_grows palette palette 0 ([], [])) as (suffix & -> & H).
    exact H.
  - intros e He. destruct palette as [|e' rest]; [discriminate He|].
    injection He as ->. cbn [forEach].
    destruct (forEach_grows (e :: rest) rest 1
                (visit (e :: rest) ([], []) e 0)) as (suffix & -> & _).
    rewrite (visit_head Hs). simpl. auto.
Qed.

Lemma skipn_cons_inv {A} (x : A) (l : list A) :
  forall index p, skipn index p = x :: l ->
    nth_error p index = Some x /\ skipn (S index) p = l.
Proof.
  induction index as [|n IH]; intros [|y p]; simpl; try discriminate.
  - intros [= -> ->]. auto.
  - apply IH.
Qed.

Lemma has_false_cons (i j : nat) (m : list nat) :
  has (i :: m) j = false <-> j <> i /\ has m j = false.
Proof.
  rewrite has_cons, orb_false_iff, Nat.eqb_neq. tauto.
Qed.

(** The loop over the palette never merges an unparseable entry away, and
    pushes it when its turn comes. *)
Lemma forEach_survives (p : list Entry.t) (j : nat) (e : Entry.t) :
  nth_error p j = Some e -> hexToRgb (Entry.normalized e) = None ->
  forall l index st,
    l = skipn index p ->
    has (snd st) j = false ->
    ((j < index)%nat -> In e (fst st)) ->
    In e (fst (forEach (visit p) l index st)) /\
    has (snd (forEach (visit p) l index st)) j = false.
Proof.
  intros Hj He. induction l as [|x l IH]; intros index st Hl Hm Hout;
    cbn [forEach].
  - split; [|exact Hm]. apply Hout.
    assert (Hlen : (j < List.length p)%nat)
      by (apply nth_error_Some; congruence).
    assert (Hs : List.length (skipn index p) = 0%nat) by now rewrite <- Hl.
    rewrite length_skipn in Hs. lia.
  - symmetry in Hl. apply skipn_cons_inv in Hl as [Hx Hl].
    apply IH; [now symmetry | |]; destruct st as [out m]; unfold visit;
      cbn [snd fst] in *.
    + destruct (has m index); [exact Hm|].
      destruct (fold_left (scan p x) _ _) as [sim m'] eqn:E. cbn [snd].
      destruct (has m' j) eqn:Ej; [|reflexivity].
      apply scan_fold in E as [_ E]. apply E in Ej as [Ej | (other & Eo & Eb)];
        [congruence|].
      assert (other = e) by congruence. subst other.
      now rewrite deltaE_unparseable_r in Eb.
    + intros Hlt. destruct (has m index) eqn:Ei.
      * cbn [fst]. apply Hout.
        assert (j <> index) by (intros ->; congruence). lia.
      * destruct (Nat.eq_dec j index) as [-> | Hne].
        -- assert (x = e) by congruence. subst x.
           rewrite scan_fold_unparseable by assumption.
           cbn [fst sort insert hd]. apply in_or_app. right. now left.
        -- destruct (fold_left (scan p x) _ _) as [sim m']. cbn [fst].
           apply in_or_app. left. apply Hout. lia.
Qed.

Lemma isDuplicate_unparseable (n : str) (deduped : list Entry.t) :
  hexToRgb n = None -> isDuplicate n deduped = false.
Proof.
  intros Hn. unfold isDuplicate.
  induction deduped as [|c l IH]; simpl; [reflexivity|].
  now rewrite deltaE_unparseable_l, IH.
Qed.

Lemma str_eqb_eq (a b : str) : str_eqb a b = true <-> a = b.
Proof.
  unfold str_eqb. destruct (list_eq_dec ascii_dec a b); split; congruence.
Qed.

(** Variables whose values normalise to the same string are one record of
    [cssVarsByColor]: that collapse compares the strings, not distances, and
    the name reported is the first. *)
Lemma css_variables_same_string :
  hexToRgb (normalizeColor "red") = None /\
  cssVarsByColor Examples.sampleVariables []
    = [(lit "red", (lit "red", [lit "--accent"; lit "--danger"]))] /\
  filteredCssVariables Examples.sampleVariables [] = [(lit "--accent", lit "red")].
Proof. repeat split; vm_compute; reflexivity. Qed.

Lemma dedup_keeps_size_and_head_witness :
  (List.length (perceptuallyDeduped Examples.samplePalette)
     <= List.length Examples.samplePalette)%nat /\
  (forall e, hd_error Examples.samplePalette = Some e ->
     In e (perceptuallyDeduped Examples.samplePalette) /\
     hd_error (perceptuallyDeduped Examples.samplePalette) = Some e).
Proof.
  apply (dedup_keeps_size_and_head (palette := Examples.samplePalette)).
  unfold sortedByCount, Examples.samplePalette.
  repeat constructor; simpl; lia.
Defined.

(** In [extractColors] the most frequent colour of the filtered palette is
    always reported, and first. *)
Lemma extractColors_keeps_most_frequent
  (elements : list element) (colorMap : list (str * Data.t))
  (cssVariables : list (str * str)) (e : Entry.t) :
  hd_error (palette colorMap (totalElements elements)) = Some e ->
  hd_error (fst (extractColors elements colorMap cssVariables)) = Some e.
Proof.
  intros He. unfold extractColors. cbn [fst].
  set (p := palette colorMap (totalElements elements)) in *.
  assert (Hs : sortedByCount p) by apply palette_sorted.
  destruct p as [|e' rest]; [discriminate He|]. injection He as ->.
  unfold perceptuallyDeduped. cbn [forEach].
  destruct (forEach_grows (e :: rest) rest 1
              (visit (e :: rest) ([], []) e 0)) as (suffix & -> & _).
  now rewrite (visit_head Hs).
Qed.

(** What [deltaE] returns is a square root of a sum of squares or 999, and
    the test [below] decides the comparison of that number. *)
Lemma deltaE_shape (a b : str) :
  deltaE a b = Const 999 \/ exists z, (0 <= z)%Z /\ deltaE a b = Sqrt z.
Proof.
  unfold deltaE.
  destruct (hexToRgb a) as [[[r1 g1] b1]|]; [|now left].
  destruct (hexToRgb b) as [[[r2 g2] b2]|]; [|now left].
  right.
  exists ((r1 - r2) * (r1 - r2) + (g1 - g2) * (g1 - g2) + (b1 - b2) * (b1 - b2))%Z.
  split; [|reflexivity].
  pose proof (Z.square_nonneg (r1 - r2)). pose proof (Z.square_nonneg (g1 - g2)).
  pose proof (Z.square_nonneg (b1 - b2)). lia.
Qed.

Lemma below_value (d : distance) (k : Z) :
  (0 <= k)%Z ->
  match d with Sqrt z => (0 <= z)%Z | Const _ => True end ->
  below d k = true <-> (value d < IZR k)%R.
Proof.
  intros Hk Hd. destruct d as [z | z]; simpl.
  - rewrite Z.ltb_lt. split; [apply IZR_lt | apply lt_IZR].
  - rewrite Z.ltb_lt.
    assert (Hk' : (0 <= IZR k)%R) by now apply IZR_le.
    assert (Hz' : (0 <= IZR z)%R) by now apply IZR_le.
    rewrite <- (sqrt_square (IZR k)) at 1 by assumption.
    rewrite <- mult_IZR. split.
    + intros H. apply sqrt_lt_1_alt. split; [assumption | now apply IZR_lt].
    + intros H. apply lt_IZR. apply sqrt_lt_0_alt. exact H.
Qed.

(** The threshold of [extractColors] is the hundredth of the element count,
    rounded down, and at least 3. *)
Lemma threshold_floor (N : Z) : threshold N = Z.max 3 (N / 100).
Proof.
  unfold threshold, Qfloor, Qmult, inject_Z. cbn [Qnum Qden].
  now rewrite Z.mul_1_r.
Qed.

Lemma palette_counts (colorMap : list (str * Data.t)) (N : Z) (e : Entry.t) :
  In e (palette colorMap N) -> (threshold N <= Entry.count e)%Z.
Proof.
  unfold palette. intros H. apply sort_In in H.
  apply in_map_iff in H as ([k data] & <- & H).
  apply filter_In in H as [_ H]. unfold keep in H. cbn [snd] in H.
  destruct (Data.count data <? threshold N)%Z eqn:E; [discriminate H|].
  apply Z.ltb_ge in E. exact E.
Qed.

(** Claim C2, as amended: the inclusion threshold is max(3, floor(N / 100))
    for the element count N the analyzer takes; it does not decrease when N
    grows; and every colour left in the palette occurs at least that often. *)
Theorem threshold_amended
  (N M : Z) (colorMap : list (str * Data.t)) (e : Entry.t) :
  (N <= M)%Z -> In e (palette colorMap N) ->
  threshold N = Z.max 3 (N / 100) /\
  (threshold N <= threshold M)%Z /\
  (threshold N <= Entry.count e)%Z.
Proof.
  intros HNM He. split; [apply threshold_floor|]. split.
  - rewrite !threshold_floor.
    assert (N / 100 <= M / 100)%Z by (apply Z.div_le_mono; lia). lia.
  - now apply palette_counts with (colorMap := colorMap).
Qed.

Lemma threshold_amended_witness :
  threshold 450 = Z.max 3 (450 / 100) /\
  (threshold 450 <= threshold 1000)%Z /\
  (threshold 450 <= 4)%Z.
Proof.
  apply (@threshold_amended 450 1000 Examples.sampleColorMap
           (toEntry (lit "#6366f1",
                     Data.mk "rgb(99, 102, 241)" 4 100 [lit "btn-primary"]))).
  - lia.
  - vm_compute. left. reflexivity.
Defined.

(** Claim C2, as stated, fails: with 450 elements, all visible, one percent
    is 4.5, the threshold of the code is 4, and a colour counted 4 times,
    below the threshold of the claim, is in the palette. *)
Lemma threshold_rounds_down :
  let elements := repeat Examples.shown 450 in
  visibleCount elements = 450%Z /\
  onePercentThreshold elements == 45 # 10 /\
  threshold (totalElements elements) = 4%Z /\
  ~ inject_Z (threshold (totalElements elements)) == onePercentThreshold elements /\
  inject_Z 4 < onePercentThreshold elements /\
  map Entry.count (palette Examples.sampleColorMap (totalElements elements)) = [4%Z].
Proof.
  cbv zeta. repeat split; try (vm_compute; reflexivity).
  vm_compute. discriminate.
Qed.

(** The element count of the threshold includes the elements the walk
    skips. *)
Lemma threshold_counts_all_elements :
  let elements := repeat Examples.concealed 300 ++ repeat Examples.shown 200 in
  visibleCount elements = 200%Z /\
  totalElements elements = 500%Z /\
  threshold (totalElements elements) = 5%Z /\
  threshold (visibleCount elements) = 3%Z.
Proof. cbv zeta. repeat split; vm_compute; reflexivity. Qed.

End Palette.

(** ** Accessibility audit *)

Section Audit.
Import JS Regex Accessibility Spec.

Lemma withSeverity_count (s : str) (l : list issue) :
  withSeverity s l = countSeverity s l.
Proof.
  unfold withSeverity. induction l as [|i l IH]; [reflexivity|].
  cbn [filter countSeverity]. destruct (str_eqb (severity i) s).
  - cbn [List.length]. rewrite Nat2Z.inj_succ, IH. lia.
  - rewrite IH. lia.
Qed.

(** Claim C5: the score of the summary is max(0, 100 - 15 errors - 5
    warnings), errors and warnings being the numbers of issues of severity
    error and warning, and the audit passes minimum AA exactly when there is
    no error. *)
Theorem summary_score (p : page) :
  let a := fst (extractAccessibilityAudit p) in
  let sm := snd (extractAccessibilityAudit p) in
  errors sm = countSeverity "error" (issues a) /\
  warnings sm = countSeverity "warning" (issues a) /\
  score sm = Z.max 0 (100 - 15 * countSeverity "error" (issues a)
                          - 5 * countSeverity "warning" (issues a)) /\
  (passesMinimumAA sm = true <-> countSeverity "error" (issues a) = 0%Z).
Proof.
  cbv zeta. unfold extractAccessibilityAudit. cbn [fst snd].
  unfold summarize, limit. cbn [errors warnings score passesMinimumAA issues].
  rewrite !withSeverity_count. repeat split; lia.
Qed.

(** The condition of the image loop never holds: the negation binds
    tighter than the comparison, and a boolean is never equal to a
    string. *)
Lemma countsAsMissing_never (img : image) : countsAsMissing img = false.
Proof.
  unfold countsAsMissing, andV, notV, strictEq.
  destruct (truthy (VBool (negb (truthy (VString (alt img)))))) eqn:E;
    [reflexivity | exact E].
Qed.

Lemma checkImages_counts_nothing (p : page) (a : audit) :
  missingAltText a = 0%Z ->
  checkImages p a = a.
Proof.
  intros Ha. unfold checkImages.
  assert (E : fold_left
                (fun (n : Z) img => if countsAsMissing img then (n + 1)%Z else n)
                (images p) (missingAltText a) = 0%Z).
  { rewrite Ha. induction (images p) as [|img l IH]; [reflexivity|].
    cbn [fold_left]. now rewrite countsAsMissing_never. }
  rewrite E. cbn [Z.ltb Z.compare]. destruct a; cbn in *; congruence.
Qed.

Lemma pushIssue_untouched (a : audit) (i : issue) :
  imagesUntouched a -> type i <> lit "images" -> imagesUntouched (pushIssue a i).
Proof.
  intros [H1 H2] Hi. split; [exact H1|].
  cbn [pushIssue issues]. apply Forall_app. split; [exact H2|]. now constructor.
Qed.

Lemma checkText_untouched (st : audit * list str) (el : textElement) :
  imagesUntouched (fst st) -> imagesUntouched (fst (checkText st el)).
Proof.
  destruct st as [a seen]. cbn [fst]. intros Ha. unfold checkText.
  destruct (hidden el); [exact Ha|].
  destruct (arr_includes seen _); [exact Ha|].
  destruct (parseRgb (color el)) as [fg|]; [|exact Ha].
  destruct (parseRgb (backgroundColor el)) as [bg|]; [|exact Ha].
  destruct (str_eqb (backgroundColor el) _); [exact Ha|].
  cbv zeta. destruct (negb (passesAA _)); cbn [fst].
  - apply pushIssue_untouched; [exact Ha | discriminate].
  - exact Ha.
Qed.

Lemma checkContrast_untouched (p : page) (a : audit) :
  imagesUntouched a -> imagesUntouched (checkContrast p a).
Proof.
  unfold checkContrast. generalize (@nil str) as seen.
  revert a. induction (textElements p) as [|el l IH]; intros a seen Ha;
    cbn [fold_left]; [exact Ha|].
  destruct (checkText (a, seen) el) as [a' seen'] eqn:E.
  apply IH. change a' with (fst (a', seen')). rewrite <- E.
  now apply checkText_untouched.
Qed.

Lemma checkLabels_untouched (p : page) (a : audit) :
  imagesUntouched a -> imagesUntouched (checkLabels p a).
Proof.
  intros Ha. unfold checkLabels. cbv zeta.
  destruct (0 <? _)%Z.
  - apply pushIssue_untouched; [exact Ha | discriminate].
  - exact Ha.
Qed.

Lemma checkHeading_untouched (st : audit * Z) (h : heading) :
  imagesUntouched (fst st) -> imagesUntouched (fst (checkHeading st h)).
Proof.
  destruct st as [a prev]. cbn [fst]. intros Ha. unfold checkHeading. cbv zeta.
  destruct (_ && _); cbn [fst].
  - apply pushIssue_untouched; [exact Ha | discriminate].
  - exact Ha.
Qed.

Lemma checkHeadings_untouched (p : page) (a : audit) :
  imagesUntouched a -> imagesUntouched (checkHeadings p a).
Proof.
  intros Ha. unfold checkHeadings.
  assert (H : forall l st, imagesUntouched (fst st) ->
                imagesUntouched (fst (fold_left checkHeading l st))).
  { induction l as [|h l IH]; intros st Hst; cbn [fold_left]; [exact Hst|].
    apply IH. now apply checkHeading_untouched. }
  specialize (H (headings p) (a, 0%Z) Ha). cbv zeta.
  destruct (negb _).
  - apply pushIssue_untouched; [exact H | discriminate].
  - exact H.
Qed.

Lemma checkFocus_untouched (p : page) (a : audit) :
  imagesUntouched a -> imagesUntouched (checkFocus p a).
Proof.
  unfold checkFocus. cbv zeta. revert a.
  induction (firstn 10 (focusableElements p)) as [|el l IH]; intros a Ha;
    cbn [fold_left]; [exact Ha|].
  apply IH. destruct (negb (hasFocusIndicator el)); exact Ha.
Qed.

(** Whatever the page, the audit reports no image without alt text. *)
Lemma missingAltText_always_zero (p : page) :
  missingAltText (fst (extractAccessibilityAudit p)) = 0%Z /\
  Forall (fun i => type i <> lit "images")
    (issues (fst (extractAccessibilityAudit p))).
Proof.
  unfold extractAccessibilityAudit. cbn [fst].
  assert (H0 : imagesUntouched (checkContrast p empty)).
  { apply checkContrast_untouched. split; [reflexivity | constructor]. }
  rewrite (@checkImages_counts_nothing p (checkContrast p empty)) by apply H0.
  apply checkLabels_untouched with (p := p) in H0.
  apply checkHeadings_untouched with (p := p) in H0.
  apply checkFocus_untouched with (p := p) in H0.
  exact H0.
Qed.

(** Claim C1 against the code: on a page whose one image has neither alt
    text nor a role, one image lacks alt text in the sense of the claim,
    yet the audit counts none and its only issue is the one about
    headings. *)
Theorem alt_less_image_not_counted :
  imagesLackingAlt Examples.bareImagePage = 1%Z /\
  missingAltText (fst (extractAccessibilityAudit Examples.bareImagePage)) = 0%Z /\
  map type (issues (fst (extractAccessibilityAudit Examples.bareImagePage)))
    = [lit "headings"].
Proof. repeat split; vm_compute; reflexivity. Qed.

(** *** Contrast *)

Local Open Scope R_scope.

Lemma linear_0 : linear 0 = 0.
Proof. unfold linear. cbv zeta. destruct (Rle_dec _ _); lra. Qed.

Lemma Rpower_one (y : R) : Rpower 1 y = 1.
Proof. unfold Rpower. now rewrite ln_1, Rmult_0_r, exp_0. Qed.

Lemma linear_255 : linear 255 = 1.
Proof.
  unfold linear. cbv zeta. destruct (Rle_dec _ _) as [H | _]; [lra|].
  replace ((255 / 255 + 0.055) / 1.055) with 1 by lra.
  apply Rpower_one.
Qed.

(** [Math.pow(x, 2.4)] is the number whose fifth power is the twelfth
    power of [x]. *)
Lemma Rpower_12_5 (x : R) : 0 < x -> Rpower x 2.4 ^ 5 = x ^ 12.
Proof.
  intros Hx.
  rewrite <- (Rpower_pow 5) by apply exp_pos.
  rewrite Rpower_mult.
  replace (2.4 * INR 5) with (INR 12) by (simpl; lra).
  now apply Rpower_pow.
Qed.

Lemma linear_150 : 0.2 < linear 150 < 1.
Proof.
  unfold linear. cbv zeta. destruct (Rle_dec _ _) as [H | _]; [lra|].
  set (x := (150 / 255 + 0.055) / 1.055).
  assert (Hx : 0.6 <= x <= 0.61) by (unfold x; lra).
  assert (Hy : 0 < Rpower x 2.4) by apply exp_pos.
  assert (E : Rpower x 2.4 ^ 5 = x ^ 12) by (apply Rpower_12_5; lra).
  assert (Hlo : 0.6 ^ 12 <= x ^ 12) by (apply pow_incr; lra).
  assert (Hhi : x ^ 12 <= 0.61 ^ 12) by (apply pow_incr; lra).
  split.
  - destruct (Rlt_le_dec 0.2 (Rpower x 2.4)) as [Hlt | Hle]; [exact Hlt|].
    assert (H5 : Rpower x 2.4 ^ 5 <= 0.2 ^ 5) by (apply pow_incr; lra).
    simpl in H5, Hlo. lra.
  - destruct (Rlt_le_dec (Rpower x 2.4) 1) as [Hlt | Hle]; [exact Hlt|].
    assert (H5 : 1 ^ 5 <= Rpower x 2.4 ^ 5) by (apply pow_incr; lra).
    simpl in H5, Hhi. lra.
Qed.

Lemma luminance_black : getLuminance 0 0 0 = 0.
Proof. unfold getLuminance. rewrite linear_0. lra. Qed.

Lemma luminance_white : getLuminance 255 255 255 = 1.
Proof. unfold getLuminance. rewrite linear_255. lra. Qed.

Lemma luminance_gray : 0.2 < getLuminance 150 150 150 < 1.
Proof. unfold getLuminance. pose proof linear_150. lra. Qed.

Lemma ratio_black_white : getContrastRatio 0 1 = 21.
Proof.
  unfold getContrastRatio. cbv zeta.
  rewrite Rmax_right, Rmin_left by lra. lra.
Qed.

Lemma ratio_gray_white :
  1 < getContrastRatio (getLuminance 150 150 150) 1 < 4.2.
Proof.
  pose proof luminance_gray as [H1 H2]. unfold getContrastRatio. cbv zeta.
  rewrite Rmax_right, Rmin_left by lra.
  set (y := getLuminance 150 150 150) in *.
  assert (Hpos : 0 < y + 0.05) by lra.
  split.
  - apply (Rmult_lt_reg_r (y + 0.05)); [exact Hpos|].
    unfold Rdiv. rewrite Rmult_assoc, Rinv_l by lra. lra.
  - apply (Rmult_lt_reg_r (y + 0.05)); [exact Hpos|].
    unfold Rdiv. rewrite Rmult_assoc, Rinv_l by lra. lra.
Qed.

Lemma round2_21 : round2 21 = 21.
Proof.
  unfold round2. rewrite <- (Int_part_spec (21 * 100 + / 2) 2100); lra.
Qed.

Lemma round2_le (x : R) : round2 x <= x + 0.005.
Proof.
  unfold round2. destruct (base_Int_part (x * 100 + / 2)) as [H _]. lra.
Qed.

Lemma geb_true (x y : R) : y <= x -> geb x y = true.
Proof. intros H. unfold geb. now destruct (Rle_dec y x). Qed.

Lemma geb_false (x y : R) : x < y -> geb x y = false.
Proof. intros H. unfold geb. destruct (Rle_dec y x); [lra | reflexivity]. Qed.

(** The two spellings of a computed colour read the same. *)
Lemma parseRgb_samples :
  parseRgb "rgb(0,0,0)" = Some (0, 0, 0)%Z /\
  parseRgb "rgb(0, 0, 0)" = Some (0, 0, 0)%Z /\
  parseRgb "rgb(255,255,255)" = Some (255, 255, 255)%Z /\
  parseRgb "rgb(255, 255, 255)" = Some (255, 255, 255)%Z /\
  parseRgb "rgb(150,150,150)" = Some (150, 150, 150)%Z /\
  parseRgb "rgb(150, 150, 150)" = Some (150, 150, 150)%Z.
Proof. repeat split; reflexivity. Qed.

Lemma transparent_parses (s : str) :
  str_eqb s "rgba(0, 0, 0, 0)" = true -> parseRgb s = Some (0, 0, 0)%Z.
Proof. intros H. apply str_eqb_eq in H. subst s. reflexivity. Qed.

(** The audit of a page with one visible text element whose two colours
    parse. *)
Lemma checkContrast_single (p : page) (el : textElement) (fg bg : Z * Z * Z) :
  textElements p = [el] -> hidden el = false ->
  parseRgb (color el) = Some fg -> parseRgb (backgroundColor el) = Some bg ->
  str_eqb (backgroundColor el) "rgba(0, 0, 0, 0)" = false ->
  let c := measure (color el) (backgroundColor el) (fontSize el) (fontWeight el)
             fg bg in
  colorContrast (checkContrast p empty) = [c] /\
  issues (checkContrast p empty) =
    if passesAA c then []
    else [mkIssue "contrast" "error"
            (InsufficientContrast (ratio c) (largeText c)
               (aaRequired (largeText c)))].
Proof.
  intros Hp Hh Hfg Hbg Ht. unfold checkContrast. rewrite Hp.
  cbn [fold_left]. unfold checkText. rewrite Hh.
  cbn [arr_includes existsb]. rewrite Hfg, Hbg, Ht. cbv zeta.
  destruct (passesAA _); cbn; split; reflexivity.
Qed.

(** Claim C4: black on white has contrast ratio 21 and passes AAA, for large
    and for normal text, and no issue is recorded; gray (150, 150, 150) on
    white at 14px and weight 400 is normal text with a ratio below 4.5, it
    fails AA, and an error is recorded. *)
Theorem contrast_scenarios (p q : page) (black gray : textElement) :
  textElements p = [black] -> hidden black = false ->
  parseRgb (color black) = Some (0, 0, 0)%Z ->
  parseRgb (backgroundColor black) = Some (255, 255, 255)%Z ->
  textElements q = [gray] -> hidden gray = false ->
  parseRgb (color gray) = Some (150, 150, 150)%Z ->
  parseRgb (backgroundColor gray) = Some (255, 255, 255)%Z ->
  fontSize gray = lit "14px" -> fontWeight gray = lit "400" ->
  getContrastRatio (getLuminance 0 0 0) (getLuminance 255 255 255) = 21 /\
  (exists c, colorContrast (checkContrast p empty) = [c] /\ ratio c = 21 /\
             passesAA c = true /\ passesAAA c = true /\ wcagLevel c = lit "AAA") /\
  issues (checkContrast p empty) = [] /\
  geb 21 (aaaRequired true) = true /\ geb 21 (aaaRequired false) = true /\
  getContrastRatio (getLuminance 150 150 150) (getLuminance 255 255 255) < 4.5 /\
  (exists c, colorContrast (checkContrast q empty) = [c] /\ ratio c < 4.5 /\
             largeText c = false /\ passesAA c = false /\
             wcagLevel c = lit "Fail") /\
  (exists i, issues (checkContrast q empty) = [i] /\
             type i = lit "contrast" /\ severity i = lit "error").
Proof.
  intros Hp Hhb Hfb Hbb Hq Hhg Hfg Hbg Hsize Hweight.
  assert (Hopaque : forall el, parseRgb (backgroundColor el)
                      = Some (255, 255, 255)%Z ->
                    str_eqb (backgroundColor el) "rgba(0, 0, 0, 0)" = false).
  { intros el H. destruct (str_eqb _ _) eqn:E; [|reflexivity].
    apply transparent_parses in E. congruence. }
  assert (Ebw : getContrastRatio (getLuminance 0 0 0) (getLuminance 255 255 255)
                = 21)
    by (rewrite luminance_black, luminance_white; apply ratio_black_white).
  assert (Egw : getContrastRatio (getLuminance 150 150 150)
                  (getLuminance 255 255 255) < 4.2)
    by (rewrite luminance_white; apply ratio_gray_white).
  destruct (checkContrast_single p Hp Hhb Hfb Hbb (Hopaque _ Hbb)) as [Hc1 Hi1].
  destruct (checkContrast_single q Hq Hhg Hfg Hbg (Hopaque _ Hbg)) as [Hc2 Hi2].
  cbv zeta in *.
  set (c1 := measure (color black) _ _ _ _ _) in *.
  set (c2 := measure (color gray) _ _ _ _ _) in *.
  assert (H1 : ratio c1 = 21 /\ passesAA c1 = true /\ passesAAA c1 = true /\
               wcagLevel c1 = lit "AAA").
  { unfold c1, measure. cbn [ratio passesAA passesAAA wcagLevel].
    rewrite Ebw.
    assert (Ha : geb 21 (aaRequired (isLargeText (fontSize black) (fontWeight black)))
                 = true)
      by (apply geb_true; destruct (isLargeText _ _); unfold aaRequired; lra).
    assert (Haaa : geb 21 (aaaRequired (isLargeText (fontSize black) (fontWeight black)))
                   = true)
      by (apply geb_true; destruct (isLargeText _ _); unfold aaaRequired; lra).
    rewrite Ha, Haaa. repeat split. apply round2_21. }
  assert (H2 : ratio c2 < 4.5 /\ largeText c2 = false /\ passesAA c2 = false /\
               wcagLevel c2 = lit "Fail").
  { unfold c2, measure. cbn [ratio passesAA passesAAA wcagLevel largeText].
    rewrite Hsize, Hweight.
    assert (Hl : isLargeText "14px" "400" = false) by reflexivity.
    rewrite Hl.
    assert (Ha : geb (getContrastRatio (getLuminance 150 150 150)
                        (getLuminance 255 255 255)) (aaRequired false) = false)
      by (apply geb_false; unfold aaRequired; lra).
    assert (Haaa : geb (getContrastRatio (getLuminance 150 150 150)
                          (getLuminance 255 255 255)) (aaaRequired false) = false)
      by (apply geb_false; unfold aaaRequired; lra).
    rewrite Ha, Haaa. repeat split.
    pose proof (round2_le (getContrastRatio (getLuminance 150 150 150)
                             (getLuminance 255 255 255))). lra. }
  destruct H1 as (R1 & A1 & AAA1 & W1). destruct H2 as (R2 & L2 & A2 & W2).
  rewrite A1 in Hi1. rewrite A2 in Hi2.
  split; [exact Ebw|].
  split; [exists c1; auto|].
  split; [exact Hi1|].
  split; [apply geb_true; unfold aaaRequired; lra|].
  split; [apply geb_true; unfold aaaRequired; lra|].
  split; [lra|].
  split; [exists c2; auto|].
  eexists. split; [exact Hi2|]. split; reflexivity.
Qed.

Lemma contrast_scenarios_witness :
  issues (checkContrast (Examples.pageOf Examples.blackOnWhite) empty) = [] /\
  exists i, issues (checkContrast (Examples.pageOf Examples.grayOnWhite) empty) = [i] /\
            type i = lit "contrast" /\ severity i = lit "error".
Proof.
  destruct (@contrast_scenarios
              (Examples.pageOf Examples.blackOnWhite)
              (Examples.pageOf Examples.grayOnWhite)
              Examples.blackOnWhite Examples.grayOnWhite)
    as (_ & _ & H1 & _ & _ & _ & _ & H2); try reflexivity.
  split; assumption.
Defined.

End Audit.

(** ** Button candidate filter *)

Section ButtonFilter.
Import JS Buttons Spec.

Lemma Qltb_true (a b : Q) : Qltb a b = true <-> a < b.
Proof.
  unfold Qltb. rewrite negb_true_iff, <- not_true_iff_false, Qle_bool_iff.
  split; [apply Qnot_le_lt | apply Qlt_not_le].
Qed.

(** A candidate wider than 600px is rejected. *)
Lemma too_wide_rejected (btn : element) : 600 < width btn -> retained btn = false.
Proof.
  intros H. apply Qltb_true in H. unfold retained.
  destruct (_ || _ || _ || _); [reflexivity|].
  destruct (str_eqb (opacity btn) _); [reflexivity|].
  destruct (str_eqb (transform btn) _); [reflexivity|].
  now rewrite H, orb_true_r.
Qed.

(** A candidate whose text has the token [skip] is rejected. *)
Lemma skip_rejected (btn : element) : hasSkipToken btn = true -> retained btn = false.
Proof.
  unfold hasSkipToken. intros H. unfold retained. cbv zeta.
  repeat match goal with
         | |- (if ?c then false else _) = false =>
             destruct c eqn:?; [reflexivity|]
         end.
  congruence.
Qed.

(** A displayed candidate of the given size whose text is short, on one
    line and free of the rejected tokens, and which has a background or a
    border, is kept. *)
Lemma retained_when (btn : element) (w h : Q) (t : str) :
  width btn == w -> height btn == h -> displayed btn = true ->
  glyphFree btn = true -> buttonText btn = t ->
  (Qeq_bool w 0 || Qeq_bool h 0 || Qltb w 10 || Qltb 600 w || Qltb h 25 ||
   Qltb 200 h || Qltb (12 # 10) (h / w) || Qltb 8 (w / h)) = false ->
  (let n := List.length (join (split " " t)) in
   (0 <? n)%nat && (n <? 2)%nat || (32 <? n)%nat ||
   includes t [ascii_of_nat 10] || includes t [ascii_of_nat 9] ||
   str_eqb (toLowerCase t) "ad" ||
   arr_includes (split " " (toLowerCase t)) "skip" ||
   arr_includes (split " " (toLowerCase t)) "jump") = false ->
  hasBackground btn || hasBorder btn = true ->
  retained btn = true.
Proof.
  intros Hw Hh Hd Hg Ht Hsize Htext Hstyle.
  unfold displayed in Hd. unfold glyphFree in Hg.
  repeat (apply andb_true_iff in Hd as [Hd ?]).
  apply andb_true_iff in Hg as [Hg1 Hg2].
  apply Nat.eqb_eq in Hg1, Hg2.
  repeat match goal with
         | H : negb _ = true |- _ => apply negb_true_iff in H
         end.
  cbv zeta in Htext.
  repeat (apply orb_false_iff in Hsize as [Hsize ?]).
  repeat (apply orb_false_iff in Htext as [Htext ?]).
  unfold retained. cbv zeta. rewrite Ht.
  unfold Qltb in *. rewrite !Hw, !Hh, Hg1, Hg2.
  repeat match goal with
         | H : ?c = false |- context [?c] => rewrite H
         end.
  cbn [orb negb andb Nat.ltb Nat.leb].
  apply orb_true_iff in Hstyle as [-> | ->]; [reflexivity|].
  now rewrite andb_false_r.
Qed.

(** Claim C6: a displayed 300 by 40 candidate with a background that is not
    transparent and the text Sign Up is kept; a candidate wider than 600px
    is rejected; a candidate whose text has the token skip is rejected; a
    displayed 40 by 40 native button with empty text, a transparent
    background and a border of positive width is kept. *)
Theorem button_filter (signUp wide skip icon : element) :
  width signUp == 300 -> height signUp == 40 -> displayed signUp = true ->
  glyphFree signUp = true -> innerText signUp = Some (lit "Sign Up") ->
  hasBackground signUp = true ->
  600 < width wide ->
  hasSkipToken skip = true ->
  isNativeButton icon = true ->
  width icon == 40 -> height icon == 40 -> displayed icon = true ->
  glyphFree icon = true -> innerText icon = Some (lit "") ->
  hasBackground icon = false -> hasBorder icon = true ->
  retained signUp = true /\ retained wide = false /\
  retained skip = false /\ retained icon = true.
Proof.
  intros Hw Hh Hd Hg Ht Hb Hwide Hskip _ Hw' Hh' Hd' Hg' Ht' _ Hb'.
  split; [|split; [|split]].
  - apply retained_when with (w := 300) (h := 40) (t := lit "Sign Up");
      try assumption; try reflexivity.
    + unfold buttonText. now rewrite Ht.
    + now rewrite Hb.
  - now apply too_wide_rejected.
  - now apply skip_rejected.
  - apply retained_when with (w := 40) (h := 40) (t := lit "");
      try assumption; try reflexivity.
    + unfold buttonText. now rewrite Ht'.
    + now rewrite Hb', orb_true_r.
Qed.

Lemma button_filter_witness :
  retained Examples.signUp = true /\ retained Examples.banner = false /\
  retained Examples.skipLink = false /\ retained Examples.iconButton = true.
Proof.
  apply (@button_filter Examples.signUp Examples.banner Examples.skipLink
           Examples.iconButton); reflexivity.
Defined.

End ButtonFilter.

(** ** Spacing scale *)

Section SpacingScale.
Import JS Spacing Spec.

Lemma Qtrunc_Z (x : Q) (n : Z) : x == inject_Z n -> Qtrunc x = n.
Proof.
  intros H. unfold Qtrunc. destruct (Qnum x <? 0)%Z.
  - rewrite H. apply Qceiling_Z.
  - rewrite H. apply Qfloor_Z.
Qed.

(** The remainder test holds exactly for the whole multiples. *)
Lemma multipleOf_spec (k : Q) (v : commonValue) :
  0 < k ->
  multipleOf k v = true <-> exists n : Z, px v == k * inject_Z n.
Proof.
  intros Hk. unfold multipleOf, Qrem. rewrite Qeq_bool_iff. split.
  - intros H. exists (Qtrunc (px v / k)).
    rewrite <- (Qplus_0_r (k * _)), <- H. ring.
  - intros [n Hn].
    assert (E : px v / k == inject_Z n).
    { rewrite Hn. field. intros E. rewrite E in Hk. discriminate Hk. }
    rewrite (Qtrunc_Z E), Hn. ring.
Qed.

Lemma scaleTypeOf_cases (values : list commonValue) :
  scaleTypeOf values =
    if existsb (multipleOf 8) values then lit "8px"
    else if existsb (multipleOf 4) values then lit "4px" else lit "custom".
Proof. reflexivity. Qed.

(** Claim C9, as amended: the scale is reported as 8px exactly when at least
    one of the most frequent spacing values is a whole multiple of 8, as 4px
    exactly when none is a multiple of 8 and at least one is a multiple of
    4, and as custom exactly when none is a multiple of 4 or of 8. *)
Theorem scale_inference (elements : list element) :
  let scaleType := fst (extractSpacing elements) in
  let values := snd (extractSpacing elements) in
  values = commonValues elements /\
  (scaleType = lit "8px" <->
     exists v, In v values /\ exists n : Z, px v == 8 * inject_Z n) /\
  (scaleType = lit "4px" <->
     (forall v, In v values -> ~ exists n : Z, px v == 8 * inject_Z n) /\
     exists v, In v values /\ exists n : Z, px v == 4 * inject_Z n) /\
  (scaleType = lit "custom" <->
     (forall v, In v values -> ~ exists n : Z, px v == 8 * inject_Z n) /\
     (forall v, In v values -> ~ exists n : Z, px v == 4 * inject_Z n)).
Proof.
  cbv zeta. unfold extractSpacing. cbn [fst snd].
  set (values := commonValues elements).
  rewrite scaleTypeOf_cases.
  assert (H8 : existsb (multipleOf 8) values = true <->
               exists v, In v values /\ exists n : Z, px v == 8 * inject_Z n).
  { rewrite existsb_exists. split; intros (v & Hv & H); exists v; split; auto;
      apply (@multipleOf_spec 8 v); auto; reflexivity. }
  assert (H4 : existsb (multipleOf 4) values = true <->
               exists v, In v values /\ exists n : Z, px v == 4 * inject_Z n).
  { rewrite existsb_exists. split; intros (v & Hv & H); exists v; split; auto;
      apply (@multipleOf_spec 4 v); auto; reflexivity. }
  assert (N8 : existsb (multipleOf 8) values = false <->
               forall v, In v values -> ~ exists n : Z, px v == 8 * inject_Z n).
  { rewrite <- not_true_iff_false, H8. split.
    - intros H v Hv Hn. apply H. now exists v.
    - intros H (v & Hv & Hn). exact (H v Hv Hn). }
  assert (N4 : existsb (multipleOf 4) values = false <->
               forall v, In v values -> ~ exists n : Z, px v == 4 * inject_Z n).
  { rewrite <- not_true_iff_false, H4. split.
    - intros H v Hv Hn. apply H. now exists v.
    - intros H (v & Hv & Hn). exact (H v Hv Hn). }
  split; [reflexivity|].
  rewrite <- H8, <- H4, <- N8, <- N4.
  destruct (existsb (multipleOf 8) values), (existsb (multipleOf 4) values);
    repeat split; intros; try discriminate; try reflexivity; try tauto;
    intuition discriminate.
Qed.

(** Claim C9, as stated, fails: of the two most frequent values 5 and 8 the
    first is no multiple of 8, and the scale is reported as 8px. *)
Lemma scale_8px_with_odd_value :
  map px (snd (extractSpacing Examples.spacingMix)) = [5; 8] /\
  forallb (multipleOf 8) (snd (extractSpacing Examples.spacingMix)) = false /\
  fst (extractSpacing Examples.spacingMix) = lit "8px".
Proof. repeat split; vm_compute; reflexivity. Qed.

End SpacingScale.

(** * Further properties *)

Section PaletteRule.
Import JS Colors Facts.

Lemma usageAbove40_int (c N : Z) :
  (0 < N)%Z -> usageAbove40 c N = true <-> (40 * N < 100 * c)%Z.
Proof.
  intros HN. unfold usageAbove40.
  destruct (Z.eqb_spec N 0) as [->|_]; [lia|].
  rewrite Qltb_true. destruct N as [|n|n]; try lia.
  unfold Qlt, Qdiv, Qmult, Qinv, inject_Z. cbn [Qnum Qden]. lia.
Qed.

Lemma lowScore_int (s c : Z) :
  Qltb (inject_Z s) (inject_Z c * (12 # 10)) = true <-> (5 * s < 6 * c)%Z.
Proof.
  rewrite Qltb_true. unfold Qlt, Qmult, inject_Z. cbn [Qnum Qden]. lia.
Qed.

Lemma str_eqb_false (a b : str) : str_eqb a b = false <-> a <> b.
Proof. unfold str_eqb. destruct (list_eq_dec ascii_dec a b); split; congruence. Qed.

Lemma isStructuralColor_int (d : Data.t) (N : Z) :
  (0 < N)%Z ->
  isStructuralColor d N = false <->
  Data.original d <> lit "rgba(0, 0, 0, 0)" /\
  Data.original d <> lit "transparent" /\
  (100 * Data.count d <= 40 * N \/ 6 * Data.count d <= 5 * Data.score d)%Z.
Proof.
  intros HN. unfold isStructuralColor.
  destruct (str_eqb (Data.original d) "rgba(0, 0, 0, 0)") eqn:E1.
  { apply str_eqb_eq in E1. cbn [orb]. split; [discriminate | tauto]. }
  destruct (str_eqb (Data.original d) "transparent") eqn:E2.
  { apply str_eqb_eq in E2. cbn [orb]. split; [discriminate | tauto]. }
  apply str_eqb_false in E1, E2. cbn [orb].
  pose proof (usageAbove40_int (Data.count d) HN) as H1.
  pose proof (lowScore_int (Data.score d) (Data.count d)) as H2.
  destruct (usageAbove40 (Data.count d) N);
    destruct (Qltb (inject_Z (Data.score d)) (inject_Z (Data.count d) * (12 # 10)));
    cbn [andb]; split; try discriminate; try tauto.
  - intros (_ & _ & [H | H]).
    + assert (40 * N < 100 * Data.count d)%Z by now apply H1. lia.
    + assert (5 * Data.score d < 6 * Data.count d)%Z by now apply H2. lia.
  - intros _. repeat split; try assumption. right.
    destruct (Z_lt_le_dec (5 * Data.score d) (6 * Data.count d)) as [Hlt|]; [|lia].
    apply H2 in Hlt. discriminate.
  - intros _. repeat split; try assumption. left.
    destruct (Z_lt_le_dec (40 * N) (100 * Data.count d)) as [Hlt|]; [|lia].
    apply H1 in Hlt. discriminate.
  - intros _. repeat split; try assumption. left.
    destruct (Z_lt_le_dec (40 * N) (100 * Data.count d)) as [Hlt|]; [|lia].
    apply H1 in Hlt. discriminate.
Qed.

(** Property X1: the selection rule of the palette in whole numbers.  Over [N > 0]
    elements, the palette holds exactly the entries of the colour map that
    were counted at least max(3, N / 100) times, whose first-seen value is
    neither of the two transparent keywords, and that either are used by at
    most 40 elements in 100 or score at least 1.2 times their count. *)
Theorem palette_selection_rule
  (colorMap : list (str * Data.t)) (N : Z) (e : Entry.t) :
  (0 < N)%Z ->
  In e (palette colorMap N) <->
  exists k d,
    In (k, d) colorMap /\ e = toEntry (k, d) /\
    (Z.max 3 (N / 100) <= Data.count d)%Z /\
    Data.original d <> lit "rgba(0, 0, 0, 0)" /\
    Data.original d <> lit "transparent" /\
    (100 * Data.count d <= 40 * N \/ 6 * Data.count d <= 5 * Data.score d)%Z.
Proof.
  intros HN. unfold palette. rewrite sort_In, in_map_iff. split.
  - intros ([k d] & <- & H). apply filter_In in H as [Hin H].
    exists k, d. split; [exact Hin|]. split; [reflexivity|].
    unfold keep in H. cbn [snd] in H. rewrite threshold_floor in H.
    destruct (Data.count d <? Z.max 3 (N / 100))%Z eqn:E; [discriminate H|].
    apply Z.ltb_ge in E. split; [exact E|].
    destruct (isStructuralColor d N) eqn:Es; [discriminate H|].
    now apply isStructuralColor_int in Es.
  - intros (k & d & Hin & -> & Hc & H1 & H2 & H3).
    exists (k, d). split; [reflexivity|]. apply filter_In. split; [exact Hin|].
    unfold keep. cbn [snd]. rewrite threshold_floor.
    apply Z.ltb_ge in Hc. rewrite Hc.
    assert (Es : isStructuralColor d N = false)
      by (apply isStructuralColor_int; [exact HN | tauto]).
    now rewrite Es.
Qed.

Lemma palette_selection_rule_witness :
  In (toEntry (lit "#6366f1",
               Data.mk "rgb(99, 102, 241)" 4 100 [lit "btn-primary"]))
     (palette Examples.sampleColorMap 450).
Proof.
  apply (@palette_selection_rule Examples.sampleColorMap 450); [lia|].
  exists (lit "#6366f1"),
    (Data.mk "rgb(99, 102, 241)" 4 100 [lit "btn-primary"]).
  split; [left; reflexivity|]. split; [reflexivity|].
  split; [vm_compute; discriminate|].
  split; [discriminate|]. split; [discriminate|].
  left. vm_compute. discriminate.
Defined.

End PaletteRule.

Section Distance.
Import JS Regex Colors Facts.

Lemma run_Pair (class : ascii -> bool) (k : list atom) (s : str) (groups : list str) :
  run (Pair class :: k) s groups
  = match s with
    | a :: b :: r =>
        if class a && class b then run k r ([a; b] :: groups) else None
    | _ => None
    end.
Proof. reflexivity. Qed.

Lemma run_End (k : list atom) (s : str) (groups : list str) :
  run (End :: k) s groups
  = match s with
    | [] => run k s groups
    | _ :: _ => None
    end.
Proof. reflexivity. Qed.

(** What [hexToRgb] accepts: [#] and exactly six hexadecimal digits. *)
Lemma hexToRgb_inv (x : str) (r g b : Z) :
  hexToRgb x = Some (r, g, b) ->
  exists a1 a2 b1 b2 c1 c2,
    x = "#"%char :: [a1; a2; b1; b2; c1; c2] /\
    forallb isHexDigit [a1; a2; b1; b2; c1; c2] = true /\
    r = parseHex [a1; a2] /\ g = parseHex [b1; b2] /\ b = parseHex [c1; c2].
Proof.
  unfold hexToRgb. destruct x as [|c0 x]; [discriminate|].
  destruct (startsWith (c0 :: x) "#") eqn:E0; [|discriminate].
  apply startsWith_head in E0. subst c0. cbn [negb].
  unfold exec, hexPattern. rewrite run_Maybe. cbv beta iota.
  match goal with |- context [Ascii.eqb ?u ?v] => change (Ascii.eqb u v) with true end.
  cbv beta iota.
  assert (Hfall : run [Pair isHexDigit; Pair isHexDigit; Pair isHexDigit; End]
                    ("#"%char :: x) [] = None).
  { rewrite run_Pair. destruct x as [|y x]; [reflexivity|].
    change (isHexDigit "#") with false. reflexivity. }
  rewrite Hfall.
  destruct x as [|a1 [|a2 x]]; try (rewrite run_Pair; discriminate).
  rewrite run_Pair. destruct (isHexDigit a1) eqn:H1; [|discriminate].
  destruct (isHexDigit a2) eqn:H2; [|discriminate]. cbn [andb].
  destruct x as [|b1 [|b2 x]]; try (rewrite run_Pair; discriminate).
  rewrite run_Pair. destruct (isHexDigit b1) eqn:H3; [|discriminate].
  destruct (isHexDigit b2) eqn:H4; [|discriminate]. cbn [andb].
  destruct x as [|c1 [|c2 x]]; try (rewrite run_Pair; discriminate).
  rewrite run_Pair. destruct (isHexDigit c1) eqn:H5; [|discriminate].
  destruct (isHexDigit c2) eqn:H6; [|discriminate]. cbn [andb].
  rewrite run_End. destruct x; [|discriminate].
  cbn [run rev app group nth Nat.sub]. intros [= <- <- <-].
  exists a1, a2, b1, b2, c1, c2. cbn [forallb].
  rewrite H1, H2, H3, H4, H5, H6. repeat split.
Qed.

Lemma hexToRgb_six (a1 a2 b1 b2 c1 c2 : ascii) :
  forallb isHexDigit [a1; a2; b1; b2; c1; c2] = true ->
  hexToRgb ("#"%char :: [a1; a2; b1; b2; c1; c2])
  = Some (parseHex [a1; a2], parseHex [b1; b2], parseHex [c1; c2]).
Proof.
  cbn [forallb]. rewrite !andb_true_iff.
  intros (H1 & H2 & H3 & H4 & H5 & H6 & _).
  unfold hexToRgb.
  change (startsWith ("#"%char :: [a1; a2; b1; b2; c1; c2]) "#") with true.
  cbn [negb].
  unfold exec, hexPattern. rewrite run_Maybe. cbv beta iota.
  match goal with |- context [Ascii.eqb ?u ?v] => change (Ascii.eqb u v) with true end.
  cbv beta iota.
  rewrite !run_Pair, H1, H2, H3, H4, H5, H6. cbn [andb].
  rewrite run_End. reflexivity.
Qed.

Lemma hexVal_range (c : ascii) : isHexDigit c = true -> (0 <= hexVal c < 16)%Z.
Proof.
  destruct c as [[] [] [] [] [] [] [] []]; vm_compute; intros H;
    first [discriminate H | split; [discriminate | reflexivity]].
Qed.

Lemma parseHex_pair (a b : ascii) :
  isHexDigit a = true -> isHexDigit b = true -> (0 <= parseHex [a; b] <= 255)%Z.
Proof.
  intros Ha Hb. apply hexVal_range in Ha, Hb.
  unfold parseHex. cbn [fold_left]. lia.
Qed.

Lemma hexToRgb_range (x : str) (r g b : Z) :
  hexToRgb x = Some (r, g, b) ->
  (0 <= r <= 255 /\ 0 <= g <= 255 /\ 0 <= b <= 255)%Z.
Proof.
  intros H. apply hexToRgb_inv in H
    as (a1 & a2 & b1 & b2 & c1 & c2 & _ & Hd & -> & -> & ->).
  cbn [forallb] in Hd. rewrite !andb_true_iff in Hd.
  destruct Hd as (H1 & H2 & H3 & H4 & H5 & H6 & _).
  repeat split; now apply parseHex_pair.
Qed.

(** Property X2: the colour distance.  It is the sentinel 999 exactly when one of
    the two values is not [#] and six hexadecimal digits; otherwise it is
    the root of a sum of squares that is at most 3 * 255 * 255, so a real
    distance stays below the sentinel; the test against the threshold 15
    does not depend on the order of the two colours; and a value that
    parses is at distance 0 from itself. *)
Theorem deltaE_sentinel (a b : str) :
  (deltaE a b = Const 999 <-> hexToRgb a = None \/ hexToRgb b = None) /\
  (forall z, deltaE a b = Sqrt z -> (0 <= z <= 195075)%Z /\ (value (Sqrt z) < 999)%R) /\
  below (deltaE a b) 15 = below (deltaE b a) 15 /\
  (hexToRgb a <> None -> deltaE a a = Sqrt 0).
Proof.
  unfold deltaE.
  destruct (hexToRgb a) as [[[r1 g1] b1]|] eqn:Ea;
    destruct (hexToRgb b) as [[[r2 g2] b2]|] eqn:Eb.
  - apply hexToRgb_range in Ea, Eb.
    destruct Ea as (Hr1 & Hg1 & Hb1), Eb as (Hr2 & Hg2 & Hb2).
    assert (Hsq : forall u v : Z, (0 <= u <= 255 -> 0 <= v <= 255 ->
                    0 <= (u - v) * (u - v) <= 65025)%Z).
    { intros u v Hu Hv. split; [apply Z.square_nonneg|].
      rewrite <- Z.abs_square. change 65025%Z with (255 * 255)%Z.
      apply Z.mul_le_mono_nonneg; lia. }
    pose proof (Hsq r1 r2 Hr1 Hr2). pose proof (Hsq g1 g2 Hg1 Hg2).
    pose proof (Hsq b1 b2 Hb1 Hb2).
    split; [split; [discriminate | intros [H'|H']; discriminate H']|].
    split; [|split].
    + intros z [= <-]. split; [lia|]. cbn [value].
      replace 999%R with (sqrt (999 * 999)) by (apply sqrt_square; lra).
      apply sqrt_lt_1_alt. split.
      * apply IZR_le. lia.
      * replace (999 * 999)%R with (IZR 998001) by (simpl; lra).
        apply IZR_lt. lia.
    + cbn [below]. f_equal. ring.
    + intros _. f_equal. ring.
  - split; [split; [intros _; now right | reflexivity]|].
    split; [intros z H; discriminate H|]. split; [reflexivity|].
    intros _. f_equal. ring.
  - split; [split; [intros _; now left | reflexivity]|].
    split; [intros z H; discriminate H|]. split; [reflexivity|].
    intros H. now contradiction H.
  - split; [split; [intros _; now left | reflexivity]|].
    split; [intros z H; discriminate H|]. split; [reflexivity|].
    intros H. now contradiction H.
Qed.

End Distance.

Section Separation.
Import JS Regex Colors Spec Facts.

(** The inner loop, exactly: the indices it merges are those it was given
    that were not merged before and lie within distance 15. *)
Lemma scan_fold_exact (p : list Entry.t) (color : Entry.t) (idxs : list nat) :
  forall sim m sim' m',
    fold_left (scan p color) idxs (sim, m) = (sim', m') ->
    (exists extras, sim' = sim ++ extras /\
       forall x, In x extras -> exists j, In j idxs /\ nth_error p j = Some x) /\
    (forall j, has m' j = true <->
       has m j = true \/
       (In j idxs /\ exists other, nth_error p j = Some other /\
          close color other = true)).
Proof.
  induction idxs as [|i idxs IH]; intros sim m sim' m'; cbn [fold_left].
  - intros [= <- <-]. split.
    + exists []. split; [now rewrite app_nil_r | easy].
    + intros j. split; [auto | intros [H | [[] _]]; exact H].
  - assert (Hstep :
      (scan p color (sim, m) i = (sim, m) /\
       (has m i = true \/ forall other, nth_error p i = Some other ->
          close color other = false)) \/
      exists other, nth_error p i = Some other /\
        close color other = true /\
        scan p color (sim, m) i = (sim ++ [other], i :: m)).
    { unfold scan, close. destruct (has m i); [left; auto|].
      destruct (nth_error p i) as [other|]; [|left; split; [reflexivity|]].
      - destruct (below _ 15) eqn:Eb.
        + right. now exists other.
        + left. split; [reflexivity|]. right. now intros ? [= <-].
      - right. discriminate. }
    destruct Hstep as [[-> Hno] | (other & En & Eb & ->)].
    + intros H. apply IH in H as [(extras & -> & Hex) Hm]. split.
      * exists extras. split; [reflexivity|].
        intros x Hx. destruct (Hex x Hx) as (j & Hj & Hn).
        exists j. split; [now right | exact Hn].
      * intros j. rewrite Hm. split.
        -- intros [H | (Hj & H)]; [now left | right; split; [now right | exact H]].
        -- intros [H | ([<- | Hj] & other & Hn & Hc)]; [now left | | right; eauto].
           destruct Hno as [Hno | Hno]; [now left|].
           rewrite (Hno other Hn) in Hc. discriminate.
    + intros H. apply IH in H as [(extras & -> & Hex) Hm]. split.
      * exists (other :: extras). split; [now rewrite <- app_assoc|].
        intros x [<- | Hx].
        -- exists i. split; [now left | exact En].
        -- destruct (Hex x Hx) as (j & Hj & Hn). exists j. split; [now right | exact Hn].
      * intros j. rewrite Hm, has_cons, orb_true_iff, Nat.eqb_eq. split.
        -- intros [[-> | H] | (Hj & H)].
           ++ right. split; [now left | now exists other].
           ++ now left.
           ++ right. split; [now right | exact H].
        -- intros [H | ([<- | Hj] & H)]; [left; now right | left; now left | right; auto].
Qed.

Lemma sorted_nth (p : list Entry.t) :
  sortedByCount p ->
  forall i j a b, (i < j)%nat -> nth_error p i = Some a -> nth_error p j = Some b ->
    (Entry.count b <= Entry.count a)%Z.
Proof.
  intros Hs. induction Hs as [|x l Hs IH Hx]; intros i j a b Hij Ha Hb.
  - destruct i; discriminate Ha.
  - destruct j as [|j]; [lia|]. cbn [nth_error] in Hb. destruct i as [|i].
    + injection Ha as <-. rewrite Forall_forall in Hx. apply Hx.
      eapply nth_error_In. exact Hb.
    + cbn [nth_error] in Ha. apply (IH i j); [lia | assumption | assumption].
Qed.

(** A visit of an index that was not merged, on a sorted palette. *)
Lemma visit_sorted (p : list Entry.t) (out : list Entry.t) (m : list nat)
  (x : Entry.t) (k : nat) :
  sortedByCount p -> nth_error p k = Some x -> has m k = false ->
  exists m',
    visit p (out, m) x k = (out ++ [x], m') /\
    forall j, has m' j = true <->
      has m j = true \/
      ((k < j)%nat /\ exists other, nth_error p j = Some other /\
         close x other = true).
Proof.
  intros Hs Hk Hm. unfold visit. rewrite Hm.
  destruct (fold_left (scan p x) _ _) as [sim m'] eqn:E.
  apply scan_fold_exact in E as [(extras & -> & Hex) Hiff].
  exists m'. split.
  - cbn [app]. rewrite sort_first; [reflexivity|].
    intros y Hy. unfold byCountDesc. apply Z.ltb_ge.
    destruct (Hex y Hy) as (j & Hj & Hn). apply in_seq in Hj.
    assert (Entry.count y <= Entry.count x)%Z
      by (apply (sorted_nth Hs (i := k) (j := j)); [lia | assumption | assumption]).
    lia.
  - intros j. rewrite Hiff. split.
    + intros [H | (Hj & H)]; [now left|]. right. apply in_seq in Hj.
      split; [lia | exact H].
    + intros [H | (Hj & other & Hn & Hc)]; [now left|]. right. split.
      * apply in_seq. assert (j < List.length p)%nat
          by (apply nth_error_Some; congruence). lia.
      * now exists other.
Qed.

Lemma pick_app (m : list nat) (l1 l2 : list Entry.t) :
  forall i, pick m (l1 ++ l2) i = pick m l1 i ++ pick m l2 (i + List.length l1).
Proof.
  induction l1 as [|x l1 IH]; intros i; cbn [pick app List.length].
  - now rewrite Nat.add_0_r.
  - rewrite IH. replace (S i + List.length l1)%nat with (i + S (List.length l1))%nat by lia.
    now destruct (has m i).
Qed.

Lemma pick_ext (m m' : list nat) (l : list Entry.t) :
  forall i,
    (forall j, (i <= j < i + List.length l)%nat -> has m j = has m' j) ->
    pick m l i = pick m' l i.
Proof.
  induction l as [|x l IH]; intros i H; cbn [pick]; [reflexivity|].
  cbn [List.length] in H. rewrite (H i) by lia.
  rewrite (IH (S i)) by (intros j Hj; apply H; lia). reflexivity.
Qed.

Lemma firstn_snoc {A} (x : A) : forall (p : list A) (k : nat),
  nth_error p k = Some x -> firstn (S k) p = firstn k p ++ [x].
Proof.
  induction p as [|y p IH]; intros [|k]; cbn [nth_error]; try discriminate.
  - now intros [= ->].
  - intros H. cbn [firstn app]. f_equal. now apply IH.
Qed.

Lemma pick_inv (m : list nat) (e : Entry.t) (l : list Entry.t) :
  forall i, In e (pick m l i) ->
    exists n, nth_error l n = Some e /\ has m (i + n) = false.
Proof.
  induction l as [|x l IH]; intros i; cbn [pick]; [intros []|].
  destruct (has m i) eqn:E.
  - intros H. apply IH in H as (n & Hn & Hm). exists (S n).
    split; [exact Hn|]. now replace (i + S n)%nat with (S i + n)%nat by lia.
  - intros [<- | H].
    + exists 0%nat. split; [reflexivity|]. now rewrite Nat.add_0_r.
    + apply IH in H as (n & Hn & Hm). exists (S n).
      split; [exact Hn|]. now replace (i + S n)%nat with (S i + n)%nat by lia.
Qed.

Lemma pick_In (m : list nat) (b : Entry.t) (l : list Entry.t) :
  forall i n, nth_error l n = Some b -> has m (i + n) = false ->
    In b (pick m l i).
Proof.
  induction l as [|x l IH]; intros i [|n]; cbn [nth_error pick]; try discriminate.
  - intros [= ->]. rewrite Nat.add_0_r. intros ->. now left.
  - intros Hn Hm. replace (i + S n)%nat with (S i + n)%nat in Hm by lia.
    specialize (IH (S i) n Hn Hm). destruct (has m i); [exact IH | now right].
Qed.

Lemma pick_pairs (R : Entry.t -> Entry.t -> Prop) (m : list nat) (l : list Entry.t) :
  forall i,
    (forall n1 n2 a b, (n1 < n2)%nat ->
       has m (i + n1) = false -> has m (i + n2) = false ->
       nth_error l n1 = Some a -> nth_error l n2 = Some b -> R a b) ->
    ForallOrdPairs R (pick m l i).
Proof.
  induction l as [|x l IH]; intros i H; cbn [pick]; [constructor|].
  assert (Hrest : ForallOrdPairs R (pick m l (S i))).
  { apply IH. intros n1 n2 a b Hlt H1 H2 Ha Hb.
    apply (H (S n1) (S n2)); try assumption; try lia.
    - now replace (i + S n1)%nat with (S i + n1)%nat by lia.
    - now replace (i + S n2)%nat with (S i + n2)%nat by lia. }
  destruct (has m i) eqn:E; [exact Hrest|].
  constructor; [|exact Hrest]. apply Forall_forall. intros e He.
  apply pick_inv in He as (n & Hn & Hm).
  apply (H 0%nat (S n)); try assumption; try lia.
  - now rewrite Nat.add_0_r.
  - now replace (i + S n)%nat with (S i + n)%nat by lia.
  - reflexivity.
Qed.

Lemma pick_sorted (m : list nat) (l : list Entry.t) :
  sortedByCount l -> forall i, sortedByCount (pick m l i).
Proof.
  unfold sortedByCount. intros Hs.
  induction Hs as [|x l Hs IH Hx]; intros i; cbn [pick]; [constructor|].
  destruct (has m i); [apply IH|]. constructor; [apply IH|].
  rewrite Forall_forall in *. intros e He.
  apply pick_inv in He as (n & Hn & _). apply Hx. eapply nth_error_In. exact Hn.
Qed.

Lemma visit_dedupState (p : list Entry.t) (k : nat) (x : Entry.t)
  (st : list Entry.t * list nat) :
  sortedByCount p -> nth_error p k = Some x ->
  dedupState p k st -> dedupState p (S k) (visit p st x k).
Proof.
  intros Hs Hk (HA & HB & HC). destruct st as [out m]. cbn [fst snd] in *.
  assert (Hlen : List.length (firstn k p) = k).
  { apply firstn_length_le. apply Nat.lt_le_incl. apply nth_error_Some. congruence. }
  destruct (has m k) eqn:Em.
  - assert (Ev : visit p (out, m) x k = (out, m)) by (unfold visit; now rewrite Em).
    rewrite Ev. split; [|split]; cbn [fst snd].
    + rewrite (firstn_snoc _ _ Hk), pick_app, Hlen. cbn [pick Nat.add].
      rewrite Em, app_nil_r. exact HA.
    + intros j Hj. destruct (HB j Hj) as (i & a & b & H1 & H2 & H3).
      exists i, a, b. split; [exact H1|]. split; [lia | exact H3].
    + intros i j a b Hi Hij Hmi Hmj Ha Hb.
      assert (i <> k) by (intros ->; congruence).
      apply (HC i j); try assumption. lia.
  - destruct (@visit_sorted p out m x k Hs Hk Em) as (m' & -> & Hiff).
    assert (Hold : forall i, (i <= k)%nat -> has m' i = has m i).
    { intros i Hi. destruct (has m' i) eqn:E1.
      - apply Hiff in E1 as [E1 | (Hlt & _)]; [now rewrite E1 | lia].
      - destruct (has m i) eqn:E2; [|reflexivity].
        assert (has m' i = true) by (apply Hiff; now left). congruence. }
    split; [|split]; cbn [fst snd].
    + rewrite (firstn_snoc _ _ Hk), pick_app, Hlen. cbn [pick Nat.add].
      rewrite (Hold k) by lia. rewrite Em. f_equal. rewrite HA.
      apply pick_ext. intros j Hj. symmetry. apply Hold. lia.
    + intros j Hj. apply Hiff in Hj as [Hj | (Hlt & other & Hn & Hc)].
      * destruct (HB j Hj) as (i & a & b & H1 & H2 & H3 & H4).
        exists i, a, b. split; [exact H1|]. split; [lia|].
        split; [|exact H4]. rewrite Hold by lia. exact H3.
      * exists k, x, other. split; [exact Hlt|]. split; [lia|].
        split; [rewrite Hold by lia; exact Em|]. auto.
    + intros i j a b Hi Hij Hmi Hmj Ha Hb.
      assert (Hmj' : has m j = false).
      { destruct (has m j) eqn:E; [|reflexivity].
        assert (has m' j = true) by (apply Hiff; now left). congruence. }
      destruct (Nat.eq_dec i k) as [-> | Hne].
      * assert (a = x) by congruence. subst a.
        destruct (close x b) eqn:Ec; [|reflexivity].
        assert (has m' j = true) by (apply Hiff; right; split; [lia | now exists b]).
        congruence.
      * apply (HC i j); try assumption; try lia.
        rewrite <- (Hold i) by lia. exact Hmi.
Qed.

Lemma forEach_dedupState (p : list Entry.t) :
  sortedByCount p ->
  forall l k st, l = skipn k p -> dedupState p k st ->
    dedupState p (List.length p) (forEach (visit p) l k st).
Proof.
  intros Hs. induction l as [|x l IH]; intros k st Hl Hst; cbn [forEach].
  - assert (Hk : (List.length p <= k)%nat).
    { assert (H0 : List.length (skipn k p) = 0%nat) by now rewrite <- Hl.
      rewrite length_skipn in H0. lia. }
    destruct Hst as (HA & HB & HC). split; [|split].
    + rewrite HA. now rewrite firstn_all, (firstn_all2 (n := k)).
    + intros j Hj. destruct (HB j Hj) as (i & a & b & H1 & H2 & H3 & H4 & H5).
      exists i, a, b. split; [exact H1|]. split; [|auto].
      apply nth_error_Some. congruence.
    + intros i j a b _ Hij Hmi Hmj Ha Hb. apply (HC i j); try assumption.
      assert (i < List.length p)%nat by (apply nth_error_Some; congruence). lia.
  - symmetry in Hl. apply skipn_cons_inv in Hl as [Hx Hl].
    apply IH; [now symmetry|]. now apply visit_dedupState.
Qed.

(** The deduplication of a sorted palette: the entries left are those of
    the indices that were not merged; a merged entry lies within distance 15
    of an earlier entry that was left; and no two entries that were left lie
    within distance 15 of each other. *)
Lemma dedup_sorted (p : list Entry.t) :
  sortedByCount p ->
  incl (perceptuallyDeduped p) p /\
  sortedByCount (perceptuallyDeduped p) /\
  ForallOrdPairs (fun a b => close a b = false) (perceptuallyDeduped p) /\
  (forall b, In b p ->
     exists a, In a (perceptuallyDeduped p) /\
       (Entry.count b <= Entry.count a)%Z /\ (a = b \/ close a b = true)).
Proof.
  intros Hs.
  assert (H0 : dedupState p 0 ([], [])).
  { split; [reflexivity|]. split.
    - intros j Hj. discriminate Hj.
    - intros i j a b Hi. lia. }
  pose proof (@forEach_dedupState p Hs p 0%nat ([], []) eq_refl H0) as (HA & HB & HC).
  unfold perceptuallyDeduped.
  destruct (forEach (visit p) p 0%nat ([], [])) as [out m]. cbn [fst snd] in *.
  rewrite firstn_all in HA. subst out. split; [|split; [|split]].
  - intros e He. apply pick_inv in He as (n & Hn & _).
    eapply nth_error_In. exact Hn.
  - now apply pick_sorted.
  - apply pick_pairs. cbn [Nat.add]. intros n1 n2 a b Hlt H1 H2 Ha Hb.
    apply (HC n1 n2); try assumption. apply nth_error_Some. congruence.
  - intros b Hb. apply In_nth_error in Hb as (j & Hj).
    destruct (has m j) eqn:Em.
    + destruct (HB j Em) as (i & a & b' & Hij & _ & Hmi & Ha & Hb' & Hc).
      assert (b' = b) by congruence. subst b'.
      exists a. split; [now apply (@pick_In m a p 0%nat i)|].
      split; [|now right]. now apply (sorted_nth Hs (i := i) (j := j)).
    + exists b. split; [now apply (@pick_In m b p 0%nat j)|].
      split; [lia | now left].
Qed.


Lemma dedup_picks (p : list Entry.t) :
  sortedByCount p -> exists m, perceptuallyDeduped p = pick m p 0.
Proof.
  intros Hs.
  assert (H0 : dedupState p 0 ([], [])).
  { split; [reflexivity|]. split.
    - intros j Hj. discriminate Hj.
    - intros i j a b Hi. lia. }
  pose proof (@forEach_dedupState p Hs p 0%nat ([], []) eq_refl H0) as (HA & _).
  unfold perceptuallyDeduped. rewrite HA, firstn_all. eauto.
Qed.

Lemma pick_NoDup {B} (f : Entry.t -> B) (m : list nat) (l : list Entry.t) :
  NoDup (map f l) -> forall i, NoDup (map f (pick m l i)).
Proof.
  induction l as [|x l IH]; intros Hn i; cbn [pick map]; [constructor|].
  cbn [map] in Hn. apply NoDup_cons_iff in Hn as [Hx Hn].
  destruct (has m i); [now apply IH|]. cbn [map]. constructor; [|now apply IH].
  intros Hin. apply Hx. apply in_map_iff in Hin as (e & <- & He).
  apply pick_inv in He as (n & Hn' & _). apply in_map.
  eapply nth_error_In. exact Hn'.
Qed.

End Separation.

Section ReportedColours.
Import JS Regex Colors Spec Facts.

(** Property X3: the palette [extractColors] reports.  Its entries are entries of
    the filtered palette, most frequent first; no two of them lie within
    distance 15 of each other; and every colour of the filtered palette is
    reported or lies within distance 15 of a reported colour that was
    counted at least as often. *)
Theorem extractColors_palette_separated
  (elements : list element) (colorMap : list (str * Data.t))
  (cssVariables : list (str * str)) :
  let p := palette colorMap (totalElements elements) in
  let d := fst (extractColors elements colorMap cssVariables) in
  incl d p /\
  sortedByCount d /\
  ForallOrdPairs (fun a b => close a b = false) d /\
  (forall b, In b p ->
     exists a, In a d /\
       (Entry.count b <= Entry.count a)%Z /\ (a = b \/ close a b = true)).
Proof.
  intros p d. subst d. unfold extractColors. cbn [fst].
  apply dedup_sorted. apply palette_sorted.
Qed.

(** *** CSS variables *)

Lemma pushVar_keys (m : list (str * (str * list str))) (n value prop : str) :
  map fst (pushVar m n value prop)
  = if arr_includes (map fst m) n then map fst m else map fst m ++ [n].
Proof.
  induction m as [|[k [v vars]] m IH]; cbn [pushVar map fst]; [reflexivity|].
  unfold arr_includes in *. cbn [existsb].
  destruct (str_eqb k n) eqn:E.
  - apply str_eqb_eq in E. subst k.
    assert (En : str_eqb n n = true) by now apply str_eqb_eq.
    rewrite En. reflexivity.
  - assert (En : str_eqb n k = false).
    { apply str_eqb_false. apply str_eqb_false in E. congruence. }
    rewrite En. cbn [orb map fst]. rewrite IH.
    now destruct (existsb (str_eqb n) (map fst m)).
Qed.

Lemma arr_includes_In (arr : list str) (x : str) :
  arr_includes arr x = true <-> In x arr.
Proof.
  unfold arr_includes. rewrite existsb_exists. split.
  - intros (y & Hy & E). apply str_eqb_eq in E. now subst.
  - intros H. exists x. split; [exact H | now apply str_eqb_eq].
Qed.

Lemma pushVar_NoDup (m : list (str * (str * list str))) (n value prop : str) :
  NoDup (map fst m) -> NoDup (map fst (pushVar m n value prop)).
Proof.
  intros H. rewrite pushVar_keys.
  destruct (arr_includes (map fst m) n) eqn:E; [exact H|].
  apply NoDup_app; [exact H | repeat constructor; intros [] | ].
  intros x Hx [<- | []]. apply arr_includes_In in Hx. congruence.
Qed.

Lemma pushVar_wellFormed (cssVariables : list (str * str)) (deduped : list Entry.t)
  (m : list (str * (str * list str))) (prop value : str) :
  In (prop, value) cssVariables ->
  arr_includes (map Entry.normalized deduped) (normalizeColor value) = false ->
  isDuplicate (normalizeColor value) deduped = false ->
  Forall (wellFormed cssVariables deduped) m ->
  Forall (wellFormed cssVariables deduped)
    (pushVar m (normalizeColor value) value prop).
Proof.
  intros Hin H1 H2. induction m as [|[k [v vars]] m IH]; intros Hm; cbn [pushVar].
  - constructor; [|constructor]. cbn. repeat split; try assumption.
    exists prop, []. auto.
  - apply Forall_cons_iff in Hm as [Hk Hm].
    destruct (str_eqb k (normalizeColor value)).
    + constructor; [|exact Hm]. cbn in *.
      destruct Hk as (E1 & E2 & E3 & first & rest & -> & Hf).
      repeat split; try assumption. exists first, (rest ++ [prop]). auto.
    + constructor; [exact Hk | now apply IH].
Qed.

Lemma cssVarsByColor_wellFormed (cssVariables : list (str * str))
  (deduped : list Entry.t) :
  NoDup (map fst (cssVarsByColor cssVariables deduped)) /\
  Forall (wellFormed cssVariables deduped) (cssVarsByColor cssVariables deduped).
Proof.
  unfold cssVarsByColor.
  set (step := fun (m : list (str * (str * list str))) (pv : str * str) => _).
  assert (H : forall l m,
    (forall pv, In pv l -> In pv cssVariables) ->
    NoDup (map fst m) /\ Forall (wellFormed cssVariables deduped) m ->
    NoDup (map fst (fold_left step l m)) /\
    Forall (wellFormed cssVariables deduped) (fold_left step l m)).
  { induction l as [|[prop value] l IH]; intros m Hl Hm; cbn [fold_left];
      [exact Hm|].
    apply IH; [intros pv Hpv; apply Hl; now right|].
    unfold step.
    destruct (arr_includes (map Entry.normalized deduped) (normalizeColor value))
      eqn:E1; [exact Hm|].
    destruct (isDuplicate (normalizeColor value) deduped) eqn:E2; [exact Hm|].
    destruct Hm as [Hn Hw]. split; [now apply pushVar_NoDup|].
    apply pushVar_wellFormed; try assumption. apply Hl. now left. }
  apply H; [auto|]. split; constructor.
Qed.

Lemma setProp_In (obj : list (str * str)) (key value p v : str) :
  In (p, v) (setProp obj key value) -> (p = key /\ v = value) \/ In (p, v) obj.
Proof.
  induction obj as [|[k0 v0] obj IH]; cbn [setProp].
  - intros [[= <- <-] | []]. now left.
  - destruct (str_eqb k0 key) eqn:E.
    + apply str_eqb_eq in E. subst k0. intros [[= <- <-] | H]; [now left|].
      right. now right.
    + intros [H | H]; [right; now left|].
      apply IH in H as [H | H]; [now left | right; now right].
Qed.

Lemma setProp_keys (obj : list (str * str)) (key value : str) :
  map fst (setProp obj key value)
  = if arr_includes (map fst obj) key then map fst obj else map fst obj ++ [key].
Proof.
  induction obj as [|[k v] obj IH]; cbn [setProp map fst]; [reflexivity|].
  unfold arr_includes in *. cbn [existsb].
  destruct (str_eqb k key) eqn:E.
  - apply str_eqb_eq in E. subst k.
    assert (En : str_eqb key key = true) by now apply str_eqb_eq.
    rewrite En. reflexivity.
  - assert (En : str_eqb key k = false).
    { apply str_eqb_false. apply str_eqb_false in E. congruence. }
    rewrite En. cbn [orb map fst]. rewrite IH.
    now destruct (existsb (str_eqb key) (map fst obj)).
Qed.

Lemma setProp_NoDup (obj : list (str * str)) (key value : str) :
  NoDup (map fst obj) -> NoDup (map fst (setProp obj key value)).
Proof.
  intros H. rewrite setProp_keys.
  destruct (arr_includes (map fst obj) key) eqn:E; [exact H|].
  apply NoDup_app; [exact H | repeat constructor; intros [] | ].
  intros x Hx [<- | []]. apply arr_includes_In in Hx. congruence.
Qed.

Lemma NoDup_keys_functional {A B} (l : list (A * B)) (k : A) (x y : B) :
  NoDup (map fst l) -> In (k, x) l -> In (k, y) l -> x = y.
Proof.
  induction l as [|[k0 z] l IH]; cbn [map fst]; [intros _ []|].
  intros Hn Hx Hy. apply NoDup_cons_iff in Hn as [Hk Hn].
  destruct Hx as [Hx | Hx], Hy as [Hy | Hy].
  - congruence.
  - exfalso. apply Hk. apply in_map_iff. exists (k, y).
    split; [cbn; congruence | exact Hy].
  - exfalso. apply Hk. apply in_map_iff. exists (k, x).
    split; [cbn; congruence | exact Hx].
  - now apply IH.
Qed.

(** Property X4: the CSS variables [extractColors] reports.  Each is one of the
    collected variables with its value; the colour its value normalises to
    is no normalised colour of the reported palette and is not within
    distance 15 of one; no name is reported twice; and no two reported
    variables have values that normalise to the same colour. *)
Theorem extractColors_variables_filtered
  (elements : list element) (colorMap : list (str * Data.t))
  (cssVariables : list (str * str)) :
  let reported := fst (extractColors elements colorMap cssVariables) in
  let vars := snd (extractColors elements colorMap cssVariables) in
  (forall prop value, In (prop, value) vars ->
     In (prop, value) cssVariables /\
     ~ In (normalizeColor value) (map Entry.normalized reported) /\
     isDuplicate (normalizeColor value) reported = false) /\
  NoDup (map fst vars) /\
  (forall p1 v1 p2 v2, In (p1, v1) vars -> In (p2, v2) vars ->
     normalizeColor v1 = normalizeColor v2 -> p1 = p2 /\ v1 = v2).
Proof.
  intros reported vars. subst reported vars. unfold extractColors. cbn [fst snd].
  set (deduped := perceptuallyDeduped _).
  destruct (cssVarsByColor_wellFormed cssVariables deduped) as [Hn Hw].
  unfold filteredCssVariables.
  set (groups := cssVarsByColor cssVariables deduped) in *.
  set (step := fun (obj : list (str * str)) (kv : str * (str * list str)) => _).
  assert (H : forall l obj,
    (forall kv, In kv l -> In kv groups) ->
    (NoDup (map fst obj) /\
     forall p v, In (p, v) obj ->
       exists rest, In (normalizeColor v, (v, p :: rest)) groups) ->
    NoDup (map fst (fold_left step l obj)) /\
    forall p v, In (p, v) (fold_left step l obj) ->
      exists rest, In (normalizeColor v, (v, p :: rest)) groups).
  { induction l as [|[k [v vars]] l IH]; intros obj Hl Hobj; cbn [fold_left];
      [exact Hobj|].
    apply IH; [intros kv Hkv; apply Hl; now right|].
    unfold step. destruct vars as [|first rest]; [exact Hobj|].
    destruct Hobj as [Hd Hobj]. split; [now apply setProp_NoDup|].
    intros p0 v0 H0. apply setProp_In in H0 as [[-> ->] | H0]; [|now apply Hobj].
    exists rest. assert (Hin : In (k, (v, first :: rest)) groups)
      by (apply Hl; now left).
    rewrite Forall_forall in Hw. pose proof (Hw _ Hin) as Hk. cbn in Hk.
    destruct Hk as (-> & _). exact Hin. }
  destruct (H groups [] (fun _ h => h)) as [Hd Hall].
  { split; [constructor | intros ? ? []]. }
  split; [|split; [exact Hd|]].
  - intros prop value Hin. destruct (Hall _ _ Hin) as (rest & Hg).
    rewrite Forall_forall in Hw. pose proof (Hw _ Hg) as Hk. cbn in Hk.
    destruct Hk as (_ & E1 & E2 & first & rest' & [= <- <-] & Hf).
    split; [exact Hf|]. split; [|exact E2].
    intros Hc. apply arr_includes_In in Hc. congruence.
  - intros p1 v1 p2 v2 H1 H2 E.
    destruct (Hall _ _ H1) as (r1 & G1). destruct (Hall _ _ H2) as (r2 & G2).
    rewrite E in G1.
    pose proof (NoDup_keys_functional _ _ _ _ Hn G1 G2) as [= -> -> _]. auto.
Qed.

End ReportedColours.

Section RoundTrip.
Import JS Regex Colors Spec Facts.

Lemma longestFirst_top {A} (f : nat -> option A) (lo extra : nat) (a : A) :
  f (lo + extra)%nat = Some a -> longestFirst f lo extra = Some a.
Proof.
  destruct extra as [|e]; cbn [longestFirst].
  - now rewrite Nat.add_0_r.
  - now intros ->.
Qed.

Lemma takeWhile_run (class : ascii -> bool) (ds rest : str) :
  forallb class ds = true -> stops class rest = true ->
  takeWhile class (ds ++ rest) = ds.
Proof.
  intros Hd Hr. induction ds as [|c ds IH]; cbn [app takeWhile].
  - destruct rest as [|c rest]; [reflexivity|]. cbn [stops] in Hr.
    apply negb_true_iff in Hr. cbn [takeWhile]. now rewrite Hr.
  - cbn [forallb] in Hd. apply andb_true_iff in Hd as [Hc Hd].
    rewrite Hc, IH by exact Hd. reflexivity.
Qed.

Lemma skipn_run {A} (ds rest : list A) : skipn (List.length ds) (ds ++ rest) = rest.
Proof. induction ds; [reflexivity | assumption]. Qed.

Lemma firstn_run {A} (ds rest : list A) : firstn (List.length ds) (ds ++ rest) = ds.
Proof. induction ds as [|c ds IH]; [reflexivity | cbn; now rewrite IH]. Qed.

Lemma startsWith_app (p rest : str) : startsWith (p ++ rest) p = true.
Proof.
  induction p as [|c p IH]; [now destruct rest|].
  cbn [app startsWith]. now rewrite Ascii.eqb_refl, IH.
Qed.

(** A literal matches at the head of a text that opens with it. *)
Lemma run_Text_app (p : str) (k : list atom) (rest : str) (groups : list str) :
  run (Text p :: k) (p ++ rest) groups = run k rest groups.
Proof. now rewrite run_Text, startsWith_app, skipn_run. Qed.

(** A group takes a whole run when the rest of the pattern matches after
    it. *)
Lemma run_Group_run (class : ascii -> bool) (k : list atom) (ds rest : str)
  (groups m : list str) :
  ds <> [] -> forallb class ds = true -> stops class rest = true ->
  run k rest (ds :: groups) = Some m ->
  run (Group class :: k) (ds ++ rest) groups = Some m.
Proof.
  intros Hne Hd Hr Hk. cbn [run]. rewrite (takeWhile_run _ _ _ Hd Hr).
  destruct ds as [|c ds]; [congruence|]. cbn [List.length].
  apply longestFirst_top.
  change (1 + List.length ds)%nat with (List.length (c :: ds)).
  now rewrite skipn_run, firstn_run.
Qed.

Lemma run_Many_run (class : ascii -> bool) (k : list atom) (ws rest : str)
  (groups m : list str) :
  forallb class ws = true -> stops class rest = true ->
  run k rest groups = Some m ->
  run (Many class :: k) (ws ++ rest) groups = Some m.
Proof.
  intros Hd Hr Hk. cbn [run]. rewrite (takeWhile_run _ _ _ Hd Hr).
  apply longestFirst_top. cbn [Nat.add]. now rewrite skipn_run.
Qed.

Lemma search_head (pattern : list atom) (s : str) (m : list str) :
  run pattern s [] = Some m -> search pattern s = Some m.
Proof. intros H. destruct s; cbn [search]; now rewrite H. Qed.

Lemma digit_not_space (c : ascii) : isDigit c = true -> isSpace c = false.
Proof.
  destruct c as [[] [] [] [] [] [] [] []]; vm_compute; intros H;
    first [reflexivity | discriminate H].
Qed.

Lemma digits_inv (s : str) :
  digits s = true -> s <> [] /\ forallb isDigit s = true.
Proof. destruct s; [discriminate|]. intros H. split; [discriminate | exact H]. Qed.

Lemma digits_stop_space (g rest : str) :
  digits g = true -> stops isSpace (g ++ rest) = true.
Proof.
  destruct g as [|c g]; [discriminate|]. cbn [digits forallb app stops].
  intros H. apply andb_true_iff in H as [H _].
  now rewrite (digit_not_space _ H).
Qed.

(** What the pattern of [normalizeColor] captures from a colour in the
    functional notation. *)
Lemma rgbPattern_captures (alpha : bool) (r g b w1 w2 t : str) :
  digits r = true -> digits g = true -> digits b = true ->
  forallb isSpace w1 = true -> forallb isSpace w2 = true ->
  stops isDigit t = true ->
  search rgbPattern (rgbText alpha r g b w1 w2 t) = Some [r; g; b].
Proof.
  intros Hr Hg Hb H1 H2 Ht. apply search_head.
  apply digits_inv in Hr as [Hr0 Hr].
  pose proof (@digits_stop_space g (lit "," ++ w2 ++ b ++ t) Hg) as Hg'.
  apply digits_inv in Hg as [Hg0 Hg].
  pose proof (@digits_stop_space b t Hb) as Hb'.
  apply digits_inv in Hb as [Hb0 Hb].
  unfold rgbText, rgbPattern. rewrite run_Text_app.
  assert (Hrest :
    run [Text "("; Group isDigit; Text ","; Many isSpace;
         Group isDigit; Text ","; Many isSpace; Group isDigit]
        (lit "(" ++ r ++ lit "," ++ w1 ++ g ++ lit "," ++ w2 ++ b ++ t) []
    = Some [r; g; b]).
  { rewrite run_Text_app.
    apply run_Group_run; [exact Hr0 | exact Hr | reflexivity|].
    rewrite run_Text_app.
    apply run_Many_run; [exact H1 | exact Hg' |].
    apply run_Group_run; [exact Hg0 | exact Hg | reflexivity|].
    rewrite run_Text_app.
    apply run_Many_run; [exact H2 | exact Hb' |].
    apply run_Group_run; [exact Hb0 | exact Hb | exact Ht|].
    reflexivity. }
  rewrite run_Maybe. destruct alpha.
  - change (lit "a" ++ ?x) with ("a"%char :: x). cbv beta iota.
    match goal with |- context [Ascii.eqb ?u ?v] => change (Ascii.eqb u v) with true end.
    cbv beta iota. now rewrite Hrest.
  - cbn [app]. change (lit "(" ++ ?x) with ("("%char :: x) in *. cbv beta iota.
    match goal with |- context [Ascii.eqb ?u ?v] => change (Ascii.eqb u v) with false end.
    cbv beta iota. exact Hrest.
Qed.


Lemma digitVal_range (c : ascii) : isDigit c = true -> (0 <= digitVal c <= 9)%Z.
Proof.
  destruct c as [[] [] [] [] [] [] [] []]; vm_compute; intros H;
    first [discriminate H | split; discriminate].
Qed.

Lemma parseInt_nonneg (ds : str) : forallb isDigit ds = true -> (0 <= parseInt ds)%Z.
Proof.
  unfold parseInt.
  assert (H : forall acc, (0 <= acc)%Z -> forallb isDigit ds = true ->
            (0 <= fold_left (fun a c => a * 10 + digitVal c) ds acc)%Z).
  { induction ds as [|c ds IH]; intros acc Ha Hd; cbn [fold_left]; [exact Ha|].
    cbn [forallb] in Hd. apply andb_true_iff in Hd as [Hc Hd].
    apply digitVal_range in Hc. apply IH; [lia | exact Hd]. }
  apply H. lia.
Qed.

(** A channel value that fits a byte is written with two digits. *)
Lemma hex2_byte (v : Z) :
  (0 <= v <= 255)%Z -> hex2 v = [hexDigit (v / 16); hexDigit (v mod 16)].
Proof.
  intros Hv.
  assert (H : forallb
                (fun n => str_eqb (hex2 (Z.of_nat n))
                            [hexDigit (Z.of_nat n / 16); hexDigit (Z.of_nat n mod 16)])
                (seq 0 256) = true) by (vm_compute; reflexivity).
  rewrite forallb_forall in H. specialize (H (Z.to_nat v)).
  rewrite Z2Nat.id in H by lia. apply str_eqb_eq. apply H.
  apply in_seq. lia.
Qed.

Lemma hexDigit_isHexDigit (d : Z) : isHexDigit (hexDigit d) = true.
Proof.
  unfold hexDigit.
  destruct (Z.to_nat d) as [|[|[|[|[|[|[|[|[|[|[|[|[|[|[|[|n]]]]]]]]]]]]]]]];
    try reflexivity.
  now destruct n.
Qed.

Lemma hex2_reads_back (v : Z) :
  (0 <= v <= 255)%Z ->
  exists h l, hex2 v = [h; l] /\ isHexDigit h = true /\ isHexDigit l = true /\
              parseHex [h; l] = v.
Proof.
  intros Hv. exists (hexDigit (v / 16)), (hexDigit (v mod 16)).
  split; [now apply hex2_byte|]. split; [apply hexDigit_isHexDigit|].
  split; [apply hexDigit_isHexDigit|].
  unfold parseHex. cbn [fold_left].
  assert (0 <= v / 16 < 16)%Z
    by (split; [apply Z.div_pos; lia | apply Z.div_lt_upper_bound; lia]).
  assert (0 <= v mod 16 < 16)%Z by (apply Z.mod_pos_bound; lia).
  rewrite !hexVal_hexDigit by assumption.
  pose proof (Z.div_mod v 16). lia.
Qed.

(** Property X5: a colour in the functional notation, with channels that fit a
    byte, survives normalisation: [normalizeColor] writes it as [#] and the
    three channels in two hexadecimal digits each, [hexToRgb] reads the same
    three channels back from that, the contrast check reads them from the
    original text, and the merge loop of the state prober normalises the
    text to the same value. *)
Theorem rgb_round_trip (alpha : bool) (r g b w1 w2 t : str) :
  digits r = true -> digits g = true -> digits b = true ->
  forallb isSpace w1 = true -> forallb isSpace w2 = true ->
  stops isDigit t = true ->
  (parseInt r <= 255)%Z -> (parseInt g <= 255)%Z -> (parseInt b <= 255)%Z ->
  let s := rgbText alpha r g b w1 w2 t in
  normalizeColor s
    = "#"%char :: hex2 (parseInt r) ++ hex2 (parseInt g) ++ hex2 (parseInt b) /\
  List.length (normalizeColor s) = 7%nat /\
  hexToRgb (normalizeColor s) = Some (parseInt r, parseInt g, parseInt b) /\
  Accessibility.parseRgb s = Some (parseInt r, parseInt g, parseInt b) /\
  Branding.stateNormalize s = normalizeColor s /\
  normalizeColor (normalizeColor s) = normalizeColor s.
Proof.
  intros Hr Hg Hb H1 H2 Ht Lr Lg Lb s.
  pose proof (rgbPattern_captures alpha _ _ _ _ _ _ Hr Hg Hb H1 H2 Ht) as Hs.
  fold s in Hs.
  assert (En : normalizeColor s
               = "#"%char :: hex2 (parseInt r) ++ hex2 (parseInt g)
                   ++ hex2 (parseInt b))
    by (unfold normalizeColor; rewrite Hs; reflexivity).
  assert (Hst : Branding.stateNormalize s = normalizeColor s)
    by (unfold Branding.stateNormalize, normalizeColor; rewrite Hs; reflexivity).
  assert (Hid : normalizeColor (normalizeColor s) = normalizeColor s).
  { apply normalizeColor_plain. rewrite En. apply (rgbToHex_plain [r; g; b]). }
  assert (Hp : Accessibility.parseRgb s
               = Some (parseInt r, parseInt g, parseInt b))
    by (unfold Accessibility.parseRgb; rewrite Hs; reflexivity).
  apply digits_inv in Hr as [_ Hr], Hg as [_ Hg], Hb as [_ Hb].
  apply parseInt_nonneg in Hr, Hg, Hb.
  destruct (@hex2_reads_back (parseInt r)) as (h1 & l1 & E1 & A1 & B1 & P1); [lia|].
  destruct (@hex2_reads_back (parseInt g)) as (h2 & l2 & E2 & A2 & B2 & P2); [lia|].
  destruct (@hex2_reads_back (parseInt b)) as (h3 & l3 & E3 & A3 & B3 & P3); [lia|].
  split; [exact En|]. split; [now rewrite En, E1, E2, E3|].
  split; [|now repeat split].
  rewrite En, E1, E2, E3. cbn [app].
  rewrite hexToRgb_six by (cbn [forallb]; now rewrite A1, B1, A2, B2, A3, B3).
  now rewrite P1, P2, P3.
Qed.

Lemma rgb_round_trip_witness :
  normalizeColor "rgb(99, 102, 241)" = "#6366f1" /\
  List.length (normalizeColor "rgb(99, 102, 241)") = 7%nat /\
  hexToRgb (normalizeColor "rgb(99, 102, 241)") = Some (99, 102, 241)%Z /\
  Accessibility.parseRgb "rgb(99, 102, 241)" = Some (99, 102, 241)%Z /\
  Branding.stateNormalize "rgb(99, 102, 241)" = normalizeColor "rgb(99, 102, 241)" /\
  normalizeColor (normalizeColor "rgb(99, 102, 241)")
    = normalizeColor "rgb(99, 102, 241)".
Proof.
  apply (@rgb_round_trip false "99" "102" "241" " " " " ")");
    first [reflexivity | vm_compute; discriminate].
Defined.

End RoundTrip.

Section ColourTokens.
Import JS Host Regex Colors Spec Facts Tokens Probe.

Lemma matchesFrom_pieces (alternatives : list (list atom)) (s : str) :
  forall skip,
    Forall (fun c => exists pre post, s = pre ++ c ++ post)
      (matchesFrom alternatives s skip).
Proof.
  induction s as [|x s IH]; intros skip; cbn [matchesFrom].
  - destruct skip; [|constructor].
    destruct (firstOf alternatives []); constructor; [|constructor].
    now exists [], [].
  - assert (Hlift : forall l,
      Forall (fun c => exists pre post, s = pre ++ c ++ post) l ->
      Forall (fun c => exists pre post, x :: s = pre ++ c ++ post) l).
    { intros l. apply Forall_impl. intros c (pre & post & ->).
      now exists (x :: pre), post. }
    destruct skip as [|k]; [|apply Hlift, IH].
    destruct (firstOf alternatives (x :: s)) as [[|n]|].
    + constructor; [now exists [], (x :: s) | apply Hlift, IH].
    + constructor; [|apply Hlift, IH].
      exists [], (skipn (S n) (x :: s)). cbn [app].
      now rewrite firstn_skipn.
    + apply Hlift, IH.
Qed.

Lemma split_pieces (colorValue : str) :
  Forall (fun c =>
            (3 < List.length c)%nat /\
            c <> lit "transparent" /\ c <> lit "rgba(0, 0, 0, 0)" /\
            c <> lit "rgba(0,0,0,0)" /\
            exists pre post, colorValue = pre ++ c ++ post)
    (splitMultiValueColors colorValue).
Proof.
  unfold splitMultiValueColors.
  destruct (negb (truthy (VString colorValue))); [constructor|].
  apply Forall_forall. intros c Hc. apply filter_In in Hc as [Hin Hc].
  rewrite !andb_true_iff, !negb_true_iff in Hc.
  destruct Hc as [[[H1 H2] H3] H4].
  apply str_eqb_false in H1, H2, H3. apply Nat.ltb_lt in H4.
  repeat split; try assumption.
  unfold matchAll in Hin.
  pose proof (matchesFrom_pieces colorRegex colorValue 0) as Hp.
  destruct (matchesFrom colorRegex colorValue 0) as [|m ms].
  - destruct Hin as [<- | []]. exists [], []. now rewrite app_nil_r.
  - rewrite Forall_forall in Hp. now apply Hp.
Qed.

(** Property X6: what [splitMultiValueColors] returns.  Every colour is a piece of
    the value it was given, longer than three characters, and none is the
    keyword [transparent] or one of the two spellings of the transparent
    black. *)
Theorem split_sound (colorValue : str) :
  Forall (fun c =>
            (3 < List.length c)%nat /\
            c <> lit "transparent" /\ c <> lit "rgba(0, 0, 0, 0)" /\
            c <> lit "rgba(0,0,0,0)" /\
            exists pre post, colorValue = pre ++ c ++ post)
    (splitMultiValueColors colorValue).
Proof. apply split_pieces. Qed.

Lemma startsWith_lower_app (p rest : str) :
  startsWith (toLowerCase (p ++ rest)) (toLowerCase p) = true.
Proof. unfold toLowerCase. rewrite map_app. apply startsWith_app. Qed.

Lemma extent_Lit_app (p : str) (k : list atom) (rest : str) :
  extent (Lit p :: k) (p ++ rest)
  = option_map (Nat.add (List.length p)) (extent k rest).
Proof. cbn [extent]. now rewrite startsWith_lower_app, skipn_run. Qed.

Lemma extent_Lit_differs (c0 : ascii) (p : str) (k : list atom) (x : ascii) (s : str) :
  Ascii.eqb (lowerChar x) (lowerChar c0) = false ->
  extent (Lit (c0 :: p) :: k) (x :: s) = None.
Proof.
  intros H. cbn [extent toLowerCase map startsWith]. now rewrite Ascii.eqb_sym, H.
Qed.


Lemma inert_no_match (x : ascii) (s : str) :
  inert x = true -> firstOf colorRegex (x :: s) = None.
Proof.
  unfold inert. rewrite !andb_true_iff, !negb_true_iff. intros [[H1 H2] H3].
  unfold colorRegex. cbn [firstOf].
  change (lit "#") with ["#"%char].
  change (lit "rgb") with ["r"%char; "g"%char; "b"%char].
  change (lit "hsl") with ["h"%char; "s"%char; "l"%char].
  rewrite !extent_Lit_differs; [reflexivity | exact H3 | exact H2 | exact H1].
Qed.

Lemma takeWhile_body (body rest : str) :
  forallb notParen body = true ->
  takeWhile notParen (body ++ ")"%char :: rest) = body.
Proof. intros H. now apply takeWhile_run. Qed.

Lemma extent_Plus (class : ascii -> bool) (k : list atom) (s : str) :
  extent (Plus class :: k) s
  = match List.length (takeWhile class s) with
    | O => None
    | S e =>
        longestFirst (fun n => option_map (Nat.add n) (extent k (skipn n s))) 1 e
    end.
Proof. reflexivity. Qed.

Lemma extent_Opt (c : ascii) (k : list atom) (s : str) :
  extent (Opt c :: k) s
  = match s with
    | x :: r =>
        if Ascii.eqb (lowerChar x) (lowerChar c) then
          match extent k r with
          | Some n => Some (S n)
          | None => extent k s
          end
        else extent k s
    | [] => extent k s
    end.
Proof. reflexivity. Qed.

(** The part of the two functional alternatives after the name. *)
Lemma extent_parenthesised (body rest : str) :
  isBody body = true ->
  extent [Lit "("; Plus notParen; Lit ")"] (lit "(" ++ body ++ lit ")" ++ rest)
  = Some (List.length (lit "(" ++ body ++ lit ")")).
Proof.
  intros Hb. rewrite (@extent_Lit_app (lit "(")).
  destruct body as [|c body]; [discriminate|]. cbn [isBody] in Hb.
  rewrite extent_Plus. change (lit ")" ++ rest) with (")"%char :: rest).
  rewrite takeWhile_body by exact Hb. cbn [List.length].
  rewrite (@longestFirst_top _ _ 1 (List.length body)
             (S (List.length body) + 1)%nat).
  - cbn [option_map]. f_equal. change (lit "(") with ["("%char].
    change (lit ")") with [")"%char]. cbn [app List.length].
    rewrite !length_app. cbn [List.length]. lia.
  - change (1 + List.length body)%nat with (List.length (c :: body)).
    rewrite skipn_run.
    change (")"%char :: rest) with (lit ")" ++ rest).
    rewrite (@extent_Lit_app (lit ")")). reflexivity.
Qed.

Lemma extent_Opt_a (k : list atom) (alpha : bool) (s : str) (n : nat) :
  hd_error s = Some "("%char ->
  extent k s = Some n ->
  extent (Opt "a" :: k) ((if alpha then lit "a" else []) ++ s)
  = Some (List.length (if alpha then lit "a" else []) + n)%nat.
Proof.
  intros Hs Hk. destruct alpha.
  - change (lit "a" ++ s) with ("a"%char :: s). rewrite extent_Opt.
    rewrite Ascii.eqb_refl, Hk. reflexivity.
  - cbn [app]. destruct s as [|x s]; [discriminate|]. injection Hs as ->.
    rewrite extent_Opt. change (Ascii.eqb (lowerChar "(") (lowerChar "a")) with false.
    exact Hk.
Qed.

(** The pattern matches a colour in the functional notation, whole, where
    the colour stands. *)
Lemma firstOf_functional (hsl alpha : bool) (body rest : str) :
  isBody body = true ->
  firstOf colorRegex (functional hsl alpha body ++ rest)
  = Some (List.length (functional hsl alpha body)).
Proof.
  intros Hb. unfold functional. rewrite <- !app_assoc.
  pose proof (@extent_Opt_a [Lit "("; Plus notParen; Lit ")"] alpha
                (lit "(" ++ body ++ lit ")" ++ rest) _ eq_refl
                (@extent_parenthesised body rest Hb)) as Ha.
  unfold colorRegex. cbn [firstOf]. change (lit "#") with ["#"%char].
  destruct hsl.
  - change (lit "hsl" ++ ?x) with ("h"%char :: lit "sl" ++ x).
    change (lit "rgb") with ["r"%char; "g"%char; "b"%char].
    rewrite !extent_Lit_differs by reflexivity.
    change ("h"%char :: lit "sl" ++ ?x) with (lit "hsl" ++ x).
    rewrite (@extent_Lit_app (lit "hsl")), Ha. cbn [option_map]. f_equal.
    rewrite !length_app. lia.
  - change (lit "rgb" ++ ?x) with ("r"%char :: lit "gb" ++ x).
    rewrite extent_Lit_differs by reflexivity.
    change ("r"%char :: lit "gb" ++ ?x) with (lit "rgb" ++ x).
    rewrite (@extent_Lit_app (lit "rgb")), Ha. cbn [option_map]. f_equal.
    rewrite !length_app. lia.
Qed.

Lemma matchesFrom_skip (alternatives : list (list atom)) (pre s : str) :
  matchesFrom alternatives (pre ++ s) (List.length pre)
  = matchesFrom alternatives s 0.
Proof. induction pre as [|x pre IH]; [reflexivity | exact IH]. Qed.

Lemma matchesFrom_inert (gap s : str) :
  forallb inert gap = true ->
  matchesFrom colorRegex (gap ++ s) 0 = matchesFrom colorRegex s 0.
Proof.
  induction gap as [|x gap IH]; [reflexivity|]. cbn [forallb].
  intros H. apply andb_true_iff in H as [Hx Hg].
  cbn [app matchesFrom]. rewrite inert_no_match by exact Hx. now apply IH.
Qed.

Lemma functional_cons (hsl alpha : bool) (body : str) :
  exists x c, functional hsl alpha body = x :: c.
Proof. destruct hsl; eexists _, _; reflexivity. Qed.

Lemma matchesFrom_functional (hsl alpha : bool) (body rest : str) :
  isBody body = true ->
  matchesFrom colorRegex (functional hsl alpha body ++ rest) 0
  = functional hsl alpha body :: matchesFrom colorRegex rest 0.
Proof.
  intros Hb. pose proof (@firstOf_functional hsl alpha body rest Hb) as Hf.
  destruct (functional_cons hsl alpha body) as (x & c & E). rewrite E in *.
  cbn [app matchesFrom]. cbn [app] in Hf. rewrite Hf. cbn [List.length].
  rewrite matchesFrom_skip. f_equal.
  change (x :: c ++ rest) with ((x :: c) ++ rest).
  change (S (List.length c)) with (List.length (x :: c)).
  apply firstn_run.
Qed.


Lemma matchesFrom_joined (gap : str) (items : list (bool * bool * str)) :
  forallb inert gap = true ->
  forallb (fun item => isBody (snd item)) items = true ->
  matchesFrom colorRegex (joinWith gap (functionals items)) 0 = functionals items.
Proof.
  intros Hg. induction items as [|[[hsl alpha] body] items IH]; [reflexivity|].
  cbn [forallb snd fst]. intros H. apply andb_true_iff in H as [Hb Hi].
  specialize (IH Hi). unfold functionals in *. cbn [map fst snd joinWith].
  destruct items as [|item items].
  - cbn [map]. rewrite <- (app_nil_r (functional hsl alpha body)) at 1.
    now rewrite matchesFrom_functional.
  - cbn [map] in *. rewrite matchesFrom_functional by exact Hb.
    rewrite matchesFrom_inert by exact Hg. now rewrite IH.
Qed.

Lemma functional_kept (hsl alpha : bool) (body : str) :
  str_eqb (functional hsl alpha body) "transparent" = false /\
  (3 <? List.length (functional hsl alpha body))%nat = true.
Proof.
  split.
  - apply str_eqb_false. destruct hsl; discriminate.
  - apply Nat.ltb_lt. unfold functional. rewrite !length_app.
    assert (List.length (if hsl then lit "hsl" else lit "rgb") = 3%nat)
      by now destruct hsl.
    change (List.length (lit "(")) with 1%nat.
    change (List.length (lit ")")) with 1%nat. lia.
Qed.

(** Property X7: a value made of colours in the functional notation, joined by a
    gap at whose characters no colour token begins (white space, a comma),
    splits into exactly those colours, in order, less the two spellings of
    the transparent black. *)
Theorem split_joined (gap : str) (items : list (bool * bool * str)) :
  forallb inert gap = true ->
  forallb (fun item => isBody (snd item)) items = true ->
  splitMultiValueColors (joinWith gap (functionals items))
  = filter (fun c => negb (zeroAlpha c)) (functionals items).
Proof.
  intros Hg Hi. unfold splitMultiValueColors.
  destruct items as [|item items]; [reflexivity|].
  assert (Hne : truthy (VString (joinWith gap (functionals (item :: items)))) = true).
  { destruct item as [[hsl alpha] body]. unfold functionals. cbn [map fst snd joinWith].
    destruct (functional_cons hsl alpha body) as (x & c & ->).
    now destruct (map _ items). }
  rewrite Hne. cbn [negb]. unfold matchAll.
  rewrite (matchesFrom_joined _ _ Hg Hi).
  set (cs := functionals (item :: items)).
  assert (Hcs : cs <> []) by discriminate.
  destruct cs as [|c0 cs0] eqn:Ecs; [congruence|]. rewrite <- Ecs.
  apply filter_ext_in. intros c Hc. unfold cs, functionals in Hc.
  apply in_map_iff in Hc as ([[hsl alpha] body] & <- & _). cbn [fst snd].
  destruct (functional_kept hsl alpha body) as [-> ->].
  unfold zeroAlpha. cbn [negb andb]. rewrite andb_true_r.
  now rewrite negb_orb.
Qed.

Lemma split_joined_witness :
  splitMultiValueColors "rgb(0, 0, 0) rgba(0, 0, 0, 0) rgb(28, 105, 212)"
  = [lit "rgb(0, 0, 0)"; lit "rgb(28, 105, 212)"].
Proof.
  apply (@split_joined " "
           [(false, false, lit "0, 0, 0"); (false, true, lit "0, 0, 0, 0");
            (false, false, lit "28, 105, 212")]); reflexivity.
Defined.

End ColourTokens.

Section StateProbe.
Import JS Regex Colors Spec Facts Probe.

Lemma visibleColor_spec (c : str) :
  visibleColor c = true <->
  c <> lit "rgba(0, 0, 0, 0)" /\ c <> lit "transparent".
Proof.
  unfold visibleColor.
  now rewrite andb_true_iff, !negb_true_iff, !str_eqb_false.
Qed.

Lemma newBorderColors_spec (after before c : str) :
  In c (newBorderColors after before) ->
  visibleColor c = true /\ ~ In c (splitMultiValueColors before).
Proof.
  unfold newBorderColors. intros H. apply filter_In in H as [Hin Hb]. split.
  - pose proof (split_pieces after) as Hs. rewrite Forall_forall in Hs.
    destruct (Hs c Hin) as (_ & H1 & H2 & _). apply visibleColor_spec. auto.
  - intros Hc. apply arr_includes_In in Hc. rewrite Hc in Hb. discriminate.
Qed.

Lemma probe_spec (el : element) :
  Forall (fun f => visibleColor (Found.color f) = true /\ foundOn el f) (probe el).
Proof.
  unfold probe. destruct (isVisible el) eqn:Ev; cbn [negb]; [|constructor].
  apply Forall_app; split; [|apply Forall_app; split; [|apply Forall_app; split]].
  - destruct (negb (str_eqb (color (afterHover el)) (color (beforeState el))) &&
              visibleColor (color (afterHover el))) eqn:E; [|constructor].
    apply andb_true_iff in E as [E1 E2]. apply negb_true_iff, str_eqb_false in E1.
    constructor; [|constructor]. cbn.
    split; [exact E2|]. unfold foundOn. cbn.
    repeat split; try discriminate; try assumption; try congruence; auto.
  - destruct (negb (str_eqb (backgroundColor (afterHover el))
                      (backgroundColor (beforeState el))) &&
              visibleColor (backgroundColor (afterHover el))) eqn:E; [|constructor].
    apply andb_true_iff in E as [E1 E2]. apply negb_true_iff, str_eqb_false in E1.
    constructor; [|constructor]. cbn.
    split; [exact E2|]. unfold foundOn. cbn.
    repeat split; try discriminate; try assumption; try congruence; auto.
  - destruct (negb (str_eqb (borderColor (afterHover el))
                      (borderColor (beforeState el)))); [|constructor].
    apply Forall_forall. intros f Hf. apply in_map_iff in Hf as (c & <- & Hc).
    apply newBorderColors_spec in Hc as [H1 H2]. cbn.
    split; [exact H1|]. unfold foundOn. cbn.
    repeat split; try discriminate; try assumption; try congruence; auto.
  - destruct (arr_includes _ (tag el)) eqn:Et; [|constructor].
    apply arr_includes_In in Et.
    destruct (afterFocus el) as [focus|] eqn:Ef; [|constructor].
    apply Forall_app. split.
    + destruct (truthy (VString (outlineColor focus)) &&
                visibleColor (outlineColor focus) &&
                negb (str_eqb (outlineColor focus) (color (beforeState el))))
        eqn:E; [|constructor].
      apply andb_true_iff in E as [E E3]. apply andb_true_iff in E as [E1 E2].
      apply negb_true_iff, str_eqb_false in E3.
      constructor; [|constructor]. cbn.
      split; [exact E2|]. unfold foundOn. cbn.
      repeat split; try discriminate; try assumption; try congruence; auto.
      intros Hn. rewrite Hn in E1. discriminate.
    + destruct (negb (str_eqb (borderColor focus) (borderColor (beforeState el))) &&
                negb (str_eqb (borderColor focus) (borderColor (afterHover el))));
        [|constructor].
      apply Forall_forall. intros f Hf. apply in_map_iff in Hf as (c & <- & Hc).
      apply newBorderColors_spec in Hc as [H1 H2]. cbn.
      split; [exact H1|]. unfold foundOn. cbn.
      repeat split; try discriminate; try assumption; try congruence; auto.
Qed.

(** Property X8: what the state probe collects.  No collected colour is
    [transparent] or [rgba(0, 0, 0, 0)]; every entry comes from a visible
    element among the first twenty, carries that element's tag, and differs
    from the value the probe compared it with; and a focus colour comes from
    an input, a textarea, a select or a button. *)
Theorem hoverFocusColors_sound (interactiveElements : list element) :
  Forall (fun f =>
            Found.color f <> lit "transparent" /\
            Found.color f <> lit "rgba(0, 0, 0, 0)" /\
            exists el n, (n < 20)%nat /\ nth_error interactiveElements n = Some el /\
                         foundOn el f)
    (hoverFocusColors interactiveElements).
Proof.
  unfold hoverFocusColors. apply Forall_forall. intros f Hf.
  apply in_flat_map in Hf as (el & Hel & Hf).
  pose proof (probe_spec el) as Hp. rewrite Forall_forall in Hp.
  destruct (Hp f Hf) as [Hv Hon]. apply visibleColor_spec in Hv as [H1 H2].
  split; [exact H2|]. split; [exact H1|].
  apply In_nth_error in Hel as (n & Hn).
  assert (Hlt : (n < List.length (firstn 20 interactiveElements))%nat)
    by (apply nth_error_Some; congruence).
  rewrite length_firstn in Hlt.
  exists el, n. split; [lia|]. split; [|exact Hon].
  rewrite nth_error_firstn in Hn. destruct (n <? 20)%nat eqn:E; [exact Hn|].
  apply Nat.ltb_ge in E. lia.
Qed.

(** *** Merging the state colours into the palette *)

Lemma mergeOne_cases (palette : list Entry.t) (c : str) :
  (mergeOne palette c = palette /\ (c = [] \/ In c (map Entry.color palette))) \/
  (mergeOne palette c = palette ++ [pushedFor c] /\ c <> [] /\
   ~ In c (map Entry.color palette)).
Proof.
  unfold mergeOne.
  destruct (existsb (fun e => str_eqb (Entry.color e) c) palette) eqn:E.
  - left. split; [reflexivity|]. right.
    apply existsb_exists in E as (e & He & Ee). apply str_eqb_eq in Ee.
    apply in_map_iff. now exists e.
  - destruct c as [|x c]; [left; auto|]. right. cbn [negb truthy andb].
    split; [reflexivity|]. split; [discriminate|].
    intros Hin. apply in_map_iff in Hin as (e & Ee & He).
    assert (existsb (fun e => str_eqb (Entry.color e) (x :: c)) palette = true).
    { apply existsb_exists. exists e. split; [exact He | now apply str_eqb_eq]. }
    congruence.
Qed.

Lemma merge_added (cs : list str) :
  forall palette,
    exists added,
      fold_left mergeOne cs palette = palette ++ map pushedFor added /\
      NoDup added /\
      (forall c, In c added ->
         c <> [] /\ In c cs /\ ~ In c (map Entry.color palette)) /\
      (forall c, In c cs -> c <> [] ->
         In c (map Entry.color palette) \/ In c added).
Proof.
  induction cs as [|c cs IH]; intros palette; cbn [fold_left].
  - exists []. cbn [map]. rewrite app_nil_r.
    split; [reflexivity|]. split; [constructor|]. split; [intros ? []|intros ? []].
  - destruct (mergeOne_cases palette c) as [[-> Hc] | (-> & Hne & Hnew)].
    + destruct (IH palette) as (added & -> & Hnd & Hadd & Hcov).
      exists added. split; [reflexivity|]. split; [exact Hnd|]. split.
      * intros c' Hc'. destruct (Hadd c' Hc') as (H1 & H2 & H3).
        split; [exact H1|]. split; [now right | exact H3].
      * intros c' [<- | Hc'] Hne'; [|now apply Hcov].
        destruct Hc as [Hc | Hc]; [contradiction | now left].
    + destruct (IH (palette ++ [pushedFor c])) as (added & -> & Hnd & Hadd & Hcov).
      exists (c :: added). cbn [map]. rewrite <- app_assoc. cbn [app].
      split; [reflexivity|]. split; [|split].
      * constructor; [|exact Hnd]. intros Hin.
        destruct (Hadd c Hin) as (_ & _ & H3). apply H3.
        rewrite map_app. apply in_or_app. right. now left.
      * intros c' [<- | Hc'].
        -- split; [exact Hne|]. split; [now left | exact Hnew].
        -- destruct (Hadd c' Hc') as (H1 & H2 & H3).
           split; [exact H1|]. split; [now right|].
           intros Hin. apply H3. rewrite map_app. apply in_or_app. now left.
      * intros c' [<- | Hc'] Hne'; [right; now left|].
        destruct (Hcov c' Hc' Hne') as [H | H]; [|right; now right].
        rewrite map_app in H. apply in_app_or in H as [H | [<- | []]];
          [now left | right; now left].
Qed.

Lemma merge_settled (cs : list str) :
  forall palette,
    (forall c, In c cs -> c = [] \/ In c (map Entry.color palette)) ->
    fold_left mergeOne cs palette = palette.
Proof.
  induction cs as [|c cs IH]; intros palette H; cbn [fold_left]; [reflexivity|].
  destruct (mergeOne_cases palette c) as [[-> _] | (_ & Hne & Hnew)].
  - apply IH. intros c' Hc'. apply H. now right.
  - destruct (H c (or_introl eq_refl)) as [Hc | Hc]; contradiction.
Qed.

(** Property X9: merging the state colours.  The palette is kept as it is and the
    new entries are appended: one for each non-empty colour string that no
    entry had as its [color], each string once, counted once, of medium
    confidence, from the source [hover/focus], normalised as the merge loop
    does.  Every non-empty state colour is then the [color] of an entry,
    and merging the same state colours again changes nothing. *)
Theorem mergeStateColors_appends (palette : list Entry.t)
  (hoverFocusColors : list Found.t) :
  exists added,
    mergeStateColors palette hoverFocusColors = palette ++ map pushedFor added /\
    NoDup added /\
    Forall (fun c => c <> [] /\ In c (map Found.color hoverFocusColors) /\
                     ~ In c (map Entry.color palette)) added /\
    Forall (fun f => Found.color f = [] \/
                     In (Found.color f)
                        (map Entry.color
                           (mergeStateColors palette hoverFocusColors)))
           hoverFocusColors /\
    mergeStateColors (mergeStateColors palette hoverFocusColors) hoverFocusColors
    = mergeStateColors palette hoverFocusColors.
Proof.
  unfold mergeStateColors.
  destruct (merge_added (map Found.color hoverFocusColors) palette)
    as (added & E & Hnd & Hadd & Hcov).
  exists added. split; [exact E|]. split; [exact Hnd|].
  assert (Hall : forall c, In c (map Found.color hoverFocusColors) ->
            c = [] \/
            In c (map Entry.color
                    (fold_left mergeOne (map Found.color hoverFocusColors) palette))).
  { intros c Hc. destruct c as [|x c]; [now left|]. right.
    rewrite E, map_app, map_map. apply in_or_app.
    destruct (Hcov (x :: c) Hc) as [H | H]; [discriminate | now left|].
    right. apply in_map_iff. now exists (x :: c). }
  split; [|split].
  - apply Forall_forall. intros c Hc. now apply Hadd.
  - apply Forall_forall. intros f Hf. apply Hall. now apply in_map.
  - apply merge_settled. exact Hall.
Qed.

End StateProbe.

Section ElementWalk.
Import JS Regex Colors Spec Facts Walk.

Lemma scoreOf_range (el : element) : (1 <= scoreOf el <= 25)%Z.
Proof.
  unfold scoreOf.
  assert (H : forall (l : list (str * Z)) (score : Z),
            Forall (fun kw => (snd kw <= 5)%Z) l -> (1 <= score <= 5)%Z ->
            (1 <= fold_left
                    (fun score kw =>
                       if includes (contextOf el) (fst kw)
                       then Z.max score (snd kw) else score) l score <= 5)%Z).
  { induction l as [|kw l IH]; intros score Hl Hs; cbn [fold_left]; [exact Hs|].
    apply Forall_cons_iff in Hl as [Hk Hl]. apply IH; [exact Hl|].
    destruct (includes (contextOf el) (fst kw)); lia. }
  assert (Hw : Forall (fun kw : str * Z => (snd kw <= 5)%Z) contextScores)
    by (unfold contextScores; repeat constructor; cbn; lia).
  specialize (H contextScores 1%Z Hw ltac:(lia)).
  match goal with |- context [if ?b then _ else _] => destruct b end; lia.
Qed.

Lemma addSource_NoDup (sources : list str) (source : str) :
  NoDup sources -> NoDup (addSource sources source).
Proof.
  intros H. unfold addSource.
  destruct (arr_includes sources source) eqn:E; [exact H|].
  apply NoDup_app; [exact H | repeat constructor; intros [] |].
  intros x Hx [<- | []]. apply arr_includes_In in Hx. congruence.
Qed.

Lemma record_keys (m : list (str * Data.t)) (n c : str) (score : Z)
  (source : option str) :
  map fst (record m n c score source)
  = if arr_includes (map fst m) n then map fst m else map fst m ++ [n].
Proof.
  induction m as [|[k d] m IH]; cbn [record map fst]; [reflexivity|].
  unfold arr_includes in *. cbn [existsb].
  destruct (str_eqb k n) eqn:E.
  - apply str_eqb_eq in E. subst k.
    assert (En : str_eqb n n = true) by now apply str_eqb_eq.
    rewrite En. reflexivity.
  - assert (En : str_eqb n k = false).
    { apply str_eqb_false. apply str_eqb_false in E. congruence. }
    rewrite En. cbn [orb map fst]. rewrite IH.
    now destruct (existsb (str_eqb n) (map fst m)).
Qed.

Lemma record_NoDup (m : list (str * Data.t)) (n c : str) (score : Z)
  (source : option str) :
  NoDup (map fst m) -> NoDup (map fst (record m n c score source)).
Proof.
  intros H. rewrite record_keys.
  destruct (arr_includes (map fst m) n) eqn:E; [exact H|].
  apply NoDup_app; [exact H | repeat constructor; intros [] |].
  intros x Hx [<- | []]. apply arr_includes_In in Hx. congruence.
Qed.

Lemma record_tallied (m : list (str * Data.t)) (c : str) (score : Z)
  (source : option str) :
  c <> lit "transparent" -> c <> lit "rgba(0, 0, 0, 0)" ->
  (1 <= score <= 25)%Z ->
  Forall tallied m -> Forall tallied (record m (normalizeColor c) c score source).
Proof.
  intros H1 H2 Hs. induction m as [|[k d] m IH]; intros Hm; cbn [record].
  - constructor; [|constructor]. unfold tallied.
    cbn [fst snd Data.original Data.count Data.score Data.sources].
    split; [reflexivity|]. split; [exact H1|]. split; [exact H2|].
    split; [lia|]. split; [lia|].
    destruct source as [s|]; [|constructor].
    apply addSource_NoDup. constructor.
  - apply Forall_cons_iff in Hm as [Hk Hm].
    destruct (str_eqb k (normalizeColor c)); [|constructor; [exact Hk | now apply IH]].
    constructor; [|exact Hm]. unfold tallied in *.
    cbn [fst snd Data.original Data.count Data.score Data.sources] in *.
    destruct Hk as (E & T1 & T2 & C1 & C2 & S).
    split; [exact E|]. split; [exact T1|]. split; [exact T2|].
    split; [lia|]. split; [lia|].
    destruct source as [s|]; [now apply addSource_NoDup | exact S].
Qed.

(** The state of [colorMap] during the walk. *)
Lemma visit_keeps (m : list (str * Data.t)) (el : element) :
  NoDup (map fst m) /\ Forall tallied m ->
  NoDup (map fst (visit m el)) /\ Forall tallied (visit m el).
Proof.
  intros Hm. unfold visit. destruct (isHidden (computed el)); [exact Hm|].
  assert (Hshadow : forall l m0,
    Forall (fun c => c <> lit "transparent" /\ c <> lit "rgba(0, 0, 0, 0)") l ->
    NoDup (map fst m0) /\ Forall tallied m0 ->
    NoDup (map fst (fold_left recordShadow l m0)) /\
    Forall tallied (fold_left recordShadow l m0)).
  { induction l as [|c l IH]; intros m0 Hl H0; cbn [fold_left]; [exact H0|].
    apply Forall_cons_iff in Hl as [[Hc1 Hc2] Hl]. apply IH; [exact Hl|].
    destruct H0 as [Hn Ht]. unfold recordShadow. split.
    - now apply record_NoDup.
    - apply record_tallied; try assumption. lia. }
  assert (Hcolors : forall l m0,
    NoDup (map fst m0) /\ Forall tallied m0 ->
    NoDup (map fst (fold_left (recordColor (contextOf el) (scoreOf el)) l m0)) /\
    Forall tallied (fold_left (recordColor (contextOf el) (scoreOf el)) l m0)).
  { induction l as [|c l IH]; intros m0 H0; cbn [fold_left]; [exact H0|].
    apply IH. unfold recordColor.
    destruct (truthy (VString c) && negb (str_eqb c "rgba(0, 0, 0, 0)") &&
              negb (str_eqb c "transparent")) eqn:E; [|exact H0].
    apply andb_true_iff in E as [E E2]. apply andb_true_iff in E as [_ E1].
    apply negb_true_iff, str_eqb_false in E1, E2.
    destruct H0 as [Hn Ht]. split.
    - now apply record_NoDup.
    - apply record_tallied; try assumption. apply scoreOf_range. }
  apply Hcolors.
  destruct (truthy (VString (boxShadow el)) && negb (str_eqb (boxShadow el) "none"));
    [|exact Hm].
  apply Hshadow; [|exact Hm].
  unfold extractGradientColors. apply Forall_forall. intros c Hc.
  apply filter_In in Hc as [_ Hc]. apply andb_true_iff in Hc as [Hc1 Hc2].
  apply negb_true_iff, str_eqb_false in Hc1, Hc2. auto.
Qed.

Lemma colorMap_keeps (elements : list element) :
  NoDup (map fst (colorMap elements)) /\ Forall tallied (colorMap elements).
Proof.
  unfold colorMap.
  assert (H : forall l m,
    NoDup (map fst m) /\ Forall tallied m ->
    NoDup (map fst (fold_left visit l m)) /\ Forall tallied (fold_left visit l m)).
  { induction l as [|el l IH]; intros m Hm; cbn [fold_left]; [exact Hm|].
    apply IH. now apply visit_keeps. }
  apply H. split; constructor.
Qed.

(** Property X10: the colour map the walk builds.  No normalised colour has two
    records; the key of a record is the normalised form of the value first
    seen for it; that value is never [transparent] or [rgba(0, 0, 0, 0)], so
    the transparency test of [isStructuralColor] never applies; a record was
    counted at least once and its score lies between its count and 25 times
    its count; and no source is listed twice. *)
Theorem colorMap_tallied (elements : list element) :
  NoDup (map fst (colorMap elements)) /\
  Forall tallied (colorMap elements) /\
  Forall (fun kv =>
            forall N, (0 < N)%Z ->
              isStructuralColor (snd kv) N = true <->
              (40 * N < 100 * Data.count (snd kv) /\
               5 * Data.score (snd kv) < 6 * Data.count (snd kv))%Z)
         (colorMap elements).
Proof.
  destruct (colorMap_keeps elements) as [Hn Ht].
  split; [exact Hn|]. split; [exact Ht|].
  apply Forall_forall. intros [k d] Hin N HN. rewrite Forall_forall in Ht.
  destruct (Ht _ Hin) as (_ & T1 & T2 & _). cbn [snd] in *.
  pose proof (isStructuralColor_int d HN) as Hs.
  destruct (isStructuralColor d N).
  - split; [intros _ | reflexivity].
    destruct (Z_lt_le_dec (40 * N) (100 * Data.count d));
      destruct (Z_lt_le_dec (5 * Data.score d) (6 * Data.count d)); try lia;
      assert (true = false) by (apply Hs; repeat split; auto; lia); discriminate.
  - split; [discriminate|]. intros [H1 H2].
    destruct Hs as [Hs _]. destruct (Hs eq_refl) as (_ & _ & [H | H]); lia.
Qed.


Lemma insert_NoDup {A B} (f : A -> B) (after : A -> A -> bool) (x : A) (l : list A) :
  NoDup (map f (x :: l)) -> NoDup (map f (insert after x l)).
Proof.
  induction l as [|y l IH]; intros H; cbn [insert]; [exact H|].
  destruct (after x y); [|exact H].
  cbn [map] in *. apply NoDup_cons_iff in H as [Hx H].
  apply NoDup_cons_iff in H as [Hy H]. constructor.
  - intros Hin. apply in_map_iff in Hin as (z & Ez & Hz).
    apply insert_In in Hz as [-> | Hz].
    + apply Hx. left. now symmetry.
    + apply Hy. rewrite <- Ez. now apply in_map.
  - apply IH. cbn [map]. constructor; [|exact H].
    intros Hin. apply Hx. now right.
Qed.

Lemma sort_NoDup {A B} (f : A -> B) (after : A -> A -> bool) (l : list A) :
  NoDup (map f l) -> NoDup (map f (sort after l)).
Proof.
  induction l as [|x l IH]; intros H; cbn [sort]; [exact H|].
  cbn [map] in H. apply NoDup_cons_iff in H as [Hx H].
  apply insert_NoDup. cbn [map]. constructor; [|now apply IH].
  intros Hin. apply Hx. apply in_map_iff in Hin as (z & Ez & Hz).
  apply sort_In in Hz. rewrite <- Ez. now apply in_map.
Qed.

Lemma filter_NoDup_keys {K V} (keep : K * V -> bool) (m : list (K * V)) :
  NoDup (map fst m) -> NoDup (map fst (filter keep m)).
Proof.
  intros H. induction m as [|[k v] m IH]; [exact H|].
  cbn [map fst] in H. apply NoDup_cons_iff in H as [Hk H].
  cbn [filter]. destruct (keep (k, v)); [|now apply IH].
  cbn [map fst]. constructor; [|now apply IH].
  intros Hin. apply Hk. apply in_map_iff in Hin as (z & Ez & Hz).
  apply filter_In in Hz as [Hz _]. rewrite <- Ez. now apply in_map.
Qed.

Lemma firstn_NoDup {A} (n : nat) (l : list A) : NoDup l -> NoDup (firstn n l).
Proof.
  revert n. induction l as [|x l IH]; intros [|n] H; cbn [firstn];
    try constructor.
  - apply NoDup_cons_iff in H as [Hx H]. intros Hin. apply Hx.
    rewrite <- (firstn_skipn n l). apply in_or_app. now left.
  - apply NoDup_cons_iff in H as [_ H]. now apply IH.
Qed.

(** Property X11: the palette reported for a page.  No two entries have the same
    normalised colour; the normalised colour of an entry is the normalised
    form of its [color], which is never a transparent keyword; an entry was
    counted at least three times; an entry of low confidence was counted at
    most 5 times and one that is not of high confidence at most 20 times;
    and at most three sources are listed, none twice. *)
Theorem reported_palette (elements : list element)
  (cssVariables : list (str * str)) :
  let reported := fst (extractColors elements cssVariables) in
  NoDup (map Entry.normalized reported) /\
  Forall (fun e =>
            Entry.normalized e = normalizeColor (Entry.color e) /\
            Entry.color e <> lit "transparent" /\
            Entry.color e <> lit "rgba(0, 0, 0, 0)" /\
            (3 <= Entry.count e)%Z /\
            (Entry.confidence e = low -> (Entry.count e <= 5)%Z) /\
            (Entry.confidence e <> high -> (Entry.count e <= 20)%Z) /\
            (List.length (Entry.sources e) <= 3)%nat /\
            NoDup (Entry.sources e))
         reported.
Proof.
  intros reported. subst reported. unfold extractColors, Colors.extractColors.
  cbn [fst]. set (N := totalElements (map computed elements)).
  destruct (colorMap_keeps elements) as [Hn Ht].
  pose proof (palette_sorted (colorMap elements) N) as Hs.
  split.
  - destruct (dedup_picks Hs) as (m & ->). apply pick_NoDup.
    unfold palette. apply sort_NoDup. rewrite map_map.
    assert (E : forall l : list (str * Data.t),
              map (fun x => Entry.normalized (toEntry x)) l = map fst l).
    { intros l. apply map_ext. now intros [k d]. }
    rewrite E. now apply filter_NoDup_keys.
  - apply Forall_forall. intros e He.
    destruct (dedup_sorted Hs) as (Hincl & _). apply Hincl in He.
    pose proof (palette_counts _ _ _ He) as Hc. rewrite threshold_floor in Hc.
    unfold palette in He. apply sort_In in He.
    apply in_map_iff in He as ([k d] & <- & He). apply filter_In in He as [He _].
    rewrite Forall_forall in Ht. destruct (Ht _ He) as (E & T1 & T2 & C1 & C2 & S).
    cbn [fst snd toEntry Entry.normalized Entry.color Entry.count
         Entry.confidence Entry.sources] in *.
    split; [exact E|]. split; [exact T1|]. split; [exact T2|].
    split; [lia|]. split; [|split; [|split]].
    + destruct (20 <? Data.score d)%Z; [discriminate|].
      destruct (5 <? Data.score d)%Z eqn:E5; [discriminate|].
      apply Z.ltb_ge in E5. lia.
    + destruct (20 <? Data.score d)%Z eqn:E20; [congruence|].
      apply Z.ltb_ge in E20. lia.
    + apply firstn_le_length.
    + now apply firstn_NoDup.
Qed.

End ElementWalk.

Section ModePalettes.
Import JS Regex Colors Spec Facts Modes.

Lemma mergeColor_cases (label : str) (p : list merged) (c : Entry.t) :
  (mergeColor label p c = p /\
   In (Entry.normalized c) (map normalizedOf p)) \/
  (mergeColor label p c = p ++ [mkMerged c (Some label)] /\
   ~ In (Entry.normalized c) (map normalizedOf p)).
Proof.
  unfold mergeColor.
  destruct (existsb _ p) eqn:E; cbn [negb].
  - left. split; [reflexivity|]. apply existsb_exists in E as (e & He & Ee).
    apply str_eqb_eq in Ee. apply in_map_iff. now exists e.
  - right. split; [reflexivity|]. intros Hin.
    apply in_map_iff in Hin as (e & Ee & He).
    assert (existsb (fun existingColor =>
                       str_eqb (Entry.normalized (entry existingColor))
                               (Entry.normalized c)) p = true).
    { apply existsb_exists. exists e. split; [exact He | now apply str_eqb_eq]. }
    congruence.
Qed.

Lemma modes_merge_spec (label : str) (mode : list Entry.t) :
  forall p,
    exists added,
      merge label p mode = p ++ map (fun c => mkMerged c (Some label)) added /\
      NoDup (map Entry.normalized added) /\
      (forall c, In c added ->
         In c mode /\ ~ In (Entry.normalized c) (map normalizedOf p)) /\
      (forall c, In c mode ->
         In (Entry.normalized c) (map normalizedOf p) \/
         In (Entry.normalized c) (map Entry.normalized added)).
Proof.
  unfold merge. induction mode as [|c mode IH]; intros p; cbn [fold_left].
  - exists []. cbn [map]. rewrite app_nil_r.
    split; [reflexivity|]. split; [constructor|]. split; intros ? [].
  - destruct (mergeColor_cases label p c) as [[-> Hc] | [-> Hnew]].
    + destruct (IH p) as (added & -> & Hnd & Hadd & Hcov).
      exists added. split; [reflexivity|]. split; [exact Hnd|]. split.
      * intros c' Hc'. destruct (Hadd c' Hc') as [H1 H2]. split; [now right | exact H2].
      * intros c' [<- | Hc']; [now left | now apply Hcov].
    + destruct (IH (p ++ [mkMerged c (Some label)]))
        as (added & -> & Hnd & Hadd & Hcov).
      exists (c :: added). cbn [map]. rewrite <- app_assoc. cbn [app].
      split; [reflexivity|]. split; [|split].
      * constructor; [|exact Hnd]. intros Hin.
        apply in_map_iff in Hin as (c' & Ec & Hc').
        destruct (Hadd c' Hc') as [_ H2]. apply H2.
        rewrite map_app. apply in_or_app. right. left. now symmetry.
      * intros c' [<- | Hc']; [split; [now left | exact Hnew]|].
        destruct (Hadd c' Hc') as [H1 H2]. split; [now right|].
        intros Hin. apply H2. rewrite map_app. apply in_or_app. now left.
      * intros c' [<- | Hc']; [right; now left|].
        destruct (Hcov c' Hc') as [H | H]; [|right; now right].
        rewrite map_app in H. apply in_app_or in H as [H | [H | []]];
          [now left | right; left; exact H].
Qed.

Lemma merge_NoDup (label : str) (mode : list Entry.t) (p : list merged) :
  NoDup (map normalizedOf p) -> NoDup (map normalizedOf (merge label p mode)).
Proof.
  intros Hp. destruct (modes_merge_spec label mode p) as (added & -> & Hnd & Hadd & _).
  rewrite map_app, map_map. cbn [normalizedOf entry].
  apply NoDup_app; [exact Hp | exact Hnd |].
  intros x Hx Hin. apply in_map_iff in Hin as (c & <- & Hc).
  now destruct (Hadd c Hc) as [_ H].
Qed.

Lemma merge_prefix (label : str) (mode : list Entry.t) (p : list merged) :
  exists added,
    merge label p mode = p ++ added /\
    Forall (fun m => source m = Some label /\ In (entry m) mode) added.
Proof.
  destruct (modes_merge_spec label mode p) as (added & -> & _ & Hadd & _).
  eexists. split; [reflexivity|]. apply Forall_forall. intros m Hm.
  apply in_map_iff in Hm as (c & <- & Hc). cbn. split; [reflexivity|].
  now destruct (Hadd c Hc).
Qed.

Lemma merge_covers (label : str) (mode : list Entry.t) (p : list merged) :
  forall c, In c mode ->
    In (Entry.normalized c) (map normalizedOf (merge label p mode)).
Proof.
  intros c Hc. destruct (modes_merge_spec label mode p) as (added & -> & _ & _ & Hcov).
  rewrite map_app, map_map. apply in_or_app. cbn [normalizedOf entry].
  destruct (Hcov c Hc) as [H | H]; [now left | now right].
Qed.

(** Property X12: the palette after the merges of the dark mode and of the mobile
    viewport.  The palette of the page is its beginning, unchanged and
    without [source]; what follows are entries of the dark-mode palette
    marked [dark-mode], then entries of the mobile palette marked [mobile];
    every colour of the two palettes has its normalised value in the result;
    and when the palette of the page names no normalised value twice, the
    result names none twice. *)
Theorem mergeModes_appends (palette : list Entry.t)
  (darkModeColors mobileColors : option (list Entry.t)) :
  let dark := match darkModeColors with Some l => l | None => [] end in
  let mobile := match mobileColors with Some l => l | None => [] end in
  let result := mergeModes palette darkModeColors mobileColors in
  (exists fromDark fromMobile,
     result = map (fun e => mkMerged e None) palette ++ fromDark ++ fromMobile /\
     Forall (fun m => source m = Some (lit "dark-mode") /\ In (entry m) dark) fromDark /\
     Forall (fun m => source m = Some (lit "mobile") /\ In (entry m) mobile) fromMobile) /\
  Forall (fun c => In (Entry.normalized c) (map normalizedOf result)) (dark ++ mobile) /\
  (NoDup (map Entry.normalized palette) -> NoDup (map normalizedOf result)).
Proof.
  intros dark mobile result. subst dark mobile result. unfold mergeModes.
  set (p0 := map (fun e => mkMerged e None) palette).
  assert (E0 : map normalizedOf p0 = map Entry.normalized palette)
    by (unfold p0; rewrite map_map; reflexivity).
  destruct darkModeColors as [dark|], mobileColors as [mobile|].
  - destruct (merge_prefix "dark-mode" dark p0) as (a1 & E1 & H1).
    destruct (merge_prefix "mobile" mobile (merge "dark-mode" p0 dark))
      as (a2 & E2 & H2).
    split; [|split].
    + exists a1, a2. rewrite E2, E1, <- app_assoc. auto.
    + apply Forall_app. split; apply Forall_forall; intros c Hc.
      * rewrite E2, map_app. apply in_or_app. left. now apply merge_covers.
      * now apply merge_covers.
    + intros Hn. apply merge_NoDup, merge_NoDup. now rewrite E0.
  - destruct (merge_prefix "dark-mode" dark p0) as (a1 & E1 & H1).
    split; [|split].
    + exists a1, []. rewrite E1, app_nil_r. auto.
    + rewrite app_nil_r. apply Forall_forall. intros c Hc. now apply merge_covers.
    + intros Hn. apply merge_NoDup. now rewrite E0.
  - destruct (merge_prefix "mobile" mobile p0) as (a2 & E2 & H2).
    split; [|split].
    + exists [], a2. rewrite E2. auto.
    + apply Forall_forall. intros c Hc. now apply merge_covers.
    + intros Hn. apply merge_NoDup. now rewrite E0.
  - split; [|split].
    + exists [], []. rewrite !app_nil_r. auto.
    + constructor.
    + intros Hn. now rewrite E0.
Qed.

End ModePalettes.

Section SortedOutput.
Import JS.
Variable A : Type.
Variable after : A -> A -> bool.
Variable le : A -> A -> Prop.
Hypothesis le_trans : forall x y z, le x y -> le y z -> le x z.
Hypothesis after_false : forall x y, after x y = false -> le x y.
Hypothesis after_true : forall x y, after x y = true -> le y x.

Lemma insert_ordered (x : A) (l : list A) :
  StronglySorted le l -> StronglySorted le (insert after x l).
Proof.
  induction 1 as [|y l Hs IH Hy]; cbn [insert]; [repeat constructor|].
  destruct (after x y) eqn:E.
  - constructor; [exact IH|]. apply Forall_forall. intros z Hz.
    apply insert_In in Hz as [-> | Hz]; [now apply after_true|].
    rewrite Forall_forall in Hy. now apply Hy.
  - constructor; [now constructor|]. apply after_false in E.
    constructor; [exact E|]. rewrite Forall_forall in *. intros z Hz.
    apply le_trans with y; [exact E | now apply Hy].
Qed.

Lemma sort_ordered (l : list A) : StronglySorted le (sort after l).
Proof.
  induction l as [|x l IH]; cbn [sort]; [constructor | now apply insert_ordered].
Qed.

End SortedOutput.

Section Shadows.
Import JS Colors Spec Facts Layout.

Lemma occurrences_snoc (k x : str) (l : list str) :
  occurrences k (l ++ [x])
  = (occurrences k l + if str_eqb k x then 1 else 0)%Z.
Proof.
  unfold occurrences. rewrite filter_app, length_app. cbn [filter].
  destruct (str_eqb k x); cbn [List.length]; lia.
Qed.

Lemma occurrences_nonneg (k : str) (l : list str) : (0 <= occurrences k l)%Z.
Proof. unfold occurrences. lia. Qed.

Lemma str_eqb_refl (a : str) : str_eqb a a = true.
Proof. now apply str_eqb_eq. Qed.

Lemma str_eqb_sym (a b : str) : str_eqb a b = str_eqb b a.
Proof.
  destruct (str_eqb b a) eqn:E.
  - apply str_eqb_eq in E. subst. apply str_eqb_refl.
  - apply str_eqb_false. apply str_eqb_false in E. congruence.
Qed.

Lemma set_keys (m : list (str * Z)) (x : str) (v : Z) :
  map fst (set m x v)
  = if arr_includes (map fst m) x then map fst m else map fst m ++ [x].
Proof.
  induction m as [|[k n] m IH]; cbn [set map fst]; [reflexivity|].
  unfold arr_includes in *. cbn [existsb]. rewrite (str_eqb_sym x k).
  destruct (str_eqb k x); [reflexivity|]. cbn [orb map fst]. rewrite IH.
  now destruct (existsb (str_eqb x) (map fst m)).
Qed.

Lemma set_NoDup (m : list (str * Z)) (x : str) (v : Z) :
  NoDup (map fst m) -> NoDup (map fst (set m x v)).
Proof.
  intros H. rewrite set_keys.
  destruct (arr_includes (map fst m) x) eqn:E; [exact H|].
  apply NoDup_app; [exact H | repeat constructor; intros [] |].
  intros y Hy [<- | []]. apply arr_includes_In in Hy. congruence.
Qed.

Lemma lookup_In {V} (m : list (str * V)) (k : str) (v : V) :
  NoDup (map fst m) -> In (k, v) m <-> lookup m k = Some v.
Proof.
  induction m as [|[k0 v0] m IH]; cbn [map fst lookup]; intros Hn.
  - split; [intros [] | discriminate].
  - apply NoDup_cons_iff in Hn as [Hk Hn]. destruct (str_eqb k0 k) eqn:E.
    + apply str_eqb_eq in E. subst k0. split.
      * intros [[= ->] | H]; [reflexivity|].
        exfalso. apply Hk. apply in_map_iff. now exists (k, v).
      * intros [= ->]. now left.
    + apply str_eqb_false in E. rewrite <- (IH Hn). split.
      * intros [[= -> _] | H]; [congruence | exact H].
      * intros H. now right.
Qed.

Lemma get_lookup (m : list (str * Z)) (k : str) : get m k = lookup m k.
Proof.
  induction m as [|[k0 n] m IH]; [reflexivity|]. cbn [get lookup].
  now rewrite IH.
Qed.

Lemma lookup_set (m : list (str * Z)) (x : str) (v : Z) (k : str) :
  lookup (set m x v) k = if str_eqb x k then Some v else lookup m k.
Proof.
  induction m as [|[k0 n] m IH]; cbn [set lookup]; [reflexivity|].
  destruct (str_eqb k0 x) eqn:E.
  - apply str_eqb_eq in E. subst k0. cbn [lookup]. now destruct (str_eqb x k).
  - cbn [lookup]. rewrite IH. destruct (str_eqb k0 k) eqn:E'; [|reflexivity].
    apply str_eqb_eq in E'. subst k0. now rewrite str_eqb_sym, E.
Qed.

Lemma truthy_string (s : str) : truthy (VString s) = negb (str_eqb s "").
Proof.
  destruct s as [|c s]; [reflexivity|]. cbn [truthy]. symmetry.
  apply negb_true_iff, str_eqb_false. discriminate.
Qed.

(** The tally of the shadows, after the elements [els]. *)
Lemma countShadow_tally (els : list str) :
  NoDup (map fst (fold_left countShadow els [])) /\
  forall k,
    lookup (fold_left countShadow els []) k
    = if isShadow k && (0 <? occurrences k els)%Z
      then Some (occurrences k els) else None.
Proof.
  induction els as [|x els IH] using rev_ind.
  - split; [constructor|]. intros k. cbn. now rewrite andb_false_r.
  - destruct IH as [Hn Hl]. rewrite fold_left_app. cbn [fold_left].
    set (m := fold_left countShadow els []) in *.
    unfold countShadow. rewrite truthy_string.
    fold (isShadow x). destruct (isShadow x) eqn:Ex.
    + split; [now apply set_NoDup|]. intros k.
      rewrite lookup_set, occurrences_snoc, get_lookup, Hl, Ex. cbn [andb].
      rewrite (str_eqb_sym k x). pose proof (occurrences_nonneg x els) as H0.
      destruct (str_eqb x k) eqn:E.
      * apply str_eqb_eq in E. subst k. rewrite Ex. cbn [andb].
        destruct (0 <? occurrences x els)%Z eqn:E0; cbn [orZero].
        -- apply Z.ltb_lt in E0.
           assert (E1 : (0 <? occurrences x els + 1)%Z = true) by (apply Z.ltb_lt; lia).
           now rewrite E1.
        -- apply Z.ltb_ge in E0.
           assert (E1 : (0 <? occurrences x els + 1)%Z = true) by (apply Z.ltb_lt; lia).
           rewrite E1. f_equal. lia.
      * now rewrite Z.add_0_r.
    + split; [exact Hn|]. intros k. rewrite Hl, occurrences_snoc.
      destruct (isShadow k) eqn:Ek; [|reflexivity]. cbn [andb].
      destruct (str_eqb k x) eqn:E; [|now rewrite Z.add_0_r].
      apply str_eqb_eq in E. congruence.
Qed.

(** Property X13: the shadows [extractShadows] reports.  An entry is reported for
    exactly the values of [box-shadow], other than the empty one and
    [none], that some element has; its count is the number of elements with
    that value; its confidence is high above 5, medium above 2 and low
    otherwise; no value is reported twice; and the entries are listed by
    count, largest first. *)
Theorem extractShadows_tally (elements : list str) :
  (forall e, In e (extractShadows elements) <->
     isShadow (shadow e) = true /\ In (shadow e) elements /\
     e = shadowOf (shadow e) (occurrences (shadow e) elements)) /\
  NoDup (map shadow (extractShadows elements)) /\
  StronglySorted (fun a b => (shadowCount b <= shadowCount a)%Z)
    (extractShadows elements).
Proof.
  destruct (countShadow_tally elements) as [Hn Hl].
  unfold extractShadows. set (m := fold_left countShadow elements []) in *.
  set (mk := fun e : str * Z => let '(shadow, count) := e in _).
  assert (Hmk : forall k n, mk (k, n) = shadowOf k n) by reflexivity.
  assert (Hocc : forall k, (0 < occurrences k elements)%Z <-> In k elements).
  { intros k. unfold occurrences. split.
    - intros H. destruct (filter (str_eqb k) elements) as [|y l] eqn:E;
        [cbn in H; lia|].
      assert (Hy : In y (filter (str_eqb k) elements)) by (rewrite E; now left).
      apply filter_In in Hy as [Hy Ey]. apply str_eqb_eq in Ey. now subst.
    - intros H.
      assert (Hy : In k (filter (str_eqb k) elements))
        by (apply filter_In; split; [exact H | apply str_eqb_refl]).
      destruct (filter (str_eqb k) elements); [destruct Hy | cbn; lia]. }
  split; [|split].
  - intros e. rewrite sort_In, in_map_iff. split.
    + intros ([k n] & <- & Hin). rewrite Hmk. cbn [shadow shadowOf].
      apply (lookup_In _ _ _ Hn) in Hin. rewrite Hl in Hin.
      destruct (isShadow k) eqn:Ek; [|discriminate]. cbn [andb] in Hin.
      destruct (0 <? occurrences k elements)%Z eqn:E0; [|discriminate].
      injection Hin as <-. apply Z.ltb_lt, Hocc in E0. auto.
    + intros (Ek & Hin & ->). exists (shadow e, occurrences (shadow e) elements).
      split; [apply Hmk|]. apply (lookup_In _ _ _ Hn). rewrite Hl, Ek.
      apply Hocc, Z.ltb_lt in Hin. now rewrite Hin.
  - apply sort_NoDup. rewrite map_map.
    assert (E : map (fun x => shadow (mk x)) m = map fst m)
      by (apply map_ext; now intros [k n]).
    now rewrite E.
  - apply sort_ordered with (le := fun a b => (shadowCount b <= shadowCount a)%Z).
    + intros x y z. lia.
    + intros x y H. unfold byShadowCount in H. apply Z.ltb_ge in H. lia.
    + intros x y H. unfold byShadowCount in H. apply Z.ltb_lt in H. lia.
Qed.

End Shadows.

Section BorderRadius.
Import JS Colors Spec Facts Layout.

Lemma note_keys (m : list (str * radiusData)) (x c : str) :
  map fst (note m x c)
  = if arr_includes (map fst m) x then map fst m else map fst m ++ [x].
Proof.
  induction m as [|[k d] m IH]; cbn [note map fst]; [reflexivity|].
  unfold arr_includes in *. cbn [existsb]. rewrite (str_eqb_sym x k).
  destruct (str_eqb k x); [reflexivity|]. cbn [orb map fst]. rewrite IH.
  now destruct (existsb (str_eqb x) (map fst m)).
Qed.

Lemma note_NoDup (m : list (str * radiusData)) (x c : str) :
  NoDup (map fst m) -> NoDup (map fst (note m x c)).
Proof.
  intros H. rewrite note_keys.
  destruct (arr_includes (map fst m) x) eqn:E; [exact H|].
  apply NoDup_app; [exact H | repeat constructor; intros [] |].
  intros y Hy [<- | []]. apply arr_includes_In in Hy. congruence.
Qed.

Lemma lookup_note (m : list (str * radiusData)) (x c k : str) :
  lookup (note m x c) k
  = if str_eqb x k
    then Some (noted (match lookup m x with
                      | Some d => d
                      | None => mkData 0 []
                      end) c)
    else lookup m k.
Proof.
  induction m as [|[k0 d] m IH]; cbn [note lookup]; [reflexivity|].
  destruct (str_eqb k0 x) eqn:E.
  - apply str_eqb_eq in E. subst k0. cbn [lookup]. now destruct (str_eqb x k).
  - cbn [lookup]. rewrite IH. destruct (str_eqb k0 k) eqn:E'; [|reflexivity].
    apply str_eqb_eq in E'. subst k0. now rewrite str_eqb_sym, E.
Qed.

Lemma withRadius_snoc (k : str) (els : list element) (x : element) :
  withRadius k (els ++ [x])
  = withRadius k els ++ if str_eqb k (borderRadius x) then [x] else [].
Proof. unfold withRadius. now rewrite filter_app. Qed.

Lemma firstSeen_snoc (l : list str) (c : str) :
  firstSeen (l ++ [c])
  = if arr_includes (firstSeen l) c then firstSeen l else firstSeen l ++ [c].
Proof. unfold firstSeen. now rewrite fold_left_app. Qed.

(** The tally of the radii, after the elements [els]. *)
Lemma visit_tally (els : list element) :
  NoDup (map fst (fold_left visit els [])) /\
  forall k,
    lookup (fold_left visit els []) k
    = if isRadius k && negb (Nat.eqb (List.length (withRadius k els)) 0)
      then Some (mkData (Z.of_nat (List.length (withRadius k els)))
                   (firstSeen (map contextOf (withRadius k els))))
      else None.
Proof.
  induction els as [|x els IH] using rev_ind.
  - split; [constructor|]. intros k. cbn. now rewrite andb_false_r.
  - destruct IH as [Hn Hl]. rewrite fold_left_app. cbn [fold_left].
    set (m := fold_left visit els []) in *.
    unfold visit. rewrite truthy_string.
    fold (isRadius (borderRadius x)). destruct (isRadius (borderRadius x)) eqn:Ex.
    + split; [now apply note_NoDup|]. intros k.
      rewrite lookup_note, withRadius_snoc, Hl, Ex. cbn [andb].
      rewrite (str_eqb_sym k (borderRadius x)).
      destruct (str_eqb (borderRadius x) k) eqn:E.
      * apply str_eqb_eq in E. subst k. rewrite Ex. cbn [andb]. cbv iota.
        rewrite !length_app, map_app. cbn [List.length map]. rewrite firstSeen_snoc.
        replace (List.length (withRadius (borderRadius x) els) + 1 =? 0)%nat
          with false by (symmetry; apply Nat.eqb_neq; lia).
        cbn [negb]. f_equal. unfold noted.
        destruct (List.length (withRadius (borderRadius x) els) =? 0)%nat eqn:E0.
        -- apply Nat.eqb_eq in E0. apply length_zero_iff_nil in E0.
           rewrite E0. cbn. reflexivity.
        -- cbn [negb count elements]. f_equal. lia.
      * now rewrite app_nil_r.
    + split; [exact Hn|]. intros k. rewrite Hl, withRadius_snoc.
      destruct (isRadius k) eqn:Ek; [|reflexivity]. cbn [andb].
      destruct (str_eqb k (borderRadius x)) eqn:E; [|now rewrite app_nil_r].
      apply str_eqb_eq in E. congruence.
Qed.

Lemma radiusOrder_trans (x y z : radiusEntry) :
  radiusOrder x y -> radiusOrder y z -> radiusOrder x z.
Proof.
  unfold radiusOrder. intros [H1 H2] [H3 H4]. split; [auto|].
  intros E. destruct (percent x) eqn:Ex, (percent y) eqn:Ey, (percent z) eqn:Ez;
    try discriminate;
    try (apply Qle_trans with (numericValue y); [now apply H2 | now apply H4]).
  - discriminate (H1 eq_refl).
  - discriminate (H3 eq_refl).
Qed.

Lemma byRadius_false (x y : radiusEntry) : byRadius x y = false -> radiusOrder x y.
Proof.
  unfold byRadius, radiusOrder.
  destruct (percent x), (percent y); cbn [andb negb]; try discriminate;
    intros H; (split; [auto|]); intros E; try discriminate.
  - destruct (Qlt_le_dec (numericValue y) (numericValue x)) as [Hlt | Hle];
      [|exact Hle].
    assert (Qltb 0 (numericValue x - numericValue y) = true).
    { apply Qltb_true. unfold Qminus. now apply Qlt_minus_iff in Hlt. }
    congruence.
  - destruct (Qlt_le_dec (numericValue y) (numericValue x)) as [Hlt | Hle];
      [|exact Hle].
    assert (Qltb 0 (numericValue x - numericValue y) = true).
    { apply Qltb_true. unfold Qminus. now apply Qlt_minus_iff in Hlt. }
    congruence.
Qed.

Lemma byRadius_true (x y : radiusEntry) : byRadius x y = true -> radiusOrder y x.
Proof.
  unfold byRadius, radiusOrder.
  destruct (percent x), (percent y); cbn [andb negb]; try discriminate;
    intros H; (split; [auto|]); intros E; try discriminate.
  - apply Qltb_true in H. apply Qlt_le_weak. apply Qlt_minus_iff. exact H.
  - apply Qltb_true in H. apply Qlt_le_weak. apply Qlt_minus_iff. exact H.
Qed.

(** Property X14: the radii [extractBorderRadius] reports.  An entry is reported
    for exactly the values of [border-radius], other than the empty one and
    [0px], that some element has; it carries the number of elements with
    that value, the first five distinct contexts of those elements in the
    order of the page, and the number the value begins with; no value is
    reported twice; and in the list no percentage comes before a length,
    while within the lengths and within the percentages the numbers do not
    decrease. *)
Theorem extractBorderRadius_tally (els : list element) :
  (forall e, In e (extractBorderRadius els) <->
     isRadius (value e) = true /\
     (exists el, In el els /\ borderRadius el = value e) /\
     e = radiusOf (value e) els) /\
  NoDup (map value (extractBorderRadius els)) /\
  StronglySorted radiusOrder (extractBorderRadius els).
Proof.
  destruct (visit_tally els) as [Hn Hl].
  unfold extractBorderRadius. set (m := fold_left visit els []) in *.
  assert (Hwith : forall k,
            negb (Nat.eqb (List.length (withRadius k els)) 0) = true <->
            exists el, In el els /\ borderRadius el = k).
  { intros k. rewrite negb_true_iff, Nat.eqb_neq. unfold withRadius. split.
    - intros H. destruct (filter _ els) as [|el l] eqn:E; [now contradiction H|].
      assert (Hy : In el (filter (fun el => str_eqb k (borderRadius el)) els))
        by (rewrite E; now left).
      apply filter_In in Hy as [Hy Ey]. apply str_eqb_eq in Ey. now exists el.
    - intros (el & Hel & <-).
      assert (Hy : In el (filter (fun el0 => str_eqb (borderRadius el)
                                               (borderRadius el0)) els))
        by (apply filter_In; split; [exact Hel | apply str_eqb_refl]).
      destruct (filter _ els); [destruct Hy | discriminate]. }
  split; [|split].
  - intros e. rewrite sort_In, in_map_iff. split.
    + intros ([k d] & <- & Hin).
      apply (lookup_In _ _ _ Hn) in Hin. rewrite Hl in Hin.
      destruct (isRadius k) eqn:Ek; [|discriminate]. cbn [andb] in Hin.
      destruct (negb _) eqn:E0; [|discriminate]. injection Hin as <-.
      cbn [toRadius value]. split; [exact Ek|]. split; [now apply Hwith|].
      reflexivity.
    + intros (Ek & Hex & ->).
      exists (value e, mkData (Z.of_nat (List.length (withRadius (value e) els)))
                         (firstSeen (map contextOf (withRadius (value e) els)))).
      split; [reflexivity|]. apply (lookup_In _ _ _ Hn). rewrite Hl, Ek.
      apply Hwith in Hex. now rewrite Hex.
  - apply sort_NoDup. rewrite map_map.
    assert (E : map (fun x => value (toRadius x)) m = map fst m)
      by (apply map_ext; now intros [k d]).
    now rewrite E.
  - apply sort_ordered.
    + exact radiusOrder_trans.
    + exact byRadius_false.
    + exact byRadius_true.
Qed.

End BorderRadius.

Section ContrastBounds.
Import JS Regex Accessibility Spec Facts.
Local Open Scope R_scope.

Lemma linear_range (c : Z) : (0 <= c <= 255)%Z -> 0 <= linear c <= 1.
Proof.
  intros [H0 H1]. apply IZR_le in H0, H1. unfold linear. cbv zeta.
  assert (Hx : 0 <= IZR c / 255 <= 1) by lra.
  destruct (Rle_dec (IZR c / 255) 0.03928) as [H | H]; [lra|].
  set (y := (IZR c / 255 + 0.055) / 1.055).
  assert (Hy : 0 < y <= 1) by (unfold y; lra).
  split; [left; apply exp_pos|].
  rewrite <- (Rpower_one 2.4). apply Rle_Rpower_l; lra.
Qed.

Lemma luminance_range (rgb : Z * Z * Z) :
  bytes rgb ->
  let '(r, g, b) := rgb in 0 <= getLuminance r g b <= 1.
Proof.
  destruct rgb as [[r g] b]. intros (Hr & Hg & Hb).
  apply linear_range in Hr, Hg, Hb. unfold getLuminance. lra.
Qed.

Lemma ratio_range (l1 l2 : R) :
  0 <= l1 <= 1 -> 0 <= l2 <= 1 -> 1 <= getContrastRatio l1 l2 <= 21.
Proof.
  intros H1 H2. unfold getContrastRatio. cbv zeta.
  assert (Hmax : Rmin l1 l2 <= Rmax l1 l2 <= 1).
  { split; [apply Rle_trans with l1; [apply Rmin_l | apply Rmax_l]|].
    apply Rmax_lub; lra. }
  assert (Hmin : 0 <= Rmin l1 l2) by (apply Rmin_glb; lra).
  set (hi := Rmax l1 l2) in *. set (lo := Rmin l1 l2) in *.
  assert (Hpos : 0 < lo + 0.05) by lra. split.
  - apply (Rmult_le_reg_r (lo + 0.05)); [exact Hpos|].
    unfold Rdiv. rewrite Rmult_assoc, Rinv_l by lra. lra.
  - apply (Rmult_le_reg_r (lo + 0.05)); [exact Hpos|].
    unfold Rdiv. rewrite Rmult_assoc, Rinv_l by lra. lra.
Qed.

Lemma ratio_sym (l1 l2 : R) : getContrastRatio l1 l2 = getContrastRatio l2 l1.
Proof. unfold getContrastRatio. now rewrite Rmax_comm, Rmin_comm. Qed.

Lemma round2_range (x : R) : 1 <= x <= 21 -> 1 <= round2 x <= 21.
Proof.
  intros [H1 H2]. unfold round2.
  destruct (base_Int_part (x * 100 + / 2)) as [Hle Hgt].
  set (n := Int_part (x * 100 + / 2)) in *.
  assert (Hlo : (99 < n)%Z) by (apply lt_IZR; lra).
  assert (Hhi : (n < 2101)%Z) by (apply lt_IZR; lra).
  assert (Hn : 100 <= IZR n <= 2100)
    by (split; apply IZR_le; lia).
  lra.
Qed.

Lemma geb_spec (x y : R) : geb x y = true <-> y <= x.
Proof. unfold geb. destruct (Rle_dec y x); split; auto; discriminate. Qed.

(** Property X15: the measure of a pair of colours whose channels fit a byte.  The
    contrast ratio is the same whichever of the two is the text colour; the
    reported ratio lies between 1 and 21; a pair that passes AAA passes AA;
    and the level is [AAA], [AA] or [Fail] according to the two tests. *)
Theorem measure_bounds (fgColor bgColor fontSize fontWeight : str)
  (fg bg : Z * Z * Z) :
  bytes fg -> bytes bg ->
  let c := measure fgColor bgColor fontSize fontWeight fg bg in
  1 <= ratio c <= 21 /\
  ratio (measure bgColor fgColor fontSize fontWeight bg fg) = ratio c /\
  (passesAAA c = true -> passesAA c = true) /\
  wcagLevel c = (if passesAAA c then lit "AAA"
                 else if passesAA c then lit "AA" else lit "Fail").
Proof.
  intros Hf Hb. pose proof (luminance_range fg Hf) as Lf.
  pose proof (luminance_range bg Hb) as Lb.
  destruct fg as [[fr fg_] fb], bg as [[br bg_] bb]. cbv zeta.
  unfold measure.
  cbn [ratio passesAA passesAAA wcagLevel].
  split; [apply round2_range; now apply ratio_range|].
  split; [now rewrite ratio_sym|]. split; [|reflexivity].
  rewrite !geb_spec. intros H. apply Rle_trans with (2 := H).
  destruct (isLargeText fontSize fontWeight); cbn [aaRequired aaaRequired]; lra.
Qed.

Lemma measure_bounds_witness :
  let c := measure "rgb(0, 0, 0)" "rgb(255, 255, 255)" "16px" "400"
             (0, 0, 0)%Z (255, 255, 255)%Z in
  1 <= ratio c <= 21 /\
  ratio (measure "rgb(255, 255, 255)" "rgb(0, 0, 0)" "16px" "400"
           (255, 255, 255)%Z (0, 0, 0)%Z) = ratio c /\
  (passesAAA c = true -> passesAA c = true) /\
  wcagLevel c = (if passesAAA c then lit "AAA"
                 else if passesAA c then lit "AA" else lit "Fail").
Proof.
  apply (@measure_bounds "rgb(0, 0, 0)" "rgb(255, 255, 255)" "16px" "400"
           (0, 0, 0)%Z (255, 255, 255)%Z); cbn; lia.
Defined.

End ContrastBounds.

Section AuditPhases.
Import JS Regex Accessibility Spec Facts.

Lemma checkText_adds (p : page) (st : audit * list str) (el : textElement) :
  In el (textElements p) ->
  exists new,
    colorContrast (fst (checkText st el)) = colorContrast (fst st) ++ new /\
    issues (fst (checkText st el))
      = issues (fst st) ++ map contrastIssue
                             (filter (fun c => negb (passesAA c)) new) /\
    missingAltText (fst (checkText st el)) = missingAltText (fst st) /\
    missingLabels (fst (checkText st el)) = missingLabels (fst st) /\
    Forall (sampleOf p) new /\
    Forall (fun c => ~ In (pairKey c) (snd st)) new /\
    (List.length new <= 1)%nat /\
    (forall k, In k (snd st) \/ In k (map pairKey new) -> In k (snd (checkText st el))).
Proof.
  intros Hel. destruct st as [a chk]. unfold checkText. cbn [fst snd].
  destruct (hidden el) eqn:Eh.
  { exists []. cbn [fst snd map filter]. rewrite !app_nil_r.
    repeat split; auto. intros k [H | []]. exact H. }
  destruct (arr_includes chk (color el ++ lit "|" ++ backgroundColor el)) eqn:Ek.
  { exists []. cbn [fst snd map filter]. rewrite !app_nil_r.
    repeat split; auto. intros k [H | []]. exact H. }
  assert (Hkey : ~ In (color el ++ lit "|" ++ backgroundColor el) chk).
  { intros H. apply arr_includes_In in H. congruence. }
  destruct (parseRgb (color el)) as [fg|] eqn:Efg;
    [destruct (parseRgb (backgroundColor el)) as [bg|] eqn:Ebg|].
  - destruct (str_eqb (backgroundColor el) "rgba(0, 0, 0, 0)") eqn:Et.
    + exists []. cbn [fst snd map filter]. rewrite !app_nil_r.
      repeat split; auto. intros k [H | []]. apply in_or_app. now left.
    + apply str_eqb_false in Et.
      set (c := measure (color el) (backgroundColor el) (fontSize el)
                  (fontWeight el) fg bg).
      assert (Hfg : foreground c = color el)
        by (unfold c, measure; now destruct fg as [[? ?] ?], bg as [[? ?] ?]).
      assert (Hbg : background c = backgroundColor el)
        by (unfold c, measure; now destruct fg as [[? ?] ?], bg as [[? ?] ?]).
      assert (Hs : sampleOf p c).
      { split; [now rewrite Hbg|]. exists el, fg, bg. auto. }
      assert (Hk : pairKey c = color el ++ lit "|" ++ backgroundColor el)
        by (unfold pairKey; now rewrite Hfg, Hbg).
      exists [c]. cbn [map filter].
      destruct (negb (passesAA c)) eqn:Ep; cbn [fst snd pushIssue colorContrast
        issues missingAltText missingLabels map].
      * repeat split; auto.
        -- constructor; [now rewrite Hk | constructor].
        -- intros k [H | [<- | []]]; apply in_or_app; [now left | right; left].
           now rewrite Hk.
      * rewrite app_nil_r. repeat split; auto.
        -- constructor; [now rewrite Hk | constructor].
        -- intros k [H | [<- | []]]; apply in_or_app; [now left | right; left].
           now rewrite Hk.
  - exists []. cbn [fst snd map filter]. rewrite !app_nil_r.
    repeat split; auto. intros k [H | []]. apply in_or_app. now left.
  - exists []. cbn [fst snd map filter]. rewrite !app_nil_r.
    repeat split; auto. intros k [H | []]. apply in_or_app. now left.
Qed.


Lemma checkText_fold (p : page) (els : list textElement) :
  (forall el, In el els -> In el (textElements p)) ->
  forall st,
    NoDup (map pairKey (colorContrast (fst st))) ->
    (forall c, In c (colorContrast (fst st)) -> In (pairKey c) (snd st)) ->
    exists new,
      colorContrast (fst (fold_left checkText els st))
        = colorContrast (fst st) ++ new /\
      issues (fst (fold_left checkText els st))
        = issues (fst st) ++ map contrastIssue
                               (filter (fun c => negb (passesAA c)) new) /\
      missingAltText (fst (fold_left checkText els st)) = missingAltText (fst st) /\
      missingLabels (fst (fold_left checkText els st)) = missingLabels (fst st) /\
      Forall (sampleOf p) new /\
      NoDup (map pairKey (colorContrast (fst st) ++ new)).
Proof.
  induction els as [|el els IH]; intros Hsub st Hnd Hkeys; cbn [fold_left].
  - exists []. cbn [map filter]. rewrite !app_nil_r. repeat split; auto.
  - destruct (@checkText_adds p st el (Hsub el (or_introl eq_refl)))
      as (n1 & C1 & I1 & A1 & L1 & S1 & K1 & Len1 & Keys1).
    assert (Hnd1 : NoDup (map pairKey (colorContrast (fst (checkText st el))))).
    { rewrite C1, map_app. apply NoDup_app; [exact Hnd | |].
      - destruct n1 as [|c [|c' l]]; cbn [map]; [constructor | | cbn in Len1; lia].
        constructor; [intros [] | constructor].
      - intros k Hk Hin. apply in_map_iff in Hk as (c & <- & Hc).
        apply in_map_iff in Hin as (c' & E & Hc').
        rewrite Forall_forall in K1. apply (K1 c' Hc'). rewrite E. now apply Hkeys. }
    assert (Hkeys1 : forall c, In c (colorContrast (fst (checkText st el))) ->
                       In (pairKey c) (snd (checkText st el))).
    { intros c Hc. rewrite C1 in Hc. apply Keys1.
      apply in_app_or in Hc as [Hc | Hc]; [left; now apply Hkeys|].
      right. now apply in_map. }
    destruct (IH (fun e h => Hsub e (or_intror h)) (checkText st el) Hnd1 Hkeys1)
      as (n2 & C2 & I2 & A2 & L2 & S2 & N2).
    exists (n1 ++ n2). rewrite C2, C1, I2, I1, A2, A1, L2, L1.
    rewrite filter_app, map_app, <- !app_assoc.
    repeat split; auto.
    + apply Forall_app. now split.
    + rewrite C1, <- app_assoc in N2. exact N2.
Qed.

Lemma checkContrast_spec (p : page) :
  issues (checkContrast p empty) = map contrastIssue (failing p) /\
  missingAltText (checkContrast p empty) = 0%Z /\
  missingLabels (checkContrast p empty) = 0%Z /\
  Forall (sampleOf p) (measured p) /\
  NoDup (map pairKey (measured p)).
Proof.
  unfold failing, measured, checkContrast.
  destruct (@checkText_fold p (textElements p) (fun _ h => h) (empty, []))
    as (new & C & I & A & L & S & N); [constructor | intros ? [] |].
  cbn [fst empty colorContrast issues missingAltText missingLabels app] in *.
  rewrite C, I, A, L. auto.
Qed.

Lemma count_fold {A} (f : A -> bool) (l : list A) (n0 : Z) :
  fold_left (fun n x => if f x then n + 1 else n)%Z l n0
  = (n0 + Z.of_nat (List.length (filter f l)))%Z.
Proof.
  revert n0. induction l as [|x l IH]; intros n0; cbn [fold_left filter].
  - cbn. lia.
  - rewrite IH. destruct (f x); cbn [List.length]; lia.
Qed.

Lemma checkHeading_fold (hs : list heading) :
  forall a previousLevel,
    issues (fst (fold_left checkHeading hs (a, previousLevel)))
      = issues a ++ map headingIssue (skips previousLevel hs) /\
    colorContrast (fst (fold_left checkHeading hs (a, previousLevel)))
      = colorContrast a /\
    missingLabels (fst (fold_left checkHeading hs (a, previousLevel)))
      = missingLabels a.
Proof.
  induction hs as [|h hs IH]; intros a prev; cbn [fold_left skips].
  - cbn [map fst]. now rewrite app_nil_r.
  - unfold checkHeading at 2 4 6.
    destruct ((prev + 1 <? level h)%Z && negb (prev =? 0)%Z);
      match goal with
      | |- context [fold_left checkHeading hs (?a', level h)] =>
          destruct (IH a' (level h)) as (I & C & L); rewrite I, C, L
      end;
      cbn [pushIssue issues colorContrast missingLabels map app];
      rewrite <- ?app_assoc; auto.
Qed.

Lemma checkFocus_keeps (p : page) (a : audit) :
  issues (checkFocus p a) = issues a /\
  colorContrast (checkFocus p a) = colorContrast a /\
  missingLabels (checkFocus p a) = missingLabels a.
Proof.
  unfold checkFocus. generalize (firstn 10 (focusableElements p)) as l.
  intros l. revert a. induction l as [|el l IH]; intros a; cbn [fold_left]; [auto|].
  destruct (negb (hasFocusIndicator el)); [|apply IH].
  match goal with
  | |- context [fold_left _ l ?a'] => destruct (IH a') as (I & C & L)
  end.
  rewrite I, C, L. auto.
Qed.

(** Property X16: the issues of the audit, completely.  They are, in this order: an
    error for every measured pair of colours that fails AA; one warning
    with the number of fields without a label, if there is such a field; a
    warning for every heading more than one level below the heading before
    it; and a warning when no heading has the first level.  Nothing else is
    an issue, so the errors are the failing pairs, and the page passes the
    minimum of AA exactly when every measured pair passes AA.  The report
    lists the first twenty measured pairs, and counts the fields without a
    label. *)
Theorem audit_issues (p : page) :
  let a := fst (extractAccessibilityAudit p) in
  let sm := snd (extractAccessibilityAudit p) in
  issues a = expectedIssues p /\
  errors sm = Z.of_nat (List.length (failing p)) /\
  (passesMinimumAA sm = true <->
   Forall (fun c => passesAA c = true) (measured p)) /\
  colorContrast a = firstn 20 (measured p) /\
  missingLabels a = unlabelledCount p.
Proof.
  cbv zeta. unfold extractAccessibilityAudit. cbn [fst snd].
  destruct (checkContrast_spec p) as (I1 & A1 & L1 & _ & _).
  rewrite (checkImages_counts_nothing p _ A1).
  set (a1 := checkContrast p empty) in *.
  assert (C1 : colorContrast a1 = measured p) by reflexivity.
  (* labels *)
  assert (H2 : issues (checkLabels p a1)
               = issues a1 ++
                 (if (0 <? unlabelledCount p)%Z
                  then [mkIssue "forms" "warning"
                          (FieldsMissingLabels (unlabelledCount p))]
                  else []) /\
               colorContrast (checkLabels p a1) = colorContrast a1 /\
               missingLabels (checkLabels p a1) = unlabelledCount p).
  { unfold checkLabels. rewrite count_fold, L1, Z.add_0_l.
    fold (unlabelledCount p).
    destruct (0 <? unlabelledCount p)%Z;
      cbn [pushIssue issues colorContrast missingLabels];
      rewrite ?app_nil_r; auto. }
  destruct H2 as (I2 & C2 & L2). set (a2 := checkLabels p a1) in *.
  (* headings *)
  assert (H3 : issues (checkHeadings p a2)
               = issues a2 ++ map headingIssue (skips 0 (headings p)) ++
                 (if existsb (fun h => (level h =? 1)%Z) (headings p) then []
                  else [mkIssue "headings" "warning" MissingH1]) /\
               colorContrast (checkHeadings p a2) = colorContrast a2 /\
               missingLabels (checkHeadings p a2) = missingLabels a2).
  { unfold checkHeadings.
    destruct (checkHeading_fold (headings p) a2 0) as (I & C & L).
    destruct (existsb (fun h => (level h =? 1)%Z) (headings p));
      cbn [negb pushIssue issues colorContrast missingLabels];
      rewrite I, C, L, ?app_nil_r, <- ?app_assoc; auto. }
  destruct H3 as (I3 & C3 & L3). set (a3 := checkHeadings p a2) in *.
  destruct (checkFocus_keeps p a3) as (I4 & C4 & L4).
  set (a4 := checkFocus p a3) in *.
  assert (Hissues : issues (countAria p a4) = expectedIssues p).
  { cbn [countAria issues]. rewrite I4, I3, I2, I1. unfold expectedIssues.
    now rewrite <- !app_assoc. }
  assert (Herr : withSeverity "error" (expectedIssues p)
                 = Z.of_nat (List.length (failing p))).
  { unfold withSeverity, expectedIssues. f_equal.
    rewrite !filter_app, !length_app.
    assert (E1 : forall l, filter (fun i => str_eqb (severity i) "error")
                             (map contrastIssue l) = map contrastIssue l).
    { induction l as [|c l IHl]; [reflexivity|]. cbn [map filter].
      change (str_eqb (severity (contrastIssue c)) "error") with true.
      cbv iota. now rewrite IHl. }
    assert (E2 : forall l, filter (fun i => str_eqb (severity i) "error")
                             (map headingIssue l) = []).
    { induction l as [|c l IHl]; [reflexivity|]. cbn [map filter].
      change (str_eqb (severity (headingIssue c)) "error") with false.
      cbv iota. exact IHl. }
    rewrite E1, E2, length_map.
    destruct (0 <? unlabelledCount p)%Z;
      destruct (existsb (fun h => (level h =? 1)%Z) (headings p));
      cbn; lia. }
  split; [cbn [limit issues]; exact Hissues|].
  unfold summarize. cbn [errors passesMinimumAA]. rewrite Hissues, Herr.
  split; [reflexivity|]. split; [|split].
  - rewrite Z.eqb_eq. unfold failing. split.
    + intros H. apply Forall_forall. intros c Hc.
      destruct (passesAA c) eqn:E; [reflexivity|].
      assert (Hin : In c (filter (fun c => negb (passesAA c)) (measured p)))
        by (apply filter_In; split; [exact Hc | now rewrite E]).
      destruct (filter _ (measured p)); [destruct Hin | cbn in H; lia].
    + intros H. rewrite Forall_forall in H.
      destruct (filter _ (measured p)) as [|c l] eqn:E; [reflexivity|].
      assert (Hin : In c (filter (fun c => negb (passesAA c)) (measured p)))
        by (rewrite E; now left).
      apply filter_In in Hin as [Hc Hn]. rewrite (H c Hc) in Hn. discriminate.
  - cbn [limit countAria colorContrast]. now rewrite C4, C3, C2, C1.
  - cbn [limit countAria missingLabels]. now rewrite L4, L3, L2.
Qed.

(** Property X17: the pairs of colours the audit reports.  There are at most
    twenty; no pair of a text colour and a background occurs twice; each is
    the measure of a text element that is not hidden, with the font size and
    weight of that element, and both of its colours parse; and the
    background is never [rgba(0, 0, 0, 0)]. *)
Theorem contrast_samples (p : page) :
  let samples := colorContrast (fst (extractAccessibilityAudit p)) in
  (List.length samples <= 20)%nat /\
  NoDup (map (fun c => (foreground c, background c)) samples) /\
  Forall (sampleOf p) samples.
Proof.
  cbv zeta. unfold extractAccessibilityAudit. cbn [fst limit colorContrast].
  destruct (checkContrast_spec p) as (_ & A1 & L1 & S & N).
  rewrite (checkImages_counts_nothing p _ A1).
  assert (C : colorContrast
                (countAria p (checkFocus p (checkHeadings p
                   (checkLabels p (checkContrast p empty)))))
              = measured p).
  { cbn [countAria colorContrast].
    destruct (checkFocus_keeps p (checkHeadings p
                (checkLabels p (checkContrast p empty)))) as (_ & -> & _).
    unfold checkHeadings.
    destruct (checkHeading_fold (headings p)
                (checkLabels p (checkContrast p empty)) 0) as (_ & C & _).
    destruct (negb _); cbn [pushIssue colorContrast]; rewrite C;
      unfold checkLabels;
      destruct (0 <? _)%Z; reflexivity. }
  rewrite C. split; [apply firstn_le_length|]. split.
  - assert (Hn : NoDup (map pairKey (firstn 20 (measured p)))).
    { rewrite <- firstn_map. now apply firstn_NoDup. }
    revert Hn. generalize (firstn 20 (measured p)) as l.
    induction l as [|c l IH]; cbn [map]; intros Hn; [constructor|].
    apply NoDup_cons_iff in Hn as [Hc Hn]. constructor; [|now apply IH].
    intros Hin. apply Hc. apply in_map_iff in Hin as (c' & E & Hc').
    apply in_map_iff. exists c'. split; [|exact Hc'].
    injection E as E1 E2. unfold pairKey. now rewrite E1, E2.
  - rewrite Forall_forall in *. intros c Hc. apply S.
    rewrite <- (firstn_skipn 20 (measured p)). apply in_or_app. now left.
Qed.

End AuditPhases.

Section SpacingTally.
Import JS Spacing Spec Facts.

Lemma Qeq_bool_sym (a b : Q) : Qeq_bool a b = Qeq_bool b a.
Proof.
  destruct (Qeq_bool b a) eqn:E.
  - apply Qeq_bool_iff. apply Qeq_bool_iff in E. now symmetry.
  - destruct (Qeq_bool a b) eqn:E'; [|reflexivity].
    apply Qeq_bool_iff in E'. symmetry in E'. apply Qeq_bool_iff in E'. congruence.
Qed.

Lemma Qeq_bool_trans (a b c : Q) :
  Qeq_bool a b = true -> Qeq_bool b c = Qeq_bool a c.
Proof.
  intros H. apply Qeq_bool_iff in H.
  destruct (Qeq_bool a c) eqn:E.
  - apply Qeq_bool_iff. apply Qeq_bool_iff in E. now rewrite <- H.
  - destruct (Qeq_bool b c) eqn:E'; [|reflexivity].
    apply Qeq_bool_iff in E'. rewrite <- H in E'. apply Qeq_bool_iff in E'.
    congruence.
Qed.

Lemma rate_bump (m : list (Q * Z)) (v k : Q) :
  rate (bump m v) k = (rate m k + if Qeq_bool v k then 1 else 0)%Z.
Proof.
  induction m as [|[k0 n] m IH]; cbn [bump rate].
  - destruct (Qeq_bool v k); reflexivity.
  - destruct (Qeq_bool k0 v) eqn:E; cbn [rate].
    + rewrite (Qeq_bool_trans _ _ k E).
      destruct (Qeq_bool k0 k); lia.
    + destruct (Qeq_bool k0 k) eqn:E'; [|exact IH].
      destruct (Qeq_bool v k) eqn:E''; [|lia].
      rewrite Qeq_bool_sym in E''. rewrite (Qeq_bool_trans _ _ v E') in E''.
      congruence.
Qed.

Lemma bump_In (m : list (Q * Z)) (v : Q) (e : Q * Z) :
  In e (bump m v) ->
  (Qeq_bool (fst e) v = true) \/ In e m.
Proof.
  induction m as [|[k0 n] m IH]; cbn [bump].
  - intros [<- | []]. left. cbn. apply Qeq_bool_iff. reflexivity.
  - destruct (Qeq_bool k0 v) eqn:E.
    + intros [<- | H]; [left; exact E | right; now right].
    + intros [<- | H]; [right; now left|].
      apply IH in H as [H | H]; [now left | right; now right].
Qed.

Lemma bump_distinct (m : list (Q * Z)) (v : Q) :
  distinctKeys m -> distinctKeys (bump m v).
Proof.
  unfold distinctKeys. induction 1 as [|[k0 n] m Hk Hm IH]; cbn [bump].
  - repeat constructor.
  - destruct (Qeq_bool k0 v) eqn:E.
    + constructor; [exact Hk | exact Hm].
    + constructor; [|exact IH]. apply Forall_forall. intros e He.
      apply bump_In in He as [He | He].
      * cbn [fst].
        destruct (Qeq_bool k0 (fst e)) eqn:E'; [|reflexivity].
        rewrite (Qeq_bool_trans _ _ v E') in He. congruence.
      * rewrite Forall_forall in Hk. now apply Hk.
Qed.

Lemma rate_In (m : list (Q * Z)) (k : Q) (n : Z) :
  distinctKeys m -> In (k, n) m -> rate m k = n.
Proof.
  unfold distinctKeys. induction 1 as [|[k0 n0] m Hk Hm IH]; [intros []|].
  intros [[= -> ->] | Hin]; cbn [rate].
  - assert (E : Qeq_bool k k = true) by (apply Qeq_bool_iff; reflexivity).
    now rewrite E.
  - rewrite Forall_forall in Hk. specialize (Hk _ Hin). cbn [fst] in Hk.
    rewrite Hk. now apply IH.
Qed.

Lemma rate_pos (m : list (Q * Z)) (k : Q) :
  (0 < rate m k)%Z -> exists k0, Qeq_bool k0 k = true /\ In (k0, rate m k) m.
Proof.
  induction m as [|[k0 n] m IH]; cbn [rate]; [lia|].
  destruct (Qeq_bool k0 k) eqn:E.
  - intros _. exists k0. split; [exact E | now left].
  - intros H. destruct (IH H) as (k1 & E1 & H1). exists k1. split; [exact E1 | now right].
Qed.

Lemma spacings_flat (elements : list element) :
  spacings elements = fold_left tally (lengths elements) [].
Proof.
  unfold spacings, lengths. generalize (@nil (Q * Z)) as m.
  induction elements as [|el els IH]; intros m; [reflexivity|].
  cbn [fold_left flat_map app]. now rewrite IH.
Qed.

(** The tally of the lengths. *)
Lemma tally_spec (strs : list str) :
  let m := fold_left tally strs [] in
  distinctKeys m /\
  Forall (fun e => 0 < fst e /\ (1 <= snd e)%Z) m /\
  forall k, rate m k = Z.of_nat (List.length (filter (reads k) strs)).
Proof.
  cbv zeta. induction strs as [|s strs IH] using rev_ind.
  - split; [constructor|]. split; [constructor | reflexivity].
  - destruct IH as (Hd & Hp & Hr). rewrite fold_left_app. cbn [fold_left].
    set (m := fold_left tally strs []) in *.
    assert (Hlen : forall k, Z.of_nat (List.length (filter (reads k) (strs ++ [s])))
                   = (Z.of_nat (List.length (filter (reads k) strs))
                      + if reads k s then 1 else 0)%Z).
    { intros k. rewrite filter_app, length_app. cbn [filter].
      destruct (reads k s); cbn [List.length]; lia. }
    unfold tally. destruct (parseFloat s) as [v|] eqn:Ev.
    + destruct (Qltb 0 v) eqn:E0.
      * split; [now apply bump_distinct|]. split.
        -- apply Forall_forall. intros e He. rewrite Forall_forall in Hp.
           pose proof (rate_bump m v (fst e)) as Hrb.
           destruct (bump_In _ _ _ He) as [Heq | Hin].
           ++ split.
              ** apply Qeq_bool_iff in Heq. rewrite Heq. now apply Qltb_true.
              ** destruct e as [k n]. cbn [fst snd] in *.
                 rewrite (@rate_In (bump m v) k n (bump_distinct v Hd) He) in Hrb.
                 rewrite Qeq_bool_sym, Heq in Hrb.
                 assert (0 <= rate m k)%Z by (rewrite Hr; lia). lia.
           ++ now apply Hp.
        -- intros k. rewrite rate_bump, Hr, Hlen. unfold reads. rewrite Ev, E0.
           reflexivity.
      * split; [exact Hd|]. split; [exact Hp|].
        intros k. rewrite Hr, Hlen. unfold reads. rewrite Ev, E0. cbn [andb]. lia.
    + split; [exact Hd|]. split; [exact Hp|].
      intros k. rewrite Hr, Hlen. unfold reads. rewrite Ev. lia.
Qed.


Lemma insert_length {A} (after : A -> A -> bool) (x : A) (l : list A) :
  List.length (insert after x l) = S (List.length l).
Proof.
  induction l as [|y l IH]; cbn [insert]; [reflexivity|].
  destruct (after x y); cbn [List.length]; [now rewrite IH | reflexivity].
Qed.

Lemma sort_length {A} (after : A -> A -> bool) (l : list A) :
  List.length (sort after l) = List.length l.
Proof.
  induction l as [|x l IH]; [reflexivity|]. cbn [sort List.length].
  now rewrite insert_length, IH.
Qed.

Lemma pairs_insert {A} (R : A -> A -> Prop) (after : A -> A -> bool)
  (x : A) (l : list A) :
  (forall a b, R a b -> R b a) ->
  ForallOrdPairs R (x :: l) -> ForallOrdPairs R (insert after x l).
Proof.
  intros Hsym. induction l as [|y l IH]; intros H; cbn [insert]; [exact H|].
  destruct (after x y); [|exact H].
  inversion H as [|? ? Hx Hl]; subst. inversion Hl as [|? ? Hy Hl']; subst.
  apply Forall_cons_iff in Hx as [Hxy Hx]. constructor.
  - apply Forall_forall. intros z Hz. apply insert_In in Hz as [-> | Hz].
    + now apply Hsym.
    + rewrite Forall_forall in Hy. now apply Hy.
  - apply IH. now constructor.
Qed.

Lemma pairs_sort {A} (R : A -> A -> Prop) (after : A -> A -> bool) (l : list A) :
  (forall a b, R a b -> R b a) ->
  ForallOrdPairs R l -> ForallOrdPairs R (sort after l).
Proof.
  intros Hsym. induction 1 as [|x l Hx Hl IH]; cbn [sort]; [constructor|].
  apply pairs_insert; [exact Hsym|]. constructor; [|exact IH].
  apply Forall_forall. intros z Hz. apply sort_In in Hz.
  rewrite Forall_forall in Hx. now apply Hx.
Qed.

Lemma pairs_firstn {A} (R : A -> A -> Prop) (n : nat) (l : list A) :
  ForallOrdPairs R l -> ForallOrdPairs R (firstn n l).
Proof.
  intros H. revert n. induction H as [|x l Hx Hl IH]; intros [|n];
    cbn [firstn]; try constructor; [|apply IH].
  apply Forall_forall. intros z Hz. rewrite Forall_forall in Hx. apply Hx.
  rewrite <- (firstn_skipn n l). apply in_or_app. now left.
Qed.

Lemma pairs_map {A B} (R : A -> A -> Prop) (R' : B -> B -> Prop) (f : A -> B)
  (l : list A) :
  (forall a b, R a b -> R' (f a) (f b)) ->
  ForallOrdPairs R l -> ForallOrdPairs R' (map f l).
Proof.
  intros Hf. induction 1 as [|x l Hx Hl IH]; cbn [map]; constructor; [|exact IH].
  apply Forall_forall. intros z Hz. apply in_map_iff in Hz as (a & <- & Ha).
  rewrite Forall_forall in Hx. now apply Hf, Hx.
Qed.

Lemma sorted_split {A} (R : A -> A -> Prop) (n : nat) (l : list A) :
  StronglySorted R l ->
  forall a b, In a (firstn n l) -> In b (skipn n l) -> R a b.
Proof.
  intros H. revert n. induction H as [|x l Hs IH Hx]; intros [|n] a b;
    cbn [firstn skipn]; try (intros []; fail).
  intros [<- | Ha] Hb.
  - rewrite Forall_forall in Hx. apply Hx.
    rewrite <- (firstn_skipn n l). apply in_or_app. now right.
  - now apply (IH n).
Qed.

(** Property X18: the spacing values [extractSpacing] reports.  There are at most
    twenty, listed by size, smallest first, no two of them equal numbers;
    each is positive and was read at least once; its count is the number of
    margins and paddings of the page that read as that number; and a number
    that was read and is not reported was read no more often than any
    reported value, of which there are then twenty. *)
Theorem commonValues_tally (elements : list element) :
  let values := snd (extractSpacing elements) in
  (List.length values <= 20)%nat /\
  StronglySorted (fun a b => numericValue a <= numericValue b) values /\
  ForallOrdPairs (fun a b => ~ px a == px b) values /\
  Forall (fun v => 0 < px v /\ numericValue v = px v /\
                   count v = uses (px v) elements /\ (1 <= count v)%Z)
         values /\
  (forall k, (0 < uses k elements)%Z ->
     (exists v, In v values /\ px v == k) \/
     (List.length values = 20%nat /\
      Forall (fun v => (uses k elements <= count v)%Z) values)).
Proof.
  cbv zeta. unfold extractSpacing. cbn [snd]. unfold commonValues.
  rewrite spacings_flat.
  destruct (tally_spec (lengths elements)) as (Hd & Hp & Hr).
  set (m := fold_left tally (lengths elements) []) in *.
  set (s := sort byCountDesc m).
  assert (Hs : StronglySorted (fun a b : Q * Z => (snd b <= snd a)%Z) s).
  { apply sort_ordered.
    - intros x y z. lia.
    - intros x y H. unfold byCountDesc in H. apply Z.ltb_ge in H. lia.
    - intros x y H. unfold byCountDesc in H. apply Z.ltb_lt in H. lia. }
  assert (Hin : forall v, In v (sort byValue (map toValue (firstn 20 s))) ->
            exists k n, v = toValue (k, n) /\ In (k, n) (firstn 20 s) /\ In (k, n) m).
  { intros v Hv. apply sort_In in Hv. apply in_map_iff in Hv as ([k n] & <- & He).
    exists k, n. split; [reflexivity|]. split; [exact He|].
    apply (sort_In byCountDesc). fold s.
    rewrite <- (firstn_skipn 20 s). apply in_or_app. now left. }
  assert (Huses : forall k, rate m k = uses k elements) by exact Hr.
  split; [|split; [|split; [|split]]].
  - rewrite sort_length, length_map. apply firstn_le_length.
  - apply sort_ordered.
    + intros x y z. apply Qle_trans.
    + intros x y H. unfold byValue in H.
      destruct (Qlt_le_dec (numericValue y) (numericValue x)) as [Hlt | Hle];
        [|exact Hle].
      assert (Qltb 0 (numericValue x - numericValue y) = true).
      { apply Qltb_true. unfold Qminus. now apply Qlt_minus_iff in Hlt. }
      congruence.
    + intros x y H. unfold byValue in H. apply Qltb_true in H.
      apply Qlt_le_weak. apply Qlt_minus_iff. exact H.
  - apply pairs_sort; [intros a b H E; apply H; now symmetry|].
    apply pairs_map with (R := fun a b : Q * Z => Qeq_bool (fst a) (fst b) = false).
    + intros [k1 n1] [k2 n2] H E. cbn [toValue px fst] in *.
      apply Qeq_bool_iff in E. congruence.
    + apply pairs_firstn. apply pairs_sort; [|exact Hd].
      intros a b H. now rewrite Qeq_bool_sym.
  - apply Forall_forall. intros v Hv.
    destruct (Hin v Hv) as (k & n & -> & _ & Hm).
    rewrite Forall_forall in Hp. destruct (Hp _ Hm) as [H0 H1].
    cbn [toValue px numericValue count fst snd] in *.
    split; [exact H0|]. split; [reflexivity|]. split; [|exact H1].
    rewrite <- Huses. symmetry. now apply rate_In.
  - intros k Hk. rewrite <- Huses in Hk. destruct (rate_pos m k Hk) as (k0 & E0 & H0).
    apply (sort_In byCountDesc) in H0. fold s in H0.
    rewrite <- (firstn_skipn 20 s) in H0. apply in_app_or in H0 as [H0 | H0].
    + left. exists (toValue (k0, rate m k)). split.
      * apply sort_In. now apply in_map.
      * cbn [toValue px]. now apply Qeq_bool_iff.
    + right. split.
      * rewrite sort_length, length_map, length_firstn.
        assert (20 < List.length s)%nat.
        { destruct (Nat.lt_ge_cases 20 (List.length s)) as [H | H]; [exact H|].
          rewrite skipn_all2 in H0 by exact H. destruct H0. }
        lia.
      * apply Forall_forall. intros v Hv.
        destruct (Hin v Hv) as (k1 & n1 & -> & H1 & _).
        cbn [toValue count]. rewrite <- Huses.
        apply (sorted_split 20 Hs _ _ H1 H0).
Qed.

End SpacingTally.

Section Detection.
Import JS Host Spec Facts Server.

Lemma startsWith_iff (s p : str) :
  startsWith s p = true <-> exists post, s = p ++ post.
Proof.
  revert s. induction p as [|a p IH]; intros s.
  - split; [intros _; now exists s | now destruct s].
  - destruct s as [|b s]; cbn [startsWith].
    + split; [discriminate | intros (post & H); discriminate H].
    + rewrite andb_true_iff, Ascii.eqb_eq, IH. split.
      * intros [-> (post & ->)]. now exists post.
      * intros (post & [= -> ->]). split; [reflexivity | now exists post].
Qed.

Lemma includes_iff (s p : str) :
  includes s p = true <-> exists pre post, s = pre ++ p ++ post.
Proof.
  induction s as [|c s IH]; cbn [includes]; rewrite orb_true_iff, startsWith_iff.
  - split.
    + intros [(post & H) | H]; [now exists [], post | discriminate].
    + intros (pre & post & H). left. destruct pre; [now exists post|discriminate].
  - rewrite IH. split.
    + intros [(post & H) | (pre & post & ->)]; [now exists [], post|].
      now exists (c :: pre), post.
    + intros ([|c' pre] & post & H); [left; now exists post|].
      right. injection H as -> ->. now exists pre, post.
Qed.

Lemma includes_trans (s p q : str) :
  includes s p = true -> includes p q = true -> includes s q = true.
Proof.
  rewrite !includes_iff. intros (a & b & ->) (c & d & ->).
  exists (a ++ c), (d ++ b). now rewrite <- !app_assoc.
Qed.

Lemma includes_app (a b p : str) :
  includes a p = true \/ includes b p = true -> includes (a ++ b) p = true.
Proof.
  rewrite !includes_iff. intros [(x & y & ->) | (x & y & ->)].
  - exists x, (y ++ b). now rewrite <- !app_assoc.
  - exists (a ++ x), y. now rewrite <- !app_assoc.
Qed.

(** *** The object of the detected names *)

Lemma ensure_In (d : list (str * list str)) (c : str) (e : str * list str) :
  In e (ensure d c) <-> In e d \/ (e = (c, []) /\ ~ In c (map fst d)).
Proof.
  induction d as [|[c0 names] d IH]; cbn [ensure map fst].
  - split; [intros [<- | []]; right; auto | intros [[] | [-> _]]; now left].
  - destruct (str_eqb c0 c) eqn:E.
    + apply str_eqb_eq in E. subst c0. split; [now left|].
      intros [H | [_ H]]; [exact H|]. exfalso. apply H. now left.
    + apply str_eqb_false in E. cbn [In]. rewrite IH. split.
      * intros [H | [H | [-> H]]]; [left; now left | left; now right|].
        right. split; [reflexivity|]. intros [H' | H']; [congruence | contradiction].
      * intros [[H | H] | [-> H]]; [now left | right; now left|].
        right. right. split; [reflexivity|]. intros H'. apply H. now right.
Qed.

Lemma ensure_has (d : list (str * list str)) (c : str) :
  In c (map fst (ensure d c)).
Proof.
  induction d as [|[c0 names] d IH]; cbn [ensure]; [now left|].
  destruct (str_eqb c0 c) eqn:E.
  - apply str_eqb_eq in E. subst c0. now left.
  - now right.
Qed.

Lemma ensure_reports (d : list (str * list str)) (c c' n : str) :
  reports (ensure d c) c' n <-> reports d c' n.
Proof.
  unfold reports. split.
  - intros (names & Hin & Hn). apply ensure_In in Hin as [Hin | [[= -> ->] _]];
      [now exists names | destruct Hn].
  - intros (names & Hin & Hn). exists names. split; [|exact Hn].
    apply ensure_In. now left.
Qed.

Lemma ensure_wellKeyed (d : list (str * list str)) (c : str) :
  wellKeyed d -> wellKeyed (ensure d c).
Proof.
  unfold wellKeyed. induction d as [|[c0 names] d IH]; cbn [ensure].
  - intros _. split; repeat constructor. intros [].
  - intros [Hn Hf]. destruct (str_eqb c0 c) eqn:E; [now split|].
    apply str_eqb_false in E. cbn [map fst] in *.
    apply NoDup_cons_iff in Hn as [Hc Hn]. apply Forall_cons_iff in Hf as [Hnames Hf].
    destruct (IH (conj Hn Hf)) as [Hn' Hf']. split; [|now constructor].
    constructor; [|exact Hn']. intros Hin. apply in_map_iff in Hin as (e & Ee & He).
    apply ensure_In in He as [He | [-> _]]; [|cbn in Ee; congruence].
    apply Hc. rewrite <- Ee. now apply in_map.
Qed.

Lemma pushNew_keys (d : list (str * list str)) (c n : str) :
  map fst (pushNew d c n) = map fst d.
Proof.
  induction d as [|[c0 names] d IH]; cbn [pushNew]; [reflexivity|].
  destruct (str_eqb c0 c); cbn [map fst]; [reflexivity | now rewrite IH].
Qed.

Lemma pushNew_wellKeyed (d : list (str * list str)) (c n : str) :
  wellKeyed d -> wellKeyed (pushNew d c n).
Proof.
  unfold wellKeyed. rewrite pushNew_keys. intros [Hn Hf]. split; [exact Hn|].
  clear Hn. induction Hf as [|[c0 names] d Hnames Hf IH]; cbn [pushNew];
    [constructor|].
  destruct (str_eqb c0 c); constructor; try assumption. cbn [snd] in *.
  destruct (arr_includes names n) eqn:E; [exact Hnames|].
  apply NoDup_app; [exact Hnames | repeat constructor; intros [] |].
  intros x Hx [<- | []]. apply arr_includes_In in Hx. congruence.
Qed.

Lemma pushNew_reports (d : list (str * list str)) (c n c' n' : str) :
  In c (map fst d) ->
  reports (pushNew d c n) c' n' <-> reports d c' n' \/ (c' = c /\ n' = n).
Proof.
  unfold reports. induction d as [|[c0 names] d IH]; cbn [pushNew map fst];
    [intros []|].
  intros Hc. destruct (str_eqb c0 c) eqn:E.
  - apply str_eqb_eq in E. subst c0. split.
    + intros (names' & [[= <- <-] | Hin] & Hn).
      * destruct (arr_includes names n) eqn:Ea.
        -- left. exists names. split; [now left | exact Hn].
        -- apply in_app_or in Hn as [Hn | [<- | []]]; [|now right].
           left. exists names. split; [now left | exact Hn].
      * left. exists names'. split; [now right | exact Hn].
    + intros [(names' & [[= <- <-] | Hin] & Hn) | [-> ->]].
      * eexists. split; [now left|].
        destruct (arr_includes names n); [exact Hn | apply in_or_app; now left].
      * exists names'. split; [now right | exact Hn].
      * eexists. split; [now left|].
        destruct (arr_includes names n) eqn:Ea;
          [now apply arr_includes_In | apply in_or_app; right; now left].
  - apply str_eqb_false in E. destruct Hc as [Hc | Hc]; [congruence|].
    specialize (IH Hc). split.
    + intros (names' & [[= <- <-] | Hin] & Hn).
      * left. exists names. split; [now left | exact Hn].
      * destruct (proj1 IH (ex_intro _ names' (conj Hin Hn)))
          as [(m & Hm & Hn') | H]; [|now right].
        left. exists m. split; [now right | exact Hn'].
    + intros [(names' & [[= <- <-] | Hin] & Hn) | H].
      * exists names. split; [now left | exact Hn].
      * destruct (proj2 IH (or_introl (ex_intro _ names' (conj Hin Hn))))
          as (m & Hm & Hn'). exists m. split; [now right | exact Hn'].
      * destruct (proj2 IH (or_intror H)) as (m & Hm & Hn').
        exists m. split; [now right | exact Hn'].
Qed.

(** Listing a name under a category, as all the loops do it. *)
Lemma list_reports (d : list (str * list str)) (c n c' n' : str) :
  reports (pushNew (ensure d c) c n) c' n' <->
  reports d c' n' \/ (c' = c /\ n' = n).
Proof. now rewrite pushNew_reports, ensure_reports by apply ensure_has. Qed.

Lemma list_wellKeyed (d : list (str * list str)) (c n : str) :
  wellKeyed d -> wellKeyed (pushNew (ensure d c) c n).
Proof. intros H. now apply pushNew_wellKeyed, ensure_wellKeyed. Qed.

Lemma scanTech_fold (fc c : str) (techs : list tech) :
  forall d,
    (wellKeyed d -> wellKeyed (fold_left (scanTech fc c) techs d)) /\
    forall c' n',
      reports (fold_left (scanTech fc c) techs d) c' n' <->
      reports d c' n' \/
      (c' = c /\ exists t, In t techs /\ name t = n' /\ found fc t = true).
Proof.
  induction techs as [|t techs IH]; intros d; cbn [fold_left].
  - split; [auto|]. intros c' n'. split; [now left|].
    intros [H | (_ & t & [] & _)]. exact H.
  - destruct (IH (scanTech fc c d t)) as [Hw Hr]. split.
    + intros H. apply Hw. unfold scanTech.
      destruct (found fc t); [now apply list_wellKeyed | exact H].
    + intros c' n'. rewrite Hr. unfold scanTech.
      destruct (found fc t) eqn:Ef.
      * rewrite list_reports. split.
        -- intros [[H | [-> ->]] | (-> & t' & Ht & H)]; [now left | |].
           ++ right. split; [reflexivity|]. exists t.
              split; [now left | split; [reflexivity | exact Ef]].
           ++ right. split; [reflexivity|]. exists t'. split; [now right | exact H].
        -- intros [H | (-> & t' & [<- | Ht] & Hn & Hf)].
           ++ left. now left.
           ++ left. right. auto.
           ++ right. split; [reflexivity|]. now exists t'.
      * split.
        -- intros [H | (-> & t' & Ht & H)]; [now left|].
           right. split; [reflexivity|]. exists t'. split; [now right | exact H].
        -- intros [H | (-> & t' & [<- | Ht] & Hn & Hf)]; [now left | congruence|].
           right. split; [reflexivity|]. now exists t'.
Qed.

Lemma scanTable_fold (fc : str) (table : list (str * list tech)) :
  forall d,
    let d' :=
      fold_left (fun detected entry =>
                   fold_left (scanTech fc (fst entry)) (snd entry) detected)
                table d in
    (wellKeyed d -> wellKeyed d') /\
    forall c n,
      reports d' c n <->
      reports d c n \/
      exists techs t, In (c, techs) table /\ In t techs /\ name t = n /\
                      found fc t = true.
Proof.
  cbv zeta. induction table as [|[c0 techs0] table IH]; intros d; cbn [fold_left].
  - split; [auto|]. intros c n. split; [now left|].
    intros [H | (? & ? & [] & _)]. exact H.
  - cbn [fst snd]. destruct (scanTech_fold fc c0 techs0 d) as [Hw0 Hr0].
    destruct (IH (fold_left (scanTech fc c0) techs0 d)) as [Hw Hr]. split; [auto|].
    intros c n. rewrite Hr, Hr0. split.
    + intros [[H | (-> & t & Ht & Hn & Hf)] | (techs & t & Hin & H)].
      * now left.
      * right. exists techs0, t. split; [now left | auto].
      * right. exists techs, t. split; [now right | exact H].
    + intros [H | (techs & t & [[= <- <-] | Hin] & Ht & Hn & Hf)].
      * left. now left.
      * left. right. split; [reflexivity|]. now exists t.
      * right. now exists techs, t.
Qed.

Lemma pushAll_fold (c : str) (techs : list str) :
  forall d, In c (map fst d) ->
    let d' := fold_left (fun detected tech => pushNew detected c tech) techs d in
    (wellKeyed d -> wellKeyed d') /\
    forall c' n, reports d' c' n <-> reports d c' n \/ (c' = c /\ In n techs).
Proof.
  cbv zeta. induction techs as [|t techs IH]; intros d Hc; cbn [fold_left].
  - split; [auto|]. intros c' n. split; [now left | intros [H | [_ []]]; exact H].
  - assert (Hc' : In c (map fst (pushNew d c t))) by now rewrite pushNew_keys.
    destruct (IH _ Hc') as [Hw Hr]. split.
    + intros H. now apply Hw, pushNew_wellKeyed.
    + intros c' n. rewrite Hr, pushNew_reports by exact Hc. split.
      * intros [[H | [-> ->]] | [-> H]]; [now left | right | right]; split;
          try reflexivity; [now left | now right].
      * intros [H | [-> [<- | H]]]; [left; now left | left; right; auto | right; auto].
Qed.

Lemma browser_merge_spec (b : list (str * list str)) :
  forall d,
    (wellKeyed d -> wellKeyed (merge d b)) /\
    forall c n, reports (merge d b) c n <-> reports d c n \/ reports b c n.
Proof.
  unfold merge. induction b as [|[c0 techs] b IH]; intros d; cbn [fold_left].
  - split; [auto|]. intros c n. split; [now left|].
    intros [H | (? & [] & _)]. exact H.
  - cbn [fst snd].
    destruct (@pushAll_fold c0 techs (ensure d c0) (ensure_has d c0)) as [Hw0 Hr0].
    destruct (IH (fold_left (fun detected tech => pushNew detected c0 tech) techs
                    (ensure d c0))) as [Hw Hr].
    split; [intros H; now apply Hw, Hw0, ensure_wellKeyed|].
    intros c n. rewrite Hr, Hr0, ensure_reports. unfold reports. split.
    + intros [[H | [-> H]] | (names & Hin & Hn)]; [now left | |].
      * right. exists techs. split; [now left | exact H].
      * right. exists names. split; [now right | exact Hn].
    + intros [H | (names & [[= <- <-] | Hin] & Hn)].
      * left. now left.
      * left. right. auto.
      * right. now exists names.
Qed.

Lemma browserDetected_spec (w : probes) :
  wellKeyed (browserDetected w) /\
  forall c n,
    reports (browserDetected w) c n <->
    In (true, (c, n))
       [(react w, (lit "frameworks", lit "React"));
        (next w, (lit "frameworks", lit "Next.js"));
        (vue w, (lit "frameworks", lit "Vue.js"));
        (nuxt w, (lit "frameworks", lit "Nuxt"));
        (angular w, (lit "frameworks", lit "Angular"));
        (svelte w, (lit "frameworks", lit "Svelte"));
        (jQuery w, (lit "libraries", lit "jQuery"));
        (gsap w, (lit "libraries", lit "GSAP"));
        (three w, (lit "libraries", lit "Three.js"));
        (stripe w, (lit "payment", lit "Stripe"));
        (sentry w, (lit "monitoring", lit "Sentry"));
        (iconify w, (lit "icons", lit "Iconify"))].
Proof.
  unfold browserDetected.
  generalize
    [(react w, (lit "frameworks", lit "React"));
     (next w, (lit "frameworks", lit "Next.js"));
     (vue w, (lit "frameworks", lit "Vue.js"));
     (nuxt w, (lit "frameworks", lit "Nuxt"));
     (angular w, (lit "frameworks", lit "Angular"));
     (svelte w, (lit "frameworks", lit "Svelte"));
     (jQuery w, (lit "libraries", lit "jQuery"));
     (gsap w, (lit "libraries", lit "GSAP"));
     (three w, (lit "libraries", lit "Three.js"));
     (stripe w, (lit "payment", lit "Stripe"));
     (sentry w, (lit "monitoring", lit "Sentry"));
     (iconify w, (lit "icons", lit "Iconify"))] as tests.
  intros tests.
  assert (H : forall d,
    (wellKeyed d -> wellKeyed (fold_left report tests d)) /\
    forall c n, reports (fold_left report tests d) c n <->
                reports d c n \/ In (true, (c, n)) tests).
  { induction tests as [|[cond [c0 n0]] tests IH]; intros d; cbn [fold_left].
    - split; [auto|]. intros c n. split; [now left | intros [H | []]; exact H].
    - destruct (IH (report d (cond, (c0, n0)))) as [Hw Hr]. split.
      + intros H. apply Hw. unfold report.
        destruct cond; [now apply list_wellKeyed | exact H].
      + intros c n. rewrite Hr. unfold report. destruct cond.
        * rewrite list_reports. split.
          -- intros [[H | [-> ->]] | H]; [now left | right; now left | right; now right].
          -- intros [H | [[= -> ->] | H]]; [left; now left | left; right; auto | now right].
        * split.
          -- intros [H | H]; [now left | right; now right].
          -- intros [H | [H | H]]; [now left | discriminate H | now right]. }
  destruct (H []) as [Hw Hr]. split.
  - apply Hw. split; constructor.
  - intros c n. rewrite Hr. split; [intros [(? & [] & _) | H']; exact H' | now right].
Qed.

(** The whole detection. *)
Lemma detect_spec (html : str) (responseHeaders : list (str * str))
  (targetUrl : str) (w : probes) :
  let d := detectBuiltInTech html responseHeaders targetUrl w in
  wellKeyed d /\
  forall category name,
    reports d category name <->
    (exists t, row category t /\ Server.name t = name /\
               found (fullContent html responseHeaders targetUrl) t = true) \/
    reports (browserDetected w) category name.
Proof.
  cbv zeta. unfold detectBuiltInTech.
  set (fc := fullContent html responseHeaders targetUrl).
  destruct (scanTable_fold fc TECH_PATTERNS []) as [Hw1 Hr1].
  destruct (browser_merge_spec (browserDetected w) (scanPatterns fc)) as [Hw2 Hr2].
  split.
  - apply Hw2. apply Hw1. split; constructor.
  - intros c n. rewrite Hr2. unfold scanPatterns. rewrite Hr1. unfold row. split.
    + intros [[(? & [] & _) | (techs & t & Hin & Ht & Hn & Hf)] | H]; [|now right].
      left. exists t. split; [now exists techs | auto].
    + intros [(t & (techs & Hin & Ht) & Hn & Hf) | H]; [|now right].
      left. right. now exists techs, t.
Qed.

(** Property X19: the technologies [detectBuiltInTech] reports.  A name is listed
    under a category exactly when a row of the table with that name and
    category has a pattern that occurs, letter case aside, in the text made
    of the page, the response headers and the address, or when the deep
    scan in the browser reports it; no category is listed twice, and no
    name twice in a category. *)
Theorem detectBuiltInTech_reports (html : str) (responseHeaders : list (str * str))
  (targetUrl : str) (w : probes) :
  let d := detectBuiltInTech html responseHeaders targetUrl w in
  wellKeyed d /\
  forall category name,
    reports d category name <->
    (exists t, row category t /\ Server.name t = name /\
               found (fullContent html responseHeaders targetUrl) t = true) \/
    reports (browserDetected w) category name.
Proof. apply detect_spec. Qed.


Lemma row_iff (category : str) (t : tech) : row category t <-> In t (rowsOf category).
Proof.
  unfold row, rowsOf. rewrite in_flat_map. split.
  - intros (techs & Hin & Ht). exists (category, techs). split; [|exact Ht].
    apply filter_In. split; [exact Hin | apply str_eqb_refl].
  - intros ([c techs] & Hin & Ht). apply filter_In in Hin as [Hin E].
    apply str_eqb_eq in E. cbn [fst] in E. subst c. now exists techs.
Qed.

Lemma covers_found (a b : tech) (fc : str) :
  covers a b = true -> found fc a = true -> found fc b = true.
Proof.
  unfold covers, found. rewrite forallb_forall. intros Hc Ha.
  apply existsb_exists in Ha as (p & Hp & Hin).
  apply Hc in Hp. apply existsb_exists in Hp as (q & Hq & Hpq).
  apply existsb_exists. exists q. split; [exact Hq|].
  now apply includes_trans with (toLowerCase p).
Qed.

(** Detecting one row brings the detection of another. *)
Lemma implied (category nameA : str) (b : tech)
  (html : str) (responseHeaders : list (str * str)) (targetUrl : str) (w : probes) :
  forallb (fun t => negb (str_eqb (name t) nameA) || covers t b)
          (rowsOf category) = true ->
  In b (rowsOf category) ->
  ~ In (true, (category, nameA))
       [(react w, (lit "frameworks", lit "React"));
        (next w, (lit "frameworks", lit "Next.js"));
        (vue w, (lit "frameworks", lit "Vue.js"));
        (nuxt w, (lit "frameworks", lit "Nuxt"));
        (angular w, (lit "frameworks", lit "Angular"));
        (svelte w, (lit "frameworks", lit "Svelte"));
        (jQuery w, (lit "libraries", lit "jQuery"));
        (gsap w, (lit "libraries", lit "GSAP"));
        (three w, (lit "libraries", lit "Three.js"));
        (stripe w, (lit "payment", lit "Stripe"));
        (sentry w, (lit "monitoring", lit "Sentry"));
        (iconify w, (lit "icons", lit "Iconify"))] ->
  reports (detectBuiltInTech html responseHeaders targetUrl w) category nameA ->
  reports (detectBuiltInTech html responseHeaders targetUrl w) category (name b).
Proof.
  intros Hall Hb Hbrowser H.
  destruct (detect_spec html responseHeaders targetUrl w) as [_ Hr].
  apply Hr in H as [(t & Ht & Hn & Hf) | H].
  - apply Hr. left. exists b. split; [now apply row_iff|]. split; [reflexivity|].
    apply row_iff in Ht. rewrite forallb_forall in Hall. specialize (Hall t Ht).
    assert (E : str_eqb (name t) nameA = true) by now apply str_eqb_eq.
    rewrite E in Hall. cbn [negb orb] in Hall. now apply covers_found with t.
  - apply browserDetected_spec in H. contradiction.
Qed.

Lemma toLowerCase_app (a b : str) :
  toLowerCase (a ++ b) = toLowerCase a ++ toLowerCase b.
Proof. apply map_app. Qed.

Lemma found_part (html : str) (responseHeaders : list (str * str))
  (targetUrl : str) (t : tech) :
  found html t = true \/ found (headerStr responseHeaders) t = true \/
  found targetUrl t = true ->
  found (fullContent html responseHeaders targetUrl) t = true.
Proof.
  unfold found, fullContent. rewrite !existsb_exists.
  intros [(p & Hp & H) | [(p & Hp & H) | (p & Hp & H)]]; exists p;
    (split; [exact Hp|]); rewrite !toLowerCase_app.
  - apply includes_app. now left.
  - apply includes_app. right. apply includes_app. right.
    apply includes_app. now left.
  - apply includes_app. right. apply includes_app. right.
    apply includes_app. right. apply includes_app. now right.
Qed.

Ltac not_probed :=
  let H := fresh in
  intros H; cbn [In] in H;
  repeat (destruct H as [H | H]; [now inversion H|]);
  exact H.

(** Property X20: what follows from the table of patterns as it stands.  A pattern
    that occurs in the page, in a header line or in the address alone is
    enough for its row to be reported.  And since [sveltekit] contains
    [svelte], [preact] contains [react], the pattern of Express is a pattern
    of Node.js and the pattern of Google Tag Manager contains one of Google
    Analytics: a result that lists SvelteKit lists Svelte, one that lists
    Preact lists React, one that lists Express lists Node.js, and one that
    lists Google Tag Manager lists Google Analytics. *)
Theorem detection_consequences (html : str) (responseHeaders : list (str * str))
  (targetUrl : str) (w : probes) :
  let d := detectBuiltInTech html responseHeaders targetUrl w in
  (forall category t,
     row category t ->
     found html t = true \/ found (headerStr responseHeaders) t = true \/
     found targetUrl t = true ->
     reports d category (name t)) /\
  (reports d "frameworks" "SvelteKit" -> reports d "frameworks" "Svelte") /\
  (reports d "frameworks" "Preact" -> reports d "frameworks" "React") /\
  (reports d "server" "Express" -> reports d "server" "Node.js") /\
  (reports d "analytics" "Google Tag Manager" ->
   reports d "analytics" "Google Analytics").
Proof.
  cbv zeta. split; [|split; [|split; [|split]]].
  - intros category t Ht Hf.
    destruct (detect_spec html responseHeaders targetUrl w) as [_ Hr].
    apply Hr. left. exists t. split; [exact Ht|]. split; [reflexivity|].
    now apply found_part.
  - apply (@implied "frameworks" "SvelteKit"
             (mkTech "Svelte" [lit "svelte"; lit "__svelte"]));
      [vm_compute; reflexivity | vm_compute; tauto | not_probed].
  - apply (@implied "frameworks" "Preact"
             (mkTech "React"
                [lit "react"; lit "_reactRootContainer";
                 lit "__REACT_DEVTOOLS_GLOBAL_HOOK__"; lit "data-reactroot";
                 lit "data-reactid"]));
      [vm_compute; reflexivity | vm_compute; tauto | not_probed].
  - apply (@implied "server" "Express"
             (mkTech "Node.js" [lit "x-powered-by: express"; lit "node"]));
      [vm_compute; reflexivity | vm_compute; tauto | not_probed].
  - apply (@implied "analytics" "Google Tag Manager"
             (mkTech "Google Analytics"
                [lit "google-analytics.com"; lit "googletagmanager.com";
                 lit "gtag("; lit "ga("]));
      [vm_compute; reflexivity | vm_compute; tauto | not_probed].
Qed.

End Detection.

Section FormFields.
Import JS Spec Facts Inputs.

Lemma has_In (seen : list (str * item)) (key : str) :
  has seen key = true <-> In key (map fst seen).
Proof.
  unfold has. rewrite existsb_exists, in_map_iff. split.
  - intros (e & He & E). apply str_eqb_eq in E. now exists e.
  - intros (e & E & He). exists e. split; [exact He | now apply str_eqb_eq].
Qed.

(** [deduplicateGroup] keeps, for every key, the first entry that has it. *)
Lemma deduplicateGroup_spec (g : list item) :
  NoDup (map keyOf (deduplicateGroup g)) /\
  incl (deduplicateGroup g) g /\
  forall it, In it g -> In (keyOf it) (map keyOf (deduplicateGroup g)).
Proof.
  unfold deduplicateGroup.
  set (step := fun (seen : list (str * item)) (it : item) => _).
  assert (H : forall l seen,
    NoDup (map fst seen) ->
    Forall (fun e => fst e = keyOf (snd e)) seen ->
    let out := fold_left step l seen in
    NoDup (map fst out) /\
    Forall (fun e => fst e = keyOf (snd e)) out /\
    (forall e, In e out -> In e seen \/ In (snd e) l) /\
    (forall k, In k (map fst seen) -> In k (map fst out)) /\
    (forall it, In it l -> In (keyOf it) (map fst out))).
  { induction l as [|it l IH]; intros seen Hn Hk; cbn [fold_left].
    - repeat split; auto. intros it [].
    - assert (Hstep : NoDup (map fst (step seen it)) /\
                      Forall (fun e => fst e = keyOf (snd e)) (step seen it) /\
                      (forall e, In e (step seen it) -> In e seen \/ snd e = it) /\
                      (forall k, In k (map fst seen) -> In k (map fst (step seen it))) /\
                      In (keyOf it) (map fst (step seen it))).
      { unfold step. destruct (has seen (keyOf it)) eqn:E; cbn [negb].
        - apply has_In in E. repeat split; auto.
        - assert (Hnot : ~ In (keyOf it) (map fst seen)).
          { intros Hin. apply has_In in Hin. congruence. }
          rewrite map_app. cbn [map fst]. repeat split.
          + apply NoDup_app; [exact Hn | repeat constructor; intros [] |].
            intros x Hx [<- | []]. contradiction.
          + apply Forall_app. split; [exact Hk | repeat constructor].
          + intros e He. apply in_app_or in He as [He | [<- | []]]; auto.
          + intros k Hin. apply in_or_app. now left.
          + apply in_or_app. right. now left. }
      destruct Hstep as (S1 & S2 & S3 & S4 & S5).
      destruct (IH (step seen it) S1 S2) as (I1 & I2 & I3 & I4 & I5).
      repeat split; auto.
      + intros e He. destruct (I3 e He) as [H | H]; [|right; now right].
        destruct (S3 e H) as [H' | H']; [now left | right; now left].
      + intros it' [<- | Hin]; [now apply I4 | now apply I5]. }
  destruct (H g [] (NoDup_nil _) (Forall_nil _)) as (H1 & H2 & H3 & _ & H5).
  set (out := fold_left step g []) in *.
  assert (E : map keyOf (map snd out) = map fst out).
  { rewrite map_map. apply map_ext_in. intros e He.
    rewrite Forall_forall in H2. symmetry. now apply H2. }
  rewrite E. split; [exact H1|]. split; [|exact H5].
  intros it Hit. apply in_map_iff in Hit as (e & <- & He).
  destruct (H3 e He) as [[] | Hg]. exact Hg.
Qed.

Lemma inputType_named (input : element) : In (inputType input) (map fst limits).
Proof.
  unfold inputType, limits. cbn [map fst].
  repeat match goal with
         | |- In (if ?b then _ else _) _ => destruct b
         end; cbn [In]; tauto.
Qed.

(** Property X21: the form fields [extractInputStyles] reports.  The result has
    the seven groups, in the order of the code and each within its limit;
    every field that is not hidden belongs to one of them, a field of a type
    the code does not name being taken as text; in a group no two entries
    have the same border, radius and background; every entry describes a
    visible field of the group; and every visible field of the group has its
    key among the entries unless the group is full. *)
Theorem extractInputStyles_groups (inputs : list element) :
  map fst (extractInputStyles inputs) = map fst limits /\
  Forall (fun input => In (inputType input) (map fst limits)) inputs /\
  Forall (fun g =>
            exists cap, In (fst g, cap) limits /\ groupOf inputs (fst g) cap (snd g))
         (extractInputStyles inputs).
Proof.
  split; [|split].
  - unfold extractInputStyles. rewrite map_map. reflexivity.
  - apply Forall_forall. intros input _. apply inputType_named.
  - unfold extractInputStyles. apply Forall_forall. intros g Hg.
    apply in_map_iff in Hg as ([name cap] & <- & Hl). cbn [fst snd].
    exists cap. split; [exact Hl|].
    destruct (deduplicateGroup_spec (group inputs name)) as (Hn & Hi & Hc).
    set (out := deduplicateGroup (group inputs name)) in *.
    unfold groupOf. split; [apply firstn_le_length|]. split; [|split].
    + rewrite <- firstn_map. now apply firstn_NoDup.
    + apply Forall_forall. intros it Hit.
      assert (Hout : In it out).
      { rewrite <- (firstn_skipn cap out). apply in_or_app. now left. }
      apply Hi in Hout. unfold group in Hout.
      apply in_map_iff in Hout as (input & <- & Hin).
      apply filter_In in Hin as [Hin Hf]. apply andb_true_iff in Hf as [Hh Ht].
      apply negb_true_iff in Hh. apply str_eqb_eq in Ht. now exists input.
    + apply Forall_forall. intros input Hin Hh Ht.
      assert (Hg : In (describe input) (group inputs name)).
      { unfold group. apply in_map. apply filter_In. split; [exact Hin|].
        rewrite Hh, Ht. cbn [negb andb]. apply str_eqb_refl. }
      apply Hc in Hg. rewrite <- (firstn_skipn cap out), map_app in Hg.
      apply in_app_or in Hg as [Hg | Hg]; [left; exact Hg|]. right.
      rewrite length_firstn.
      destruct (Nat.lt_ge_cases cap (List.length out)) as [H | H]; [lia|].
      rewrite skipn_all2 in Hg by exact H. destruct Hg.
Qed.

End FormFields.

Section UniqueEntries.
Import JS Spec Facts Notions Unique.

Variable A : Type.
Variable key : A -> str.

Lemma firstSeen_In (l : list str) (k : str) : In k (firstSeen l) <-> In k l.
Proof.
  revert k. induction l as [|c l IH] using rev_ind; intros k; [reflexivity|].
  rewrite firstSeen_snoc, in_app_iff. cbn [In].
  destruct (arr_includes (firstSeen l) c) eqn:E.
  - apply arr_includes_In in E. rewrite IH. split; [tauto|].
    intros [H | [<- | []]]; [exact H | now apply IH].
  - rewrite in_app_iff. cbn [In]. rewrite IH. tauto.
Qed.

Lemma firstSeen_NoDup (l : list str) : NoDup (firstSeen l).
Proof.
  induction l as [|c l IH] using rev_ind; [constructor|].
  rewrite firstSeen_snoc. destruct (arr_includes (firstSeen l) c) eqn:E; [exact IH|].
  apply NoDup_app; [exact IH | repeat constructor; intros [] |].
  intros y Hy [<- | []]. apply arr_includes_In in Hy. congruence.
Qed.

(** The set and the array of the loop go side by side. *)
Lemma push_state (xs : list A) :
  fst (fold_left (push key) xs ([], [])) = firstSeen (map key xs) /\
  map key (firsts key xs) = firstSeen (map key xs).
Proof.
  unfold firsts. induction xs as [|x xs IH] using rev_ind; [now split|].
  rewrite fold_left_app, map_app. cbn [fold_left map]. rewrite firstSeen_snoc.
  destruct (fold_left (push key) xs ([], [])) as [seen out].
  cbn [fst snd] in IH. destruct IH as [-> E]. cbn [push].
  destruct (arr_includes (firstSeen (map key xs)) (key x)); cbn [negb fst snd].
  - now split.
  - split; [reflexivity|]. rewrite map_app, E. reflexivity.
Qed.

Lemma firsts_snoc (xs : list A) (x : A) :
  firsts key (xs ++ [x])
  = if arr_includes (firstSeen (map key xs)) (key x) then firsts key xs
    else firsts key xs ++ [x].
Proof.
  destruct (push_state xs) as [E _]. unfold firsts in *. rewrite fold_left_app.
  cbn [fold_left]. destruct (fold_left (push key) xs ([], [])) as [seen out].
  cbn [fst] in E. subst seen. cbn [push].
  now destruct (arr_includes (firstSeen (map key xs)) (key x)).
Qed.

Lemma firsts_prefix (xs ys : list A) :
  exists more, firsts key (xs ++ ys) = firsts key xs ++ more.
Proof.
  induction ys as [|y ys IH] using rev_ind.
  - exists []. now rewrite !app_nil_r.
  - destruct IH as (more & E). rewrite app_assoc, firsts_snoc, E.
    destruct (arr_includes _ _).
    + now exists more.
    + exists (more ++ [y]). now rewrite app_assoc.
Qed.

(** What is kept is the first member of each key. *)
Lemma firsts_firstOf (xs : list A) (x : A) :
  In x (firsts key xs) <-> firstOf key xs x.
Proof.
  split.
  - induction xs as [|y xs IH] using rev_ind; [intros []|].
    rewrite firsts_snoc. destruct (arr_includes _ _) eqn:E.
    + intros H. destruct (IH H) as (l1 & l2 & -> & Hn).
      exists l1, (l2 ++ [y]). split; [|exact Hn].
      now rewrite <- app_assoc.
    + intros H. apply in_app_or in H as [H | [<- | []]].
      * destruct (IH H) as (l1 & l2 & -> & Hn).
        exists l1, (l2 ++ [y]). split; [|exact Hn].
        now rewrite <- app_assoc.
      * exists xs, []. split; [reflexivity|]. intros Hin.
        rewrite <- firstSeen_In in Hin. apply arr_includes_In in Hin. congruence.
  - intros (l1 & l2 & -> & Hn).
    replace (l1 ++ x :: l2) with ((l1 ++ [x]) ++ l2)
      by (rewrite <- app_assoc; reflexivity).
    destruct (firsts_prefix (l1 ++ [x]) l2) as (more & ->).
    apply in_or_app. left. rewrite firsts_snoc.
    destruct (arr_includes _ _) eqn:E.
    + apply arr_includes_In in E. rewrite firstSeen_In in E. contradiction.
    + apply in_or_app. right. now left.
Qed.

(** The entries under a limit. *)
Lemma firsts_limit (n : nat) (xs : list A) :
  let out := firstn n (firsts key xs) in
  map key out = firstn n (firstSeen (map key xs)) /\
  NoDup (map key out) /\
  (forall x, In x out -> firstOf key xs x) /\
  (forall x, firstOf key xs x -> In x out \/ List.length out = n).
Proof.
  intros out. unfold out. destruct (push_state xs) as [_ E].
  split; [now rewrite <- firstn_map, E|]. split; [|split].
  - rewrite <- firstn_map, E. apply firstn_NoDup, firstSeen_NoDup.
  - intros x Hx. apply firsts_firstOf.
    rewrite <- (firstn_skipn n (firsts key xs)). apply in_or_app. now left.
  - intros x Hx. apply firsts_firstOf in Hx.
    rewrite <- (firstn_skipn n (firsts key xs)) in Hx.
    apply in_app_or in Hx as [Hx | Hx]; [now left | right].
    rewrite length_firstn.
    destruct (Nat.lt_ge_cases n (List.length (firsts key xs))) as [H | H]; [lia|].
    rewrite skipn_all2 in Hx by exact H. destruct Hx.
Qed.

End UniqueEntries.

Section ButtonList.
Import JS Colors Spec Facts Notions Unique Buttons ButtonStyles.

Local Open Scope Q_scope.

(** A candidate that the filter retains has the size the filter asks for:
    the test of the width against 10 never decides, since the height and
    the proportion ask for more. *)
Lemma retained_sized (btn : Buttons.element) : retained btn = true -> sized btn.
Proof.
  unfold retained.
  destruct (_ || _ || _ || _)%bool; [discriminate|].
  destruct (str_eqb (opacity btn) "0"); [discriminate|].
  destruct (str_eqb (transform btn) _); [discriminate|].
  destruct (Qltb (width btn) 10 || Qltb 600 (width btn))%bool eqn:Ew; [discriminate|].
  destruct (Qltb (height btn) 25 || Qltb 200 (height btn))%bool eqn:Eh; [discriminate|].
  destruct (Qltb (12 # 10) (height btn / width btn)) eqn:Ep; [discriminate|].
  destruct (Qltb 8 (width btn / height btn)) eqn:Eq; [discriminate|].
  intros _.
  apply orb_false_iff in Ew as [Ew1 Ew2]. apply orb_false_iff in Eh as [Eh1 Eh2].
  assert (Hle : forall a b, Qltb a b = false -> b <= a).
  { intros a b H. destruct (Qlt_le_dec a b) as [Hlt | Hle]; [|exact Hle].
    apply Qltb_true in Hlt. congruence. }
  apply Hle in Ew1, Ew2, Eh1, Eh2, Ep, Eq.
  assert (Hw : 0 < width btn) by (clear Ep Eq; Lqa.lra).
  assert (Hh : 0 < height btn) by (clear Ep Eq; Lqa.lra).
  assert (Hp : height btn <= (12 # 10) * width btn).
  { apply Qle_trans with (height btn / width btn * width btn).
    - apply Qle_lteq. right. field. intros H0. rewrite H0 in Hw.
      now apply Qlt_irrefl in Hw.
    - apply Qmult_le_compat_r; [exact Ep | now apply Qlt_le_weak]. }
  assert (Hq : width btn <= 8 * height btn).
  { apply Qle_trans with (width btn / height btn * height btn).
    - apply Qle_lteq. right. field. intros H0. rewrite H0 in Hh.
      now apply Qlt_irrefl in Hh.
    - apply Qmult_le_compat_r; [exact Eq | now apply Qlt_le_weak]. }
  clear Ep Eq.
  unfold sized. repeat split; try assumption. Lqa.lra.
Qed.

(** Property X22: the buttons [extractButtonStyles] reports.  There is one
    entry for each background colour of a retained candidate, for the first
    fifteen such colours in the order of the page; the entry describes the
    first retained candidate with that background; every such candidate is
    reported unless fifteen are; and a reported button is more than 20 and
    at most 600 wide, between 25 and 200 high, at most 1.2 times as high as
    it is wide and at most 8 times as wide as it is high. *)
Theorem extractButtonStyles_first_of_each (buttons : list candidate) :
  let styles := buttonStyles buttons in
  let out := extractButtonStyles buttons in
  map keyOf out = firstn 15 (firstSeen (map keyOf styles)) /\
  NoDup (map keyOf out) /\
  (forall s, In s out -> firstOf keyOf styles s) /\
  (forall s, firstOf keyOf styles s -> In s out \/ List.length out = 15%nat) /\
  Forall (fun s => exists btn,
            In btn buttons /\ retained (element btn) = true /\
            s = describe btn /\ sized (default s))
         out.
Proof.
  intros styles out.
  destruct (firsts_limit keyOf 15 styles) as (H1 & H2 & H3 & H4).
  fold out in H1, H2, H3, H4. repeat split; try assumption.
  apply Forall_forall. intros s Hs. apply H3 in Hs.
  destruct Hs as (l1 & l2 & E & _).
  assert (Hin : In s styles) by (rewrite E; apply in_or_app; right; now left).
  unfold styles, buttonStyles in Hin.
  apply in_map_iff in Hin as (btn & <- & Hin).
  apply filter_In in Hin as [Hin Hr]. exists btn.
  split; [exact Hin|]. split; [exact Hr|]. split; [reflexivity|].
  now apply retained_sized.
Qed.

End ButtonList.

Section LinkList.
Import JS Regex Colors Spec Facts Notions Unique LinkStyles.

Lemma runThen_Text_app (p : str) (k : list atom)
  (f : str -> list str -> option (list str)) (rest : str) (groups : list str) :
  runThen (Text p :: k) f (p ++ rest) groups = runThen k f rest groups.
Proof. cbn [runThen]. now rewrite startsWith_app, skipn_run. Qed.

Lemma runThen_Group_run (class : ascii -> bool) (k : list atom)
  (f : str -> list str -> option (list str)) (ds rest : str)
  (groups m : list str) :
  ds <> [] -> forallb class ds = true -> stops class rest = true ->
  runThen k f rest (ds :: groups) = Some m ->
  runThen (Group class :: k) f (ds ++ rest) groups = Some m.
Proof.
  intros Hne Hd Hr Hk. cbn [runThen]. rewrite (takeWhile_run _ _ _ Hd Hr).
  destruct ds as [|c ds]; [congruence|]. cbn [List.length].
  apply longestFirst_top.
  change (1 + List.length ds)%nat with (List.length (c :: ds)).
  now rewrite skipn_run, firstn_run.
Qed.

Lemma runThen_Many_run (class : ascii -> bool) (k : list atom)
  (f : str -> list str -> option (list str)) (ws rest : str)
  (groups m : list str) :
  forallb class ws = true -> stops class rest = true ->
  runThen k f rest groups = Some m ->
  runThen (Many class :: k) f (ws ++ rest) groups = Some m.
Proof.
  intros Hd Hr Hk. cbn [runThen]. rewrite (takeWhile_run _ _ _ Hd Hr).
  apply longestFirst_top. cbn [Nat.add]. now rewrite skipn_run.
Qed.

Lemma runThen_Maybe (c : ascii) (k : list atom)
  (f : str -> list str -> option (list str)) (s : str) (groups : list str) :
  runThen (Maybe c :: k) f s groups
  = match s with
    | x :: r =>
        if Ascii.eqb x c then
          match runThen k f r groups with
          | Some m => Some m
          | None => runThen k f s groups
          end
        else runThen k f s groups
    | [] => runThen k f s groups
    end.
Proof. reflexivity. Qed.

Lemma rgbaMatch_head (s : str) (m : list str) :
  runThen rgbPattern alphaThenClose s [] = Some m -> rgbaMatch s = Some m.
Proof. intros H. destruct s; cbn [rgbaMatch]; now rewrite H. Qed.

Lemma dot_not_space (c : ascii) : isDigitOrDot c = true -> isSpace c = false.
Proof.
  destruct c as [[] [] [] [] [] [] [] []]; vm_compute; intros H;
    first [reflexivity | discriminate H].
Qed.

(** What follows the third channel is matched, and the three channels stay
    the first three groups. *)
Lemma alphaThenClose_closes (t : str) (r g b : str) :
  closes t ->
  exists m, alphaThenClose t [b; g; r] = Some (r :: g :: b :: m).
Proof.
  intros (rest & [-> | (w & a & Hw & Ha & Hd & ->)]).
  - exists []. unfold alphaThenClose.
    replace (run [Text ","; Many isSpace; Group isDigitOrDot; Text ")"]
               (lit ")" ++ rest) [b; g; r]) with (@None (list str))
      by reflexivity.
    now rewrite run_Text_app.
  - exists [a]. unfold alphaThenClose. rewrite run_Text_app.
    assert (Hs : stops isSpace (a ++ lit ")" ++ rest) = true).
    { destruct a as [|c a]; [congruence|]. cbn [forallb] in Hd.
      apply andb_true_iff in Hd as [Hc _]. cbn [app stops].
      now rewrite (dot_not_space _ Hc). }
    rewrite (@run_Many_run isSpace _ w (a ++ lit ")" ++ rest) [b; g; r] [r; g; b; a]);
      [reflexivity | exact Hw | exact Hs |].
    apply run_Group_run; [exact Ha | exact Hd | reflexivity|].
    rewrite run_Text_app. reflexivity.
Qed.

Lemma closes_stops (t : str) : closes t -> stops isDigit t = true.
Proof. intros (rest & [-> | (w & a & _ & _ & _ & ->)]); reflexivity. Qed.

Lemma rgbaMatch_captures (alpha : bool) (r g b w1 w2 t : str) :
  digits r = true -> digits g = true -> digits b = true ->
  forallb isSpace w1 = true -> forallb isSpace w2 = true ->
  closes t ->
  exists m, rgbaMatch (rgbText alpha r g b w1 w2 t) = Some (r :: g :: b :: m).
Proof.
  intros Hr Hg Hb H1 H2 Ht.
  destruct (alphaThenClose_closes r g b Ht) as (m & Hm).
  pose proof (closes_stops Ht) as Hst.
  exists m. apply rgbaMatch_head.
  apply digits_inv in Hr as [Hr0 Hr].
  pose proof (@digits_stop_space g (lit "," ++ w2 ++ b ++ t) Hg) as Hg'.
  apply digits_inv in Hg as [Hg0 Hg].
  pose proof (@digits_stop_space b t Hb) as Hb'.
  apply digits_inv in Hb as [Hb0 Hb].
  unfold rgbText, rgbPattern. rewrite runThen_Text_app.
  assert (Hrest :
    runThen [Text "("; Group isDigit; Text ","; Many isSpace;
             Group isDigit; Text ","; Many isSpace; Group isDigit]
        alphaThenClose
        (lit "(" ++ r ++ lit "," ++ w1 ++ g ++ lit "," ++ w2 ++ b ++ t) []
    = Some (r :: g :: b :: m)).
  { rewrite runThen_Text_app.
    apply runThen_Group_run; [exact Hr0 | exact Hr | reflexivity|].
    rewrite runThen_Text_app.
    apply runThen_Many_run; [exact H1 | exact Hg' |].
    apply runThen_Group_run; [exact Hg0 | exact Hg | reflexivity|].
    rewrite runThen_Text_app.
    apply runThen_Many_run; [exact H2 | exact Hb' |].
    apply runThen_Group_run; [exact Hb0 | exact Hb | exact Hst|].
    exact Hm. }
  rewrite runThen_Maybe. destruct alpha.
  - change (lit "a" ++ ?x) with ("a"%char :: x). cbv beta iota.
    match goal with |- context [Ascii.eqb ?u ?v] => change (Ascii.eqb u v) with true end.
    cbv beta iota. now rewrite Hrest.
  - cbn [app]. change (lit "(" ++ ?x) with ("("%char :: x) in *. cbv beta iota.
    match goal with |- context [Ascii.eqb ?u ?v] => change (Ascii.eqb u v) with false end.
    cbv beta iota. exact Hrest.
Qed.

(** Property X23: the key of a link.  On a colour in the functional notation
    that is closed after the third channel or after an alpha, the key is [#]
    and the three channels in hexadecimal, the value [normalizeColor] of the
    colour analyzer gives: the alpha is not part of the key, so that links
    whose colours differ in the alpha alone have one key. *)
Theorem link_key_drops_alpha (alpha : bool) (r g b w1 w2 t : str) :
  digits r = true -> digits g = true -> digits b = true ->
  forallb isSpace w1 = true -> forallb isSpace w2 = true ->
  closes t ->
  let s := rgbText alpha r g b w1 w2 t in
  LinkStyles.normalizeColor s
    = "#"%char :: hex2 (parseInt r) ++ hex2 (parseInt g) ++ hex2 (parseInt b) /\
  LinkStyles.normalizeColor s = Colors.normalizeColor s /\
  LinkStyles.normalizeColor s
    = LinkStyles.normalizeColor (rgbText false r g b w1 w2 ")").
Proof.
  intros Hr Hg Hb H1 H2 Ht s.
  destruct (rgbaMatch_captures alpha _ _ _ _ _ Hr Hg Hb H1 H2 Ht) as (m & Hm).
  fold s in Hm.
  assert (E : LinkStyles.normalizeColor s
              = "#"%char :: hex2 (parseInt r) ++ hex2 (parseInt g)
                  ++ hex2 (parseInt b))
    by (unfold LinkStyles.normalizeColor; rewrite Hm; reflexivity).
  split; [exact E|]. split.
  - rewrite E. unfold Colors.normalizeColor, s.
    rewrite (rgbPattern_captures alpha _ _ _ _ _ _ Hr Hg Hb H1 H2 (closes_stops Ht)).
    reflexivity.
  - rewrite E.
    assert (Hc : closes ")") by (exists []; now left).
    destruct (rgbaMatch_captures false _ _ _ _ _ Hr Hg Hb H1 H2 Hc) as (m' & Hm').
    unfold LinkStyles.normalizeColor. rewrite Hm'. reflexivity.
Qed.

Lemma link_key_drops_alpha_witness :
  LinkStyles.normalizeColor "rgba(99, 102, 241, 0.5)" = "#6366f1" /\
  LinkStyles.normalizeColor "rgba(99, 102, 241, 0.5)"
    = Colors.normalizeColor "rgba(99, 102, 241, 0.5)" /\
  LinkStyles.normalizeColor "rgba(99, 102, 241, 0.5)"
    = LinkStyles.normalizeColor "rgb(99, 102, 241)".
Proof.
  assert (Hc : closes ", 0.5)").
  { exists []. right. exists (lit " "), (lit "0.5").
    repeat split; [discriminate]. }
  exact (@link_key_drops_alpha true "99" "102" "241" " " " " ", 0.5)"
           eq_refl eq_refl eq_refl eq_refl eq_refl Hc).
Defined.

(** Property X24: the links [extractLinkStyles] reports.  There is one entry
    for each key of a visible link, for the first twelve keys in the order
    of the page; the entry holds the computed values of the first visible
    link with that key, and its context; and every first link of a key is
    reported unless twelve are. *)
Theorem extractLinkStyles_first_of_each (links : list element) :
  let visible := filter (fun link => negb (hidden link)) links in
  let out := extractLinkStyles links in
  map keyOf (map default out) = firstn 12 (firstSeen (map keyOf visible)) /\
  NoDup (map keyOf (map default out)) /\
  Forall (fun s => firstOf keyOf visible (default s) /\
                   hidden (default s) = false /\
                   context s = contextOf (default s))
         out /\
  (forall link, firstOf keyOf visible link ->
     In link (map default out) \/ List.length out = 12%nat).
Proof.
  intros visible out.
  destruct (firsts_limit keyOf 12 visible) as (H1 & H2 & H3 & H4).
  assert (E : map default out = firstn 12 (firsts keyOf visible)).
  { unfold out, extractLinkStyles. fold visible. rewrite firstn_map, map_map.
    cbn [default]. now rewrite map_id. }
  rewrite E. split; [exact H1|]. split; [exact H2|]. split.
  - apply Forall_forall. intros s Hs.
    assert (Hd : In (default s) (firstn 12 (firsts keyOf visible)))
      by (rewrite <- E; now apply in_map).
    pose proof (H3 _ Hd) as Hf. split; [exact Hf|].
    destruct Hf as (l1 & l2 & Ev & _).
    assert (Hv : In (default s) visible)
      by (rewrite Ev; apply in_or_app; right; now left).
    apply filter_In in Hv as [_ Hv]. apply negb_true_iff in Hv.
    split; [exact Hv|].
    unfold out, extractLinkStyles in Hs. rewrite firstn_map in Hs.
    apply in_map_iff in Hs as (l & <- & _). reflexivity.
  - intros link Hl. destruct (H4 _ Hl) as [H | H]; [now left | right].
    rewrite <- H, <- E. now rewrite length_map.
Qed.

End LinkList.

Section BadgeList.
Import JS Colors Spec Facts Notions Unique Badges.

Lemma firstOf_app {A} (key : A -> str) (xs ys : list A) (x : A) :
  firstOf key xs x -> firstOf key (xs ++ ys) x.
Proof.
  intros (l1 & l2 & -> & Hn). exists l1, (l2 ++ ys). split; [|exact Hn].
  now rewrite <- app_assoc.
Qed.

Lemma firstOf_last {A} (key : A -> str) (xs : list A) (x : A) :
  ~ In (key x) (map key xs) -> firstOf key (xs ++ [x]) x.
Proof. intros Hn. now exists xs, []. Qed.

(** The state of the loop after the elements [els]: it has thrown when an
    element that is the first of its signature is an SVG element. *)
Lemma visit_fold (els : list element) :
  let shown := filter (fun el => negb (skipped el)) els in
  match fold_left visit els (Some ([], [])) with
  | Some (seen, badges) =>
      seen = firstSeen (map signature shown) /\
      map styles badges = firsts signature shown /\
      Forall (fun b => exists c, lowerClassName (styles b) = Some c /\
                                 b = badgeOf (styles b) c) badges
  | None =>
      exists el, firstOf signature shown el /\ lowerClassName el = None
  end.
Proof.
  induction els as [|x els IH] using rev_ind; [now repeat split|].
  cbv zeta in *. rewrite fold_left_app, filter_app. cbn [fold_left filter].
  set (shown := filter (fun el => negb (skipped el)) els) in *.
  destruct (fold_left visit els (Some ([], []))) as [[seen badges]|]; cbn [visit].
  - destruct IH as (Es & Eb & Hb). destruct (skipped x); cbn [negb]; cbv iota.
    + rewrite app_nil_r. now repeat split.
    + subst seen. rewrite map_app. cbn [map]. rewrite firstSeen_snoc, firsts_snoc.
      destruct (arr_includes (firstSeen (map signature shown)) (signature x)) eqn:E.
      * now repeat split.
      * assert (Hn : ~ In (signature x) (map signature shown)).
        { intros Hin. rewrite <- firstSeen_In in Hin.
          apply arr_includes_In in Hin. congruence. }
        destruct (lowerClassName x) as [c|] eqn:Ec.
        -- split; [reflexivity|]. split.
           ++ rewrite map_app, Eb. reflexivity.
           ++ apply Forall_app. split; [exact Hb|]. constructor; [|constructor].
              exists c. cbn [styles]. now split.
        -- exists x. split; [now apply firstOf_last | exact Ec].
  - destruct IH as (el & Hf & Ec). exists el. split; [|exact Ec].
    now apply firstOf_app.
Qed.

Lemma Math_round_le (q : Q) (n : Z) : (q <= inject_Z n)%Q -> (Math_round q <= n)%Z.
Proof.
  intros H. unfold Math_round.
  assert (Hlt : (q + (1 # 2) < inject_Z (n + 1))%Q).
  { rewrite inject_Z_plus. change (inject_Z 1) with 1%Q. Lqa.lra. }
  apply Qlt_le_weak, Qfloor_resp_le in Hlt.
  destruct (Z.le_gt_cases (Qfloor (q + (1 # 2))) n) as [Hle | Hgt]; [exact Hle|].
  assert (Hge : (inject_Z (n + 1) <= q + (1 # 2))%Q).
  { apply Qle_trans with (inject_Z (Qfloor (q + (1 # 2)))); [|apply Qfloor_le].
    rewrite <- Zle_Qle. lia. }
  rewrite inject_Z_plus in Hge. change (inject_Z 1) with 1%Q in Hge. Lqa.lra.
Qed.

(** Property X25: the badges [extractBadgesAndTags] reports.  The evaluation
    throws exactly when an element that is shown, small enough and the first
    of its signature is an SVG element, whose class name has no
    [toLowerCase].  Otherwise there is one badge for each signature, for the
    first twenty signatures in the order of the page; it is made from the
    first element with that signature; and it is at most 300 wide and 60
    high. *)
Theorem extractBadgesAndTags_throws_or_reports (els : list element) :
  let shown := filter (fun el => negb (skipped el)) els in
  match extractBadgesAndTags els with
  | None => exists el, firstOf signature shown el /\ lowerClassName el = None
  | Some badges =>
      (forall el, firstOf signature shown el -> lowerClassName el <> None) /\
      map signature (map styles badges)
        = firstn 20 (firstSeen (map signature shown)) /\
      NoDup (map signature (map styles badges)) /\
      Forall (fun b => firstOf signature shown (styles b) /\
                       (exists c, lowerClassName (styles b) = Some c /\
                                  b = badgeOf (styles b) c) /\
                       (width b <= 300 /\ height b <= 60)%Z)
             badges
  end.
Proof.
  intros shown. pose proof (visit_fold els) as H. cbv zeta in H. fold shown in H.
  unfold extractBadgesAndTags.
  destruct (fold_left visit els (Some ([], []))) as [[seen all]|]; [|exact H].
  destruct H as (_ & Eb & Hb).
  destruct (firsts_limit signature 20 shown) as (H1 & H2 & H3 & _).
  assert (E : map styles (firstn 20 all) = firstn 20 (firsts signature shown))
    by now rewrite <- firstn_map, Eb.
  rewrite E. split; [|split; [exact H1 | split; [exact H2|]]].
  - intros el Hf. apply firsts_firstOf in Hf. rewrite <- Eb in Hf.
    apply in_map_iff in Hf as (b & <- & Hin).
    rewrite Forall_forall in Hb. destruct (Hb _ Hin) as (c & -> & _). discriminate.
  - apply Forall_forall. intros b Hin.
    assert (Hs : In (styles b) (firstn 20 (firsts signature shown)))
      by (rewrite <- E; now apply in_map).
    pose proof (H3 _ Hs) as Hf. split; [exact Hf|].
    assert (Hall : In b all).
    { rewrite <- (firstn_skipn 20 all). apply in_or_app. now left. }
    rewrite Forall_forall in Hb. destruct (Hb _ Hall) as (c & Ec & Eb').
    split; [now exists c|].
    destruct Hf as (l1 & l2 & Ev & _).
    assert (Hv : In (styles b) shown)
      by (rewrite Ev; apply in_or_app; right; now left).
    apply filter_In in Hv as [_ Hv]. apply negb_true_iff in Hv.
    unfold skipped in Hv. repeat (apply orb_false_iff in Hv as [Hv ?]).
    assert (Hle : forall x y, Qltb x y = false -> (y <= x)%Q).
    { intros x y Hxy. destruct (Qlt_le_dec x y) as [Hlt | Hl]; [|exact Hl].
      apply Qltb_true in Hlt. congruence. }
    rewrite Eb'. cbn [width height badgeOf]. split; apply Math_round_le.
    + now apply (Hle 300%Q).
    + now apply (Hle 60%Q).
Qed.

End BadgeList.

Section BorderTally.
Import JS Colors Spec Facts Notions Borders.

Lemma border_note_keys (m : list (str * combo)) (x w s c ctx : str) :
  map fst (note m x w s c ctx)
  = if arr_includes (map fst m) x then map fst m else map fst m ++ [x].
Proof.
  induction m as [|[k d] m IH]; cbn [note map fst]; [reflexivity|].
  unfold arr_includes in *. cbn [existsb]. rewrite (str_eqb_sym x k).
  destruct (str_eqb k x); [reflexivity|]. cbn [orb map fst]. rewrite IH.
  now destruct (existsb (str_eqb x) (map fst m)).
Qed.

Lemma border_note_NoDup (m : list (str * combo)) (x w s c ctx : str) :
  NoDup (map fst m) -> NoDup (map fst (note m x w s c ctx)).
Proof.
  intros H. rewrite border_note_keys.
  destruct (arr_includes (map fst m) x) eqn:E; [exact H|].
  apply NoDup_app; [exact H | repeat constructor; intros [] |].
  intros y Hy [<- | []]. apply arr_includes_In in Hy. congruence.
Qed.

Lemma border_lookup_note (m : list (str * combo)) (x w s c ctx k : str) :
  lookup (note m x w s c ctx) k
  = if str_eqb x k
    then
      let d := match lookup m x with
               | Some d => d
               | None => mkCombo w s c 0 []
               end in
      Some (mkCombo (width d) (style d) (color d) (count d + 1)
              (if arr_includes (elements d) ctx then elements d
               else elements d ++ [ctx]))
    else lookup m k.
Proof.
  induction m as [|[k0 d] m IH]; cbn [note lookup]; [reflexivity|].
  destruct (str_eqb k0 x) eqn:E.
  - apply str_eqb_eq in E. subst k0. cbn [lookup]. now destruct (str_eqb x k).
  - cbn [lookup]. rewrite IH. destruct (str_eqb k0 k) eqn:E'; [|reflexivity].
    apply str_eqb_eq in E'. subst k0. now rewrite str_eqb_sym, E.
Qed.

Lemma withBorder_snoc (k : str) (els : list element) (x : element) :
  withBorder k (els ++ [x])
  = withBorder k els ++ if bordered x && str_eqb k (borderKey x) then [x] else [].
Proof. unfold withBorder. now rewrite filter_app. Qed.

(** The tally of the borders, after the elements [els]. *)
Lemma border_tally (els : list element) :
  NoDup (map fst (fold_left visit els [])) /\
  forall k, lookup (fold_left visit els []) k = comboOf (withBorder k els).
Proof.
  induction els as [|x els IH] using rev_ind; [split; [constructor | reflexivity]|].
  destruct IH as [Hn Hl]. rewrite fold_left_app. cbn [fold_left].
  set (m := fold_left visit els []) in *.
  assert (Ev : visit m x
               = if bordered x
                 then note m (borderKey x) (borderWidth x) (borderStyle x)
                        (normalizedColor (borderColor x)) (contextOf x)
                 else m).
  { unfold visit, bordered, borderKey. destruct (visible x); [|reflexivity].
    cbn [andb]. now destruct (coloured _). }
  rewrite Ev. clear Ev. destruct (bordered x) eqn:Ex.
  - split; [now apply border_note_NoDup|]. intros k.
    rewrite border_lookup_note, withBorder_snoc, Ex, Hl. cbn [andb].
    rewrite (str_eqb_sym k (borderKey x)).
    destruct (str_eqb (borderKey x) k) eqn:E; [|now rewrite app_nil_r].
    apply str_eqb_eq in E. subst k. cbv zeta.
    destruct (withBorder (borderKey x) els) as [|first hits] eqn:Eh.
    + reflexivity.
    + cbn [comboOf app width style color count elements]. f_equal.
      change (first :: hits ++ [x]) with ((first :: hits) ++ [x]).
      rewrite map_app. cbn [map]. rewrite firstSeen_snoc. f_equal.
      rewrite length_app. cbn [List.length]. lia.
  - split; [exact Hn|]. intros k. rewrite Hl, withBorder_snoc, Ex.
    cbn [andb]. now rewrite app_nil_r.
Qed.

Lemma withBorder_hits (k : str) (els : list element) (first : element)
  (hits : list element) :
  withBorder k els = first :: hits ->
  In first els /\ bordered first = true /\ borderKey first = k.
Proof.
  intros E.
  assert (H : In first (withBorder k els)) by (rewrite E; now left).
  apply filter_In in H as [Hin H]. apply andb_true_iff in H as [Hb Hk].
  apply str_eqb_eq in Hk. now repeat split.
Qed.

(** Property X26: the borders [extractBorders] reports.  An entry is reported
    for exactly the keys of width, style and first colour under which some
    element is counted; it carries the three values of the first such
    element, the number of such elements and their first five distinct
    contexts; its colour is none of the transparent values; no key is
    reported twice; and the entries are listed by count, largest first. *)
Theorem extractBorders_tally (els : list element) :
  (forall e, In e (extractBorders els) <->
     exists el, In el els /\ bordered el = true /\
       option_map toEntry (comboOf (withBorder (borderKey el) els)) = Some e) /\
  NoDup (map entryKey (extractBorders els)) /\
  Forall (fun e => coloured (entryColor e) = true) (extractBorders els) /\
  StronglySorted (fun a b => (entryCount b <= entryCount a)%Z)
    (extractBorders els).
Proof.
  destruct (border_tally els) as [Hn Hl].
  unfold extractBorders. set (m := fold_left visit els []) in *.
  assert (Hkey : forall k c, In (k, c) m ->
            exists el, In el els /\ bordered el = true /\ borderKey el = k /\
              comboOf (withBorder k els) = Some c /\
              width c = borderWidth el /\ style c = borderStyle el /\
              color c = normalizedColor (borderColor el)).
  { intros k c Hin. apply (lookup_In _ _ _ Hn) in Hin. rewrite Hl in Hin.
    destruct (withBorder k els) as [|first hits] eqn:Eh; [discriminate|].
    destruct (withBorder_hits _ _ Eh) as (H1 & H2 & H3).
    exists first. repeat split; try assumption.
    all: cbn [comboOf] in Hin; injection Hin as <-; reflexivity. }
  split; [|split; [|split]].
  - intros e. rewrite sort_In, in_map_iff. split.
    + intros ([k c] & <- & Hin). cbn [snd].
      destruct (Hkey _ _ Hin) as (el & H1 & H2 & H3 & H4 & _).
      exists el. rewrite H3, H4. now repeat split.
    + intros (el & Hin & Hb & E).
      destruct (comboOf (withBorder (borderKey el) els)) as [c|] eqn:Ec;
        [|discriminate].
      injection E as <-. exists (borderKey el, c). split; [reflexivity|].
      apply (lookup_In _ _ _ Hn). now rewrite Hl.
  - apply sort_NoDup. rewrite map_map.
    assert (E : map (fun x => entryKey (toEntry (snd x))) m = map fst m).
    { apply map_ext_in. intros [k c] Hin. cbn [snd fst].
      destruct (Hkey _ _ Hin) as (el & _ & _ & H3 & _ & Hw & Hs & Hc).
      unfold entryKey, toEntry. cbn [entryWidth entryStyle entryColor].
      now rewrite Hw, Hs, Hc. }
    now rewrite E.
  - apply Forall_forall. intros e He. apply sort_In in He.
    apply in_map_iff in He as ([k c] & <- & Hin). cbn [snd].
    destruct (Hkey _ _ Hin) as (el & _ & Hb & _ & _ & _ & _ & Hc).
    unfold toEntry. cbn [entryColor]. rewrite Hc.
    unfold bordered in Hb. now apply andb_true_iff in Hb as [_ Hb].
  - apply sort_ordered.
    + intros x y z H1 H2. lia.
    + unfold byCount. intros x y H. apply Z.ltb_ge in H. lia.
    + unfold byCount. intros x y H. apply Z.ltb_lt in H. lia.
Qed.

End BorderTally.

Section MediaQueries.
Import JS Regex Colors Spec Facts Notions Tokens Breakpoints.

Lemma longestFirst_last {A} (f : nat -> option A) (lo extra : nat) :
  (forall n, (lo <= n < lo + extra)%nat -> f n = None) ->
  longestFirst f lo extra = f (lo + extra)%nat.
Proof.
  induction extra as [|e IH]; intros H; cbn [longestFirst].
  - now rewrite Nat.add_0_r.
  - destruct (f (lo + S e)%nat) eqn:E; [reflexivity|].
    rewrite IH by (intros n Hn; apply H; lia). apply H. lia.
Qed.

Lemma takeWhile_dropWhile (p : ascii -> bool) (s : str) :
  takeWhile p s ++ dropWhile p s = s.
Proof.
  induction s as [|c s IH]; [reflexivity|]. cbn [takeWhile dropWhile].
  destruct (p c); [|reflexivity]. cbn [app]. now rewrite IH.
Qed.

Lemma skipn_takeWhile (p : ascii -> bool) (s : str) :
  skipn (List.length (takeWhile p s)) s = dropWhile p s.
Proof.
  rewrite <- (takeWhile_dropWhile p s) at 2. apply skipn_run.
Qed.

Lemma skipn_inside (p : ascii -> bool) (s : str) (n : nat) :
  (n < List.length (takeWhile p s))%nat ->
  exists c r, skipn n s = c :: r /\ p c = true.
Proof.
  revert n. induction s as [|x s IH]; intros n; cbn [takeWhile].
  - cbn. lia.
  - destruct (p x) eqn:E; [|cbn; lia]. destruct n as [|n].
    + intros _. now exists x, s.
    + cbn [List.length skipn]. intros H. apply IH. lia.
Qed.

Lemma digit_not_p (c : ascii) : isDigit c = true -> Ascii.eqb "p" c = false.
Proof.
  destruct c as [[] [] [] [] [] [] [] []]; vm_compute; intros H;
    first [reflexivity | discriminate H].
Qed.

Lemma extent_Exact_px (t : str) :
  extent [Exact "px"] t = if startsWith t "px" then Some 2%nat else None.
Proof. cbn [extent]. now destruct (startsWith t "px"). Qed.

(** Where the pattern matches at the head of a text, and how far. *)
Lemma firstOf_px (s : str) :
  firstOf pxRegex s
  = if pxAt s then Some (List.length (takeWhile isDigit s) + 2)%nat else None.
Proof.
  unfold pxRegex, pxAt. cbn [firstOf]. rewrite extent_Plus.
  destruct (takeWhile isDigit s) as [|c d] eqn:Ed; [reflexivity|].
  cbn [List.length]. rewrite longestFirst_last.
  - change (1 + List.length d)%nat with (List.length (c :: d)).
    rewrite <- Ed, skipn_takeWhile, extent_Exact_px.
    destruct (startsWith (dropWhile isDigit s) "px"); [|reflexivity].
    cbn [option_map]. now rewrite Ed.
  - intros n Hn.
    destruct (@skipn_inside isDigit s n) as (x & r & -> & Hx);
      [rewrite Ed; cbn [List.length]; lia|].
    rewrite extent_Exact_px.
    change (startsWith (x :: r) "px") with (Ascii.eqb "p" x && startsWith r "x").
    now rewrite (digit_not_p _ Hx).
Qed.

Lemma pxAt_inv (s : str) :
  pxAt s = true ->
  exists d post, s = d ++ lit "px" ++ post /\ digits d = true /\
                 takeWhile isDigit s = d.
Proof.
  unfold pxAt. destruct (takeWhile isDigit s) as [|c d] eqn:Ed; [discriminate|].
  intros H. pose proof (takeWhile_dropWhile isDigit s) as Es. rewrite Ed in Es.
  destruct (dropWhile isDigit s) as [|x [|y post]]; [discriminate | |].
  { change (startsWith [x] "px") with (Ascii.eqb "p" x && false) in H.
    now rewrite andb_false_r in H. }
  change (startsWith (x :: y :: post) "px")
    with (Ascii.eqb "p" x && (Ascii.eqb "x" y && startsWith post [])) in H.
  apply andb_true_iff in H as [Hx H].
  apply andb_true_iff in H as [Hy _].
  apply Ascii.eqb_eq in Hx, Hy. subst x y.
  exists (c :: d), post. split; [now rewrite <- Es|]. split; [|reflexivity].
  cbn [digits]. rewrite <- Ed. clear. induction s as [|x s IH]; [reflexivity|].
  cbn [takeWhile]. destruct (isDigit x) eqn:E; [|reflexivity].
  cbn [forallb]. now rewrite E.
Qed.

Lemma pxAt_run (d post : str) : digits d = true -> pxAt (d ++ lit "px" ++ post) = true.
Proof.
  intros Hd. apply digits_inv in Hd as [Hne Hd]. unfold pxAt.
  assert (Ht : takeWhile isDigit (d ++ lit "px" ++ post) = d)
    by (apply takeWhile_run; [exact Hd | reflexivity]).
  pose proof (skipn_takeWhile isDigit (d ++ lit "px" ++ post)) as Hs.
  rewrite Ht, skipn_run in Hs. rewrite Ht, <- Hs.
  destruct d; [congruence|]. apply startsWith_app.
Qed.

(** A match found, and the search goes on after it. *)
Lemma matchesFrom_px (d post : str) :
  digits d = true ->
  matchesFrom pxRegex (d ++ lit "px" ++ post) 0
  = (d ++ lit "px") :: matchesFrom pxRegex post 0.
Proof.
  intros Hd. pose proof (firstOf_px (d ++ lit "px" ++ post)) as Hf.
  rewrite (@pxAt_run d post Hd) in Hf.
  apply digits_inv in Hd as [Hne Hd].
  rewrite takeWhile_run in Hf by (try exact Hd; reflexivity).
  destruct d as [|c d]; [congruence|].
  cbn [app matchesFrom]. cbn [app] in Hf. rewrite Hf.
  cbn [List.length Nat.add]. f_equal.
  - change (S (S (List.length d + 2))) with (S (List.length d + 2)). 
    replace (S (List.length d + 2)) with (List.length (c :: d ++ lit "px"))
      by (cbn [List.length]; rewrite length_app; reflexivity).
    change (c :: d ++ lit "px" ++ post) with ((c :: d) ++ lit "px" ++ post).
    rewrite app_assoc. apply firstn_run.
  - replace (List.length d + 2)%nat with (List.length (d ++ lit "px"))
      by (rewrite length_app; reflexivity).
    rewrite app_assoc. apply matchesFrom_skip.
Qed.

Lemma stops_snoc (pre : str) (c : ascii) :
  stops isDigit (rev (pre ++ [c])) = negb (isDigit c).
Proof. now rewrite rev_app_distr. Qed.

(** The matches of the pattern in a text: the runs of digits that no digit
    precedes and [px] follows. *)
Lemma matchesFrom_runs (n : nat) :
  forall s pre,
    (List.length s <= n)%nat ->
    stops isDigit (rev pre) = true \/ pxAt s = false ->
    forall m, In m (matchesFrom pxRegex s 0) <->
              exists a d, m = d ++ lit "px" /\ pxRunAfter (pre ++ a) (pre ++ s) d.
Proof.
  induction n as [|n IH]; intros s pre Hlen HJ m.
  - destruct s; [|cbn in Hlen; lia]. cbn [matchesFrom firstOf pxRegex extent].
    cbn. split; [intros []|].
    intros (a & d & _ & post & E & Hd & _). rewrite <- app_assoc in E. apply app_inv_head in E.
    destruct a, d; discriminate.
  - destruct s as [|c r].
    { cbn. split; [intros []|].
      intros (a & d & _ & post & E & Hd & _). rewrite <- app_assoc in E. apply app_inv_head in E.
      destruct a, d; discriminate. }
    destruct (pxAt (c :: r)) eqn:Ep.
    + destruct (@pxAt_inv _ Ep) as (d & post & Es & Hd & Ht).
      assert (Hpre : stops isDigit (rev pre) = true)
        by (destruct HJ as [H | H]; [exact H | congruence]).
      rewrite Es, (@matchesFrom_px d post Hd).
      assert (Hpost : (List.length post <= n)%nat).
      { apply (f_equal (@List.length ascii)) in Es. rewrite !length_app in Es.
        cbn [List.length] in *. destruct d; [discriminate|]. cbn in Es. lia. }
      specialize (IH post (pre ++ d ++ lit "px") Hpost).
      assert (HJ' : stops isDigit (rev (pre ++ d ++ lit "px")) = true \/
                    pxAt post = false).
      { left. rewrite !rev_app_distr. reflexivity. }
      specialize (IH HJ' m). cbn [In]. rewrite IH. clear IH. split.
      * intros [<- | (a & d' & -> & post' & E & Hd' & Hs)].
        -- exists [], d. split; [reflexivity|]. exists post.
           rewrite app_nil_r. now repeat split.
        -- exists (d ++ lit "px" ++ a), d'. split; [reflexivity|].
           exists post'. split; [|split; [exact Hd'|]].
           ++ rewrite <- ?app_assoc in *. exact E.
           ++ rewrite <- ?app_assoc in *. exact Hs.
      * intros (a & d' & -> & post' & E & Hd' & Hs).
        rewrite <- app_assoc in E. apply app_inv_head in E. rewrite <- ?app_assoc in E.
        apply digits_inv in Hd as [Hne Hdd]. 
        pose proof (@digits_inv d' Hd') as [Hne' Hdd'].
        apply app_eq_app in E as (t & [[E1 E2] | [E1 E2]]).
        -- (* d = a ++ t *)
           destruct a as [|x a].
           { cbn [app] in E1. subst t.
             assert (Et : takeWhile isDigit (d' ++ lit "px" ++ post') = d')
               by (apply takeWhile_run; [exact Hdd' | reflexivity]).
             assert (Et' : takeWhile isDigit (d ++ lit "px" ++ post) = d)
               by (apply takeWhile_run; [exact Hdd | reflexivity]).
             rewrite E2 in Et. left. congruence. }
           exfalso. 
           assert (Hlast : stops isDigit (rev (pre ++ x :: a)) = false).
           { destruct (exists_last (l := x :: a)) as (a0 & y & Ea); [discriminate|].
             rewrite Ea, app_assoc, stops_snoc. apply negb_false_iff.
             rewrite E1, Ea in Hdd. rewrite !forallb_app in Hdd.
             apply andb_true_iff in Hdd as [Hdd _].
             apply andb_true_iff in Hdd as [_ Hdd]. cbn in Hdd.
             now rewrite andb_true_r in Hdd. }
           congruence.
        -- (* a = d ++ t *)
           subst a. destruct t as [|x [|y t]].
           ++ exfalso. rewrite app_nil_r in Hs.
              destruct (exists_last (l := d)) as (d0 & z & Ed); [exact Hne|].
              rewrite Ed, app_assoc, stops_snoc in Hs.
              rewrite Ed, forallb_app in Hdd. apply andb_true_iff in Hdd as [_ Hz].
              cbn in Hz. rewrite andb_true_r in Hz. rewrite Hz in Hs. discriminate.
           ++ exfalso. cbn [app] in E2. injection E2 as -> E2.
              destruct d' as [|z d']; [congruence|]. cbn [app] in E2.
              injection E2 as <- _. discriminate.
           ++ cbn [app] in E2. injection E2 as Ex Ey E2. subst x y post. right.
              exists t, d'. split; [reflexivity|]. exists post'.
              split; [|split; [exact Hd'|]].
              ** now rewrite <- !app_assoc.
              ** rewrite <- ?app_assoc in *. exact Hs.
    + assert (Hm : matchesFrom pxRegex (c :: r) 0 = matchesFrom pxRegex r 0).
      { cbn [matchesFrom]. now rewrite firstOf_px, Ep. }
      rewrite Hm.
      assert (Hlen' : (List.length r <= n)%nat) by (cbn in Hlen; lia).
      assert (HJ' : stops isDigit (rev (pre ++ [c])) = true \/ pxAt r = false).
      { rewrite stops_snoc. destruct (isDigit c) eqn:Ec; [right | now left].
        unfold pxAt in *. cbn [takeWhile dropWhile] in Ep. rewrite Ec in Ep.
        destruct (takeWhile isDigit r); [reflexivity | exact Ep]. }
      rewrite (IH r (pre ++ [c]) Hlen' HJ' m). split.
      * intros (a & d & -> & post & E & Hd & Hs). exists (c :: a), d.
        split; [reflexivity|]. exists post. rewrite <- ?app_assoc in *.
        now repeat split.
      * intros (a & d & -> & post & E & Hd & Hs). rewrite <- app_assoc in E.
        apply app_inv_head in E.
        destruct a as [|x a].
        -- exfalso. cbn [app] in E. rewrite E, (@pxAt_run d post Hd) in Ep. discriminate.
        -- cbn [app] in E. injection E as <- E. exists a, d.
           split; [reflexivity|]. exists post. rewrite <- ?app_assoc in *.
           cbn [app] in *. subst r. now repeat split.
Qed.

Lemma digit_not_x (c : ascii) : isDigit c = true -> Ascii.eqb "x" c = false.
Proof.
  destruct c as [[] [] [] [] [] [] [] []]; vm_compute; intros H;
    first [reflexivity | discriminate H].
Qed.

Lemma digit_not_X (c : ascii) : isDigit c = true -> Ascii.eqb "X" c = false.
Proof.
  destruct c as [[] [] [] [] [] [] [] []]; vm_compute; intros H;
    first [reflexivity | discriminate H].
Qed.

Lemma parseIntOf_digit (c : ascii) (rest : str) :
  isDigit c = true -> parseIntOf (c :: rest) = unsignedInt (c :: rest).
Proof.
  destruct c as [[] [] [] [] [] [] [] []]; intros H; vm_compute in H;
    first [discriminate H | reflexivity].
Qed.

(** [parseInt] reads the digits of a match. *)
Lemma parseIntOf_px (d : str) :
  digits d = true -> parseIntOf (d ++ lit "px") = Some (parseInt d).
Proof.
  intros Hd. apply digits_inv in Hd as [Hne Hd].
  destruct d as [|c d]; [congruence|].
  pose proof Hd as Hcd. cbn [forallb] in Hcd. apply andb_true_iff in Hcd as [Hc Hd'].
  cbn [app]. rewrite (@parseIntOf_digit c _ Hc). unfold unsignedInt.
  assert (Hx : forall u, Ascii.eqb u "x" = true \/ Ascii.eqb u "X" = true ->
             startsWith (c :: d ++ lit "px") ["0"%char; u] = false).
  { intros u Hu.
    change (startsWith (c :: d ++ lit "px") ["0"%char; u])
      with (Ascii.eqb "0" c && startsWith (d ++ lit "px") [u]).
    apply andb_false_iff. right. destruct d as [|z d].
    - destruct Hu as [Hu | Hu]; apply Ascii.eqb_eq in Hu; subst u; reflexivity.
    - cbn [forallb] in Hd'. apply andb_true_iff in Hd' as [Hz _].
      change (startsWith ((z :: d) ++ lit "px") [u])
        with (Ascii.eqb u z && startsWith (d ++ lit "px") []).
      apply andb_false_iff. left.
      destruct Hu as [Hu | Hu]; apply Ascii.eqb_eq in Hu; subst u.
      + now apply digit_not_x.
      + now apply digit_not_X. }
  change (lit "0x") with ["0"%char; "x"%char].
  change (lit "0X") with ["0"%char; "X"%char].
  rewrite !Hx by (first [now left | now right]). cbn [orb].
  change (c :: d ++ lit "px") with ((c :: d) ++ lit "px").
  rewrite takeWhile_run by (try exact Hd; reflexivity). reflexivity.
Qed.

Lemma same_eq (a b : option Z) : same a b = true <-> a = b.
Proof.
  destruct a as [x|], b as [y|]; cbn [same]; try (split; congruence).
  rewrite Z.eqb_eq. split; congruence.
Qed.

Lemma add_In (bs : list (option Z)) (n v : option Z) :
  In v (add bs n) <-> In v bs \/ v = n.
Proof.
  unfold add. destruct (existsb (same n) bs) eqn:E.
  - split; [now left|]. intros [H | ->]; [exact H|].
    apply existsb_exists in E as (b & Hb & Eb). apply same_eq in Eb. now subst.
  - rewrite in_app_iff. cbn [In]. intuition congruence.
Qed.

Lemma add_NoDup (bs : list (option Z)) (n : option Z) :
  NoDup bs -> NoDup (add bs n).
Proof.
  intros H. unfold add. destruct (existsb (same n) bs) eqn:E; [exact H|].
  apply NoDup_app; [exact H | repeat constructor; intros [] |].
  intros y Hy [<- | []].
  assert (existsb (same n) bs = true); [|congruence].
  apply existsb_exists. exists n. split; [exact Hy | now apply same_eq].
Qed.

Lemma visitRule_matches (bs : list (option Z)) (text : str) :
  visitRule bs (Some text)
  = fold_left (fun bs m => add bs (parseIntOf m)) (matchesFrom pxRegex text 0) bs.
Proof.
  unfold visitRule, matchAll. now destruct (matchesFrom pxRegex text 0).
Qed.

Lemma adds_spec (ms : list str) (bs : list (option Z)) :
  NoDup bs ->
  NoDup (fold_left (fun bs m => add bs (parseIntOf m)) ms bs) /\
  forall v, In v (fold_left (fun bs m => add bs (parseIntOf m)) ms bs) <->
            In v bs \/ In v (map parseIntOf ms).
Proof.
  revert bs. induction ms as [|m ms IH]; intros bs Hn; cbn [fold_left map In].
  - split; [exact Hn | tauto].
  - destruct (IH (add bs (parseIntOf m)) (@add_NoDup bs (parseIntOf m) Hn)) as [H1 H2].
    split; [exact H1|]. intros v. rewrite H2, add_In. intuition congruence.
Qed.

(** The numbers found in the rules of a sheet, and in the sheets. *)
Lemma visitRules_spec (rules : list (option str)) (bs : list (option Z)) :
  NoDup bs ->
  NoDup (fold_left visitRule rules bs) /\
  forall v, In v (fold_left visitRule rules bs) <->
            In v bs \/
            exists text m, In (Some text) rules /\
                           In m (matchesFrom pxRegex text 0) /\ v = parseIntOf m.
Proof.
  revert bs. induction rules as [|r rules IH]; intros bs Hn; cbn [fold_left].
  - split; [exact Hn|]. intros v. split; [now left|].
    intros [H | (text & m & [] & _)]. exact H.
  - destruct r as [text|].
    + rewrite visitRule_matches.
      destruct (@adds_spec (matchesFrom pxRegex text 0) bs Hn) as [H1 H2].
      destruct (IH _ H1) as [H3 H4]. split; [exact H3|]. intros v.
      rewrite H4, H2, in_map_iff. split.
      * intros [[H | (m & <- & Hm)] | (text' & m & Hin & Hm & ->)].
        -- now left.
        -- right. exists text, m. repeat split; [now left | exact Hm].
        -- right. exists text', m. repeat split; [now right | exact Hm].
      * intros [H | (text' & m & [[= ->] | Hin] & Hm & ->)].
        -- left. now left.
        -- left. right. now exists m.
        -- right. now exists text', m.
    + destruct (IH _ Hn) as [H3 H4]. split; [exact H3|]. intros v.
      rewrite H4. split.
      * intros [H | (text' & m & Hin & Hm & ->)]; [now left|].
        right. exists text', m. repeat split; [now right | exact Hm].
      * intros [H | (text' & m & [[=] | Hin] & Hm & ->)]; [now left|].
        right. now exists text', m.
Qed.

Lemma visitSheets_spec (sheets : list sheet) (bs : list (option Z)) :
  NoDup bs ->
  NoDup (fold_left visitSheet sheets bs) /\
  forall v, In v (fold_left visitSheet sheets bs) <->
            In v bs \/
            exists text m, In text (mediaTexts sheets) /\
                           In m (matchesFrom pxRegex text 0) /\ v = parseIntOf m.
Proof.
  revert bs. induction sheets as [|s sheets IH]; intros bs Hn; cbn [fold_left].
  - split; [exact Hn|]. intros v. split; [now left|].
    intros [H | (text & m & [] & _)]. exact H.
  - assert (Hs : NoDup (visitSheet bs s) /\
                 forall v, In v (visitSheet bs s) <->
                   In v bs \/
                   exists text m, In text (mediaTexts [s]) /\
                     In m (matchesFrom pxRegex text 0) /\ v = parseIntOf m).
    { destruct s as [rules|]; cbn [visitSheet].
      - destruct (@visitRules_spec rules bs Hn) as [H1 H2]. split; [exact H1|].
        intros v. rewrite H2. unfold mediaTexts. cbn [flat_map].
        rewrite app_nil_r.
        assert (Hin : forall text,
                  In text (flat_map (fun r : option str =>
                                       match r with
                                       | Some text => [text]
                                       | None => []
                                       end) rules) <-> In (Some text) rules).
        { intros text. rewrite in_flat_map. split.
          - intros ([t|] & Hr & Ht); [|destruct Ht].
            destruct Ht as [<- | []]. exact Hr.
          - intros H. exists (Some text). split; [exact H | now left]. }
        split; (intros [H | (text & m & Ht & Hm)]; [now left | right]);
          exists text, m; (split; [now apply Hin | exact Hm]).
      - split; [exact Hn|]. intros v. split; [now left|].
        intros [H | (text & m & [] & _)]. exact H. }
    destruct Hs as [H1 H2]. destruct (IH _ H1) as [H3 H4].
    split; [exact H3|]. intros v. rewrite H4, H2.
    change (s :: sheets) with ([s] ++ sheets). unfold mediaTexts.
    rewrite flat_map_app. fold (mediaTexts [s]). fold (mediaTexts sheets).
    split.
    + intros [[H | (text & m & Ht & Hm)] | (text & m & Ht & Hm)].
      * now left.
      * right. exists text, m. split; [apply in_or_app; now left | exact Hm].
      * right. exists text, m. split; [apply in_or_app; now right | exact Hm].
    + intros [H | (text & m & Ht & Hm)]; [left; now left|].
      apply in_app_or in Ht as [Ht | Ht].
      * left. right. now exists text, m.
      * right. now exists text, m.
Qed.

Lemma insert_map {A B} (f : A -> B) (after : A -> A -> bool)
  (after' : B -> B -> bool) (x : A) (l : list A) :
  (forall a b, after' (f a) (f b) = after a b) ->
  insert after' (f x) (map f l) = map f (insert after x l).
Proof.
  intros H. induction l as [|y l IH]; [reflexivity|]. cbn [map insert].
  rewrite H. destruct (after x y); [|reflexivity]. cbn [map]. now rewrite IH.
Qed.

Lemma sort_map {A B} (f : A -> B) (after : A -> A -> bool)
  (after' : B -> B -> bool) (l : list A) :
  (forall a b, after' (f a) (f b) = after a b) ->
  sort after' (map f l) = map f (sort after l).
Proof.
  intros H. induction l as [|x l IH]; [reflexivity|]. cbn [map sort].
  rewrite IH. now apply insert_map.
Qed.

Lemma sorted_strict (l : list Z) :
  StronglySorted Z.le l -> NoDup l -> StronglySorted Z.lt l.
Proof.
  induction 1 as [|x l Hs IH Hx]; intros Hn; [constructor|].
  apply NoDup_cons_iff in Hn as [Hin Hn]. constructor; [now apply IH|].
  rewrite Forall_forall in *. intros y Hy. specialize (Hx y Hy).
  assert (x <> y) by (intros ->; contradiction). lia.
Qed.

(** Property X27: the breakpoints [extractBreakpoints] reports.  They are
    numbers followed by [px], in ascending order and none twice; and a
    number is reported exactly when a media text of a rule that can be read
    has a run of digits with that value which no digit precedes and [px]
    follows, in these letters. *)
Theorem extractBreakpoints_runs (styleSheets : list sheet) :
  exists ns,
    extractBreakpoints styleSheets = map (fun n => toString10 n ++ lit "px") ns /\
    StronglySorted Z.lt ns /\
    forall n, In n ns <->
      exists text d, In text (mediaTexts styleSheets) /\ pxRun text d /\
                     n = parseInt d.
Proof.
  destruct (@visitSheets_spec styleSheets [] (NoDup_nil _)) as [Hn Hin].
  unfold extractBreakpoints. set (found := fold_left visitSheet styleSheets []) in *.
  assert (Hv : forall v, In v found <->
            exists text d, In text (mediaTexts styleSheets) /\ pxRun text d /\
                           v = Some (parseInt d)).
  { intros v. rewrite Hin. split.
    - intros [[] | (text & m & Ht & Hm & ->)].
      apply (@matchesFrom_runs (List.length text) text [] (Nat.le_refl _)
               (or_introl eq_refl)) in Hm.
      destruct Hm as (a & d & -> & Hr). exists text, d.
      split; [exact Ht|]. split; [now exists a|].
      destruct Hr as (post & _ & Hd & _). now apply parseIntOf_px.
    - intros (text & d & Ht & (a & Hr) & ->). right.
      exists text, (d ++ lit "px"). split; [exact Ht|]. split.
      + apply (@matchesFrom_runs (List.length text) text [] (Nat.le_refl _)
                 (or_introl eq_refl)).
        now exists a, d.
      + destruct Hr as (post & _ & Hd & _). symmetry. now apply parseIntOf_px. }
  set (number := fun v : option Z => match v with Some n => n | None => 0%Z end).
  assert (Ef : found = map Some (map number found)).
  { rewrite map_map. rewrite <- (map_id found) at 1. apply map_ext_in.
    intros v Hvin. apply Hv in Hvin as (_ & d & _ & _ & ->). reflexivity. }
  set (zs := map number found) in *.
  exists (sort (fun x y => (0 <? x - y)%Z) zs).
  assert (Hzs : NoDup zs).
  { rewrite Ef in Hn. clear -Hn. induction zs as [|z zs IH]; [constructor|].
    cbn [map] in Hn. apply NoDup_cons_iff in Hn as [H1 H2].
    constructor; [|now apply IH]. intros H. apply H1. now apply in_map. }
  split; [|split].
  - rewrite Ef, (sort_map Some (fun x y => (0 <? x - y)%Z) ascending)
      by reflexivity.
    now rewrite map_map.
  - apply sorted_strict.
    + apply sort_ordered.
      * intros x y z H1 H2. lia.
      * intros x y H. apply Z.ltb_ge in H. lia.
      * intros x y H. apply Z.ltb_lt in H. lia.
    + rewrite <- (map_id (sort _ zs)). apply sort_NoDup. now rewrite map_id.
  - intros n. rewrite sort_In.
    assert (Hz : In n zs <-> In (Some n) found).
    { rewrite Ef, in_map_iff. split.
      - intros H. now exists n.
      - intros (z & [= ->] & H). exact H. }
    rewrite Hz, Hv. split.
    + intros (text & d & Ht & Hr & [= ->]). now exists text, d.
    + intros (text & d & Ht & Hr & ->). now exists text, d.
Qed.

End MediaQueries.

Section WalkOutputs.
Import JS Colors Spec Facts Notions Tokens Walk.

Lemma includes_nonempty (s p : str) : p <> [] -> includes s p = true -> s <> [].
Proof. intros Hp H ->. destruct p; [congruence | discriminate]. Qed.

Lemma existsb_value (gs : list gradient) (v : str) :
  existsb (fun g => str_eqb (value g) v) gs = arr_includes (map value gs) v.
Proof.
  unfold arr_includes. induction gs as [|g gs IH]; [reflexivity|].
  cbn [existsb map]. now rewrite IH, str_eqb_sym.
Qed.

Lemma visitGradient_cases (gs : list gradient) (x : element) :
  visitGradient gs x
  = if gradientful x && negb (arr_includes (map value gs) (backgroundImage x))
    then gs ++ [gradientOf (backgroundImage x)]
    else gs.
Proof.
  unfold visitGradient, gradientful. rewrite existsb_value.
  destruct (isHidden (computed x)); cbn [negb andb]; [reflexivity|].
  destruct (includes (backgroundImage x) "gradient") eqn:Ei; cbn [andb];
    [|now rewrite andb_false_r].
  rewrite truthy_string.
  assert (Hne : str_eqb (backgroundImage x) "" = false).
  { apply str_eqb_false. now apply (@includes_nonempty _ (lit "gradient")). }
  rewrite Hne. cbn [negb andb]. reflexivity.
Qed.

(** [gradients] after the elements [els]. *)
Lemma visitGradient_fold (els : list element) :
  fold_left visitGradient els []
  = map gradientOf (firstSeen (map backgroundImage (filter gradientful els))).
Proof.
  induction els as [|x els IH] using rev_ind; [reflexivity|].
  rewrite fold_left_app, filter_app, map_app. cbn [fold_left filter].
  rewrite IH, visitGradient_cases. clear IH.
  set (seen := firstSeen (map backgroundImage (filter gradientful els))).
  rewrite map_map.
  assert (Em : map (fun v => value (gradientOf v)) seen = seen)
    by (rewrite <- (map_id seen) at 2; now apply map_ext).
  rewrite Em. destruct (gradientful x); cbn [andb map].
  - rewrite firstSeen_snoc. fold seen.
    destruct (arr_includes seen (backgroundImage x)); cbn [negb]; [reflexivity|].
    now rewrite map_app.
  - now rewrite app_nil_r.
Qed.

Lemma extractGradientColors_pieces (v : str) :
  Forall (fun c => (exists pre post, v = pre ++ c ++ post) /\
                   c <> lit "rgba(0, 0, 0, 0)" /\ c <> lit "transparent")
    (extractGradientColors v).
Proof.
  unfold extractGradientColors, matchAll. apply Forall_forall. intros c Hc.
  apply filter_In in Hc as [Hc Hf]. apply andb_true_iff in Hf as [H1 H2].
  apply negb_true_iff in H1, H2.
  split; [|split; intros ->; [now rewrite str_eqb_refl in H1
                             | now rewrite str_eqb_refl in H2]].
  pose proof (matchesFrom_pieces colorRegex v 0) as Hp.
  rewrite Forall_forall in Hp. apply Hp.
  destruct (matchesFrom colorRegex v 0); [destruct Hc | exact Hc].
Qed.

(** Property X28: the gradients [extractColors] reports.  They are the first
    ten distinct background images, in the order of the page, of the
    elements that are not hidden and whose background image has the word
    [gradient] and a colour token that is kept; each comes with its colour
    tokens, which are pieces of the image and never [transparent] or
    [rgba(0, 0, 0, 0)], and with its type. *)
Theorem gradients_first_of_each (els : list element) :
  gradients els
  = map gradientOf
      (firstn 10 (firstSeen (map backgroundImage (filter gradientful els)))) /\
  NoDup (map value (gradients els)) /\
  Forall (fun g =>
            (exists el, In el els /\ gradientful el = true /\
                        backgroundImage el = value g) /\
            colors g <> [] /\
            Forall (fun c => (exists pre post, value g = pre ++ c ++ post) /\
                             c <> lit "rgba(0, 0, 0, 0)" /\ c <> lit "transparent")
                   (colors g))
         (gradients els).
Proof.
  assert (E : gradients els
              = map gradientOf
                  (firstn 10 (firstSeen (map backgroundImage
                                           (filter gradientful els)))))
    by (unfold gradients; now rewrite visitGradient_fold, firstn_map).
  set (values := firstn 10 (firstSeen (map backgroundImage (filter gradientful els))))
    in *.
  assert (Em : map value (map gradientOf values) = values)
    by (rewrite map_map; rewrite <- (map_id values) at 2; now apply map_ext).
  split; [exact E|]. rewrite E. split.
  - rewrite Em. apply firstn_NoDup, firstSeen_NoDup.
  - apply Forall_forall. intros g Hg. apply in_map_iff in Hg as (v & <- & Hv).
    cbn [gradientOf value colors].
    assert (Hs : In v (firstSeen (map backgroundImage (filter gradientful els)))).
    { unfold values in Hv.
      rewrite <- (firstn_skipn 10 (firstSeen _)). apply in_or_app. now left. }
    apply firstSeen_In, in_map_iff in Hs as (el & <- & Hel).
    apply filter_In in Hel as [Hel Hg]. split; [now exists el|].
    split; [|apply extractGradientColors_pieces].
    unfold gradientful in Hg. apply andb_true_iff in Hg as [_ Hg].
    apply Nat.ltb_lt in Hg. intros E0. rewrite E0 in Hg. cbn in Hg. lia.
Qed.

Lemma find_snoc {A} (p : A -> bool) (l : list A) (x : A) :
  lastOf p (l ++ [x]) = if p x then Some x else lastOf p l.
Proof. unfold lastOf. rewrite rev_app_distr. reflexivity. Qed.

Lemma visitSemantic_fold (els : list element) (start : semantic) :
  fold_left visitSemantic els start
  = mkSemantic
      match lastOf setsPrimary els with
      | Some el => Some (primaryOf el)
      | None => primary start
      end
      match lastOf setsSecondary els with
      | Some el => Some (backgroundColor el)
      | None => secondary start
      end.
Proof.
  induction els as [|x els IH] using rev_ind; [now destruct start|].
  rewrite fold_left_app, !find_snoc. cbn [fold_left]. rewrite IH. clear IH.
  unfold visitSemantic, setsPrimary, setsSecondary, primaryOf.
  destruct (isHidden (computed x)); cbn [negb andb]; [reflexivity|].
  destruct (includes (contextOf x) "primary" || matchesPrimary x);
    destruct (includes (contextOf x) "secondary"); reflexivity.
Qed.

(** Property X29: the semantic colours [extractColors] reports.  The primary
    colour is set by the last element of the page that is not hidden and has
    [primary] in its context or in its class: it is the background of that
    element, or its text colour when the background is transparent.  The
    secondary colour is the background, whatever it is, of the last such
    element with [secondary] in its context.  And the colours after the
    merge of the dark mode are those of the two walks, one after the
    other. *)
Theorem semanticColors_last_wins (els darkEls : list element) :
  primary (semanticColors els) = option_map primaryOf (lastOf setsPrimary els) /\
  secondary (semanticColors els)
    = option_map backgroundColor (lastOf setsSecondary els) /\
  Modes.assign (semanticColors els) (semanticColors darkEls)
    = semanticColors (els ++ darkEls).
Proof.
  unfold semanticColors. rewrite fold_left_app, !visitSemantic_fold.
  cbn [primary secondary]. split; [|split].
  - now destruct (lastOf setsPrimary els).
  - now destruct (lastOf setsSecondary els).
  - unfold Modes.assign. cbn [primary secondary].
    destruct (lastOf setsPrimary darkEls), (lastOf setsSecondary darkEls);
      reflexivity.
Qed.

End WalkOutputs.

Section CollectedVariables.
Import JS Colors Spec Facts Notions Tokens Variables.

Lemma has_keys (all : list (str * found)) (prop : str) :
  has all prop = true <-> In prop (map fst all).
Proof.
  unfold has. rewrite existsb_exists, in_map_iff. split.
  - intros (e & He & E). apply str_eqb_eq in E. now exists e.
  - intros (e & E & He). exists e. split; [exact He | now apply str_eqb_eq].
Qed.

Lemma firstValue_app (decls more : list (str * str)) (prop v : str) :
  firstValue decls prop v -> firstValue (decls ++ more) prop v.
Proof.
  intros (before & raw & after & -> & H). exists before, raw, (after ++ more).
  split; [|exact H]. now rewrite <- app_assoc.
Qed.

Lemma collect_keeps (source : str) (all : list (str * found))
  (decls : list (str * str)) (property : str * str) :
  collected all decls -> collected (collect source all property) (decls ++ [property]).
Proof.
  intros (Hn & Hs & Hc). destruct property as [prop raw]. cbn [collect].
  assert (Hold : forall p f, In (p, f) all ->
            startsWith p "--" = true /\ firstValue (decls ++ [(prop, raw)]) p (value f)).
  { intros p f Hin. destruct (Hs _ _ Hin) as [H1 H2].
    split; [exact H1 | now apply firstValue_app]. }
  destruct (startsWith prop "--") eqn:Ep.
  - rewrite truthy_string.
    destruct (str_eqb (trim raw) "") eqn:Et; cbn [negb andb].
    + apply str_eqb_eq in Et. split; [exact Hn|]. split; [exact Hold|].
      intros p r Hin Hp Hr. apply in_app_or in Hin as [Hin | [[= -> ->] | []]].
      * now apply (Hc p r).
      * contradiction.
    + assert (Hne : trim raw <> []) by (intros E; rewrite E in Et; discriminate).
      destruct (has all prop) eqn:Eh; cbn [negb].
      * split; [exact Hn|]. split; [exact Hold|].
        intros p r Hin Hp Hr. apply in_app_or in Hin as [Hin | [[= -> ->] | []]].
        -- now apply (Hc p r).
        -- exact Eh.
      * assert (Hnew : ~ In prop (map fst all)).
        { intros Hin. apply has_keys in Hin. congruence. }
        split; [|split].
        -- rewrite map_app. cbn [map fst].
           apply NoDup_app; [exact Hn | repeat constructor; intros [] |].
           intros y Hy [<- | []]. contradiction.
        -- intros p f Hin. apply in_app_or in Hin as [Hin | [[= <- <-] | []]].
           ++ now apply Hold.
           ++ split; [exact Ep|]. cbn [value]. exists decls, raw, [].
              repeat split; try assumption.
              intros raw' Hin.
              destruct (list_eq_dec ascii_dec (trim raw') []) as [E | E];
                [exact E|].
              pose proof (Hc _ _ Hin Ep E). congruence.
        -- intros p r Hin Hp Hr. unfold has. rewrite existsb_app.
           apply orb_true_iff.
           apply in_app_or in Hin as [Hin | [[= -> ->] | []]].
           ++ left. now apply (Hc p r).
           ++ right. cbn [existsb fst]. now rewrite str_eqb_refl.
  - split; [exact Hn|]. split; [exact Hold|].
    intros p r Hin Hp Hr. apply in_app_or in Hin as [Hin | [[= -> ->] | []]].
    + now apply (Hc p r).
    + congruence.
Qed.

Lemma collectVars_keeps (source : str) (style : declaration)
  (all : list (str * found)) (decls : list (str * str)) :
  collected all decls -> collected (collectVars all style source) (decls ++ style).
Proof.
  unfold collectVars. revert all decls.
  induction style as [|property style IH]; intros all decls H; cbn [fold_left].
  - now rewrite app_nil_r.
  - change (property :: style) with ([property] ++ style). rewrite app_assoc.
    apply IH. now apply collect_keeps.
Qed.

Lemma scanRules_keeps (rules : list (option declaration))
  (all : list (str * found)) (decls : list (str * str)) :
  collected all decls ->
  collected (fold_left scanRule rules all)
    (decls ++ flat_map (fun r : option declaration =>
                          match r with
                          | Some style => style
                          | None => []
                          end) rules).
Proof.
  revert all decls. induction rules as [|r rules IH]; intros all decls H;
    cbn [fold_left flat_map].
  - now rewrite app_nil_r.
  - rewrite app_assoc. apply IH. destruct r as [style|]; cbn [scanRule].
    + now apply collectVars_keeps.
    + now rewrite app_nil_r.
Qed.

Lemma scanSheets_keeps (sheets : list sheet)
  (all : list (str * found)) (decls : list (str * str)) :
  collected all decls ->
  collected (fold_left scanSheet sheets all)
    (decls ++ declarations [] [] sheets).
Proof.
  unfold declarations. cbn [app]. revert all decls.
  induction sheets as [|s sheets IH]; intros all decls H; cbn [fold_left flat_map].
  - now rewrite app_nil_r.
  - rewrite app_assoc. apply IH. destruct s as [rules|]; cbn [scanSheet].
    + now apply scanRules_keeps.
    + now rewrite app_nil_r.
Qed.

Lemma allCssVars_collected (styles bodyStyles : declaration) (sheets : list sheet) :
  collected (allCssVars styles bodyStyles sheets)
    (declarations styles bodyStyles sheets).
Proof.
  unfold allCssVars.
  assert (H0 : collected [] []).
  { split; [constructor|]. split; [intros ? ? [] | intros ? ? []]. }
  pose proof (collectVars_keeps "root" styles H0) as H1. cbn [app] in H1.
  pose proof (collectVars_keeps "body" bodyStyles H1) as H2.
  pose proof (scanSheets_keeps sheets H2) as H3.
  unfold declarations in *. cbn [app] in H3. now rewrite <- app_assoc in H3.
Qed.

(** A first declaration that is not blank exists when there is one that is
    not blank. *)
Lemma firstValue_exists (decls : list (str * str)) (prop raw : str) :
  In (prop, raw) decls -> trim raw <> [] -> exists v, firstValue decls prop v.
Proof.
  revert raw. induction decls as [|[p r] decls IH] using rev_ind;
    intros raw; [intros []|].
  intros Hin Hne. apply in_app_or in Hin as [Hin | [[= -> ->] | []]].
  - destruct (IH _ Hin Hne) as (v & Hv). exists v. now apply firstValue_app.
  - destruct (existsb (fun d => str_eqb (fst d) prop && negb (str_eqb (trim (snd d)) ""))
                decls) eqn:E.
    + apply existsb_exists in E as ([p' r'] & Hin & H).
      apply andb_true_iff in H as [H1 H2]. apply str_eqb_eq in H1.
      cbn [fst snd] in *. subst p'.
      assert (Hr : trim r' <> [])
        by (intros E'; rewrite E' in H2; discriminate).
      destruct (IH _ Hin Hr) as (v & Hv). exists v. now apply firstValue_app.
    + exists (trim raw), decls, raw, []. repeat split; try assumption.
      intros raw' Hin.
      destruct (list_eq_dec ascii_dec (trim raw') []) as [E' | E']; [exact E'|].
      assert (existsb (fun d => str_eqb (fst d) prop && negb (str_eqb (trim (snd d)) ""))
                decls = true); [|congruence].
      apply existsb_exists. exists (prop, raw'). split; [exact Hin|].
      cbn [fst snd]. rewrite str_eqb_refl. cbn [andb]. apply negb_true_iff.
      now apply str_eqb_false.
Qed.

Lemma firstValue_unique (decls : list (str * str)) (prop v1 v2 : str) :
  firstValue decls prop v1 -> firstValue decls prop v2 -> v1 = v2.
Proof.
  intros (b1 & r1 & a1 & E1 & -> & N1 & H1) (b2 & r2 & a2 & E2 & -> & N2 & H2).
  rewrite E1 in E2. apply app_eq_app in E2 as (t & [[Eb Ea] | [Eb Ea]]).
  - destruct t as [|x t].
    + cbn [app] in Ea. now injection Ea as ->.
    + cbn [app] in Ea. injection Ea as <- _. exfalso. apply N2, H1.
      rewrite Eb. apply in_or_app. right. now left.
  - destruct t as [|x t].
    + cbn [app] in Ea. now injection Ea as ->.
    + cbn [app] in Ea. injection Ea as <- _. exfalso. apply N1, H2.
      rewrite Eb. apply in_or_app. right. now left.
Qed.

Lemma letter_valid (c : ascii) (v : str) :
  Walk.isLetter c = true -> firstOf colorAtHead (c :: v) <> None.
Proof.
  intros Hc. unfold colorAtHead. cbn [firstOf].
  destruct (extent [Lit "#"; Between isHexDigit 3 8] (c :: v)); [discriminate|].
  destruct (extent [Lit "rgb"; Opt "a"; Lit "("] (c :: v)); [discriminate|].
  destruct (extent [Lit "hsl"; Opt "a"; Lit "("] (c :: v)); [discriminate|].
  rewrite extent_Plus. cbn [takeWhile]. rewrite Hc. cbn [List.length].
  rewrite (@longestFirst_top _ _ 1 _ (1 + List.length (takeWhile Walk.isLetter v) + 0)%nat);
    [discriminate|].
  reflexivity.
Qed.

Lemma other_invalid (c : ascii) (v : str) :
  Walk.isLetter c = false -> Ascii.eqb c "#" = false ->
  firstOf colorAtHead (c :: v) = None.
Proof.
  destruct c as [[] [] [] [] [] [] [] []]; intros H1 H2;
    vm_compute in H1, H2; first [discriminate H1 | discriminate H2 | reflexivity].
Qed.

Lemma filtered_among (vars : list (str * str)) (deduped : list Entry.t)
  (prop v : str) :
  In (prop, v) (filteredCssVariables vars deduped) -> In (prop, v) vars.
Proof.
  destruct (cssVarsByColor_wellFormed vars deduped) as [_ Hw].
  unfold filteredCssVariables.
  set (groups := cssVarsByColor vars deduped) in *.
  set (step := fun (obj : list (str * str)) (kv : str * (str * list str)) => _).
  assert (H : forall l obj,
    (forall kv, In kv l -> In kv groups) ->
    (forall p x, In (p, x) obj -> In (p, x) vars) ->
    forall p x, In (p, x) (fold_left step l obj) -> In (p, x) vars).
  { induction l as [|[k [x0 names]] l IH]; intros obj Hl Hobj; cbn [fold_left];
      [exact Hobj|].
    apply IH; [intros kv Hkv; apply Hl; now right|].
    unfold step. destruct names as [|first rest]; [exact Hobj|].
    intros p x H0. apply setProp_In in H0 as [[-> ->] | H0]; [|now apply Hobj].
    assert (Hin : In (k, (x0, first :: rest)) groups) by (apply Hl; now left).
    rewrite Forall_forall in Hw. pose proof (Hw _ Hin) as Hk. cbn in Hk.
    destruct Hk as (_ & _ & _ & f & r & [= <- <-] & Hf). exact Hf. }
  apply (H groups [] (fun _ h => h)). intros ? ? [].
Qed.

(** Property X30: the CSS variables [extractColors] collects.  No name is
    collected twice; a name is collected with a value exactly when it begins
    with two hyphens, the value is what the first declaration of the name
    that is not blank gives (the root before the body, the body before the
    style sheets), none of the four exclusions applies, and the value passes
    [isValidColorValue] or has no parenthesis; the variables the analyzer
    reports are among those collected.  A value that begins with a letter
    and has none of [calc(], [clamp(], [var(] passes [isValidColorValue],
    whether it is a colour or not; one that begins with neither a letter nor
    [#] and has none of the three does not. *)
Theorem cssVariables_collected (domain : str) (styles bodyStyles : declaration)
  (styleSheets : list sheet) (elements : list Walk.element) :
  let decls := declarations styles bodyStyles styleSheets in
  let vars := cssVariables domain (allCssVars styles bodyStyles styleSheets) in
  NoDup (map fst vars) /\
  (forall prop v, In (prop, v) vars <->
     startsWith prop "--" = true /\ firstValue decls prop v /\
     skipped domain prop v = false /\
     (isValidColorValue v = true \/ includes v "(" = false)) /\
  (forall prop v,
     In (prop, v)
        (snd (extractColors domain styles bodyStyles styleSheets elements)) ->
     In (prop, v) vars) /\
  (forall c v, computedValue (c :: v) = false ->
     (Walk.isLetter c = true -> isValidColorValue (c :: v) = true) /\
     (Walk.isLetter c = false -> Ascii.eqb c "#" = false ->
      isValidColorValue (c :: v) = false)).
Proof.
  intros decls vars.
  destruct (allCssVars_collected styles bodyStyles styleSheets) as (Hn & Hs & Hc).
  fold decls in Hs, Hc. unfold vars, cssVariables.
  set (all := allCssVars styles bodyStyles styleSheets) in *.
  split; [|split; [|split]].
  - rewrite map_map. cbn [fst].
    change (fun x : str * found => fst x) with (@fst str found).
    now apply filter_NoDup_keys.
  - intros prop v. rewrite in_map_iff. split.
    + intros ([p f] & [= -> <-] & Hin). apply filter_In in Hin as [Hin Hf].
      cbn [fst snd] in Hf. apply andb_true_iff in Hf as [H1 H2].
      apply negb_true_iff in H1. destruct (Hs _ _ Hin) as [Hp Hv].
      repeat split; try assumption.
      apply orb_true_iff in H2 as [H2 | H2]; [now left | right].
      now apply negb_true_iff in H2.
    + intros (Hp & Hv & Hk & Hval).
      pose proof Hv as (before & raw & after & Ed & Ev & Hne & _).
      assert (Hin : In (prop, raw) decls)
        by (rewrite Ed; apply in_or_app; right; now left).
      assert (Hh : has all prop = true)
        by (apply (Hc prop raw Hin Hp); congruence).
      apply has_keys, in_map_iff in Hh as ([p f] & Ef & Hf). cbn [fst] in Ef.
      subst p. destruct (Hs _ _ Hf) as [_ Hv'].
      pose proof (firstValue_unique Hv' Hv) as Ef.
      exists (prop, f). cbn [fst snd]. split; [now rewrite Ef|].
      apply filter_In. split; [exact Hf|]. cbn [fst snd]. rewrite Ef, Hk.
      cbn [negb andb]. destruct Hval as [-> | ->]; [reflexivity|].
      cbn [negb]. apply orb_true_r.
  - intros prop v Hin. unfold extractColors, Walk.extractColors,
      Colors.extractColors in Hin. cbn [snd] in Hin.
    now apply filtered_among in Hin.
  - intros c v Hcv. unfold isValidColorValue. cbn [truthy negb].
    unfold computedValue in Hcv. rewrite Hcv. split.
    + intros Hl. pose proof (@letter_valid c v Hl) as Hf.
      now destruct (firstOf colorAtHead (c :: v)).
    + intros Hl Hh. now rewrite (@other_invalid c v Hl Hh).
Qed.

End CollectedVariables.

Section ExactChannels.
Import JS Regex Colors Spec Facts.

Lemma longestFirst_found {A} (f : nat -> option A) (lo extra : nat) (a : A) :
  longestFirst f lo extra = Some a ->
  exists n, (lo <= n <= lo + extra)%nat /\ f n = Some a.
Proof.
  induction extra as [|e IH]; cbn [longestFirst].
  - intros H. exists lo. split; [lia | exact H].
  - destruct (f (lo + S e)%nat) eqn:E.
    + intros [= ->]. exists (lo + S e)%nat. split; [lia | exact E].
    + intros H. destruct (IH H) as (n & Hn & Hf). exists n. split; [lia | exact Hf].
Qed.

Lemma firstn_class (class : ascii -> bool) (s : str) (n : nat) :
  (n <= List.length (takeWhile class s))%nat ->
  forallb class (firstn n s) = true.
Proof.
  revert n. induction s as [|c s IH]; intros [|n]; cbn [takeWhile firstn forallb];
    try reflexivity.
  destruct (class c); cbn [List.length andb]; [|lia].
  intros H. apply IH. lia.
Qed.

(** The groups of a pattern whose classes hold digits only are runs of
    digits. *)
Lemma run_groups_digits (pattern : list atom) :
  Forall (fun a => match a with
                   | Group class | Pair class =>
                       forall c, class c = true -> isDigit c = true
                   | _ => True
                   end) pattern ->
  forall s groups m,
    run pattern s groups = Some m ->
    Forall (fun channel => forallb isDigit channel = true) groups ->
    Forall (fun channel => forallb isDigit channel = true) m.
Proof.
  induction 1 as [|a k Ha Hk IH]; intros s groups m; cbn [run].
  - intros [= <-] Hg. now apply Forall_rev.
  - destruct a as [p | c | class | class | class |].
    + destruct (startsWith s p); [apply IH | discriminate].
    + destruct s as [|x r]; [apply IH|].
      destruct (Ascii.eqb x c); [|apply IH].
      destruct (run k r groups) eqn:E; [|apply IH].
      intros [= <-]. now apply (IH r groups).
    + intros H Hg. apply longestFirst_found in H as (n & _ & H).
      now apply (IH _ _ _ H).
    + destruct (List.length (takeWhile class s)) as [|e] eqn:El; [discriminate|].
      intros H Hg. apply longestFirst_found in H as (n & Hn & H).
      apply (IH _ _ _ H). constructor; [|exact Hg].
      assert (Hc : forallb class (firstn n s) = true)
        by (apply firstn_class; lia).
      rewrite forallb_forall in *. intros c Hin. apply Ha. now apply Hc.
    + destruct s as [|x [|y r]]; try discriminate.
      destruct (class x && class y) eqn:E; [|discriminate].
      apply andb_true_iff in E as [Ex Ey]. intros H Hg.
      apply (IH _ _ _ H). constructor; [|exact Hg].
      cbn [forallb]. now rewrite (Ha _ Ex), (Ha _ Ey).
    + destruct s; [apply IH | discriminate].
Qed.

Lemma search_groups_digits (pattern : list atom) (s : str) (m : list str) :
  Forall (fun a => match a with
                   | Group class | Pair class =>
                       forall c, class c = true -> isDigit c = true
                   | _ => True
                   end) pattern ->
  search pattern s = Some m ->
  Forall (fun channel => forallb isDigit channel = true) m.
Proof.
  intros Hp. induction s as [|c s IH]; cbn [search].
  - destruct (run pattern [] []) eqn:E; [|discriminate].
    intros [= <-]. now apply (@run_groups_digits pattern Hp _ _ _ E).
  - destruct (run pattern (c :: s) []) eqn:E.
    + intros [= <-]. now apply (@run_groups_digits pattern Hp _ _ _ E).
    + exact IH.
Qed.

Lemma channels_digits (s : str) :
  Forall (fun channel => forallb isDigit channel = true) (channels s).
Proof.
  unfold channels.
  destruct (search rgbPattern s) as [m|] eqn:Ergb.
  { apply (@search_groups_digits rgbPattern s m); [|exact Ergb].
    unfold rgbPattern. repeat constructor; auto. }
  destruct (search hslPattern s) as [m|] eqn:Ehsl; [|constructor].
  apply (@search_groups_digits hslPattern s m); [|exact Ehsl].
  unfold hslPattern. repeat constructor; auto.
Qed.

Lemma parseInt_below (ds : str) :
  forallb isDigit ds = true ->
  (0 <= parseInt ds < 10 ^ Z.of_nat (List.length ds))%Z.
Proof.
  unfold parseInt. induction ds as [|c ds IH] using rev_ind; [cbn; lia|].
  rewrite forallb_app, fold_left_app, length_app. cbn [forallb fold_left List.length].
  intros H. apply andb_true_iff in H as [Hd Hc].
  apply andb_true_iff in Hc as [Hc _].
  specialize (IH Hd). pose proof (@digitVal_range c Hc) as Hv.
  replace (Z.of_nat (List.length ds + 1)) with (Z.of_nat (List.length ds) + 1)%Z
    by lia.
  rewrite Z.pow_add_r by lia. lia.
Qed.

(** Channels of at most fifteen digits are whole numbers below 2^53. *)
Lemma exactChannels_below (s : str) :
  exactChannels s = true ->
  Forall (fun channel => (0 <= parseInt channel < 2 ^ 53)%Z) (channels s).
Proof.
  unfold exactChannels. intros H. pose proof (channels_digits s) as Hd.
  rewrite Forall_forall in *. rewrite forallb_forall in H.
  intros ch Hin. specialize (H ch Hin). specialize (Hd ch Hin).
  apply Nat.leb_le in H. pose proof (@parseInt_below ch Hd) as Hb.
  assert (10 ^ Z.of_nat (List.length ch) <= 10 ^ 15)%Z
    by (apply Z.pow_le_mono_r; lia).
  assert (10 ^ 15 < 2 ^ 53)%Z by reflexivity. lia.
Qed.

(** Claim C7, as amended: on a settled colour string (one that the rgb or
    the hsl pattern matches, or whose lower-case form neither pattern
    matches) whose channels have at most fifteen digits, the channels are
    whole numbers below 2^53 and normalisation is idempotent; a normalised
    value, [#] followed by hexadecimal digits in lower case, is returned
    unchanged; and so is the value written from any three whole numbers,
    whatever the arithmetic on the channels came to. *)
Theorem normalizeColor_idempotent_settled (s x : str) :
  settled s = true -> exactChannels s = true -> hexValue x = true ->
  Forall (fun channel => (0 <= parseInt channel < 2 ^ 53)%Z) (channels s) /\
  normalizeColor (normalizeColor s) = normalizeColor s /\
  normalizeColor x = x /\
  (forall r g b : Z,
     normalizeColor ("#"%char :: hex2 r ++ hex2 g ++ hex2 b)
     = "#"%char :: hex2 r ++ hex2 g ++ hex2 b).
Proof.
  intros Hs He Hx. split; [now apply exactChannels_below|]. split; [|split].
  - unfold settled in Hs.
    destruct (search rgbPattern s) as [m|] eqn:Ergb.
    { apply normalizeColor_plain, normalizeColor_converted.
      left. congruence. }
    destruct (search hslPattern s) as [m|] eqn:Ehsl.
    { apply normalizeColor_plain, normalizeColor_converted.
      right. congruence. }
    simpl in Hs. apply andb_true_iff in Hs as [H1 H2].
    assert (E : normalizeColor s = toLowerCase s)
      by (unfold normalizeColor; now rewrite Ergb, Ehsl).
    rewrite E. unfold normalizeColor.
    destruct (search rgbPattern (toLowerCase s)); [discriminate H1|].
    destruct (search hslPattern (toLowerCase s)); [discriminate H2|].
    apply toLowerCase_idem.
  - now apply normalizeColor_plain, hexValue_plain.
  - intros r g b. apply normalizeColor_plain. cbn [forallb].
    now rewrite !forallb_app, !hex2_plain.
Qed.

Lemma normalizeColor_idempotent_settled_witness :
  Forall (fun channel => (0 <= parseInt channel < 2 ^ 53)%Z)
    (channels "hsl(210, 50%, 40%)") /\
  normalizeColor (normalizeColor "hsl(210, 50%, 40%)")
    = normalizeColor "hsl(210, 50%, 40%)" /\
  normalizeColor "#6366f1" = "#6366f1".
Proof.
  destruct (@normalizeColor_idempotent_settled "hsl(210, 50%, 40%)" "#6366f1")
    as (H1 & H2 & H3 & _); [reflexivity .. |].
  repeat split; assumption.
Defined.

End ExactChannels.

Section UnparseableColours.
Import JS Regex Colors Spec Facts Notions.

Lemma lookup_pushVar (m : list (str * (str * list str))) (n value prop k : str) :
  lookup (pushVar m n value prop) k
  = if str_eqb n k
    then Some match lookup m n with
              | Some (v, vars) => (v, vars ++ [prop])
              | None => (value, [prop])
              end
    else lookup m k.
Proof.
  induction m as [|[k0 [v vars]] m IH]; cbn [pushVar lookup]; [reflexivity|].
  destruct (str_eqb k0 n) eqn:E.
  - apply str_eqb_eq in E. subst k0. cbn [lookup]. now destruct (str_eqb n k).
  - cbn [lookup]. rewrite IH. destruct (str_eqb k0 k) eqn:E'; [|reflexivity].
    apply str_eqb_eq in E'. subst k0. now rewrite str_eqb_sym, E.
Qed.

Lemma hitsOf_snoc (deduped : list Entry.t) (k : str)
  (cssVariables : list (str * str)) (prop value : str) :
  hitsOf deduped k (cssVariables ++ [(prop, value)])
  = hitsOf deduped k cssVariables ++
    if accepted deduped value && str_eqb (normalizeColor value) k
    then [(prop, value)] else [].
Proof. unfold hitsOf. now rewrite filter_app. Qed.

(** The records of [cssVarsByColor]: one for each colour that has
    variables, with the value of the first of them and the names of all. *)
Lemma cssVarsByColor_records (cssVariables : list (str * str))
  (deduped : list Entry.t) :
  NoDup (map fst (cssVarsByColor cssVariables deduped)) /\
  forall k, lookup (cssVarsByColor cssVariables deduped) k
            = recordOf (hitsOf deduped k cssVariables).
Proof.
  destruct (cssVarsByColor_wellFormed cssVariables deduped) as [Hn _].
  split; [exact Hn|]. clear Hn. unfold cssVarsByColor.
  induction cssVariables as [|[prop value] l IH] using rev_ind; [reflexivity|].
  intros k. rewrite fold_left_app, hitsOf_snoc. cbn [fold_left].
  unfold accepted at 1.
  destruct (arr_includes (map Entry.normalized deduped) (normalizeColor value));
    cbn [negb andb]; [now rewrite app_nil_r|].
  destruct (isDuplicate (normalizeColor value) deduped); cbn [negb andb];
    [now rewrite app_nil_r|].
  rewrite lookup_pushVar, !IH.
  destruct (str_eqb (normalizeColor value) k) eqn:E; [|now rewrite app_nil_r].
  apply str_eqb_eq in E. subst k.
  destruct (hitsOf deduped (normalizeColor value) l) as [|[p0 v0] t];
    [reflexivity|].
  cbn [recordOf app map fst]. now rewrite map_app.
Qed.

Lemma recordOf_inv (hits : list (str * str)) (v : str) (names : list str) :
  recordOf hits = Some (v, names) ->
  exists p0 t, hits = (p0, v) :: t /\ names = p0 :: map fst t.
Proof.
  destruct hits as [|[p0 v0] t]; [discriminate|]. intros [= <- <-].
  now exists p0, t.
Qed.

Lemma setProp_sets (obj : list (str * str)) (key value : str) :
  In (key, value) (setProp obj key value).
Proof.
  induction obj as [|[k0 v0] obj IH]; cbn [setProp]; [now left|].
  destruct (str_eqb k0 key) eqn:E.
  - apply str_eqb_eq in E. subst k0. now left.
  - now right.
Qed.

Lemma setProp_keeps (obj : list (str * str)) (key value p v : str) :
  key <> p -> In (p, v) obj -> In (p, v) (setProp obj key value).
Proof.
  intros Hne. induction obj as [|[k0 v0] obj IH]; cbn [setProp]; [intros []|].
  destruct (str_eqb k0 key) eqn:E.
  - apply str_eqb_eq in E. subst k0. intros [[= -> ->] | H]; [congruence|].
    now right.
  - intros [H | H]; [now left | right; now apply IH].
Qed.

(** The variables that are reported: for each colour that has variables,
    the first of them, with its value. *)
Lemma filteredCssVariables_firsts (cssVariables : list (str * str))
  (deduped : list Entry.t) :
  NoDup (map fst cssVariables) ->
  forall p v,
    In (p, v) (filteredCssVariables cssVariables deduped) <->
    exists k t, hitsOf deduped k cssVariables = (p, v) :: t.
Proof.
  intros Hnames p v.
  destruct (cssVarsByColor_records cssVariables deduped) as [Hn Hl].
  unfold filteredCssVariables.
  set (groups := cssVarsByColor cssVariables deduped) in *.
  set (step := fun (obj : list (str * str)) (kv : str * (str * list str)) => _).
  assert (Hg : forall k x names, In (k, (x, names)) groups ->
            exists p0 t, hitsOf deduped k cssVariables = (p0, x) :: t /\
                         names = p0 :: map fst t).
  { intros k x names Hin. apply (@lookup_In _ groups k (x, names) Hn) in Hin.
    rewrite Hl in Hin. now apply recordOf_inv. }
  split.
  - assert (H : forall l obj,
      (forall g, In g l -> In g groups) ->
      (forall p v, In (p, v) obj ->
         exists k t, hitsOf deduped k cssVariables = (p, v) :: t) ->
      forall p v, In (p, v) (fold_left step l obj) ->
        exists k t, hitsOf deduped k cssVariables = (p, v) :: t).
    { induction l as [|[k [x names]] l IH]; intros obj Hl' Hobj; cbn [fold_left];
        [exact Hobj|].
      apply IH; [intros g Hin; apply Hl'; now right|].
      unfold step. destruct names as [|first rest]; [exact Hobj|].
      intros p' v' H0. apply setProp_In in H0 as [[-> ->] | H0];
        [|now apply Hobj].
      destruct (Hg k x (first :: rest)) as (p0 & t & Eh & [= <- _]);
        [apply Hl'; now left|].
      now exists k, t. }
    apply (H groups [] (fun _ h => h)). intros ? ? [].
  - intros (k & t & Eh).
    assert (Hin : In (k, (v, p :: map fst t)) groups).
    { apply (@lookup_In _ groups k (v, p :: map fst t) Hn). now rewrite Hl, Eh. }
    assert (Hsame : forall k' x p' rest, In (k', (x, p' :: rest)) groups ->
              p' = p -> x = v).
    { intros k' x p' rest Hin' ->.
      destruct (Hg _ _ _ Hin') as (p0 & t' & Eh' & [= <- _]).
      assert (H1 : In (p, x) cssVariables).
      { assert (H : In (p, x) (hitsOf deduped k' cssVariables))
          by (rewrite Eh'; now left).
        now apply filter_In in H as [H _]. }
      assert (H2 : In (p, v) cssVariables).
      { assert (H : In (p, v) (hitsOf deduped k cssVariables))
          by (rewrite Eh; now left).
        now apply filter_In in H as [H _]. }
      exact (@NoDup_keys_functional _ _ cssVariables p x v Hnames H1 H2). }
    assert (H : forall l obj,
      (forall g, In g l -> In g groups) ->
      In (k, (v, p :: map fst t)) l \/ In (p, v) obj ->
      In (p, v) (fold_left step l obj)).
    { induction l as [|[k' [x names]] l IH]; intros obj Hl' Hor; cbn [fold_left].
      - destruct Hor as [[] | H]. exact H.
      - apply IH; [intros g Hg'; apply Hl'; now right|].
        destruct Hor as [[[= -> -> ->] | Hor] | Hor].
        + right. unfold step. apply setProp_sets.
        + now left.
        + right. unfold step. destruct names as [|first rest]; [exact Hor|].
          destruct (list_eq_dec ascii_dec first p) as [-> | Hne].
          * assert (x = v) by (apply (Hsame k' x p rest); [apply Hl'; now left | reflexivity]).
            subst x. apply setProp_sets.
          * now apply setProp_keeps. }
    apply (H groups [] (fun _ h => h)). now left.
Qed.

Lemma filter_head {A} (f : A -> bool) (l : list A) (x : A) (t : list A) :
  filter f l = x :: t ->
  exists before after,
    l = before ++ x :: after /\ filter f before = [] /\ f x = true.
Proof.
  induction l as [|y l IH]; cbn [filter]; [discriminate|].
  destruct (f y) eqn:E.
  - intros [= -> <-]. now exists [], l.
  - intros H. destruct (IH H) as (before & after & -> & Hb & Hx).
    exists (y :: before), after. cbn [filter app]. now rewrite E.
Qed.

(** Claim C10, as amended: the distance to or from a colour that is no
    six-digit hex value (such as [red] or [#abc]) is 999, which is not below
    the merge threshold 15.  In the perceptual deduplication a palette entry
    with such a colour gathers no other entry, is never merged away, and is
    in the result.  A CSS variable with such a colour is never a duplicate
    by distance; among variables with distinct names it is reported, under
    its name and with its value, exactly when its normalised string is no
    normalised colour of the palette and it is the first variable whose
    value normalises to that string. *)
Theorem unparseable_never_merged
  (palette deduped : list Entry.t) (j : nat) (e : Entry.t)
  (cssVariables : list (str * str)) (prop value : str) :
  nth_error palette j = Some e ->
  hexToRgb (Entry.normalized e) = None ->
  NoDup (map fst cssVariables) ->
  hexToRgb (normalizeColor value) = None ->
  hexToRgb "red" = None /\ hexToRgb "#abc" = None /\
  (forall other,
     deltaE (Entry.normalized e) other = Const 999 /\
     deltaE other (Entry.normalized e) = Const 999) /\
  below (Const 999) 15 = false /\
  (forall idxs merged,
     fold_left (scan palette e) idxs ([e], merged) = ([e], merged)) /\
  has (mergedIndices palette) j = false /\
  In e (perceptuallyDeduped palette) /\
  isDuplicate (normalizeColor value) deduped = false /\
  (In (prop, value) (filteredCssVariables cssVariables deduped) <->
   arr_includes (map Entry.normalized deduped) (normalizeColor value) = false /\
   firstOfColour cssVariables prop value).
Proof.
  intros Hj He Hnames Hv.
  split; [reflexivity|]. split; [reflexivity|].
  split; [intros other; split;
          [now apply deltaE_unparseable_l | now apply deltaE_unparseable_r]|].
  split; [reflexivity|].
  split; [intros idxs merged; now apply scan_fold_unparseable|].
  destruct (@forEach_survives palette j e Hj He palette 0%nat ([], []))
    as [H1 H2]; [reflexivity | reflexivity | lia |].
  split; [exact H2|]. split; [exact H1|].
  pose proof (@isDuplicate_unparseable (normalizeColor value) deduped Hv) as Hd.
  split; [exact Hd|].
  rewrite (@filteredCssVariables_firsts cssVariables deduped Hnames). split.
  - intros (k & t & Eh). unfold hitsOf in Eh.
    apply filter_head in Eh as (before & after & -> & Hb & Hx).
    cbn [snd] in Hx. apply andb_true_iff in Hx as [Ha Hk].
    apply str_eqb_eq in Hk. subst k.
    unfold accepted in Ha. apply andb_true_iff in Ha as [Ha _].
    apply negb_true_iff in Ha. split; [exact Ha|].
    exists before, after. split; [reflexivity|].
    apply Forall_forall. intros pv Hin E.
    assert (Hf : In pv (filter (fun pv => accepted deduped (snd pv) &&
                                str_eqb (normalizeColor (snd pv))
                                        (normalizeColor value)) before)).
    { apply filter_In. split; [exact Hin|]. unfold accepted.
      rewrite E, Ha, Hd. cbn [negb andb]. apply str_eqb_refl. }
    rewrite Hb in Hf. destruct Hf.
  - intros (Ha & before & after & -> & Hb).
    exists (normalizeColor value), (hitsOf deduped (normalizeColor value) after).
    unfold hitsOf. rewrite filter_app. cbn [filter snd]. unfold accepted at 2.
    rewrite Ha, Hd, str_eqb_refl. cbn [negb andb].
    replace (filter _ before) with (@nil (str * str)); [reflexivity|].
    symmetry. clear Hnames.
    induction Hb as [|pv before Hpv Hb IH]; [reflexivity|].
    cbn [filter]. rewrite <- IH.
    assert (E : str_eqb (normalizeColor (snd pv)) (normalizeColor value) = false)
      by now apply str_eqb_false.
    now rewrite E, andb_false_r.
Qed.

Lemma unparseable_never_merged_witness :
  In Examples.red (perceptuallyDeduped Examples.samplePalette) /\
  isDuplicate (normalizeColor "red") [Examples.indigo] = false /\
  In (lit "--accent", lit "red")
     (filteredCssVariables Examples.sampleVariables [Examples.indigo]).
Proof.
  assert (Hn : NoDup (map fst Examples.sampleVariables)).
  { repeat constructor; cbn; intuition discriminate. }
  destruct (@unparseable_never_merged Examples.samplePalette [Examples.indigo]
              2 Examples.red Examples.sampleVariables "--accent" "red"
              eq_refl eq_refl Hn eq_refl)
    as (_ & _ & _ & _ & _ & _ & H1 & H2 & H3).
  split; [exact H1|]. split; [exact H2|]. apply H3. split; [reflexivity|].
  exists [], [(lit "--danger", lit "red")]. split; [reflexivity | constructor].
Defined.

(** Claim C10, as stated, fails for the variables: of two variables with the
    colour [red], which is no six-digit hex value, only the first is
    reported, and neither is when [red] is a colour of the palette.  These
    steps compare the normalised strings, not distances. *)
Lemma unparseable_variable_not_reported :
  hexToRgb (normalizeColor "red") = None /\
  In (lit "--danger", lit "red") Examples.sampleVariables /\
  filteredCssVariables Examples.sampleVariables [Examples.indigo]
    = [(lit "--accent", lit "red")] /\
  isDuplicate (normalizeColor "red") [Examples.red] = false /\
  filteredCssVariables Examples.sampleVariables [Examples.red] = [].
Proof. repeat split; vm_compute; auto. Qed.

End UnparseableColours.
